(** * IDE project generation (twitter/pants/tasks/ide_gen.py)

    A shallow embedding of the source-set resolver [Project.configure_jvm],
    of [Project.configure_python], of [SourceSet] with its class-level
    [TEST_BASES] set, and of the internal artifact staging
    [IdeGen.map_internal_jars], together with the properties of the
    specification that concern them.

    Conventions.
    - Python [str] is [string]; the functions of [os.path] (posixpath) are
      transcribed character by character in [Module PosixPath].
    - A Python [set] or [dict] that the code iterates is a list in iteration
      order; the order a hash table gives to a sequence of insertions is a
      field of [HashOrder].  A set that is only tested for membership is a
      list used through [mem].
    - An [OrderedSet] is a duplicate-free list in insertion order.
    - A call that can raise, or a loop that can run for ever, returns an
      [outcome]. *)

From Stdlib Require Import String Ascii List Bool Arith Lia.
Import ListNotations.
Open Scope string_scope.
Open Scope list_scope.

Infix "+:+" := String.append (at level 60, right associativity).

(** ** Strings *)

Definition is_sep (c : ascii) : bool := Ascii.eqb c "/"%char.

Definition mem (x : string) (l : list string) : bool :=
  existsb (String.eqb x) l.

Definition mem_nat (x : nat) (l : list nat) : bool :=
  existsb (Nat.eqb x) l.

(** [s.startswith('/')] *)
Definition startswith_sep (s : string) : bool :=
  match s with
  | String c _ => is_sep c
  | EmptyString => false
  end.

(** [s.endswith('/')] *)
Fixpoint endswith_sep (s : string) : bool :=
  match s with
  | EmptyString => false
  | String c EmptyString => is_sep c
  | String _ s' => endswith_sep s'
  end.

(** [s == '/' * len(s)] *)
Fixpoint all_sep (s : string) : bool :=
  match s with
  | EmptyString => true
  | String c s' => is_sep c && all_sep s'
  end.

(** ['/' in s] *)
Fixpoint has_sep (s : string) : bool :=
  match s with
  | EmptyString => false
  | String c s' => is_sep c || has_sep s'
  end.

(** [s.rstrip('/')] *)
Fixpoint rstrip_sep (s : string) : string :=
  match s with
  | EmptyString => EmptyString
  | String c s' =>
      match rstrip_sep s' with
      | EmptyString => if is_sep c then EmptyString else String c EmptyString
      | r => String c r
      end
  end.

(** [s[:s.rfind('/') + 1]]: the longest prefix of [s] that ends with a
    separator, empty when [s] has none. *)
Fixpoint upto_last_sep (s : string) : string :=
  match s with
  | EmptyString => EmptyString
  | String c s' =>
      if is_sep c then String c (upto_last_sep s')
      else match upto_last_sep s' with
           | EmptyString => EmptyString
           | r => String c r
           end
  end.

(** [s[s.rfind('/') + 1:]] *)
Fixpoint after_last_sep (s : string) : string :=
  match s with
  | EmptyString => EmptyString
  | String c s' =>
      if has_sep s' then after_last_sep s'
      else if is_sep c then s' else s
  end.

(** [s.split('/')] *)
Fixpoint str_split (s : string) : list string :=
  match s with
  | EmptyString => [EmptyString]
  | String c s' =>
      if is_sep c then EmptyString :: str_split s'
      else match str_split s' with
           | [] => [String c EmptyString]
           | w :: ws => String c w :: ws
           end
  end.

(** ['/'.join(l)] *)
Definition sep_join (l : list string) : string := String.concat "/" l.

Definition nonempty (s : string) : bool := negb (String.eqb s "").

(** ** os.path for POSIX *)

Module PosixPath.

(** [os.path.join(a, b)]; [join(a, b, c)] is [join (join a b) c]. *)
Definition join (a b : string) : string :=
  if startswith_sep b then b
  else if String.eqb a "" || endswith_sep a then a +:+ b
  else a +:+ "/" +:+ b.

(** [os.path.split(p)] *)
Definition split (p : string) : string * string :=
  let head := upto_last_sep p in
  let tail := after_last_sep p in
  if nonempty head && negb (all_sep head) then (rstrip_sep head, tail)
  else (head, tail).

(** [os.path.dirname(p)] *)
Definition dirname (p : string) : string := fst (split p).

Definition isabs (p : string) : bool := startswith_sep p.

(** The loop of [normpath] over the components. *)
Fixpoint norm_comps (initial_slashes : bool) (comps new_comps : list string)
  : list string :=
  match comps with
  | [] => new_comps
  | comp :: rest =>
      if String.eqb comp "" || String.eqb comp "." then
        norm_comps initial_slashes rest new_comps
      else if negb (String.eqb comp "..")
              || (negb initial_slashes && match new_comps with [] => true | _ => false end)
              || (match new_comps with [] => false | _ => String.eqb (last new_comps "") ".." end)
      then norm_comps initial_slashes rest (new_comps ++ [comp])
      else norm_comps initial_slashes rest (removelast new_comps)
  end.

(** [os.path.normpath(path)] *)
Definition normpath (path : string) : string :=
  if String.eqb path "" then "."
  else
    let initial_slashes := startswith_sep path in
    let two :=
      initial_slashes && String.prefix "//" path && negb (String.prefix "///" path) in
    let comps := norm_comps initial_slashes (str_split path) [] in
    let body := sep_join comps in
    let path' :=
      if initial_slashes then (if two then "//" else "/") +:+ body else body in
    if String.eqb path' "" then "." else path'.

(** [os.path.abspath(path)], with [cwd] the value of [os.getcwd()]. *)
Definition abspath (cwd path : string) : string :=
  normpath (if isabs path then path else join cwd path).

(** [[x for x in abspath(p).split('/') if x]] *)
Definition abs_components (cwd p : string) : list string :=
  filter nonempty (str_split (abspath cwd p)).

(** [len(os.path.commonprefix([l1, l2]))] for two component lists. *)
Fixpoint common_prefix_len (l1 l2 : list string) : nat :=
  match l1, l2 with
  | x :: l1', y :: l2' =>
      if String.eqb x y then S (common_prefix_len l1' l2') else 0
  | _, _ => 0
  end.

(** [os.path.join] applied to the elements of a non-empty [l]. *)
Definition join_all (l : list string) : string :=
  match l with
  | [] => ""
  | x :: l' => fold_left join l' x
  end.

(** [os.path.relpath(path, start)]; [None] is the [ValueError] raised for
    an empty [path]. *)
Definition relpath (cwd path start : string) : option string :=
  if String.eqb path "" then None
  else
    let start_list := abs_components cwd start in
    let path_list := abs_components cwd path in
    let i := common_prefix_len start_list path_list in
    let rel_list :=
      repeat ".." (List.length start_list - i) ++ skipn i path_list in
    match rel_list with
    | [] => Some "."
    | _ => Some (join_all rel_list)
    end.

End PosixPath.

(** ** Outcomes of calls *)

Inductive exn : Type :=
| TaskError (msg : string)
| IOError
| OSError
| ValueError
| AttributeError.

Inductive outcome (A : Type) : Type :=
| Returns (a : A)
| Raises (e : exn)
| OutOfFuel.
Arguments Returns {A} a.
Arguments Raises {A} e.
Arguments OutOfFuel {A}.

Definition bind {A B : Type} (m : outcome A) (k : A -> outcome B) : outcome B :=
  match m with
  | Returns a => k a
  | Raises e => Raises e
  | OutOfFuel => OutOfFuel
  end.

Notation "x <- m ;; k" := (bind m (fun x => k))
  (at level 61, m at next level, right associativity).

(** [for x in l: st = body(x, st)], stopping at the first call that does not
    return. *)
Fixpoint for_each {A S : Type} (body : A -> S -> outcome S) (l : list A) (st : S)
  : outcome S :=
  match l with
  | [] => Returns st
  | x :: l' => st' <- body x st ;; for_each body l' st'
  end.

(** ** Hashed containers *)

(** The order in which a [set] of strings, and the keys of a [dict] keyed by
    strings, are iterated after a given sequence of insertions. *)
Record HashOrder : Type := {
  set_iter : list string -> list string;
  set_iter_In : forall l x, In x (set_iter l) <-> In x l;
  set_iter_NoDup : forall l, NoDup (set_iter l);
  dict_iter : list string -> list string;
  dict_iter_In : forall l x, In x (dict_iter l) <-> In x l;
  dict_iter_NoDup : forall l, NoDup (dict_iter l)
}.

(** A set that is only tested for membership. *)
Definition set_add (x : string) (s : list string) : list string :=
  if mem x s then s else s ++ [x].

(** [OrderedSet.add] *)
Definition oset_add (x : nat) (s : list nat) : list nat :=
  if mem_nat x s then s else s ++ [x].

(** [OrderedSet(l)] and [s.update(l)] *)
Definition oset_update (s l : list nat) : list nat :=
  fold_left (fun acc x => oset_add x acc) l s.

Definition OrderedSet (l : list nat) : list nat := oset_update [] l.

(** ** The filesystem snapshot *)

#[local] Set Warnings "-register-all".
Inductive FsNode : Type :=
| FsFile
| FsDir (entries : list (string * FsNode)).

Definition is_dir (n : FsNode) : bool :=
  match n with FsDir _ => true | FsFile => false end.

Fixpoint find_entry (name : string) (es : list (string * FsNode)) : option FsNode :=
  match es with
  | [] => None
  | (n, child) :: es' => if String.eqb n name then Some child else find_entry name es'
  end.

Fixpoint fs_lookup (n : FsNode) (comps : list string) : option FsNode :=
  match comps with
  | [] => Some n
  | c :: cs =>
      match n with
      | FsFile => None
      | FsDir es =>
          match find_entry c es with
          | Some child => fs_lookup child cs
          | None => None
          end
      end
  end.

(** The triples [(root, dirs, _)] that [os.walk(top)] yields, top down, for
    the node found at [top]. *)
Fixpoint os_walk_dir (top : string) (n : FsNode) : list (string * list string) :=
  match n with
  | FsFile => []
  | FsDir entries =>
      (top, map fst (filter (fun e => is_dir (snd e)) entries))
      :: flat_map (fun e => let '(name, child) := e in
                            os_walk_dir (PosixPath.join top name) child) entries
  end.

(** ** Targets of the build graph *)

Record Resources : Type := {
  r_target_base : string;
  r_sources : list string
}.

(** What this module reads of a target.  Targets are named by their
    address; [t_sources] is empty when the target declares none. *)
Record Target : Type := {
  t_target_base : string;
  t_sources : list string;
  t_has_sources : bool;           (* target.has_sources() *)
  t_has_scala_sources : bool;     (* target.has_sources('.scala') *)
  t_has_java_sources : bool;      (* target.has_sources('.java') *)
  t_is_scala : bool;
  t_is_java : bool;
  t_is_codegen : bool;
  t_is_test : bool;
  t_has_resources : bool;
  t_resources : list Resources;
  t_dependencies : list nat
}.

Definition is_scala (target : Target) : bool :=
  t_has_scala_sources target || t_is_scala target.

Definition is_java (target : Target) : bool :=
  t_has_java_sources target || t_is_java target.

(** The collaborators of the resolver. *)
Record World : Type := {
  cwd : string;                         (* os.getcwd() *)
  fs : FsNode;                          (* the directory "/" *)
  get_buildroot : string;
  Target_get : nat -> Target;           (* Target.get(address) *)
  (* the addresses of the target's BUILD file, of its ancestors, siblings
     and descendants, in the order the candidate set is iterated *)
  candidates : nat -> list nat;
  order : HashOrder
}.

Definition os_walk (W : World) (top : string) : list (string * list string) :=
  if String.eqb top "" then []
  else match fs_lookup (fs W) (PosixPath.abs_components (cwd W) top) with
       | Some n => os_walk_dir top n
       | None => []
       end.

(** ** SourceSet *)

Record SourceSet : Type := {
  ss_root_dir : string;
  ss_source_base : string;
  ss_path : option string;
  ss_is_test : bool;
  ss_excludes : list string
}.

(** [SourceSet.__init__]: the new object and the class-level set
    [SourceSet.TEST_BASES] after the call. *)
Definition SourceSet_init (TEST_BASES : list string)
    (root_dir source_base : string) (path : option string) (is_test : bool)
  : SourceSet * list string :=
  ({| ss_root_dir := root_dir; ss_source_base := source_base; ss_path := path;
      ss_is_test := is_test; ss_excludes := [] |},
   if is_test then set_add source_base TEST_BASES else TEST_BASES).

Definition excludes_append (ss : SourceSet) (l : list string) : SourceSet :=
  {| ss_root_dir := ss_root_dir ss; ss_source_base := ss_source_base ss;
     ss_path := ss_path ss; ss_is_test := ss_is_test ss;
     ss_excludes := ss_excludes ss ++ l |}.

(** The identity key of the data model. *)
Definition ss_key (ss : SourceSet) : string * option string :=
  (ss_source_base ss, ss_path ss).

(** ** Project *)

Record Project : Type := {
  root_dir : string;
  targets : list nat;
  transitive : bool;
  sources : list SourceSet;
  py_sources : list SourceSet;
  py_libs : list SourceSet;
  has_python : bool;
  skip_java : bool;
  skip_scala : bool;
  has_scala : bool;
  has_tests : bool
}.

(** [Project.__init__]; the name, the checkstyle files, the debug port, the
    classpaths and the resource extensions play no part below. *)
Definition Project_init (has_python skip_java skip_scala : bool) (root_dir : string)
    (targets : list nat) (transitive : bool) : Project :=
  {| root_dir := root_dir; targets := OrderedSet targets; transitive := transitive;
     sources := []; py_sources := []; py_libs := [];
     has_python := has_python; skip_java := skip_java; skip_scala := skip_scala;
     has_scala := false; has_tests := false |}.

Definition set_sources (p : Project) (l : list SourceSet) : Project :=
  {| root_dir := root_dir p; targets := targets p; transitive := transitive p;
     sources := l; py_sources := py_sources p; py_libs := py_libs p;
     has_python := has_python p; skip_java := skip_java p; skip_scala := skip_scala p;
     has_scala := has_scala p; has_tests := has_tests p |}.

Definition set_py_sources (p : Project) (l : list SourceSet) : Project :=
  {| root_dir := root_dir p; targets := targets p; transitive := transitive p;
     sources := sources p; py_sources := l; py_libs := py_libs p;
     has_python := has_python p; skip_java := skip_java p; skip_scala := skip_scala p;
     has_scala := has_scala p; has_tests := has_tests p |}.

Definition set_py_libs (p : Project) (l : list SourceSet) : Project :=
  {| root_dir := root_dir p; targets := targets p; transitive := transitive p;
     sources := sources p; py_sources := py_sources p; py_libs := l;
     has_python := has_python p; skip_java := skip_java p; skip_scala := skip_scala p;
     has_scala := has_scala p; has_tests := has_tests p |}.

Definition set_has_scala (p : Project) (b : bool) : Project :=
  {| root_dir := root_dir p; targets := targets p; transitive := transitive p;
     sources := sources p; py_sources := py_sources p; py_libs := py_libs p;
     has_python := has_python p; skip_java := skip_java p; skip_scala := skip_scala p;
     has_scala := b; has_tests := has_tests p |}.

Definition set_has_tests (p : Project) (b : bool) : Project :=
  {| root_dir := root_dir p; targets := targets p; transitive := transitive p;
     sources := sources p; py_sources := py_sources p; py_libs := py_libs p;
     has_python := has_python p; skip_java := skip_java p; skip_scala := skip_scala p;
     has_scala := has_scala p; has_tests := b |}.

(** ** Walking the target graph *)

(** Modelled from the spec: [Target.walk(work, predicate)], which is not in
    this module.  Every target is visited once per walk; [work] is applied to
    a visited target that satisfies [predicate]; the walk then goes on
    through the dependencies of the target whatever [predicate] says, and
    through the targets [work] returned.  [fuel] bounds the depth of the
    recursion. *)
Fixpoint walk {S : Type} (fuel : nat) (dependencies : nat -> list nat)
    (work : nat -> S -> S * list nat) (predicate : nat -> bool)
    (target : nat) (ws : list nat * S) : outcome (list nat * S) :=
  match fuel with
  | 0 => OutOfFuel
  | Datatypes.S fuel' =>
      let (walked, st) := ws in
      if mem_nat target walked then Returns ws
      else
        let walked' := walked ++ [target] in
        let (st', additional_targets) :=
          if predicate target then work target st else (st, []) in
        for_each (walk fuel' dependencies work predicate)
                 (dependencies target ++ additional_targets) (walked', st')
  end.

(** [for target in roots: target.walk(work, predicate)]: each walk starts
    with an empty visited set. *)
Definition walk_all {S : Type} (fuel : nat) (dependencies : nat -> list nat)
    (work : nat -> S -> S * list nat) (predicate : nat -> bool)
    (roots : list nat) (st : S) : outcome S :=
  for_each (fun target st =>
              r <- walk fuel dependencies work predicate target ([], st) ;;
              Returns (snd r))
           roots st.

(** ** Project.configure_jvm *)

(** The project together with the class-level [SourceSet.TEST_BASES] and the
    two closure variables of [configure_jvm]. *)
Record Frame : Type := {
  self : Project;
  TEST_BASES : list string;
  analyzed : list nat;
  targeted : list string
}.

Definition set_self (fr : Frame) (p : Project) : Frame :=
  {| self := p; TEST_BASES := TEST_BASES fr; analyzed := analyzed fr;
     targeted := targeted fr |}.

Section Resolver.

Variable W : World.

Definition source_target (p : Project) (a : nat) : bool :=
  let target := Target_get W a in
  (transitive p || mem_nat a (targets p))
  && t_has_sources target
  && (negb (t_is_codegen target)
      && negb (skip_java p && is_java target)
      && negb (skip_scala p && is_scala target)).

(** The body of the loop of [configure_source_sets] for a directory that
    is not targeted yet. *)
Definition register_source_set (relative_base path : string) (is_test : bool)
    (fr : Frame) : Frame :=
  let absolute_base := PosixPath.join (root_dir (self fr)) relative_base in
  let absolute_path := PosixPath.join absolute_base path in
  let (ss, tb) :=
    SourceSet_init (TEST_BASES fr) (root_dir (self fr)) relative_base
                   (Some path) is_test in
  {| self := set_sources (self fr) (sources (self fr) ++ [ss]);
     TEST_BASES := tb;
     analyzed := analyzed fr;
     targeted := set_add absolute_path (targeted fr) |}.

Definition configure_source_sets (relative_base : string) (srcs : list string)
    (is_test : bool) (fr : Frame) : Frame :=
  let paths := set_iter (order W) (map PosixPath.dirname srcs) in
  fold_left
    (fun fr path =>
       let absolute_base := PosixPath.join (root_dir (self fr)) relative_base in
       let absolute_path := PosixPath.join absolute_base path in
       if mem absolute_path (targeted fr) then fr
       else register_source_set relative_base path is_test fr)
    paths fr.

Definition find_source_basedirs (p : Project) (a : nat) : list string :=
  if source_target p a then
    let target := Target_get W a in
    let absolute_base := PosixPath.join (root_dir p) (t_target_base target) in
    map (fun source => PosixPath.join absolute_base (PosixPath.dirname source))
        (t_sources target)
  else [].

(** [resources_by_basedir.items()]: the base directories in the order of
    the dict, each with its set of resource files in the order of the
    set. *)
Definition resources_by_basedir (target : Target) : list (string * list string) :=
  map (fun basedir =>
         (basedir,
          set_iter (order W)
            (flat_map r_sources
               (filter (fun r => String.eqb (r_target_base r) basedir)
                       (t_resources target)))))
      (dict_iter (order W) (map r_target_base (t_resources target))).

Definition configure_target (a : nat) (fr : Frame) : Frame * list nat :=
  if mem_nat a (analyzed fr) then (fr, [])
  else
    let target := Target_get W a in
    let p := self fr in
    let fr1 :=
      set_self
        {| self := self fr; TEST_BASES := TEST_BASES fr;
           analyzed := oset_add a (analyzed fr); targeted := targeted fr |}
        (set_has_scala p (negb (skip_scala p) && (has_scala p || is_scala target))) in
    let fr2 :=
      if t_has_resources target then
        fold_left (fun fr br => configure_source_sets (fst br) (snd br) false fr)
                  (resources_by_basedir target) fr1
      else fr1 in
    let fr3 :=
      match t_sources target with
      | [] => fr2
      | _ =>
          let test := t_is_test target in
          configure_source_sets (t_target_base target) (t_sources target) test
            (set_self fr2 (set_has_tests (self fr2) (has_tests (self fr2) || test)))
      end in
    let target_dirset := find_source_basedirs p a in
    let is_sibling c :=
      source_target p c
      && existsb (fun d => mem d (find_source_basedirs p c)) target_dirset in
    (fr3, filter is_sibling (filter (fun c => negb (Nat.eqb c a)) (candidates W a))).

(** The [while True] loop that records a path and its parents. *)
Fixpoint unexcludable_loop (fuel : nat) (root_dir parent : string)
    (unexcludable_paths : list string) : outcome (list string) :=
  match fuel with
  | 0 => OutOfFuel
  | S fuel' =>
      let unexcludable_paths := set_add parent unexcludable_paths in
      let parent := fst (PosixPath.split parent) in
      if String.eqb parent root_dir then Returns unexcludable_paths
      else unexcludable_loop fuel' root_dir parent unexcludable_paths
  end.

(** [os.path.join(self.root_dir, source_set.source_base, source_set.path)];
    joining [None] raises. *)
Definition owned_path (root_dir : string) (ss : SourceSet) : outcome string :=
  match ss_path ss with
  | Some path =>
      Returns (PosixPath.join (PosixPath.join root_dir (ss_source_base ss)) path)
  | None => Raises AttributeError
  end.

Definition unexcludable_of (fuel : nat) (root_dir : string) (srcs : list SourceSet)
  : outcome (list string) :=
  for_each (fun source_set unexcludable_paths =>
              parent <- owned_path root_dir source_set ;;
              unexcludable_loop fuel root_dir parent unexcludable_paths)
           srcs [].

(** The directories found below [top], as [os.path.join(root, directory)]. *)
Definition walked_paths (top : string) : list string :=
  set_iter (order W)
    (flat_map (fun rd => map (PosixPath.join (fst rd)) (snd rd)) (os_walk W top)).

(** The children of one source set that get excluded, as absolute paths in
    the order in which they are appended. *)
Definition excluded_children (targeted unexcludable_paths : list string)
    (top : string) : list string :=
  let paths := walked_paths top in
  let unused_children :=
    set_iter (order W) (filter (fun p => negb (mem p targeted)) paths) in
  filter (fun child => negb (mem child unexcludable_paths)) unused_children.

Fixpoint relpaths (children : list string) (start : string) : outcome (list string) :=
  match children with
  | [] => Returns []
  | child :: rest =>
      match PosixPath.relpath (cwd W) child start with
      | Some r => rs <- relpaths rest start ;; Returns (r :: rs)
      | None => Raises ValueError
      end
  end.

(** One iteration of the second loop over [self.sources]. *)
Definition compute_excludes (root_dir : string)
    (targeted unexcludable_paths : list string) (source_set : SourceSet)
  : outcome SourceSet :=
  let source_base := PosixPath.join root_dir (ss_source_base source_set) in
  top <- owned_path root_dir source_set ;;
  rs <- relpaths (excluded_children targeted unexcludable_paths top) source_base ;;
  Returns (excludes_append source_set rs).

Fixpoint map_outcome {A B : Type} (f : A -> outcome B) (l : list A) : outcome (list B) :=
  match l with
  | [] => Returns []
  | x :: l' => y <- f x ;; ys <- map_outcome f l' ;; Returns (y :: ys)
  end.

(** The caller-supplied roots, appended at the end. *)
Definition extend_extra (is_test : bool) (paths : list string)
    (acc : list SourceSet * list string) : list SourceSet * list string :=
  fold_left (fun acc p =>
               let (ss, tb) := SourceSet_init (snd acc) (get_buildroot W) p None is_test in
               (fst acc ++ [ss], tb))
            paths acc.

Record JvmResult : Type := {
  r_targets : list nat;           (* the value returned *)
  r_project : Project;            (* self afterwards *)
  r_TEST_BASES : list string;     (* SourceSet.TEST_BASES afterwards *)
  r_scanned : list string;        (* the arguments of os.walk, in order *)
  r_analyzed : list nat           (* the closure variable analyzed at return *)
}.

Definition configure_jvm (fuel : nat) (p : Project) (TEST_BASES0 : list string)
    (extra_source_paths extra_test_paths : list string) : outcome JvmResult :=
  let deps := fun a => t_dependencies (Target_get W a) in
  fr <- walk_all fuel deps configure_target (source_target p) (targets p)
          {| self := p; TEST_BASES := TEST_BASES0; analyzed := []; targeted := [] |} ;;
  let p1 := self fr in
  unexcludable_paths <- unexcludable_of fuel (root_dir p1) (sources p1) ;;
  srcs <- map_outcome (compute_excludes (root_dir p1) (targeted fr) unexcludable_paths)
            (sources p1) ;;
  tops <- map_outcome (owned_path (root_dir p1)) (sources p1) ;;
  tgts <- walk_all fuel deps (fun target tgts => (oset_add target tgts, []))
            (source_target p1) (targets p1) [] ;;
  let tgts :=
    oset_update tgts (filter (fun a => negb (mem_nat a tgts)) (analyzed fr)) in
  let (srcs1, tb1) := extend_extra false extra_source_paths (srcs, TEST_BASES fr) in
  let (srcs2, tb2) := extend_extra true extra_test_paths (srcs1, tb1) in
  Returns {| r_targets := tgts;
             r_project := set_sources p1 srcs2;
             r_TEST_BASES := tb2;
             r_scanned := tops;
             r_analyzed := analyzed fr |}.

End Resolver.

(** ** Project.configure_python and IdeGen.configure_project *)

(** [s.endswith(suffix)] *)
Definition str_endswith (s suffix : string) : bool :=
  Nat.leb (String.length suffix) (String.length s)
  && String.eqb (substring (String.length s - String.length suffix)
                           (String.length suffix) s) suffix.

Section Configure.

Variable W : World.

(** [os.listdir(d)]; [None] is the [OSError] raised when [d] is not a
    directory. *)
Definition listdir (d : string) : option (list string) :=
  if String.eqb d "" then None
  else match fs_lookup (fs W) (PosixPath.abs_components (cwd W) d) with
       | Some (FsDir entries) => Some (map fst entries)
       | _ => None
       end.

Definition isdir (d : string) : bool :=
  if String.eqb d "" then false
  else match fs_lookup (fs W) (PosixPath.abs_components (cwd W) d) with
       | Some n => is_dir n
       | None => false
       end.

Definition configure_python (p : Project) (TEST_BASES0 : list string)
    (source_roots test_roots lib_roots : list string)
  : outcome (Project * list string) :=
  let (py1, tb1) := extend_extra W false source_roots (py_sources p, TEST_BASES0) in
  let (py2, tb2) := extend_extra W true test_roots (py1, tb1) in
  libs_tb <-
    for_each
      (fun root acc =>
         match listdir (PosixPath.join (get_buildroot W) root) with
         | None => Raises OSError
         | Some names =>
             Returns
               (fold_left
                  (fun (acc : list SourceSet * list string) path =>
                     if isdir (PosixPath.join (PosixPath.join (get_buildroot W) root) path)
                        || str_endswith path ".egg"
                     then
                       let (ss, tb) :=
                         SourceSet_init (snd acc) (get_buildroot W) root (Some path) false in
                       (fst acc ++ [ss], tb)
                     else acc)
                  names acc)
         end)
      lib_roots (py_libs p, tb2) ;;
  Returns (set_py_libs (set_py_sources p py2) (fst libs_tb), snd libs_tb).

(** The options and configuration values [IdeGen] reads. *)
Record IdeGen : Type := {
  python : bool;
  skip_java_opt : bool;
  skip_scala_opt : bool;
  intransitive : bool;
  python_source_paths : list string;
  python_test_paths : list string;
  python_lib_paths : list string;
  extra_jvm_source_paths : list string;
  extra_jvm_test_paths : list string
}.

(** [IdeGen.configure_project], from the JVM targets already extracted
    (and, when intransitive, already restricted to the target roots). *)
Definition configure_project (fuel : nat) (g : IdeGen) (jvm_targets : list nat)
    (TEST_BASES0 : list string) : outcome JvmResult :=
  let project :=
    Project_init (python g) (skip_java_opt g) (skip_scala_opt g) (get_buildroot W)
                 jvm_targets (negb (intransitive g)) in
  ptb <- (if python g
          then configure_python project TEST_BASES0 (python_source_paths g)
                                (python_test_paths g) (python_lib_paths g)
          else Returns (project, TEST_BASES0)) ;;
  configure_jvm W fuel (fst ptb) (snd ptb)
                (extra_jvm_source_paths g) (extra_jvm_test_paths g).

End Configure.

(** ** IdeGen.map_internal_jars *)

Module Staging.

Record ClasspathEntry : Type := {
  jar : string;
  source_jar : option string;
  javadoc_jar : option string
}.

(** The regular files present, each under its normalized absolute path, and
    [self._project.internal_jars]. *)
Record State : Type := {
  files : list string;
  internal_jars : list ClasspathEntry
}.

(** A product: for a target, the pairs [(base, jars)] of [mappings.items()]
    in iteration order; no pairs when the target has no mapping. *)
Definition Product : Type := nat -> list (string * list string).

(** [f] lies in the tree below directory [dir].  The paths are compared as
    they are written, which is the place on disk for normalized paths: a
    path with a [..] component can lie elsewhere than its text says. *)
Definition under (dir f : string) : bool := String.prefix (dir +:+ "/") f.

(** Modelled from the spec: [safe_mkdir(directory, clean=True)] of
    twitter.common.dirutil, which clears and recreates the directory. *)
Definition safe_mkdir_clean (directory : string) (fl : list string) : list string :=
  filter (fun f => negb (under directory f)) fl.

(** [shutil.copy(src, dst)] to a file [dst] other than [src] in a directory
    that exists; [None] is the [IOError] raised when [src] cannot be read.
    The errors [shutil.copy] has for a destination whose directory is
    missing (a jar name with a directory part) and for a destination that
    is [src] itself (an absolute jar name) are not part of the model: the
    statements about the outcome of [map_internal_jars] take plain file
    names, which give a destination directly in the staging directory. *)
Definition copy (src dst : string) (fl : list string) : option (list string) :=
  if mem src fl then Some (set_add dst fl) else None.

Definition multiple_jars : exn :=
  TaskError "Unexpected mapping, multiple jars".
Definition multiple_source_jars : exn :=
  TaskError "Unexpected mapping, multiple source jars".

(** The inner loop over the source jar mapping of the target. *)
Fixpoint copy_source_jars (internal_source_jar_dir : string)
    (mappings : list (string * list string)) (cp_source_jar : option string)
    (fl : list string) : (exn + option string) * list string :=
  match mappings with
  | [] => (inr cp_source_jar, fl)
  | (base, jars) :: rest =>
      match jars with
      | [jar] =>
          let cp := PosixPath.join internal_source_jar_dir jar in
          match copy (PosixPath.join base jar) cp fl with
          | Some fl' => copy_source_jars internal_source_jar_dir rest (Some cp) fl'
          | None => (inl IOError, fl)
          end
      | _ => (inl multiple_source_jars, fl)
      end
  end.

(** The loop over the jar mapping of one target. *)
Fixpoint copy_jars (internal_jar_dir internal_source_jar_dir : string)
    (source_mappings mappings : list (string * list string)) (st : State)
  : option exn * State :=
  match mappings with
  | [] => (None, st)
  | (base, jars) :: rest =>
      match jars with
      | [jar] =>
          let cp_jar := PosixPath.join internal_jar_dir jar in
          match copy (PosixPath.join base jar) cp_jar (files st) with
          | None => (Some IOError, st)
          | Some fl =>
              match copy_source_jars internal_source_jar_dir source_mappings None fl with
              | (inl e, fl') =>
                  (Some e, {| files := fl'; internal_jars := internal_jars st |})
              | (inr cp_source_jar, fl') =>
                  copy_jars internal_jar_dir internal_source_jar_dir source_mappings rest
                    {| files := fl';
                       internal_jars :=
                         internal_jars st
                         ++ [{| jar := cp_jar; source_jar := cp_source_jar;
                                javadoc_jar := None |}] |}
              end
          end
      | _ => (Some multiple_jars, st)
      end
  end.

Fixpoint map_targets (internal_jar_dir internal_source_jar_dir : string)
    (jars_product source_jars_product : Product) (tgts : list nat) (st : State)
  : option exn * State :=
  match tgts with
  | [] => (None, st)
  | target :: rest =>
      match copy_jars internal_jar_dir internal_source_jar_dir
              (source_jars_product target) (jars_product target) st with
      | (Some e, st') => (Some e, st')
      | (None, st') =>
          map_targets internal_jar_dir internal_source_jar_dir
            jars_product source_jars_product rest st'
      end
  end.

(** [IdeGen.map_internal_jars(targets)]: the exception raised, if any, and
    the state in which the call ends. *)
Definition map_internal_jars (work_dir : string)
    (jars_product source_jars_product : Product) (tgts : list nat) (st : State)
  : option exn * State :=
  let internal_jar_dir := PosixPath.join work_dir "internal-libs" in
  let fl1 := safe_mkdir_clean internal_jar_dir (files st) in
  let internal_source_jar_dir := PosixPath.join work_dir "internal-libsources" in
  let fl2 := safe_mkdir_clean internal_source_jar_dir fl1 in
  map_targets internal_jar_dir internal_source_jar_dir
    jars_product source_jars_product tgts
    {| files := fl2; internal_jars := internal_jars st |}.

(** The files staged by the call: those below the two staging
    directories. *)
Definition staged (work_dir : string) (st : State) : list string :=
  filter (fun f => under (PosixPath.join work_dir "internal-libs") f
                   || under (PosixPath.join work_dir "internal-libsources") f)
         (files st).

End Staging.

(** ** Vocabulary of the properties *)

(** A hash order that iterates in insertion order. *)
Definition insertion_order : HashOrder :=
  {| set_iter := nodup string_dec;
     set_iter_In := nodup_In string_dec;
     set_iter_NoDup := NoDup_nodup string_dec;
     dict_iter := nodup string_dec;
     dict_iter_In := nodup_In string_dec;
     dict_iter_NoDup := NoDup_nodup string_dec |}.

(** The source set appended for a caller-supplied root. *)
Definition extra_source_set (W : World) (is_test : bool) (p : string) : SourceSet :=
  {| ss_root_dir := get_buildroot W; ss_source_base := p; ss_path := None;
     ss_is_test := is_test; ss_excludes := [] |}.

(** A target that declares sources and is flagged as a test. *)
Definition test_flagged (W : World) (a : nat) : bool :=
  match t_sources (Target_get W a) with
  | [] => false
  | _ => t_is_test (Target_get W a)
  end.

(** The non-empty components of a path, as written. *)
Definition path_components (p : string) : list string :=
  filter nonempty (str_split p).

(** [p] names a directory strictly below [root]: the components of [root]
    followed by at least one more. *)
Definition strictly_beneath (root p : string) : Prop :=
  startswith_sep p = startswith_sep root /\
  exists rest, rest <> [] /\ path_components p = path_components root ++ rest.

(** The ancestor loop started at [parent] comes to its [break]. *)
Definition loop_terminates (root_dir parent : string) : Prop :=
  exists fuel acc, unexcludable_loop fuel root_dir parent [] = Returns acc.

(** [target.dependencies], by address. *)
Definition deps_of (W : World) (a : nat) : list nat := t_dependencies (Target_get W a).

(** The project, the class-level set and the closure variables when
    [configure_jvm] starts. *)
Definition initial_frame (p : Project) (tb : list string) : Frame :=
  {| self := p; TEST_BASES := tb; analyzed := []; targeted := [] |}.

(** Target [a] declares a source or a resource file in directory [path] of
    base [base]. *)
Definition declares (W : World) (a : nat) (base path : string) : Prop :=
  (base = t_target_base (Target_get W a)
   /\ In path (map PosixPath.dirname (t_sources (Target_get W a))))
  \/ (exists r, In r (t_resources (Target_get W a))
                /\ base = r_target_base r
                /\ In path (map PosixPath.dirname (r_sources r))).

(** The state of the source sets while the targets are analyzed: every
    source set lies under [root], has a path and no excludes yet, has its
    directory recorded in [targeted] and satisfies [ok]; the keys are
    pairwise distinct. *)
Definition src_inv (root : string) (ok : string -> string -> Prop) (fr : Frame) : Prop :=
  root_dir (self fr) = root
  /\ (forall ss, In ss (sources (self fr)) ->
        ss_root_dir ss = root /\ ss_excludes ss = []
        /\ exists path,
            ss_path ss = Some path
            /\ In (PosixPath.join (PosixPath.join root (ss_source_base ss)) path)
                  (targeted fr)
            /\ ok (ss_source_base ss) path)
  /\ NoDup (map ss_key (sources (self fr))).

(** Two frames that differ at most in [SourceSet.TEST_BASES]. *)
Definition same_but_TEST_BASES (fr1 fr2 : Frame) : Prop :=
  self fr1 = self fr2 /\ analyzed fr1 = analyzed fr2 /\ targeted fr1 = targeted fr2.

(** *** Staging *)

(** Some target of the list has a pair of its jar mapping that holds more
    than one file name. *)
Definition ambiguous_mapping (jars_product : Staging.Product) (tgts : list nat) : Prop :=
  exists target base jars,
    In target tgts /\ In (base, jars) (jars_product target) /\ 1 < List.length jars.

(** Every artifact the products name for the targets exists, outside of the
    two staging directories. *)
Definition artifacts_readable (work_dir : string)
    (jars_product source_jars_product : Staging.Product) (tgts : list nat)
    (st : Staging.State) : Prop :=
  forall target base jars jar,
    In target tgts ->
    In (base, jars) (jars_product target ++ source_jars_product target) ->
    In jar jars ->
    In (PosixPath.join base jar) (Staging.files st)
    /\ Staging.under (PosixPath.join work_dir "internal-libs") (PosixPath.join base jar) = false
    /\ Staging.under (PosixPath.join work_dir "internal-libsources") (PosixPath.join base jar) = false.

(** The error-handling property as the specification words it: an ambiguous
    pair makes the call fail with the ambiguity error and leaves nothing
    staged. *)
Definition ambiguity_leaves_nothing_staged : Prop :=
  forall work_dir jars_product source_jars_product tgts st,
    ambiguous_mapping jars_product tgts ->
    (exists msg,
        fst (Staging.map_internal_jars work_dir jars_product source_jars_product tgts st)
        = Some (TaskError msg))
    /\ Staging.staged work_dir
         (snd (Staging.map_internal_jars work_dir jars_product source_jars_product tgts st))
       = [].

(** Two targets: the first maps one jar, the second maps two jars under one
    base. *)
Definition two_targets_jars : Staging.Product :=
  fun target =>
    match target with
    | 1 => [("/out/a", ["a.jar"])]
    | 2 => [("/out/lib", ["t-1.jar"; "t-2.jar"])]
    | _ => []
    end.

Definition no_jars : Staging.Product := fun _ => [].

Definition built_artifacts : Staging.State :=
  {| Staging.files := ["/out/a/a.jar"; "/out/lib/t-1.jar"; "/out/lib/t-2.jar"];
     Staging.internal_jars := [] |}.

(** *** Well-formed paths *)

(** A file or directory name: not empty, without separator, neither [.]
    nor [..]. *)
Definition is_name (s : string) : bool :=
  nonempty s && negb (has_sep s) && negb (String.eqb s ".") && negb (String.eqb s "..").

(** [/c1/c2/.../cn] *)
Fixpoint canon (cs : list string) : string :=
  match cs with
  | [] => ""
  | c :: cs' => "/" +:+ c +:+ canon cs'
  end.

(** A normalized relative path: empty, or names separated by single
    separators. *)
Definition wf_rel (s : string) : bool :=
  String.eqb s "" || forallb is_name (str_split s).

Definition rel_components (s : string) : list string :=
  if String.eqb s "" then [] else str_split s.

(** A normalized relative path of a file: at least one name. *)
Definition wf_source (s : string) : bool := forallb is_name (str_split s).

(** A normalized absolute path other than [/]. *)
Definition wf_root (s : string) : bool :=
  match s with
  | String c rest => is_sep c && forallb is_name (str_split rest)
  | EmptyString => false
  end.

Definition root_components (s : string) : list string :=
  match s with
  | String _ rest => str_split rest
  | EmptyString => []
  end.

Definition wf_target (t : Target) : bool :=
  wf_rel (t_target_base t)
  && forallb wf_source (t_sources t)
  && forallb (fun r => wf_rel (r_target_base r) && forallb wf_source (r_sources r))
             (t_resources t).

(** Every entry of every directory has a name. *)
Fixpoint fs_wf (n : FsNode) : bool :=
  match n with
  | FsFile => true
  | FsDir entries => forallb (fun e => is_name (fst e) && fs_wf (snd e)) entries
  end.

(** The directory a source set owns, as the components of its absolute
    path. *)
Definition owned_dir (W : World) (root : string) (ss : SourceSet) : list string :=
  PosixPath.abs_components (cwd W)
    (PosixPath.join (PosixPath.join root (ss_source_base ss))
                    (match ss_path ss with Some path => path | None => "" end)).

(** The directory an exclude entry of a source set stands for: the entry
    resolved against the base of the source set. *)
Definition exclude_dir (W : World) (root : string) (ss : SourceSet) (e : string)
  : list string :=
  PosixPath.abs_components (cwd W)
    (PosixPath.join (PosixPath.join root (ss_source_base ss)) e).

(** The separator [os.path.join] leaves at the end of a directory when an
    empty path is joined to it. *)
Definition slash_if_nil (cs : list string) : string :=
  match cs with [] => "/" | _ => "" end.

(** The base and the path of a source set are normalized relative paths. *)
Definition wf_key (base path : string) : Prop :=
  wf_rel base = true /\ wf_rel path = true.

(** *** The invariants as the specification words them *)

(** I2 over the whole final list: no exclude entry stands for a directory
    that some source set of the list owns. *)
Definition no_owned_directory_excluded (W : World) (root : string) (r : JvmResult) : Prop :=
  forall S S' e,
    In S (sources (r_project r)) -> In S' (sources (r_project r)) ->
    In e (ss_excludes S') ->
    exclude_dir W root S' e <> owned_dir W root S.

(** I3 over the whole final list: no exclude entry stands for a directory
    strictly between the root and a directory that some source set owns. *)
Definition no_ancestor_excluded (W : World) (root : string) (r : JvmResult) : Prop :=
  forall S S' e pre suf,
    In S (sources (r_project r)) -> In S' (sources (r_project r)) ->
    In e (ss_excludes S') ->
    pre <> [] -> suf <> [] ->
    owned_dir W root S = root_components root ++ pre ++ suf ->
    exclude_dir W root S' e <> root_components root ++ pre.

(** [has_tests] as the specification words it: set exactly when a test
    target, or a test source set, has been absorbed. *)
Definition has_tests_tracks_test_source_sets (W : World) (r : JvmResult) : Prop :=
  has_tests (r_project r) = true <->
  (exists a, In a (r_analyzed r) /\ t_is_test (Target_get W a) = true)
  \/ (exists ss, In ss (sources (r_project r) ++ py_sources (r_project r))
                 /\ ss_is_test ss = true).

(** *** A small repository *)

(** [/r/src/java] holds [A.java], [gen/out/] and [com/foo/] with [A.java] and
    [bar/]; [/r/tests] is empty. *)
Definition example_fs : FsNode :=
  FsDir
    [("r",
      FsDir
        [("src",
          FsDir
            [("java",
              FsDir
                [("A.java", FsFile);
                 ("gen", FsDir [("out", FsDir [])]);
                 ("com",
                  FsDir [("foo", FsDir [("A.java", FsFile); ("bar", FsDir [])])])])]);
         ("tests", FsDir [])])].

Definition java_target (base : string) (srcs : list string) (is_test : bool) : Target :=
  {| t_target_base := base; t_sources := srcs;
     t_has_sources := match srcs with [] => false | _ => true end;
     t_has_scala_sources := false; t_has_java_sources := true;
     t_is_scala := false; t_is_java := true; t_is_codegen := false;
     t_is_test := is_test; t_has_resources := false; t_resources := [];
     t_dependencies := [] |}.

(** Target 0 owns [src/java] itself, target 1 owns [src/java/com/foo] and
    is a test, no other address declares anything. *)
Definition example_world : World :=
  {| cwd := "/r";
     fs := example_fs;
     get_buildroot := "/r";
     Target_get := fun a =>
       match a with
       | 0 => java_target "src/java" ["A.java"] false
       | 1 => java_target "src/java" ["com/foo/A.java"] true
       | _ => java_target "" [] false
       end;
     candidates := fun _ => [];
     order := insertion_order |}.

Definition example_project (tgts : list nat) : Project :=
  Project_init false false false "/r" tgts true.

(** The source set of target 0 and what the run gives it as excludes. *)
Definition src_java (excl : list string) : SourceSet :=
  {| ss_root_dir := "/r"; ss_source_base := "src/java"; ss_path := Some "";
     ss_is_test := false; ss_excludes := excl |}.

(** The source set of target 1. *)
Definition src_java_com_foo (excl : list string) : SourceSet :=
  {| ss_root_dir := "/r"; ss_source_base := "src/java"; ss_path := Some "com/foo";
     ss_is_test := true; ss_excludes := excl |}.

(** A configuration with python support, one python test root and one extra
    JVM test root, and no target. *)
Definition only_test_roots : IdeGen :=
  {| python := true; skip_java_opt := false; skip_scala_opt := false;
     intransitive := false;
     python_source_paths := []; python_test_paths := ["tests"];
     python_lib_paths := [];
     extra_jvm_source_paths := []; extra_jvm_test_paths := ["tests"] |}.

(** A configuration without python support and without extra roots. *)
Definition plain_config : IdeGen :=
  {| python := false; skip_java_opt := false; skip_scala_opt := false;
     intransitive := false;
     python_source_paths := []; python_test_paths := []; python_lib_paths := [];
     extra_jvm_source_paths := []; extra_jvm_test_paths := [] |}.

(** ** Further vocabulary for the resolver *)

(** What [configure_target] registers for target [a]: the directory [path]
    of base [base] with flag [is_test], either for a source file of a target
    that has sources, or for a resource file of a target that has
    resources. *)
Definition contributes (W : World) (a : nat) (base path : string) (is_test : bool)
  : Prop :=
  (t_sources (Target_get W a) <> []
   /\ base = t_target_base (Target_get W a)
   /\ In path (map PosixPath.dirname (t_sources (Target_get W a)))
   /\ is_test = t_is_test (Target_get W a))
  \/ (t_has_resources (Target_get W a) = true
      /\ is_test = false
      /\ exists r, In r (t_resources (Target_get W a))
                   /\ base = r_target_base r
                   /\ In path (map PosixPath.dirname (r_sources r))).

(** The path string [configure_jvm] forms for a source set that has a
    path. *)
Definition owned_string (root : string) (ss : SourceSet) : string :=
  PosixPath.join (PosixPath.join root (ss_source_base ss))
                 (match ss_path ss with Some path => path | None => "" end).

(** The fields of the project that the analysis of targets leaves alone. *)
Definition same_configuration (p q : Project) : Prop :=
  root_dir q = root_dir p /\ targets q = targets p /\ transitive q = transitive p
  /\ py_sources q = py_sources p /\ py_libs q = py_libs p
  /\ has_python q = has_python p /\ skip_java q = skip_java p
  /\ skip_scala q = skip_scala p.

(** The state of the frame while the targets are analyzed, for a project [p]
    that starts without source sets; the directories of the targets in
    [covered] are all targeted. *)
Definition resolver_pre (W : World) (p : Project) (covered : list nat) (fr : Frame)
  : Prop :=
  same_configuration p (self fr)
  /\ NoDup (analyzed fr)
  /\ (forall a base path t,
         In a covered -> contributes W a base path t ->
         In (PosixPath.join (PosixPath.join (root_dir p) base) path) (targeted fr))
  /\ (forall ss, In ss (sources (self fr)) ->
         exists a path,
           In a (analyzed fr) /\ ss_path ss = Some path
           /\ contributes W a (ss_source_base ss) path (ss_is_test ss)
           /\ (ss_is_test ss = true -> In (ss_source_base ss) (TEST_BASES fr)))
  /\ (forall x, In x (targeted fr) ->
         exists ss, In ss (sources (self fr)) /\ ss_path ss <> None
                    /\ x = owned_string (root_dir p) ss).

(** Between two targets every analyzed target is covered. *)
Definition resolver_inv (W : World) (p : Project) (fr : Frame) : Prop :=
  resolver_pre W p (analyzed fr) fr.

(** No two names of the list are equal. *)
Fixpoint names_distinct (l : list string) : bool :=
  match l with
  | [] => true
  | x :: l' => negb (mem x l') && names_distinct l'
  end.

(** The entries of every directory have pairwise distinct names. *)
Fixpoint fs_distinct (n : FsNode) : bool :=
  match n with
  | FsFile => true
  | FsDir entries =>
      names_distinct (map fst entries)
      && forallb (fun e => fs_distinct (snd e)) entries
  end.

(** Below node [n], the components [dc] lead to a directory. *)
Definition dir_below (n : FsNode) (dc : list string) : bool :=
  match fs_lookup n dc with
  | Some m => is_dir m
  | None => false
  end.

(** The components [comps], read from [/], lead to a directory. *)
Definition is_directory (W : World) (comps : list string) : bool :=
  dir_below (fs W) comps.

(** *** A second example: java, scala and resources *)

Definition mixed_fs : FsNode :=
  FsDir
    [("r",
      FsDir
        [("src",
          FsDir
            [("java", FsDir [("A.java", FsFile); ("gen", FsDir [])]);
             ("scala", FsDir [("com", FsDir [("S.scala", FsFile)])]);
             ("resources",
              FsDir [("conf", FsDir [("app.conf", FsFile)]); ("unused", FsDir [])])])])].

(** Target 1 of the second example: a scala target with one resources
    target. *)
Definition scala_target : Target :=
  {| t_target_base := "src/scala"; t_sources := ["com/S.scala"];
     t_has_sources := true;
     t_has_scala_sources := true; t_has_java_sources := false;
     t_is_scala := true; t_is_java := false; t_is_codegen := false;
     t_is_test := false; t_has_resources := true;
     t_resources := [{| r_target_base := "src/resources";
                        r_sources := ["conf/app.conf"] |}];
     t_dependencies := [] |}.

(** Target 0 is a java target that depends on the scala target 1. *)
Definition mixed_world : World :=
  {| cwd := "/r";
     fs := mixed_fs;
     get_buildroot := "/r";
     Target_get := fun a =>
       match a with
       | 0 => {| t_target_base := "src/java"; t_sources := ["A.java"];
                 t_has_sources := true;
                 t_has_scala_sources := false; t_has_java_sources := true;
                 t_is_scala := false; t_is_java := true; t_is_codegen := false;
                 t_is_test := false; t_has_resources := false; t_resources := [];
                 t_dependencies := [1] |}
       | 1 => scala_target
       | _ => java_target "" [] false
       end;
     candidates := fun _ => [];
     order := insertion_order |}.

(** [plain_config] with the intransitive option set. *)
Definition intransitive_config : IdeGen :=
  {| python := false; skip_java_opt := false; skip_scala_opt := false;
     intransitive := true;
     python_source_paths := []; python_test_paths := []; python_lib_paths := [];
     extra_jvm_source_paths := []; extra_jvm_test_paths := [] |}.

(** The directory [D], given by its components, is owned by a source set of
    a target in the result, or lies above a directory that is. *)
Definition leads_to_owned (W : World) (root : string) (r : JvmResult)
    (D : list string) : Prop :=
  exists S, In S (sources (r_project r)) /\ ss_path S <> None
            /\ exists suf, owned_dir W root S = D ++ suf.

(** *** Staging of the internal jars, in closed form *)

(** The source jar an entry of a target refers to: the copy of the jar of
    the last pair of the source jar mapping, if there is a pair. *)
Definition last_source_jar (internal_source_jar_dir : string)
    (source_mappings : list (string * list string)) : option string :=
  match source_mappings with
  | [] => None
  | _ => Some (PosixPath.join internal_source_jar_dir
                 (hd "" (snd (last source_mappings ("", [])))))
  end.

(** The classpath entries for the pairs of the jar mapping of one target. *)
Definition entries_of_target (internal_jar_dir internal_source_jar_dir : string)
    (source_mappings mappings : list (string * list string))
  : list Staging.ClasspathEntry :=
  map (fun bj =>
         {| Staging.jar := PosixPath.join internal_jar_dir (hd "" (snd bj));
            Staging.source_jar :=
              last_source_jar internal_source_jar_dir source_mappings;
            Staging.javadoc_jar := None |})
      mappings.

(** One entry for every pair of the jar mappings of the targets, in
    order. *)
Definition entries_of (work_dir : string)
    (jars_product source_jars_product : Staging.Product) (tgts : list nat)
  : list Staging.ClasspathEntry :=
  flat_map (fun target =>
              entries_of_target (PosixPath.join work_dir "internal-libs")
                                (PosixPath.join work_dir "internal-libsources")
                                (source_jars_product target) (jars_product target))
           tgts.

(** Every pair of the mapping names exactly one file. *)
Definition all_single (mappings : list (string * list string)) : Prop :=
  forall base jars, In (base, jars) mappings -> List.length jars = 1.

(** Every pair of the jar mapping of every target names one file, and so
    does every pair of the source jar mapping of a target that has a jar
    mapping. *)
Definition unambiguous (jars_product source_jars_product : Staging.Product)
    (tgts : list nat) : Prop :=
  forall target, In target tgts ->
    all_single (jars_product target)
    /\ (jars_product target <> [] -> all_single (source_jars_product target)).

(** One target with two jars under two bases, and a source jar for each. *)
Definition two_bases_jars : Staging.Product :=
  fun target =>
    match target with
    | 1 => [("/out/a", ["a.jar"]); ("/out/b", ["b.jar"])]
    | _ => []
    end.

Definition two_bases_source_jars : Staging.Product :=
  fun target =>
    match target with
    | 1 => [("/out/a", ["a-sources.jar"]); ("/out/b", ["b-sources.jar"])]
    | _ => []
    end.

(** The artifacts of [two_bases_jars], a jar left in the staging directory
    by an earlier run, and a file of the user. *)
Definition two_bases_artifacts : Staging.State :=
  {| Staging.files :=
       ["/out/a/a.jar"; "/out/b/b.jar"; "/out/a/a-sources.jar";
        "/out/b/b-sources.jar"; "/w/internal-libs/old.jar"; "/home/notes.txt"];
     Staging.internal_jars := [] |}.

(** ** IdeGen.map_external_jars *)

Module External.

(** One entry of [list_jar_dependencies]: the artifact found for each of
    the confs [default], [sources] and [javadoc], if any. *)
Record JarEntry : Type := {
  e_default : option string;
  e_sources : option string;
  e_javadoc : option string
}.

(** The regular files present, by absolute path, and
    [self._project.external_jars]. *)
Record State : Type := {
  files : list string;
  external_jars : list Staging.ClasspathEntry
}.

(** [os.path.basename(p)] *)
Definition basename (p : string) : string := snd (PosixPath.split p).

(** The value of [entry.get(conf)] when the test [if value:] lets it
    through: a string that is not empty. *)
Definition truthy (value : option string) : option string :=
  match value with
  | Some s => if nonempty s then Some s else None
  | None => None
  end.

(** [cp = None; a = entry.get(conf); if a: cp = join(dir, basename(a));
    shutil.copy(a, cp)]: the value of [cp] and the files afterwards, [None]
    for the [IOError] of the copy. *)
Definition stage (dir : string) (artifact : option string) (fl : list string)
  : option (option string * list string) :=
  match truthy artifact with
  | Some a =>
      let cp := PosixPath.join dir (basename a) in
      match Staging.copy a cp fl with
      | Some fl' => Some (Some cp, fl')
      | None => None
      end
  | None => Some (None, fl)
  end.

(** The loop over the entries. *)
Fixpoint map_entries (external_jar_dir external_source_jar_dir
    external_javadoc_jar_dir : string) (entries : list JarEntry) (st : State)
  : option exn * State :=
  match entries with
  | [] => (None, st)
  | entry :: rest =>
      match truthy (e_default entry) with
      | None =>
          map_entries external_jar_dir external_source_jar_dir
            external_javadoc_jar_dir rest st
      | Some jar =>
          let cp_jar := PosixPath.join external_jar_dir (basename jar) in
          match Staging.copy jar cp_jar (files st) with
          | None => (Some IOError, st)
          | Some fl1 =>
              match stage external_source_jar_dir (e_sources entry) fl1 with
              | None =>
                  (Some IOError, {| files := fl1; external_jars := external_jars st |})
              | Some (cp_source_jar, fl2) =>
                  match stage external_javadoc_jar_dir (e_javadoc entry) fl2 with
                  | None =>
                      (Some IOError,
                       {| files := fl2; external_jars := external_jars st |})
                  | Some (cp_javadoc_jar, fl3) =>
                      map_entries external_jar_dir external_source_jar_dir
                        external_javadoc_jar_dir rest
                        {| files := fl3;
                           external_jars :=
                             external_jars st
                             ++ [{| Staging.jar := cp_jar;
                                    Staging.source_jar := cp_source_jar;
                                    Staging.javadoc_jar := cp_javadoc_jar |}] |}
                  end
              end
          end
      end
  end.

(** [IdeGen.map_external_jars()], from the entries that
    [list_jar_dependencies] gives for the binary: the exception raised, if
    any, and the state in which the call ends. *)
Definition map_external_jars (work_dir : string) (entries : list JarEntry)
    (st : State) : option exn * State :=
  let external_jar_dir := PosixPath.join work_dir "external-libs" in
  let fl1 := Staging.safe_mkdir_clean external_jar_dir (files st) in
  let external_source_jar_dir := PosixPath.join work_dir "external-libsources" in
  let fl2 := Staging.safe_mkdir_clean external_source_jar_dir fl1 in
  let external_javadoc_jar_dir := PosixPath.join work_dir "external-libjavadoc" in
  let fl3 := Staging.safe_mkdir_clean external_javadoc_jar_dir fl2 in
  map_entries external_jar_dir external_source_jar_dir external_javadoc_jar_dir
    entries {| files := fl3; external_jars := external_jars st |}.

(** [f] lies in one of the three staging directories. *)
Definition in_staging (work_dir f : string) : bool :=
  Staging.under (PosixPath.join work_dir "external-libs") f
  || Staging.under (PosixPath.join work_dir "external-libsources") f
  || Staging.under (PosixPath.join work_dir "external-libjavadoc") f.

(** The classpath entry for an entry whose default artifact is [jar]. *)
Definition entry_of (work_dir : string) (entry : JarEntry) (jar : string)
  : Staging.ClasspathEntry :=
  {| Staging.jar :=
       PosixPath.join (PosixPath.join work_dir "external-libs") (basename jar);
     Staging.source_jar :=
       option_map (fun a => PosixPath.join (PosixPath.join work_dir "external-libsources")
                                           (basename a))
                  (truthy (e_sources entry));
     Staging.javadoc_jar :=
       option_map (fun a => PosixPath.join (PosixPath.join work_dir "external-libjavadoc")
                                           (basename a))
                  (truthy (e_javadoc entry)) |}.

(** One classpath entry for every entry that has a default artifact, in
    order. *)
Definition entries_of (work_dir : string) (entries : list JarEntry)
  : list Staging.ClasspathEntry :=
  flat_map (fun entry =>
              match truthy (e_default entry) with
              | Some jar => [entry_of work_dir entry jar]
              | None => []
              end)
           entries.

(** [a] is an artifact the call copies: the default artifact of an entry,
    or the sources or javadoc artifact of an entry that has a default
    artifact. *)
Definition referenced (entries : list JarEntry) (a : string) : Prop :=
  exists entry jar,
    In entry entries /\ truthy (e_default entry) = Some jar
    /\ (a = jar \/ truthy (e_sources entry) = Some a
        \/ truthy (e_javadoc entry) = Some a).

(** Two resolved dependencies, the second without javadoc, and an entry
    that only has sources. *)
Definition example_entries : list JarEntry :=
  [{| e_default := Some "/ivy/guava/guava-14.jar";
      e_sources := Some "/ivy/guava/guava-14-sources.jar";
      e_javadoc := Some "/ivy/guava/guava-14-javadoc.jar" |};
   {| e_default := Some "/ivy/junit/junit-4.jar";
      e_sources := Some "/ivy/junit/junit-4-sources.jar";
      e_javadoc := None |};
   {| e_default := None;
      e_sources := Some "/ivy/x/x-sources.jar";
      e_javadoc := None |}].

Definition example_state : State :=
  {| files :=
       ["/ivy/guava/guava-14.jar"; "/ivy/guava/guava-14-sources.jar";
        "/ivy/guava/guava-14-javadoc.jar"; "/ivy/junit/junit-4.jar";
        "/ivy/junit/junit-4-sources.jar"; "/w/external-libs/stale.jar"];
     external_jars := [] |}.

End External.

(** *** Python libraries *)

(** The source set [configure_python] appends for the entry [path] of the
    library root [root]. *)
Definition lib_source_set (W : World) (root path : string) : SourceSet :=
  {| ss_root_dir := get_buildroot W; ss_source_base := root; ss_path := Some path;
     ss_is_test := false; ss_excludes := [] |}.

(** The entries of the library root [root] that count as libraries, in the
    order of [os.listdir]: the directories and the eggs. *)
Definition lib_entries (W : World) (root : string) : list string :=
  match listdir W (PosixPath.join (get_buildroot W) root) with
  | Some names =>
      filter (fun path =>
                isdir W (PosixPath.join (PosixPath.join (get_buildroot W) root) path)
                || str_endswith path ".egg")
             names
  | None => []
  end.

(** A repository with a directory of third-party python libraries: an egg,
    an unpacked library and a text file. *)
Definition python_world : World :=
  {| cwd := "/r";
     fs := FsDir
             [("r",
               FsDir
                 [("3rdparty",
                   FsDir [("six-1.4.egg", FsFile);
                          ("requests", FsDir [("api.py", FsFile)]);
                          ("README", FsFile)]);
                  ("src", FsDir [("python", FsDir [])])])];
     get_buildroot := "/r";
     Target_get := fun _ => java_target "" [] false;
     candidates := fun _ => [];
     order := insertion_order |}.

(** *** The targets a run comes to *)

(** The targets [configure_target] hands back to the walk when it analyzes
    target [a]: the source targets among the candidates, other than [a],
    that have a source directory in common with [a]. *)
Definition siblings (W : World) (p : Project) (a : nat) : list nat :=
  filter (fun c =>
            source_target W p c
            && existsb (fun d => mem d (find_source_basedirs W p c))
                       (find_source_basedirs W p a))
         (filter (fun c => negb (Nat.eqb c a)) (candidates W a)).

(** The targets the walks of [configure_jvm] come to: the targets of the
    project, the dependencies of a target they come to, and the siblings of
    a source target they come to. *)
Inductive reached (W : World) (p : Project) : nat -> Prop :=
| reached_root (a : nat) : In a (targets p) -> reached W p a
| reached_dependency (a d : nat) :
    reached W p a -> In d (t_dependencies (Target_get W a)) -> reached W p d
| reached_sibling (a c : nat) :
    reached W p a -> source_target W p a = true -> In c (siblings W p a) ->
    reached W p c.

(** The targets that the targets of the project depend on, themselves
    included. *)
Inductive depended_on (W : World) (p : Project) : nat -> Prop :=
| depended_root (a : nat) : In a (targets p) -> depended_on W p a
| depended_dependency (a d : nat) :
    depended_on W p a -> In d (t_dependencies (Target_get W a)) -> depended_on W p d.

(** What a stretch of a walk has done, from the visited targets [w0] and
    the analyzed targets [a0] to [w1] and [a1]: both only grow; a target
    analyzed on the way was visited on the way; and of a target visited on
    the way the dependencies are visited, it is analyzed if the predicate
    holds of it, and its siblings are visited unless it was analyzed
    before. *)
Definition walk_post (deps : nat -> list nat) (pred : nat -> bool)
    (sib : nat -> list nat) (w0 a0 w1 a1 : list nat) : Prop :=
  incl w0 w1 /\ incl a0 a1
  /\ (forall y, In y a1 -> In y a0 \/ (In y w1 /\ ~ In y w0))
  /\ (forall y, In y w1 -> ~ In y w0 ->
        (forall d, In d (deps y) -> In d w1)
        /\ (pred y = true ->
            In y a1 /\ (In y a0 \/ forall c, In c (sib y) -> In c w1))).

(** Two targets of one BUILD file that own sources in the same directory;
    only target 0 is a target of the project, target 2 is found as its
    sibling. *)
Definition sibling_world : World :=
  {| cwd := "/r";
     fs := FsDir
             [("r",
               FsDir
                 [("src",
                   FsDir
                     [("java",
                       FsDir
                         [("com",
                           FsDir [("a", FsDir [("A.java", FsFile);
                                               ("B.java", FsFile)])])])])])];
     get_buildroot := "/r";
     Target_get := fun a =>
       match a with
       | 0 => java_target "src/java" ["com/a/A.java"] false
       | 2 => java_target "src/java" ["com/a/B.java"] false
       | _ => java_target "" [] false
       end;
     candidates := fun a => match a with 0 => [0; 2] | _ => [] end;
     order := insertion_order |}.

(** *** Termination *)

(** The number of targets below [N] that are not in [w]. *)
Definition unvisited (N : nat) (w : list nat) : nat :=
  List.length (filter (fun y => negb (mem_nat y w)) (seq 0 N)).

(** All targets the run can come to lie below [N]. *)
Definition targets_below (W : World) (p : Project) (N : nat) : Prop :=
  (forall a, In a (targets p) -> a < N)
  /\ (forall a d, In d (t_dependencies (Target_get W a)) -> d < N)
  /\ (forall a c, In c (candidates W a) -> c < N).

(** ** IdeGen.execute: the two staging calls *)

(** The files and the two sets of classpath entries of the project. *)
Record Staged : Type := {
  s_files : list string;
  s_internal_jars : list Staging.ClasspathEntry;
  s_external_jars : list Staging.ClasspathEntry
}.

(** [self.map_internal_jars(targets); self.map_external_jars()] as
    [IdeGen.execute] runs them: the second call is not made when the first
    raises. *)
Definition map_jars (work_dir : string)
    (jars_product source_jars_product : Staging.Product) (tgts : list nat)
    (entries : list External.JarEntry) (st : Staged) : option exn * Staged :=
  match Staging.map_internal_jars work_dir jars_product source_jars_product tgts
          {| Staging.files := s_files st;
             Staging.internal_jars := s_internal_jars st |} with
  | (Some e, st1) =>
      (Some e,
       {| s_files := Staging.files st1;
          s_internal_jars := Staging.internal_jars st1;
          s_external_jars := s_external_jars st |})
  | (None, st1) =>
      let (e, st2) :=
        External.map_external_jars work_dir entries
          {| External.files := Staging.files st1;
             External.external_jars := s_external_jars st |} in
      (e,
       {| s_files := External.files st2;
          s_internal_jars := Staging.internal_jars st1;
          s_external_jars := External.external_jars st2 |})
  end.

(** [f] lies in one of the two staging directories of the internal jars. *)
Definition in_internal_staging (work_dir f : string) : bool :=
  Staging.under (PosixPath.join work_dir "internal-libs") f
  || Staging.under (PosixPath.join work_dir "internal-libsources") f.

(** The file names the products give for the targets are plain file names:
    without a directory part, and neither [.] nor [..]. *)
Definition plain_jar_names (jars_product source_jars_product : Staging.Product)
    (tgts : list nat) : Prop :=
  forall target base jars jar,
    In target tgts ->
    In (base, jars) (jars_product target ++ source_jars_product target) ->
    In jar jars -> is_name jar = true.

(** The base directories the products give for the targets are normalized
    absolute paths. *)
Definition normalized_bases (jars_product source_jars_product : Staging.Product)
    (tgts : list nat) : Prop :=
  forall target base jars,
    In target tgts ->
    In (base, jars) (jars_product target ++ source_jars_product target) ->
    wf_root base = true.

(** The copies made while the pairs [mappings] of the jar mapping of a
    target are processed: for every pair the copy of its jar, and the copies
    of the jars of the source jar mapping of the target. *)
Definition copies_of_pairs (internal_jar_dir internal_source_jar_dir : string)
    (source_mappings mappings : list (string * list string)) : list string :=
  flat_map (fun bj =>
              map (PosixPath.join internal_jar_dir) (snd bj)
              ++ flat_map (fun sbj => map (PosixPath.join internal_source_jar_dir)
                                          (snd sbj))
                          source_mappings)
           mappings.

(** The copies made before the pair that follows the pairs [before] in the
    jar mapping of [target] is reached, the targets [pre] coming first. *)
Definition copied_before (work_dir : string)
    (jars_product source_jars_product : Staging.Product)
    (pre : list nat) (target : nat) (before : list (string * list string))
  : list string :=
  flat_map (fun t => copies_of_pairs (PosixPath.join work_dir "internal-libs")
                       (PosixPath.join work_dir "internal-libsources")
                       (source_jars_product t) (jars_product t))
           pre
  ++ copies_of_pairs (PosixPath.join work_dir "internal-libs")
       (PosixPath.join work_dir "internal-libsources")
       (source_jars_product target) before.

(** Target 1 maps two jars under two bases with a source jar each, target 2
    has no mapping, target 3 maps one jar and then two jars under one
    base. *)
Definition late_ambiguity_jars : Staging.Product :=
  fun target =>
    match target with
    | 1 => [("/out/a", ["a.jar"]); ("/out/b", ["b.jar"])]
    | 3 => [("/out/c", ["c.jar"]); ("/out/lib", ["t-1.jar"; "t-2.jar"])]
    | _ => []
    end.

Definition late_ambiguity_source_jars : Staging.Product :=
  fun target =>
    match target with
    | 1 => [("/out/a", ["a-sources.jar"])]
    | 2 => [("/out/x", ["x-1-sources.jar"; "x-2-sources.jar"])]
    | _ => []
    end.

Definition late_ambiguity_artifacts : Staging.State :=
  {| Staging.files :=
       ["/out/a/a.jar"; "/out/b/b.jar"; "/out/a/a-sources.jar"; "/out/c/c.jar";
        "/out/lib/t-1.jar"; "/out/lib/t-2.jar"; "/out/x/x-1-sources.jar";
        "/out/x/x-2-sources.jar"; "/w/internal-libs/old.jar"];
     Staging.internal_jars := [] |}.

(** The files of [two_bases_artifacts] and of [External.example_state]
    together, without classpath entries. *)
Definition example_staged : Staged :=
  {| s_files := Staging.files two_bases_artifacts
                ++ External.files External.example_state;
     s_internal_jars := [];
     s_external_jars := [] |}.

(** ** Source sets by directory *)

(** The source set has a path: it comes from the sources or resources of a
    target, not from an extra root. *)
Definition has_path (ss : SourceSet) : bool :=
  match ss_path ss with Some _ => true | None => false end.

(** Target 0 with base [src] and target 1 with base [src/java] both have a
    source in the directory [src/java/com/foo]; target 0 has one in
    [src/java] too. *)
Definition shared_directory_world : World :=
  {| cwd := "/r";
     fs := example_fs;
     get_buildroot := "/r";
     Target_get := fun a =>
       match a with
       | 0 => java_target "src" ["java/com/foo/A.java"; "java/A.java"] false
       | 1 => java_target "src/java" ["com/foo/A.java"] false
       | _ => java_target "" [] false
       end;
     candidates := fun _ => [];
     order := insertion_order |}.
Example join_ex1 : PosixPath.join (PosixPath.join "/r" "") "" = "/r/".
Proof. reflexivity. Qed.
Example join_ex2 : PosixPath.join (PosixPath.join "/r" "src/java") "com/foo" = "/r/src/java/com/foo".
Proof. reflexivity. Qed.
Example split_ex1 : PosixPath.split "/r/src//java" = ("/r/src", "java").
Proof. reflexivity. Qed.
Example split_ex2 : PosixPath.split "//a" = ("//", "a").
Proof. reflexivity. Qed.
Example split_ex3 : PosixPath.split "/r/" = ("/r", "").
Proof. reflexivity. Qed.
Example split_ex4 : PosixPath.split "Foo.java" = ("", "Foo.java").
Proof. reflexivity. Qed.
Example relpath_ex1 : PosixPath.relpath "/cwd" "/r/src/java/com/foo/bar" "/r/src/java" = Some "com/foo/bar".
Proof. reflexivity. Qed.
Example relpath_ex2 : PosixPath.relpath "/cwd" "/r/a/../b" "/r/c/" = Some "../b".
Proof. reflexivity. Qed.
Example normpath_ex1 : PosixPath.normpath "//a/./b/../c/" = "//a/c".
Proof. reflexivity. Qed.
Example normpath_ex2 : PosixPath.normpath "a/../../b" = "../b".
Proof. reflexivity. Qed.


(** * Properties *)

(** ** Outcomes, loops and walks *)

Lemma bind_Returns {A B : Type} (m : outcome A) (k : A -> outcome B) (b : B) :
  bind m k = Returns b -> exists a, m = Returns a /\ k a = Returns b.
Proof.
  destruct m; simpl; intros H; try discriminate. eauto.
Qed.

Ltac bind_inv H :=
  let x := fresh "x" in
  let Hx := fresh "Hx" in
  apply bind_Returns in H; destruct H as (x & Hx & H).

Lemma for_each_inv {A S : Type} (P : S -> Prop) (body : A -> S -> outcome S)
    (l : list A) :
  (forall x s s', In x l -> body x s = Returns s' -> P s -> P s') ->
  forall s s', for_each body l s = Returns s' -> P s -> P s'.
Proof.
  induction l as [|x l IH]; simpl; intros Hb s s' H Hs.
  - inversion H; subst; assumption.
  - bind_inv H. eapply IH; eauto.
Qed.

Lemma fold_left_inv {A S : Type} (P : S -> Prop) (f : S -> A -> S) (l : list A) :
  (forall x s, In x l -> P s -> P (f s x)) ->
  forall s, P s -> P (fold_left f l s).
Proof.
  induction l as [|x l IH]; simpl; intros Hf s Hs; auto.
Qed.

Lemma map_outcome_Forall2 {A B : Type} (f : A -> outcome B) (l : list A) (l' : list B) :
  map_outcome f l = Returns l' -> Forall2 (fun x y => f x = Returns y) l l'.
Proof.
  revert l'. induction l as [|x l IH]; simpl; intros l' H.
  - inversion H; constructor.
  - bind_inv H. bind_inv H. inversion H; subst. constructor; auto.
Qed.

(** A walk changes the state only by applying [work]. *)
Lemma walk_inv {S : Type} (P : S -> Prop) deps (work : nat -> S -> S * list nat) pred :
  (forall a s, P s -> P (fst (work a s))) ->
  forall fuel t ws ws',
    walk fuel deps work pred t ws = Returns ws' -> P (snd ws) -> P (snd ws').
Proof.
  intros Hw. induction fuel as [|fuel IH]; simpl; intros t [w s] ws' H Hs.
  - discriminate.
  - destruct (mem_nat t w).
    + inversion H; subst; assumption.
    + destruct (if pred t then work t s else (s, [])) as [st' extra] eqn:E.
      assert (Hst' : P st').
      { destruct (pred t).
        - specialize (Hw t s Hs). rewrite E in Hw. exact Hw.
        - inversion E; subst; assumption. }
      eapply (for_each_inv (fun ws => P (snd ws))); [|exact H|exact Hst'].
      intros x s0 s0' _. apply IH.
Qed.

Lemma walk_all_inv {S : Type} (P : S -> Prop) deps (work : nat -> S -> S * list nat) pred :
  (forall a s, P s -> P (fst (work a s))) ->
  forall fuel roots s s',
    walk_all fuel deps work pred roots s = Returns s' -> P s -> P s'.
Proof.
  intros Hw fuel roots. unfold walk_all. apply for_each_inv.
  intros x s s' _ H Hs. bind_inv H. inversion H; subst.
  apply (walk_inv P deps work pred Hw fuel x ([], s) x0 Hx Hs).
Qed.

(** ** Membership-only sets *)

Lemma mem_In (x : string) (l : list string) : mem x l = true <-> In x l.
Proof.
  unfold mem. rewrite existsb_exists. split.
  - intros (y & Hy & E). apply String.eqb_eq in E. subst. assumption.
  - intros H. exists x. split; [assumption | apply String.eqb_refl].
Qed.

Lemma mem_false (x : string) (l : list string) : mem x l = false <-> ~ In x l.
Proof.
  rewrite <- mem_In. destruct (mem x l); split; intros; congruence.
Qed.

Lemma mem_nat_In (x : nat) (l : list nat) : mem_nat x l = true <-> In x l.
Proof.
  unfold mem_nat. rewrite existsb_exists. split.
  - intros (y & Hy & E). apply Nat.eqb_eq in E. subst. assumption.
  - intros H. exists x. split; [assumption | apply Nat.eqb_refl].
Qed.

Lemma set_add_In (x y : string) (s : list string) :
  In y (set_add x s) <-> y = x \/ In y s.
Proof.
  unfold set_add. destruct (mem x s) eqn:E.
  - apply mem_In in E. split; [auto | intros [->|]; auto].
  - rewrite in_app_iff. simpl. split; intros H.
    + destruct H as [H|[H|[]]]; auto.
    + destruct H as [H|H]; auto.
Qed.

Lemma set_add_incl (x : string) (s : list string) : incl s (set_add x s).
Proof.
  intros y Hy. apply set_add_In. auto.
Qed.

(** ** The class-level set only grows *)

Lemma SourceSet_init_incl tb root base path is_test :
  incl tb (snd (SourceSet_init tb root base path is_test)).
Proof.
  unfold SourceSet_init; simpl. destruct is_test.
  - apply set_add_incl.
  - apply incl_refl.
Qed.

Lemma register_source_set_TEST_BASES base path is_test fr :
  incl (TEST_BASES fr) (TEST_BASES (register_source_set base path is_test fr)).
Proof.
  unfold register_source_set. simpl. destruct is_test.
  - apply set_add_incl.
  - apply incl_refl.
Qed.

(** What [configure_source_sets] does to a frame: it registers source sets,
    one at a time, for directories that are not targeted yet. *)
Lemma configure_source_sets_inv W (P : Frame -> Prop) base srcs is_test :
  (forall path fr,
      In path (map PosixPath.dirname srcs) ->
      mem (PosixPath.join (PosixPath.join (root_dir (self fr)) base) path)
          (targeted fr) = false ->
      P fr -> P (register_source_set base path is_test fr)) ->
  forall fr, P fr -> P (configure_source_sets W base srcs is_test fr).
Proof.
  intros Hreg. unfold configure_source_sets. apply fold_left_inv.
  intros path fr Hin Hfr. apply set_iter_In in Hin.
  destruct (mem _ (targeted fr)) eqn:E; auto.
Qed.

Lemma resources_by_basedir_In W target basedir rs src :
  In (basedir, rs) (resources_by_basedir W target) -> In src rs ->
  exists r, In r (t_resources target) /\ basedir = r_target_base r
            /\ In src (r_sources r).
Proof.
  unfold resources_by_basedir. intros H Hsrc.
  apply in_map_iff in H. destruct H as (b & E & _). inversion E; subst; clear E.
  apply set_iter_In in Hsrc. apply in_flat_map in Hsrc.
  destruct Hsrc as (r & Hr & Hs). apply filter_In in Hr. destruct Hr as (Hr & Eb).
  apply String.eqb_eq in Eb. exists r. auto.
Qed.

(** What [configure_target] does to a frame. *)
Lemma configure_target_inv W (P : Frame -> Prop) a :
  (forall base path is_test fr,
      declares W a base path ->
      mem (PosixPath.join (PosixPath.join (root_dir (self fr)) base) path)
          (targeted fr) = false ->
      P fr -> P (register_source_set base path is_test fr)) ->
  (forall fr b, P fr ->
     P (set_self {| self := self fr; TEST_BASES := TEST_BASES fr;
                    analyzed := oset_add a (analyzed fr); targeted := targeted fr |}
                 (set_has_scala (self fr) b))) ->
  (forall fr, P fr ->
     P (set_self fr (set_has_tests (self fr)
                       (has_tests (self fr) || t_is_test (Target_get W a))))) ->
  forall fr, P fr -> P (fst (configure_target W a fr)).
Proof.
  intros Hreg Han Hself fr Hfr. unfold configure_target.
  destruct (mem_nat a (analyzed fr)); simpl; [assumption|].
  match goal with
  | |- P (match t_sources _ with [] => ?fr2 | _ => _ end) =>
      assert (H2 : P fr2)
  end.
  { destruct (t_has_resources (Target_get W a)); [|apply Han; assumption].
    apply fold_left_inv; [|apply Han; assumption].
    intros [basedir rs] fr0 Hbr H0. simpl.
    apply configure_source_sets_inv; auto.
    intros path fr1 Hpath. apply Hreg. right.
    apply in_map_iff in Hpath. destruct Hpath as (src & <- & Hsrc).
    destruct (resources_by_basedir_In _ _ _ _ _ Hbr Hsrc) as (r & Hr & -> & Hs).
    exists r. repeat split; auto. apply in_map. assumption. }
  destruct (t_sources (Target_get W a)) as [|s0 l0] eqn:Es; [assumption|].
  apply configure_source_sets_inv; auto.
  intros path fr1 Hpath. apply Hreg. left. rewrite Es. auto.
Qed.

Lemma configure_target_TEST_BASES W tb a fr :
  incl tb (TEST_BASES fr) -> incl tb (TEST_BASES (fst (configure_target W a fr))).
Proof.
  apply (configure_target_inv W (fun fr => incl tb (TEST_BASES fr)) a).
  - intros base path is_test fr0 _ _ H. eapply incl_tran; [exact H|].
    apply register_source_set_TEST_BASES.
  - intros fr0 b H. exact H.
  - intros fr0 H. exact H.
Qed.

Lemma extend_extra_spec W is_test paths srcs tb :
  fst (extend_extra W is_test paths (srcs, tb))
  = srcs ++ map (extra_source_set W is_test) paths
  /\ incl tb (snd (extend_extra W is_test paths (srcs, tb)))
  /\ (is_test = true -> forall p, In p paths ->
        In p (snd (extend_extra W is_test paths (srcs, tb)))).
Proof.
  unfold extend_extra. revert srcs tb.
  induction paths as [|p paths IH]; intros srcs tb; simpl.
  - rewrite app_nil_r. repeat split; [apply incl_refl | intros _ p []].
  - destruct (IH (srcs ++ [extra_source_set W is_test p])
                 (if is_test then set_add p tb else tb)) as (E & I & T).
    unfold extra_source_set in *. simpl in *.
    split; [|split].
    + rewrite E. rewrite <- app_assoc. reflexivity.
    + eapply incl_tran; [|exact I]. destruct is_test; [apply set_add_incl | apply incl_refl].
    + intros Ht q [<-|Hq]; [|apply T; assumption].
      apply I. rewrite Ht. apply set_add_In. auto.
Qed.

(** ** The phases of configure_jvm *)

Lemma configure_jvm_phases W fuel p tb es et r :
  configure_jvm W fuel p tb es et = Returns r ->
  exists fr unex srcs tops tgts,
    walk_all fuel (deps_of W) (configure_target W) (source_target W p) (targets p)
             (initial_frame p tb) = Returns fr
    /\ unexcludable_of fuel (root_dir (self fr)) (sources (self fr)) = Returns unex
    /\ map_outcome (compute_excludes W (root_dir (self fr)) (targeted fr) unex)
                   (sources (self fr)) = Returns srcs
    /\ map_outcome (owned_path (root_dir (self fr))) (sources (self fr)) = Returns tops
    /\ sources (r_project r)
       = srcs ++ map (extra_source_set W false) es ++ map (extra_source_set W true) et
    /\ r_project r = set_sources (self fr) (sources (r_project r))
    /\ incl (TEST_BASES fr) (r_TEST_BASES r)
    /\ (forall x, In x et -> In x (r_TEST_BASES r))
    /\ r_scanned r = tops
    /\ r_analyzed r = analyzed fr
    /\ r_targets r
       = oset_update tgts (filter (fun a => negb (mem_nat a tgts)) (analyzed fr)).
Proof.
  unfold configure_jvm. intros H.
  bind_inv H. rename x into fr. bind_inv H. rename x into unex.
  bind_inv H. rename x into srcs. bind_inv H. rename x into tops.
  bind_inv H. rename x into tgts.
  destruct (extend_extra_spec W false es srcs (TEST_BASES fr)) as (E1 & I1 & _).
  destruct (extend_extra W false es (srcs, TEST_BASES fr)) as [srcs1 tb1].
  destruct (extend_extra_spec W true et srcs1 tb1) as (E2 & I2 & T2).
  destruct (extend_extra W true et (srcs1, tb1)) as [srcs2 tb2].
  simpl in *. inversion H; subst; clear H. simpl.
  exists fr, unex, srcs, tops, tgts.
  repeat split; auto.
  - rewrite <- app_assoc. reflexivity.
  - eapply incl_tran; eassumption.
Qed.

Lemma walk_phase_TEST_BASES W fuel p tb fr :
  walk_all fuel (deps_of W) (configure_target W) (source_target W p) (targets p)
           (initial_frame p tb) = Returns fr ->
  incl tb (TEST_BASES fr).
Proof.
  intros H.
  apply (walk_all_inv (fun fr => incl tb (TEST_BASES fr)) _ _ _
           (configure_target_TEST_BASES W tb) _ _ _ _ H).
  apply incl_refl.
Qed.

Lemma configure_jvm_TEST_BASES W fuel p tb es et r :
  configure_jvm W fuel p tb es et = Returns r ->
  incl tb (r_TEST_BASES r) /\ (forall x, In x et -> In x (r_TEST_BASES r)).
Proof.
  intros H. apply configure_jvm_phases in H.
  destruct H as (fr & unex & srcs & tops & tgts & Hw & _ & _ & _ & _ & _ & Hi & Ht & _).
  split; [|exact Ht].
  eapply incl_tran; [|exact Hi]. eapply walk_phase_TEST_BASES; eassumption.
Qed.

Lemma configure_python_TEST_BASES W p tb s t l p' tb' :
  configure_python W p tb s t l = Returns (p', tb') ->
  incl tb tb' /\ (forall x, In x t -> In x tb').
Proof.
  unfold configure_python. intros H.
  destruct (extend_extra_spec W false s (py_sources p) tb) as (_ & I1 & _).
  destruct (extend_extra W false s (py_sources p, tb)) as [py1 tb1].
  destruct (extend_extra_spec W true t py1 tb1) as (_ & I2 & T2).
  destruct (extend_extra W true t (py1, tb1)) as [py2 tb2].
  simpl in I1, I2, T2. bind_inv H. inversion H; subst; clear H.
  assert (I3 : incl tb2 (snd x)).
  { eapply (for_each_inv (fun acc => incl tb2 (snd acc))); [|exact Hx|apply incl_refl].
    intros root acc acc' _ Hb Ha. cbv beta in Hb.
    destruct (listdir W (PosixPath.join (get_buildroot W) root)) as [names|];
      [|discriminate].
    inversion Hb; subst; clear Hb.
    apply (fold_left_inv (fun acc => incl tb2 (snd acc))); [|exact Ha].
    intros path acc0 _ Ha0.
    destruct (isdir W _ || str_endswith path ".egg"); [|exact Ha0].
    simpl. exact Ha0. }
  split.
  - eapply incl_tran; [exact I1|]. eapply incl_tran; [exact I2|exact I3].
  - intros y Hy. apply I3. apply T2; [reflexivity|exact Hy].
Qed.

(** C9.  [SourceSet.TEST_BASES] is one set for the whole process: a test
    source set adds its source base to it, any other source set leaves it as
    it is, no call of [configure_jvm] or [configure_python] removes an
    element, and a second call, on any project, starts from what the first
    call left and still sees the test roots of the first. *)
Theorem TEST_BASES_process_wide W fuel p tb es et r W' fuel' p' es' et' r' :
  configure_jvm W fuel p tb es et = Returns r ->
  configure_jvm W' fuel' p' (r_TEST_BASES r) es' et' = Returns r' ->
  (forall tb0 root base path,
      snd (SourceSet_init tb0 root base path true) = set_add base tb0
      /\ In base (snd (SourceSet_init tb0 root base path true)))
  /\ (forall tb0 root base path, snd (SourceSet_init tb0 root base path false) = tb0)
  /\ incl tb (r_TEST_BASES r)
  /\ incl (r_TEST_BASES r) (r_TEST_BASES r')
  /\ (forall x, In x et -> In x (r_TEST_BASES r'))
  /\ (forall W0 p0 tb0 source_roots test_roots lib_roots p1 tb1,
        configure_python W0 p0 tb0 source_roots test_roots lib_roots = Returns (p1, tb1) ->
        incl tb0 tb1 /\ (forall x, In x test_roots -> In x tb1)).
Proof.
  intros H1 H2.
  apply configure_jvm_TEST_BASES in H1. destruct H1 as (I1 & T1).
  apply configure_jvm_TEST_BASES in H2. destruct H2 as (I2 & T2).
  split; [|split; [|split; [|split; [|split]]]]; auto.
  - intros tb0 root base path. split; [reflexivity|]. simpl. apply set_add_In. auto.
  - intros W0 p0 tb0 sr tr lr p1 tb1. apply configure_python_TEST_BASES.
Qed.

(** C8.  Each caller-supplied root yields one source set, appended after the
    source sets of the targets in the order given, flagged as the list it
    came from says, with no excludes; what precedes them, and the
    directories scanned, are those of the call without extra roots. *)
Theorem extra_roots_appended_verbatim W fuel p tb es et r :
  configure_jvm W fuel p tb es et = Returns r ->
  exists r0,
    configure_jvm W fuel p tb [] [] = Returns r0
    /\ sources (r_project r)
       = sources (r_project r0)
         ++ map (extra_source_set W false) es ++ map (extra_source_set W true) et
    /\ (forall ss, In ss (map (extra_source_set W false) es) ->
          ss_is_test ss = false /\ ss_excludes ss = [] /\ In (ss_source_base ss) es)
    /\ (forall ss, In ss (map (extra_source_set W true) et) ->
          ss_is_test ss = true /\ ss_excludes ss = [] /\ In (ss_source_base ss) et)
    /\ r_scanned r = r_scanned r0.
Proof.
  intros H. pose proof (configure_jvm_phases _ _ _ _ _ _ _ H) as Hp.
  destruct Hp as (fr & unex & srcs & tops & tgts & Hw & Hu & Hs & Ht & Hsrc & _ & _ & _ & Hsc & _).
  revert H. unfold configure_jvm.
  fold (deps_of W). fold (initial_frame p tb).
  rewrite Hw. simpl. rewrite Hu. simpl. rewrite Hs. simpl. rewrite Ht. simpl.
  destruct (walk_all fuel (deps_of W) _ (source_target W (self fr)) (targets (self fr)) [])
    as [tg| |]; simpl; try discriminate.
  intros _. eexists. split; [reflexivity|]. simpl.
  repeat split.
  - exact Hsrc.
  - apply in_map_iff in H. destruct H as (x & <- & Hx). reflexivity.
  - apply in_map_iff in H. destruct H as (x & <- & Hx). reflexivity.
  - apply in_map_iff in H. destruct H as (x & <- & Hx). exact Hx.
  - apply in_map_iff in H. destruct H as (x & <- & Hx). reflexivity.
  - apply in_map_iff in H. destruct H as (x & <- & Hx). reflexivity.
  - apply in_map_iff in H. destruct H as (x & <- & Hx). exact Hx.
  - exact Hsc.
Qed.

(** ** has_tests *)

Lemma configure_source_sets_flags W base srcs is_test fr :
  analyzed (configure_source_sets W base srcs is_test fr) = analyzed fr
  /\ has_tests (self (configure_source_sets W base srcs is_test fr)) = has_tests (self fr).
Proof.
  apply (configure_source_sets_inv W
           (fun fr' => analyzed fr' = analyzed fr
                       /\ has_tests (self fr') = has_tests (self fr))); auto.
Qed.

Lemma configure_target_flags W a fr :
  (mem_nat a (analyzed fr) = true -> fst (configure_target W a fr) = fr)
  /\ (mem_nat a (analyzed fr) = false ->
      analyzed (fst (configure_target W a fr)) = analyzed fr ++ [a]
      /\ has_tests (self (fst (configure_target W a fr)))
         = has_tests (self fr) || test_flagged W a).
Proof.
  unfold configure_target. split; intros E; rewrite E; simpl; [reflexivity|].
  match goal with
  | |- context [match t_sources _ with [] => ?X | _ => _ end] => set (fr2 := X)
  end.
  assert (H2 : analyzed fr2 = analyzed fr ++ [a]
               /\ has_tests (self fr2) = has_tests (self fr)).
  { subst fr2.
    assert (H1 : analyzed
                   (set_self {| self := self fr; TEST_BASES := TEST_BASES fr;
                                analyzed := oset_add a (analyzed fr);
                                targeted := targeted fr |}
                      (set_has_scala (self fr)
                         (negb (skip_scala (self fr))
                          && (has_scala (self fr) || is_scala (Target_get W a)))))
                 = analyzed fr ++ [a]
                 /\ has_tests
                      (self (set_self {| self := self fr; TEST_BASES := TEST_BASES fr;
                                         analyzed := oset_add a (analyzed fr);
                                         targeted := targeted fr |}
                               (set_has_scala (self fr)
                                  (negb (skip_scala (self fr))
                                   && (has_scala (self fr) || is_scala (Target_get W a))))))
                    = has_tests (self fr)).
    { simpl. unfold oset_add. rewrite E. auto. }
    destruct (t_has_resources (Target_get W a)); [|exact H1].
    apply (fold_left_inv
             (fun fr0 => analyzed fr0 = analyzed fr ++ [a]
                         /\ has_tests (self fr0) = has_tests (self fr)));
      [|exact H1].
    intros br fr0 _ (Ha & Ht).
    destruct (configure_source_sets_flags W (fst br) (snd br) false fr0) as (Ha' & Ht').
    rewrite Ha', Ht'. auto. }
  clearbody fr2. unfold test_flagged. destruct H2 as (Ha & Ht).
  destruct (t_sources (Target_get W a)) as [|s0 l0].
  - rewrite orb_false_r. auto.
  - match goal with
    | |- context [configure_source_sets W ?b ?s ?t ?f] =>
        destruct (configure_source_sets_flags W b s t f) as (Ha' & Ht')
    end.
    rewrite Ha', Ht'. simpl. rewrite Ha, Ht. auto.
Qed.

Lemma configure_target_has_tests W a fr :
  has_tests (self fr) = existsb (test_flagged W) (analyzed fr) ->
  has_tests (self (fst (configure_target W a fr)))
  = existsb (test_flagged W) (analyzed (fst (configure_target W a fr))).
Proof.
  intros H. destruct (configure_target_flags W a fr) as (Ht & Hf).
  destruct (mem_nat a (analyzed fr)).
  - rewrite Ht; auto.
  - destruct (Hf eq_refl) as (Ea & Eh). rewrite Ea, Eh, H, existsb_app. simpl.
    rewrite orb_false_r. reflexivity.
Qed.

Lemma configure_target_has_tests_mono W a fr :
  has_tests (self fr) = true ->
  has_tests (self (fst (configure_target W a fr))) = true.
Proof.
  intros H. destruct (configure_target_flags W a fr) as (Ht & Hf).
  destruct (mem_nat a (analyzed fr)).
  - rewrite Ht; auto.
  - destruct (Hf eq_refl) as (_ & Eh). rewrite Eh, H. reflexivity.
Qed.

Lemma configure_python_frame W p tb s t l p' tb' :
  configure_python W p tb s t l = Returns (p', tb') ->
  sources p' = sources p /\ has_tests p' = has_tests p /\ root_dir p' = root_dir p
  /\ targets p' = targets p.
Proof.
  unfold configure_python. intros H.
  destruct (extend_extra W false s (py_sources p, tb)) as [py1 tb1].
  destruct (extend_extra W true t (py1, tb1)) as [py2 tb2].
  bind_inv H. inversion H; subst. simpl. auto.
Qed.

Lemma configure_project_start W fuel g ts tb r :
  configure_project W fuel g ts tb = Returns r ->
  exists p tb',
    configure_jvm W fuel p tb' (extra_jvm_source_paths g) (extra_jvm_test_paths g)
    = Returns r
    /\ sources p = [] /\ has_tests p = false /\ root_dir p = get_buildroot W.
Proof.
  unfold configure_project. intros H. bind_inv H. destruct x as [p tb'].
  exists p, tb'. split; [exact H|]. simpl in *.
  destruct (python g).
  - apply configure_python_frame in Hx. simpl in Hx. tauto.
  - inversion Hx; subst. simpl. auto.
Qed.

(** C7, as the code has it.  When configuration has completed, [has_tests]
    holds exactly when some analyzed target that declares sources is flagged
    as a test; the extra test roots and the python test roots play no part.
    Analyzing one more target never resets the flag. *)
Theorem has_tests_iff_test_target W fuel g ts tb r :
  configure_project W fuel g ts tb = Returns r ->
  (has_tests (r_project r) = true <->
   exists a, In a (r_analyzed r) /\ t_sources (Target_get W a) <> []
             /\ t_is_test (Target_get W a) = true)
  /\ (forall a fr, has_tests (self fr) = true ->
                   has_tests (self (fst (configure_target W a fr))) = true).
Proof.
  intros H. split; [|intros a fr; apply configure_target_has_tests_mono].
  apply configure_project_start in H. destruct H as (p & tb' & H & _ & Hp & _).
  apply configure_jvm_phases in H.
  destruct H as (fr & unex & srcs & tops & tgts & Hw & _ & _ & _ & _ & Hr & _ & _ & _ & Ha & _).
  assert (Hinv : has_tests (self fr) = existsb (test_flagged W) (analyzed fr)).
  { apply (walk_all_inv
             (fun fr => has_tests (self fr) = existsb (test_flagged W) (analyzed fr))
             _ _ _ (configure_target_has_tests W) _ _ _ _ Hw).
    simpl. exact Hp. }
  rewrite Hr, Ha. simpl. rewrite Hinv, existsb_exists.
  unfold test_flagged. split.
  - intros (a & Hin & Ht). exists a. split; [exact Hin|].
    destruct (t_sources (Target_get W a)); [discriminate|]. split; [discriminate|exact Ht].
  - intros (a & Hin & Hs & Ht). exists a. split; [exact Hin|].
    destruct (t_sources (Target_get W a)); [contradiction|exact Ht].
Qed.

(** ** The source sets of the targets *)

Section SourceInvariant.

Variable W : World.
Variable root : string.
Variable ok : string -> string -> Prop.
Hypothesis ok_declared : forall a base path, declares W a base path -> ok base path.

Lemma register_source_set_src_inv base path is_test fr :
  ok base path ->
  mem (PosixPath.join (PosixPath.join (root_dir (self fr)) base) path)
      (targeted fr) = false ->
  src_inv root ok fr -> src_inv root ok (register_source_set base path is_test fr).
Proof.
  intros Hok Hmem (Hroot & Hsrc & Hnd).
  rewrite Hroot in Hmem. apply mem_false in Hmem.
  unfold src_inv, register_source_set. simpl. rewrite Hroot.
  split; [reflexivity|]. split.
  - intros ss Hin. apply in_app_iff in Hin. destruct Hin as [Hin|[<-|[]]].
    + destruct (Hsrc ss Hin) as (R & E & path0 & Hp & Ht & Hk).
      repeat split; auto. exists path0. repeat split; auto.
      apply set_add_In. auto.
    + simpl. repeat split. exists path. repeat split; auto.
      apply set_add_In. auto.
  - rewrite map_app. apply NoDup_app; auto.
    + simpl. constructor; [intros []|constructor].
    + intros k Hk [<-|[]]. apply in_map_iff in Hk.
      destruct Hk as (ss & Ek & Hin).
      destruct (Hsrc ss Hin) as (_ & _ & path0 & Hp & Ht & _).
      unfold ss_key in Ek. simpl in Ek. inversion Ek; subst.
      rewrite Hp in H1. inversion H1; subst. contradiction.
Qed.

Lemma configure_target_src_inv a fr :
  src_inv root ok fr -> src_inv root ok (fst (configure_target W a fr)).
Proof.
  apply (configure_target_inv W (src_inv root ok) a).
  - intros base path is_test fr0 Hd. apply register_source_set_src_inv.
    eapply ok_declared; eassumption.
  - intros fr0 b H. exact H.
  - intros fr0 H. exact H.
Qed.

Lemma walk_phase_src_inv fuel p tb fr :
  sources p = [] -> root_dir p = root ->
  walk_all fuel (deps_of W) (configure_target W) (source_target W p) (targets p)
           (initial_frame p tb) = Returns fr ->
  src_inv root ok fr.
Proof.
  intros Hs Hr H.
  apply (walk_all_inv (src_inv root ok) _ _ _ configure_target_src_inv _ _ _ _ H).
  unfold src_inv, initial_frame. simpl. rewrite Hs. simpl.
  split; [exact Hr|]. split; [intros ss []|constructor].
Qed.

End SourceInvariant.

Lemma compute_excludes_spec W root tg unex ss ss' :
  compute_excludes W root tg unex ss = Returns ss' ->
  exists top rs,
    owned_path root ss = Returns top
    /\ relpaths W (excluded_children W tg unex top)
                (PosixPath.join root (ss_source_base ss)) = Returns rs
    /\ ss' = excludes_append ss rs.
Proof.
  unfold compute_excludes. intros H. bind_inv H. bind_inv H. inversion H; subst.
  eauto.
Qed.

Lemma compute_excludes_keys W root tg unex l l' :
  map_outcome (compute_excludes W root tg unex) l = Returns l' ->
  map ss_key l' = map ss_key l.
Proof.
  intros H. apply map_outcome_Forall2 in H.
  induction H as [|ss ss' l l' H _ IH]; simpl; [reflexivity|].
  apply compute_excludes_spec in H. destruct H as (top & rs & _ & _ & ->).
  rewrite IH. reflexivity.
Qed.

Lemma NoDup_map_extra_key (l : list string) :
  NoDup l -> NoDup (map (fun x : string => (x, @None string)) l).
Proof.
  induction 1 as [|x l Hx Hl IH]; simpl; constructor; auto.
  intros Hin. apply in_map_iff in Hin. destruct Hin as (y & E & Hy).
  inversion E; subst. contradiction.
Qed.

(** C4, as the code has it.  On a project that has no source sets yet, and
    when no path is given twice among the extra source and test roots, the
    keys [(source_base, relative_path)] of the final source-set list are
    pairwise distinct. *)
Theorem source_set_keys_unique W fuel p tb es et r :
  sources p = [] ->
  NoDup (es ++ et) ->
  configure_jvm W fuel p tb es et = Returns r ->
  NoDup (map ss_key (sources (r_project r))).
Proof.
  intros Hs Hnd H. apply configure_jvm_phases in H.
  destruct H as (fr & unex & srcs & tops & tgts & Hw & _ & Hx & _ & Hsrc & _).
  apply (walk_phase_src_inv W (root_dir p) (fun _ _ => True)) in Hw; auto.
  destruct Hw as (_ & Hall & Hkeys).
  pose proof (compute_excludes_keys _ _ _ _ _ _ Hx) as Ek.
  rewrite Hsrc, map_app, Ek. apply NoDup_app; auto.
  - assert (E : map ss_key (map (extra_source_set W false) es
                            ++ map (extra_source_set W true) et)
                = map (fun x => (x, @None string)) (es ++ et)).
    { rewrite !map_app, !map_map. reflexivity. }
    rewrite E. apply NoDup_map_extra_key. exact Hnd.
  - intros k Hk Hk'. apply in_map_iff in Hk. destruct Hk as (ss & <- & Hin).
    destruct (Hall ss Hin) as (_ & _ & path & Hp & _).
    apply in_map_iff in Hk'. destruct Hk' as (x & Ex & Hin').
    apply in_app_iff in Hin'.
    destruct Hin' as [Hin'|Hin']; apply in_map_iff in Hin';
      destruct Hin' as (y & <- & _); unfold ss_key in Ex; simpl in Ex;
      inversion Ex; congruence.
Qed.

(** ** Strings and separators *)

Lemma str_app_assoc (a b c : string) : (a +:+ b) +:+ c = a +:+ (b +:+ c).
Proof.
  induction a as [|x a IH]; simpl; [reflexivity|]. rewrite IH. reflexivity.
Qed.

Lemma str_app_nil_r (a : string) : a +:+ "" = a.
Proof.
  induction a as [|x a IH]; simpl; [reflexivity|]. rewrite IH. reflexivity.
Qed.

Lemma str_app_length (a b : string) :
  String.length (a +:+ b) = String.length a + String.length b.
Proof.
  induction a as [|x a IH]; simpl; [reflexivity|]. rewrite IH. reflexivity.
Qed.

Lemma str_app_inv_head (a b c : string) : a +:+ b = a +:+ c -> b = c.
Proof.
  induction a as [|x a IH]; simpl; intros H; [assumption|].
  inversion H. auto.
Qed.

Lemma is_sep_eq (c : ascii) : is_sep c = true -> c = "/"%char.
Proof.
  unfold is_sep. apply Ascii.eqb_eq.
Qed.

Lemma all_sep_app (a b : string) : all_sep (a +:+ b) = all_sep a && all_sep b.
Proof.
  induction a as [|x a IH]; simpl; [reflexivity|].
  rewrite IH. apply andb_assoc.
Qed.

Lemma endswith_sep_app_cons (a : string) (c : ascii) (b : string) :
  endswith_sep (a +:+ String c b) = endswith_sep (String c b).
Proof.
  induction a as [|x a IH]; [reflexivity|].
  change (endswith_sep (String x (a +:+ String c b)) = endswith_sep (String c b)).
  rewrite <- IH. simpl. destruct (a +:+ String c b) eqn:E; [|reflexivity].
  destruct a; discriminate.
Qed.

(** A string of separators only is empty or ends with one. *)
Lemma all_sep_endswith (a : string) :
  all_sep a = true -> a = "" \/ endswith_sep a = true.
Proof.
  induction a as [|x a IH]; simpl; intros H; [auto|].
  apply andb_true_iff in H. destruct H as (Hx & Ha). right.
  destruct a; [assumption|]. destruct (IH Ha) as [E|E]; [discriminate|exact E].
Qed.

Lemma rstrip_sep_empty (s : string) : rstrip_sep s = "" <-> all_sep s = true.
Proof.
  induction s as [|c s IH]; simpl; [tauto|].
  destruct (rstrip_sep s) eqn:E.
  - destruct (is_sep c); simpl.
    + rewrite <- IH. tauto.
    + split; discriminate.
  - split; [discriminate|]. intros H. apply andb_true_iff in H.
    destruct H as (_ & H). apply IH in H. discriminate.
Qed.

Lemma rstrip_sep_app (a b : string) :
  rstrip_sep (a +:+ b)
  = if all_sep b then rstrip_sep a else a +:+ rstrip_sep b.
Proof.
  induction a as [|x a IH]; simpl.
  - destruct (all_sep b) eqn:E; [|reflexivity]. apply rstrip_sep_empty. exact E.
  - rewrite IH. destruct (all_sep b) eqn:E; [reflexivity|].
    destruct (a +:+ rstrip_sep b) eqn:E'; [|reflexivity].
    destruct a; simpl in E'; [|discriminate].
    apply rstrip_sep_empty in E'. congruence.
Qed.

Lemma rstrip_sep_fixed (a : string) : endswith_sep a = false -> rstrip_sep a = a.
Proof.
  induction a as [|x a IH]; simpl; intros H; [reflexivity|].
  destruct a as [|y a].
  - simpl. rewrite H. reflexivity.
  - rewrite (IH H). reflexivity.
Qed.

(** [rstrip] removes a suffix of separators and leaves a string that does
    not end with one. *)
Lemma rstrip_sep_spec (s : string) :
  exists t, s = rstrip_sep s +:+ t /\ all_sep t = true
            /\ endswith_sep (rstrip_sep s) = false.
Proof.
  induction s as [|c s IH]; simpl.
  - exists "". auto.
  - destruct IH as (t & Es & Ht & He).
    destruct (rstrip_sep s) eqn:E.
    + simpl in Es. subst t. destruct (is_sep c) eqn:Ec.
      * exists (String c s). simpl. rewrite Ec, Ht. auto.
      * exists s. simpl. rewrite Ec. auto.
    + exists t. split; [|split; [exact Ht|exact He]].
      change (String c s = String c (String a s0 +:+ t)). rewrite <- Es. reflexivity.
Qed.

Lemma upto_last_sep_app (a b : string) :
  upto_last_sep (a +:+ "/" +:+ b) = a +:+ "/" +:+ upto_last_sep b.
Proof.
  induction a as [|x a IH]; simpl in *; [reflexivity|].
  rewrite IH. destruct (is_sep x); [reflexivity|].
  destruct a; reflexivity.
Qed.

(** [p[:i]] is a prefix of [p] that is empty or ends with a separator. *)
Lemma upto_last_sep_spec (s : string) :
  exists t, s = upto_last_sep s +:+ t
            /\ (upto_last_sep s = "" \/ endswith_sep (upto_last_sep s) = true).
Proof.
  induction s as [|c s IH]; simpl.
  - exists "". auto.
  - destruct IH as (t & Es & He).
    destruct (is_sep c) eqn:Ec.
    + exists t. split; [simpl; f_equal; exact Es|]. right.
      destruct (upto_last_sep s) eqn:E; [exact Ec|].
      destruct He as [He|He]; [discriminate|exact He].
    + destruct (upto_last_sep s) eqn:E.
      * exists (String c s). auto.
      * exists t. split; [simpl; f_equal; exact Es|]. right.
        destruct He as [He|He]; [discriminate|exact He].
Qed.

Lemma upto_last_sep_no_sep (s : string) : has_sep s = false -> upto_last_sep s = "".
Proof.
  induction s as [|c s IH]; simpl; intros H; [reflexivity|].
  apply orb_false_iff in H. destruct H as (Hc & Hs).
  rewrite Hc, (IH Hs). reflexivity.
Qed.

Lemma nonempty_true (s : string) : nonempty s = true <-> s <> "".
Proof.
  unfold nonempty. rewrite negb_true_iff. apply String.eqb_neq.
Qed.

(** ** The ancestor loop *)

Section AncestorLoop.

Variable root : string.
Hypothesis root_nonempty : root <> "".
Hypothesis root_no_trailing_sep : endswith_sep root = false.

Lemma root_not_all_sep (x : string) : all_sep (root +:+ x) = false.
Proof.
  rewrite all_sep_app. destruct (all_sep root) eqn:E; [|reflexivity].
  destruct (all_sep_endswith _ E); congruence.
Qed.

(** One step up from a path below [root] stays below [root] or reaches
    it, and shortens the path. *)
Lemma split_below_root (rest : string) :
  let p := root +:+ "/" +:+ rest in
  (fst (PosixPath.split p) = root
   \/ exists rest', fst (PosixPath.split p) = root +:+ "/" +:+ rest')
  /\ String.length (fst (PosixPath.split p)) < String.length p.
Proof.
  cbv zeta. unfold PosixPath.split.
  rewrite upto_last_sep_app.
  assert (Hne : nonempty (root +:+ "/" +:+ upto_last_sep rest) = true).
  { apply nonempty_true. destruct root; discriminate. }
  rewrite Hne, root_not_all_sep. cbn [negb andb fst].
  destruct (upto_last_sep_spec rest) as (t & Er & He).
  destruct (rstrip_sep_spec (upto_last_sep rest)) as (t' & Eu & Ht' & Hn).
  set (u := upto_last_sep rest) in *.
  assert (Hs : all_sep ("/" +:+ u) = all_sep u) by reflexivity.
  rewrite rstrip_sep_app, Hs.
  destruct (all_sep u) eqn:Ea.
  - rewrite (rstrip_sep_fixed _ root_no_trailing_sep). split; [left; reflexivity|].
    rewrite str_app_length. simpl. lia.
  - assert (Hr : rstrip_sep ("/" +:+ u) = "/" +:+ rstrip_sep u).
    { simpl. destruct (rstrip_sep u) eqn:E; [|reflexivity].
      apply rstrip_sep_empty in E. congruence. }
    rewrite Hr. split; [right; eexists; reflexivity|].
    assert (Hlen : String.length (rstrip_sep u) < String.length rest).
    { rewrite Er, str_app_length.
      assert (String.length (rstrip_sep u) < String.length u); [|lia].
      rewrite Eu at 2. rewrite str_app_length.
      destruct t' as [|c t']; [|simpl; lia].
      rewrite str_app_nil_r in Eu.
      destruct He as [He|He]; [rewrite He in Ea; discriminate|].
      rewrite <- Eu in Hn. congruence. }
    rewrite !str_app_length. simpl. lia.
Qed.

(** Conversely, a path one step below a path below [root] is below
    [root]. *)
Lemma split_reaches_root (p : string) :
  (fst (PosixPath.split p) = root
   \/ exists rest', fst (PosixPath.split p) = root +:+ "/" +:+ rest') ->
  exists rest, p = root +:+ "/" +:+ rest.
Proof.
  unfold PosixPath.split.
  destruct (upto_last_sep_spec p) as (t & Ep & He).
  destruct (nonempty (upto_last_sep p) && negb (all_sep (upto_last_sep p))) eqn:C; simpl.
  - apply andb_true_iff in C. destruct C as (Cn & Ca).
    apply nonempty_true in Cn. apply negb_true_iff in Ca.
    destruct He as [He|He]; [contradiction|].
    destruct (rstrip_sep_spec (upto_last_sep p)) as (t' & Eu & Ht' & Hn).
    destruct t' as [|c t'].
    { rewrite str_app_nil_r in Eu. rewrite <- Eu in Hn. congruence. }
    simpl in Ht'. apply andb_true_iff in Ht'. destruct Ht' as (Hc & _).
    apply is_sep_eq in Hc. subst c.
    intros [E|(rest' & E)]; rewrite E in Eu; rewrite Ep, Eu.
    + exists (t' +:+ t). rewrite !str_app_assoc. reflexivity.
    + exists (rest' +:+ "/" +:+ t' +:+ t). rewrite !str_app_assoc. reflexivity.
  - intros H.
    assert (Hx : exists x, upto_last_sep p = root +:+ x).
    { destruct H as [E|(rest' & E)]; rewrite E; [exists ""|eauto].
      rewrite str_app_nil_r. reflexivity. }
    destruct Hx as (x & Ex). rewrite Ex in C.
    rewrite root_not_all_sep in C. simpl in C. rewrite andb_true_r in C.
    unfold nonempty in C. apply negb_false_iff, String.eqb_eq in C.
    destruct root; [contradiction|discriminate].
Qed.

Lemma loop_returns_below_root (rest : string) :
  forall n acc, String.length (root +:+ "/" +:+ rest) < n ->
  exists acc', unexcludable_loop n root (root +:+ "/" +:+ rest) acc = Returns acc'.
Proof.
  intros n. revert rest. induction n as [|n IH]; intros rest acc Hlen; [lia|].
  cbn [unexcludable_loop].
  destruct (split_below_root rest) as (Hstep & Hshort). cbv zeta in Hstep, Hshort.
  destruct (String.eqb_spec (fst (PosixPath.split (root +:+ "/" +:+ rest))) root) as [E|E].
  - eauto.
  - destruct Hstep as [Hs|(rest' & Hs)]; [contradiction|].
    rewrite Hs in *. apply IH. lia.
Qed.

Lemma loop_returns_only_below_root :
  forall n p acc acc',
    unexcludable_loop n root p acc = Returns acc' ->
    exists rest, p = root +:+ "/" +:+ rest.
Proof.
  induction n as [|n IH]; simpl; intros p acc acc' H; [discriminate|].
  apply split_reaches_root.
  destruct (String.eqb_spec (fst (PosixPath.split p)) root) as [E|E]; [auto|].
  right. eapply IH. exact H.
Qed.

End AncestorLoop.

Lemma loop_never_raises n root p acc e :
  unexcludable_loop n root p acc <> Raises e.
Proof.
  revert p acc. induction n as [|n IH]; simpl; intros p acc; [discriminate|].
  destruct (String.eqb _ root); [discriminate|apply IH].
Qed.

(** C10, as the code has it.  For a root directory written without a
    trailing separator, the ancestor loop started at a path comes to its
    [break] exactly when the path is the root followed by a separator and
    anything, the root itself with a trailing separator included; started
    anywhere else it runs for ever. *)
Theorem ancestor_loop_terminates_iff (root p : string) :
  root <> "" -> endswith_sep root = false ->
  (loop_terminates root p <-> exists rest, p = root +:+ "/" +:+ rest)
  /\ ((~ exists rest, p = root +:+ "/" +:+ rest) ->
      forall fuel acc, unexcludable_loop fuel root p acc = OutOfFuel).
Proof.
  intros Hne Hns. split; [split|].
  - intros (fuel & acc & H).
    eapply loop_returns_only_below_root; eassumption.
  - intros (rest & ->).
    destruct (loop_returns_below_root root Hne Hns rest
                (S (String.length (root +:+ "/" +:+ rest))) []) as (acc & H); [lia|].
    exists (S (String.length (root +:+ "/" +:+ rest))), acc. exact H.
  - intros Hn fuel acc.
    destruct (unexcludable_loop fuel root p acc) as [acc'|e|] eqn:E; [| |reflexivity].
    + exfalso. apply Hn. eapply loop_returns_only_below_root; eassumption.
    + exfalso. eapply loop_never_raises; eassumption.
Qed.

(** ** The class-level set does not influence the result *)

Lemma for_each_rel {A S : Type} (R : S -> S -> Prop) (body : A -> S -> outcome S)
    (l : list A) :
  (forall x s1 s2 s1', R s1 s2 -> body x s1 = Returns s1' ->
     exists s2', body x s2 = Returns s2' /\ R s1' s2') ->
  forall s1 s2 s1', R s1 s2 -> for_each body l s1 = Returns s1' ->
    exists s2', for_each body l s2 = Returns s2' /\ R s1' s2'.
Proof.
  intros Hb. induction l as [|x l IH]; simpl; intros s1 s2 s1' HR H.
  - inversion H; subst. eauto.
  - bind_inv H. destruct (Hb _ _ _ _ HR Hx) as (y & Hy & HR').
    rewrite Hy. simpl. eapply IH; eauto.
Qed.

Lemma walk_rel {S : Type} (R : S -> S -> Prop) deps (work : nat -> S -> S * list nat) pred :
  (forall a s1 s2, R s1 s2 ->
     R (fst (work a s1)) (fst (work a s2)) /\ snd (work a s1) = snd (work a s2)) ->
  forall fuel t w s1 s2 w' s1',
    R s1 s2 -> walk fuel deps work pred t (w, s1) = Returns (w', s1') ->
    exists s2', walk fuel deps work pred t (w, s2) = Returns (w', s2') /\ R s1' s2'.
Proof.
  intros Hw. induction fuel as [|fuel IH]; simpl; intros t w s1 s2 w' s1' HR H.
  - discriminate.
  - destruct (mem_nat t w).
    + inversion H; subst. eauto.
    + destruct (Hw t s1 s2 HR) as (HR1 & E1).
      assert (HR' : R (fst (if pred t then work t s1 else (s1, [])))
                      (fst (if pred t then work t s2 else (s2, [])))
                    /\ snd (if pred t then work t s1 else (s1, []))
                       = snd (if pred t then work t s2 else (s2, []))).
      { destruct (pred t); simpl; auto. }
      destruct (if pred t then work t s1 else (s1, [])) as [st1 extra1].
      destruct (if pred t then work t s2 else (s2, [])) as [st2 extra2].
      simpl in HR'. destruct HR' as (HR' & <-).
      destruct (for_each_rel (fun ws1 ws2 => fst ws1 = fst ws2 /\ R (snd ws1) (snd ws2))
                  (walk fuel deps work pred) (deps t ++ extra1)) with
        (s1 := (w ++ [t], st1)) (s2 := (w ++ [t], st2)) (s1' := (w', s1'))
        as ([w2 s2'] & H2 & Ew & HR2); auto.
      * intros x [wa sa] [wb sb] [wa' sa'] (Ea & HRa) Ha. simpl in Ea, HRa. subst wb.
        destruct (IH _ _ _ _ _ _ HRa Ha) as (sb' & Hb & HRb).
        exists (wa', sb'). auto.
      * simpl in Ew, HR2. subst w2. eauto.
Qed.

Lemma walk_all_rel {S : Type} (R : S -> S -> Prop) deps (work : nat -> S -> S * list nat) pred :
  (forall a s1 s2, R s1 s2 ->
     R (fst (work a s1)) (fst (work a s2)) /\ snd (work a s1) = snd (work a s2)) ->
  forall fuel roots s1 s2 s1',
    R s1 s2 -> walk_all fuel deps work pred roots s1 = Returns s1' ->
    exists s2', walk_all fuel deps work pred roots s2 = Returns s2' /\ R s1' s2'.
Proof.
  intros Hw fuel roots. unfold walk_all. apply for_each_rel.
  intros x s1 s2 s1' HR H. bind_inv H. inversion H; subst. destruct x0 as [w' s1'].
  destruct (walk_rel R deps work pred Hw _ _ _ _ _ _ _ HR Hx) as (s2' & H2 & HR').
  rewrite H2. simpl. eauto.
Qed.

Lemma configure_source_sets_same W base srcs is_test fr1 fr2 :
  same_but_TEST_BASES fr1 fr2 ->
  same_but_TEST_BASES (configure_source_sets W base srcs is_test fr1)
                      (configure_source_sets W base srcs is_test fr2).
Proof.
  unfold configure_source_sets. generalize (set_iter (order W) (map PosixPath.dirname srcs)).
  intros l. revert fr1 fr2. induction l as [|path l IH]; simpl; intros fr1 fr2 H; [exact H|].
  apply IH. destruct H as (Hs & Ha & Ht). rewrite Hs, Ht.
  destruct (mem _ (targeted fr2)); [repeat split; assumption|].
  unfold register_source_set, same_but_TEST_BASES. simpl. rewrite Hs, Ha, Ht. auto.
Qed.

Lemma configure_target_same W a fr1 fr2 :
  same_but_TEST_BASES fr1 fr2 ->
  same_but_TEST_BASES (fst (configure_target W a fr1)) (fst (configure_target W a fr2))
  /\ snd (configure_target W a fr1) = snd (configure_target W a fr2).
Proof.
  intros H. pose proof H as (Hs & Ha & Ht). unfold configure_target.
  rewrite Ha, Hs. destruct (mem_nat a (analyzed fr2)); simpl; [auto|].
  split; [|reflexivity].
  match goal with
  | |- same_but_TEST_BASES (match _ with [] => ?X | _ => _ end)
                           (match _ with [] => ?Y | _ => _ end) =>
      assert (H2 : same_but_TEST_BASES X Y)
  end.
  { assert (H1 : same_but_TEST_BASES
                   (set_self {| self := self fr2; TEST_BASES := TEST_BASES fr1;
                                analyzed := oset_add a (analyzed fr2);
                                targeted := targeted fr1 |}
                      (set_has_scala (self fr2)
                         (negb (skip_scala (self fr2))
                          && (has_scala (self fr2) || is_scala (Target_get W a)))))
                   (set_self {| self := self fr2; TEST_BASES := TEST_BASES fr2;
                                analyzed := oset_add a (analyzed fr2);
                                targeted := targeted fr2 |}
                      (set_has_scala (self fr2)
                         (negb (skip_scala (self fr2))
                          && (has_scala (self fr2) || is_scala (Target_get W a)))))).
    { unfold same_but_TEST_BASES. simpl. auto. }
    destruct (t_has_resources (Target_get W a)); [|exact H1].
    revert H1. generalize (resources_by_basedir W (Target_get W a)). intros l.
    match goal with
    | |- same_but_TEST_BASES ?X ?Y -> _ => generalize X Y
    end.
    induction l as [|br l IH]; simpl; intros f1 f2 Hf; [exact Hf|].
    apply IH. apply configure_source_sets_same. exact Hf. }
  destruct (t_sources (Target_get W a)); [exact H2|].
  apply configure_source_sets_same.
  destruct H2 as (Hs2 & Ha2 & Ht2). unfold same_but_TEST_BASES. simpl.
  rewrite Hs2. auto.
Qed.

Lemma extend_extra_fst W is_test paths srcs tb tb' :
  fst (extend_extra W is_test paths (srcs, tb))
  = fst (extend_extra W is_test paths (srcs, tb')).
Proof.
  destruct (extend_extra_spec W is_test paths srcs tb) as (E & _).
  destruct (extend_extra_spec W is_test paths srcs tb') as (E' & _).
  congruence.
Qed.

Lemma configure_jvm_independent_of_TEST_BASES W fuel p tb tb' es et r :
  configure_jvm W fuel p tb es et = Returns r ->
  exists r', configure_jvm W fuel p tb' es et = Returns r'
             /\ r_project r' = r_project r /\ r_targets r' = r_targets r
             /\ r_scanned r' = r_scanned r.
Proof.
  unfold configure_jvm. fold (deps_of W). fold (initial_frame p tb). fold (initial_frame p tb').
  intros H. bind_inv H. rename x into fr.
  destruct (walk_all_rel same_but_TEST_BASES (deps_of W) (configure_target W)
              (source_target W p) (configure_target_same W) fuel (targets p)
              (initial_frame p tb) (initial_frame p tb') fr) as (fr' & Hw' & Hs & Ha & Ht);
    [repeat split|exact Hx|].
  rewrite Hw'. simpl. rewrite <- Hs, <- Ha, <- Ht.
  bind_inv H. rewrite Hx0. simpl. bind_inv H. rename x0 into srcs. rewrite Hx1. simpl.
  bind_inv H. rewrite Hx2. simpl. bind_inv H. rewrite Hx3. simpl.
  pose proof (extend_extra_fst W false es srcs (TEST_BASES fr) (TEST_BASES fr')) as E1.
  destruct (extend_extra W false es (srcs, TEST_BASES fr)) as [srcs1 tb1].
  destruct (extend_extra W false es (srcs, TEST_BASES fr')) as [srcs1' tb1'].
  simpl in E1. subst srcs1'.
  pose proof (extend_extra_fst W true et srcs1 tb1 tb1') as E2.
  destruct (extend_extra W true et (srcs1, tb1)) as [srcs2 tb2].
  destruct (extend_extra W true et (srcs1, tb1')) as [srcs2' tb2'].
  simpl in E2. subst srcs2'.
  inversion H; subst; clear H. eexists. split; [reflexivity|]. simpl. auto.
Qed.

(** C6.  A second run of [configure_jvm] in the same process, on a project
    built again from the same targets over the same filesystem snapshot,
    starts from the class-level set the first run left; it returns whenever
    the first did, with the same project (so the same source sets with the
    same excludes, in the same order), the same expanded target set in the
    same order and the same directories scanned. *)
Theorem configure_jvm_repeatable W fuel has_python skip_java skip_scala root tgts
    transitive tb es et r1 :
  configure_jvm W fuel
    (Project_init has_python skip_java skip_scala root tgts transitive) tb es et
  = Returns r1 ->
  exists r2,
    configure_jvm W fuel
      (Project_init has_python skip_java skip_scala root tgts transitive)
      (r_TEST_BASES r1) es et
    = Returns r2
    /\ sources (r_project r2) = sources (r_project r1)
    /\ r_project r2 = r_project r1
    /\ r_targets r2 = r_targets r1.
Proof.
  intros H.
  destruct (configure_jvm_independent_of_TEST_BASES W fuel _ tb (r_TEST_BASES r1)
              es et r1 H) as (r2 & H2 & Ep & Et & _).
  exists r2. rewrite Ep. auto.
Qed.

(** ** Staging of the internal jars *)

Module StagingFacts.
Import Staging.

Lemma copy_incl src dst fl fl' : copy src dst fl = Some fl' -> incl fl fl'.
Proof.
  unfold copy. destruct (mem src fl); intros H; inversion H; subst.
  apply set_add_incl.
Qed.

Lemma copy_readable src dst fl : In src fl -> copy src dst fl <> None.
Proof.
  intros H. unfold copy. apply mem_In in H. rewrite H. discriminate.
Qed.

(** With readable artifacts the inner loop ends in the ambiguity error or
    normally, and removes no file. *)
Lemma copy_source_jars_ok dir mappings cp fl :
  (forall base jars jar, In (base, jars) mappings -> In jar jars ->
                         In (PosixPath.join base jar) fl) ->
  incl fl (snd (copy_source_jars dir mappings cp fl))
  /\ forall e, fst (copy_source_jars dir mappings cp fl) = inl e ->
               e = multiple_source_jars.
Proof.
  revert cp fl. induction mappings as [|[base jars] rest IH]; intros cp fl Hr; simpl.
  - split; [apply incl_refl | discriminate].
  - destruct jars as [|jar [|jar' jars]]; simpl;
      try (split; [apply incl_refl | intros e E; inversion E; reflexivity]).
    destruct (copy (PosixPath.join base jar) (PosixPath.join dir jar) fl) as [fl'|] eqn:Ec.
    + pose proof (copy_incl _ _ _ _ Ec) as Hi.
      destruct (IH (Some (PosixPath.join dir jar)) fl') as (Hi' & He).
      { intros b js j Hin Hj. apply Hi. eapply Hr; [right; exact Hin | exact Hj]. }
      split; [eapply incl_tran; eassumption | exact He].
    + exfalso. eapply copy_readable; [|exact Ec].
      eapply Hr; [left; reflexivity | left; reflexivity].
Qed.

(** With readable artifacts the loop over the jar mapping of a target ends
    in an ambiguity error, or normally when every pair holds one jar. *)
Lemma copy_jars_ok dir sdir smappings mappings st :
  (forall base jars jar, In (base, jars) (mappings ++ smappings) -> In jar jars ->
                         In (PosixPath.join base jar) (files st)) ->
  incl (files st) (files (snd (copy_jars dir sdir smappings mappings st)))
  /\ (forall e, fst (copy_jars dir sdir smappings mappings st) = Some e ->
                exists msg, e = TaskError msg)
  /\ (fst (copy_jars dir sdir smappings mappings st) = None ->
      forall base jars, In (base, jars) mappings -> List.length jars = 1).
Proof.
  revert st. induction mappings as [|[base jars] rest IH]; intros st Hr; simpl.
  - split; [apply incl_refl|]. split; [discriminate | intros _ b js []].
  - destruct jars as [|jar [|jar' jars]]; simpl;
      try (split; [apply incl_refl|]; split;
           [intros e E; inversion E; eexists; reflexivity | discriminate]).
    destruct (copy (PosixPath.join base jar) (PosixPath.join dir jar) (files st))
      as [fl|] eqn:Ec.
    + pose proof (copy_incl _ _ _ _ Ec) as Hi.
      destruct (copy_source_jars_ok sdir smappings None fl) as (Hi' & He).
      { intros b js j Hin Hj. apply Hi. eapply Hr; [|exact Hj].
        right. apply in_app_iff. right. exact Hin. }
      destruct (copy_source_jars sdir smappings None fl) as [[e|cp] fl'] eqn:Es;
        simpl in Hi', He.
      * simpl. split; [eapply incl_tran; eassumption|].
        split; [|discriminate].
        pose proof (He e eq_refl) as Ee.
        intros e' E. inversion E; subst. eexists; reflexivity.
      * match goal with
        | |- context [copy_jars dir sdir smappings rest ?st'] =>
            destruct (IH st') as (Hi'' & He' & Hn)
        end.
        { simpl. intros b js j Hin Hj. apply Hi', Hi. eapply Hr; [|exact Hj].
          right. exact Hin. }
        simpl in Hi''.
        split; [eapply incl_tran; [exact Hi|]; eapply incl_tran; eassumption|].
        split; [exact He'|].
        intros En b js [E|Hin]; [inversion E; reflexivity | eapply Hn; eassumption].
    + exfalso. eapply copy_readable; [|exact Ec].
      eapply Hr; [left; reflexivity | left; reflexivity].
Qed.

Lemma map_targets_raises dir sdir jp sp tgts st :
  ambiguous_mapping jp tgts ->
  (forall target base jars jar,
      In target tgts -> In (base, jars) (jp target ++ sp target) -> In jar jars ->
      In (PosixPath.join base jar) (files st)) ->
  exists msg, fst (map_targets dir sdir jp sp tgts st) = Some (TaskError msg).
Proof.
  revert st. induction tgts as [|t tgts IH]; intros st Ha Hr.
  - destruct Ha as (t & _ & _ & [] & _).
  - simpl.
    destruct (copy_jars_ok dir sdir (sp t) (jp t) st) as (Hi & He & Hn).
    { intros b js j. apply Hr. left. reflexivity. }
    destruct (copy_jars dir sdir (sp t) (jp t) st) as [[e|] st'] eqn:Ec; simpl in *.
    + destruct (He e eq_refl) as (msg & ->). eauto.
    + apply IH.
      * destruct Ha as (t0 & base & jars & [<-|Hin] & Hp & Hl).
        -- rewrite (Hn eq_refl base jars Hp) in Hl. lia.
        -- exists t0, base, jars. auto.
      * intros t0 b js j Hin Hp Hj. apply Hi.
        eapply Hr; [right; exact Hin | exact Hp | exact Hj].
Qed.

Lemma filter_nil {A : Type} (f : A -> bool) (l : list A) :
  (forall x, In x l -> f x = false) -> filter f l = [].
Proof.
  induction l as [|x l IH]; simpl; intros H; [reflexivity|].
  rewrite (H x (or_introl eq_refl)). apply IH. intros y Hy. apply H. right. exact Hy.
Qed.

Lemma staged_after_clean work_dir fl ij :
  staged work_dir
    {| files := safe_mkdir_clean (PosixPath.join work_dir "internal-libsources")
                  (safe_mkdir_clean (PosixPath.join work_dir "internal-libs") fl);
       internal_jars := ij |} = [].
Proof.
  unfold staged, safe_mkdir_clean. simpl. apply filter_nil.
  intros f Hf. apply filter_In in Hf. destruct Hf as (Hf & H2).
  apply filter_In in Hf. destruct Hf as (_ & H1).
  apply negb_true_iff in H1, H2. rewrite H1, H2. reflexivity.
Qed.

End StagingFacts.

(** C1, counterexample.  With two targets of which the second has the
    ambiguous pair, the call fails as it should, but the jar of the first
    target is in the staging directory by then. *)
Lemma partial_staging_before_ambiguity : ~ ambiguity_leaves_nothing_staged.
Proof.
  intros H.
  destruct (H "/w" two_targets_jars no_jars [1; 2] built_artifacts) as (_ & Hs).
  - exists 2, "/out/lib", ["t-1.jar"; "t-2.jar"]. simpl. repeat split; auto.
  - vm_compute in Hs. discriminate.
Qed.

(** ** Normalized paths *)

Lemma is_name_spec (c : string) :
  is_name c = true -> c <> "" /\ has_sep c = false /\ c <> "." /\ c <> "..".
Proof.
  unfold is_name. intros H.
  apply andb_true_iff in H. destruct H as (H & H4).
  apply andb_true_iff in H. destruct H as (H & H3).
  apply andb_true_iff in H. destruct H as (H1 & H2).
  apply nonempty_true in H1.
  apply negb_true_iff in H2, H3, H4.
  apply String.eqb_neq in H3, H4. auto.
Qed.

Lemma str_split_not_nil (s : string) : str_split s <> [].
Proof.
  induction s as [|x s IH]; simpl; [discriminate|].
  destruct (is_sep x); [discriminate|].
  destruct (str_split s); [contradiction|discriminate].
Qed.

Lemma str_split_no_sep (c : string) : has_sep c = false -> str_split c = [c].
Proof.
  induction c as [|x c IH]; simpl; intros H; [reflexivity|].
  apply orb_false_iff in H. destruct H as (Hx & Hc).
  rewrite Hx, (IH Hc). reflexivity.
Qed.

Lemma str_split_app (a b : string) :
  str_split (a +:+ "/" +:+ b) = str_split a ++ str_split b.
Proof.
  induction a as [|x a IH]; simpl in *; [reflexivity|].
  rewrite IH. destruct (is_sep x); [reflexivity|].
  pose proof (str_split_not_nil a) as Hn.
  destruct (str_split a); [contradiction|reflexivity].
Qed.

Lemma sep_join_cons (c : string) (cs : list string) :
  sep_join (c :: cs) = c +:+ canon cs.
Proof.
  revert c. induction cs as [|c' cs IH]; intros c.
  - simpl. rewrite str_app_nil_r. reflexivity.
  - change (sep_join (c :: c' :: cs)) with (c +:+ "/" +:+ sep_join (c' :: cs)).
    rewrite IH. reflexivity.
Qed.

Lemma canon_sep_join (cs : list string) : cs <> [] -> canon cs = "/" +:+ sep_join cs.
Proof.
  destruct cs as [|c cs]; [contradiction|]. intros _.
  rewrite sep_join_cons. reflexivity.
Qed.

Lemma canon_app (a b : list string) : canon (a ++ b) = canon a +:+ canon b.
Proof.
  induction a as [|c a IH]; simpl; [reflexivity|].
  rewrite IH, !str_app_assoc. reflexivity.
Qed.

Lemma str_split_head_canon (c : string) (cs : list string) :
  has_sep c = false -> forallb is_name cs = true ->
  str_split (c +:+ canon cs) = c :: cs.
Proof.
  revert c. induction cs as [|c' cs IH]; intros c Hc Hcs.
  - simpl. rewrite str_app_nil_r. apply str_split_no_sep. exact Hc.
  - simpl in Hcs. apply andb_true_iff in Hcs. destruct Hcs as (Hc' & Hcs).
    change (c +:+ canon (c' :: cs)) with (c +:+ "/" +:+ c' +:+ canon cs).
    rewrite str_split_app, (str_split_no_sep c Hc), IH; auto.
    apply is_name_spec in Hc'. tauto.
Qed.

(** Splitting and joining again gives the string back. *)
Lemma sep_join_split (s : string) : sep_join (str_split s) = s.
Proof.
  induction s as [|x s IH]; [reflexivity|].
  pose proof (str_split_not_nil s) as Hn.
  simpl. destruct (str_split s) as [|w ws] eqn:E; [contradiction|].
  rewrite sep_join_cons in IH.
  destruct (is_sep x) eqn:Ex.
  - apply is_sep_eq in Ex. subst x. rewrite sep_join_cons. simpl. rewrite IH. reflexivity.
  - rewrite sep_join_cons. simpl. rewrite IH. reflexivity.
Qed.

Lemma wf_root_canon (root : string) :
  wf_root root = true ->
  root = canon (root_components root)
  /\ root_components root <> []
  /\ forallb is_name (root_components root) = true.
Proof.
  destruct root as [|c rest]; simpl; [discriminate|]. intros H.
  apply andb_true_iff in H. destruct H as (Hc & Hn). apply is_sep_eq in Hc. subst c.
  split; [|split; [apply str_split_not_nil | exact Hn]].
  rewrite canon_sep_join by apply str_split_not_nil.
  rewrite sep_join_split. reflexivity.
Qed.

Lemma wf_rel_sep_join (s : string) :
  wf_rel s = true ->
  s = sep_join (rel_components s) /\ forallb is_name (rel_components s) = true.
Proof.
  unfold wf_rel, rel_components. destruct (String.eqb_spec s "") as [->|Hne]; simpl.
  - auto.
  - intros H. split; [symmetry; apply sep_join_split | exact H].
Qed.

Lemma name_no_trailing_sep (c : string) : has_sep c = false -> endswith_sep c = false.
Proof.
  induction c as [|x c IH]; simpl; intros H; [reflexivity|].
  apply orb_false_iff in H. destruct H as (Hx & Hc).
  destruct c; [exact Hx | apply IH; exact Hc].
Qed.

(** A path that ends with a name is not empty and has no trailing
    separator. *)
Lemma ends_with_name (y c : string) :
  is_name c = true -> y +:+ c <> "" /\ endswith_sep (y +:+ c) = false.
Proof.
  intros H. apply is_name_spec in H. destruct H as (Hne & Hs & _).
  destruct c as [|x c]; [contradiction|]. split.
  - destruct y; discriminate.
  - rewrite endswith_sep_app_cons. apply name_no_trailing_sep. exact Hs.
Qed.

Lemma canon_ends_with_name (x : string) (cs : list string) :
  cs <> [] -> forallb is_name cs = true ->
  x +:+ canon cs <> "" /\ endswith_sep (x +:+ canon cs) = false.
Proof.
  intros Hne Hn. destruct (exists_last Hne) as (cs0 & c & ->).
  rewrite forallb_app in Hn. apply andb_true_iff in Hn. destruct Hn as (_ & Hc).
  simpl in Hc. rewrite andb_true_r in Hc.
  rewrite canon_app. simpl. rewrite str_app_nil_r.
  assert (E : x +:+ canon cs0 +:+ String "/" c = ((x +:+ canon cs0) +:+ "/") +:+ c)
    by (rewrite !str_app_assoc; reflexivity).
  rewrite E. apply ends_with_name. exact Hc.
Qed.

Lemma sep_join_not_abs (cs : list string) :
  forallb is_name cs = true -> startswith_sep (sep_join cs) = false.
Proof.
  destruct cs as [|c cs]; [reflexivity|]. simpl. intros H.
  apply andb_true_iff in H. destruct H as (Hc & _).
  apply is_name_spec in Hc. destruct Hc as (Hne & Hs & _).
  rewrite sep_join_cons. destruct c as [|x c]; [contradiction|].
  simpl in *. apply orb_false_iff in Hs. tauto.
Qed.

Lemma endswith_sep_slash (x : string) : endswith_sep (x +:+ "/") = true.
Proof.
  rewrite endswith_sep_app_cons. reflexivity.
Qed.

Lemma join_names (x : string) (cs : list string) :
  x <> "" -> endswith_sep x = false -> forallb is_name cs = true ->
  PosixPath.join x (sep_join cs) = x +:+ canon cs +:+ slash_if_nil cs.
Proof.
  intros Hx He Hn. unfold PosixPath.join.
  rewrite (sep_join_not_abs cs Hn), He.
  apply String.eqb_neq in Hx. rewrite Hx. simpl.
  destruct cs as [|c cs]; [reflexivity|].
  rewrite canon_sep_join by discriminate. simpl. rewrite str_app_nil_r. reflexivity.
Qed.

Lemma join_slash_names (x : string) (cs : list string) :
  forallb is_name cs = true ->
  PosixPath.join (x +:+ "/") (sep_join cs) = x +:+ canon cs +:+ slash_if_nil cs.
Proof.
  intros Hn. unfold PosixPath.join.
  rewrite (sep_join_not_abs cs Hn), endswith_sep_slash, orb_true_r.
  destruct cs as [|c cs]; [simpl; rewrite str_app_nil_r; reflexivity|].
  rewrite canon_sep_join by discriminate. simpl.
  rewrite str_app_nil_r, str_app_assoc. reflexivity.
Qed.

(** The path [configure_jvm] forms for a source set with normalized root,
    base and path. *)
Lemma owned_path_canon (x : string) (bc pc : list string) :
  x <> "" -> endswith_sep x = false ->
  forallb is_name bc = true -> forallb is_name pc = true ->
  PosixPath.join x (sep_join bc) = x +:+ canon bc +:+ slash_if_nil bc
  /\ PosixPath.join (PosixPath.join x (sep_join bc)) (sep_join pc)
     = x +:+ canon (bc ++ pc) +:+ slash_if_nil pc.
Proof.
  intros Hx He Hb Hp. split; [apply join_names; assumption|].
  rewrite (join_names x bc Hx He Hb), canon_app, str_app_assoc.
  destruct bc as [|b bc].
  - simpl. apply join_slash_names. exact Hp.
  - simpl slash_if_nil. rewrite str_app_nil_r.
    destruct (canon_ends_with_name x (b :: bc)) as (Hne & Hns); [discriminate|exact Hb|].
    rewrite (join_names _ pc Hne Hns Hp), str_app_assoc. reflexivity.
Qed.

(** One step up from a path that ends with a name, or with a separator. *)
Lemma split_last_name (y c : string) :
  y <> "" -> endswith_sep y = false -> has_sep c = false ->
  fst (PosixPath.split (y +:+ "/" +:+ c)) = y.
Proof.
  intros Hy He Hc. unfold PosixPath.split.
  rewrite upto_last_sep_app, (upto_last_sep_no_sep c Hc).
  assert (Hn : nonempty (y +:+ "/" +:+ "") = true).
  { apply nonempty_true. destruct y; [contradiction|discriminate]. }
  rewrite Hn, (root_not_all_sep y Hy He). simpl.
  rewrite rstrip_sep_app. simpl. apply rstrip_sep_fixed. exact He.
Qed.

Lemma dirname_wf (src : string) :
  wf_source src = true -> wf_rel (PosixPath.dirname src) = true.
Proof.
  unfold wf_source. intros H.
  pose proof (sep_join_split src) as E.
  pose proof (str_split_not_nil src) as Hne.
  destruct (exists_last Hne) as (cs & c & Es). rewrite Es in *.
  rewrite forallb_app in H. apply andb_true_iff in H. destruct H as (Hcs & Hc).
  simpl in Hc. rewrite andb_true_r in Hc.
  pose proof (is_name_spec c Hc) as (_ & Hsep & _).
  unfold PosixPath.dirname. destruct cs as [|c0 cs].
  - unfold sep_join in E. simpl in E. subst src. unfold PosixPath.split.
    rewrite (upto_last_sep_no_sep c Hsep). reflexivity.
  - simpl app in E. rewrite sep_join_cons, canon_app in E. simpl in E.
    rewrite str_app_nil_r in E.
    assert (Ey : src = (c0 +:+ canon cs) +:+ "/" +:+ c).
    { rewrite <- E, !str_app_assoc. reflexivity. }
    simpl in Hcs. apply andb_true_iff in Hcs. destruct Hcs as (Hc0 & Hcs').
    assert (Hy : c0 +:+ canon cs <> "" /\ endswith_sep (c0 +:+ canon cs) = false).
    { destruct cs as [|c1 cs].
      - simpl. rewrite str_app_nil_r. apply (ends_with_name "" c0 Hc0).
      - apply canon_ends_with_name; [discriminate|exact Hcs']. }
    destruct Hy as (Hy1 & Hy2).
    rewrite Ey, (split_last_name _ c Hy1 Hy2 Hsep).
    unfold wf_rel. apply String.eqb_neq in Hy1. rewrite Hy1. simpl.
    rewrite str_split_head_canon; auto.
    + simpl. rewrite Hc0. exact Hcs'.
    + apply is_name_spec in Hc0. tauto.
Qed.

(** ** Components of a normalized absolute path *)

Lemma norm_comps_app (b : bool) (l1 l2 acc : list string) :
  PosixPath.norm_comps b (l1 ++ l2) acc
  = PosixPath.norm_comps b l2 (PosixPath.norm_comps b l1 acc).
Proof.
  revert acc. induction l1 as [|c l1 IH]; intros acc; simpl; [reflexivity|].
  destruct (String.eqb c "" || String.eqb c "."); [apply IH|].
  match goal with |- context [if ?X then _ else _] => destruct X end; apply IH.
Qed.

Lemma norm_comps_names (b : bool) (cs acc : list string) :
  forallb is_name cs = true -> PosixPath.norm_comps b cs acc = acc ++ cs.
Proof.
  revert acc. induction cs as [|c cs IH]; intros acc H; simpl.
  - rewrite app_nil_r. reflexivity.
  - simpl in H. apply andb_true_iff in H. destruct H as (Hc & Hcs).
    apply is_name_spec in Hc. destruct Hc as (H1 & _ & H3 & H4).
    apply String.eqb_neq in H1, H3, H4. rewrite H1, H3, H4. simpl.
    rewrite (IH _ Hcs), <- app_assoc. reflexivity.
Qed.

Lemma filter_nonempty_names (cs : list string) :
  forallb is_name cs = true -> filter nonempty cs = cs.
Proof.
  induction cs as [|c cs IH]; simpl; intros H; [reflexivity|].
  apply andb_true_iff in H. destruct H as (Hc & Hcs).
  apply is_name_spec in Hc. destruct Hc as (H1 & _).
  apply nonempty_true in H1. rewrite H1, (IH Hcs). reflexivity.
Qed.

Lemma str_split_canon (cs : list string) :
  cs <> [] -> forallb is_name cs = true -> str_split (canon cs) = "" :: cs.
Proof.
  destruct cs as [|c cs]; [contradiction|]. intros _ H.
  simpl in H. apply andb_true_iff in H. destruct H as (Hc & Hcs).
  apply is_name_spec in Hc. destruct Hc as (_ & Hs & _).
  change (canon (c :: cs)) with ("" +:+ "/" +:+ c +:+ canon cs).
  rewrite str_split_app, str_split_head_canon; auto.
Qed.

Lemma prefix_double_sep (s : string) :
  String.prefix "//" s = true -> exists rest, s = String "/" (String "/" rest).
Proof.
  intros H. apply prefix_correct in H.
  destruct s as [|x [|y s]]; simpl in H; try discriminate.
  destruct s; simpl in H; inversion H; eauto.
Qed.

Lemma canon_not_double_sep (cs : list string) (sl : string) :
  cs <> [] -> forallb is_name cs = true ->
  String.prefix "//" (canon cs +:+ sl) = false.
Proof.
  destruct cs as [|c cs]; [contradiction|]. intros _ H.
  simpl in H. apply andb_true_iff in H. destruct H as (Hc & _).
  apply is_name_spec in Hc. destruct Hc as (Hne & Hs & _).
  destruct (String.prefix "//" (canon (c :: cs) +:+ sl)) eqn:E; [exfalso|reflexivity].
  apply prefix_double_sep in E. destruct E as (rest & E).
  destruct c as [|x c]; [contradiction|]. simpl in E, Hs. inversion E; subst.
  discriminate.
Qed.

(** [normpath] and [abs_components] on a normalized absolute path, with or
    without a trailing separator. *)
Lemma abs_components_canon (cwd : string) (cs : list string) (sl : string) :
  cs <> [] -> forallb is_name cs = true -> sl = "" \/ sl = "/" ->
  PosixPath.abs_components cwd (canon cs +:+ sl) = cs.
Proof.
  intros Hne Hn Hsl.
  assert (Hsplit : exists extra, str_split (canon cs +:+ sl) = ("" :: cs) ++ extra
                                 /\ (extra = [] \/ extra = [""])).
  { destruct Hsl as [->| ->].
    - rewrite str_app_nil_r, (str_split_canon cs Hne Hn). exists []. rewrite app_nil_r. auto.
    - change (canon cs +:+ "/") with (canon cs +:+ "/" +:+ "").
      rewrite str_split_app, (str_split_canon cs Hne Hn). simpl. eauto. }
  destruct Hsplit as (extra & Es & Hextra).
  assert (Hstart : exists x rest, canon cs +:+ sl = String x rest /\ is_sep x = true).
  { destruct cs as [|c cs]; [contradiction|]. simpl. eauto. }
  destruct Hstart as (x & rest & Ep & Hx).
  assert (Hcomps : PosixPath.norm_comps true (str_split (canon cs +:+ sl)) [] = cs).
  { rewrite Es, norm_comps_app. simpl.
    rewrite (norm_comps_names true cs [] Hn). simpl.
    destruct Hextra as [->| ->]; reflexivity. }
  assert (Hst : startswith_sep (canon cs +:+ sl) = true).
  { rewrite Ep. exact Hx. }
  assert (Hnorm : PosixPath.normpath (canon cs +:+ sl) = canon cs).
  { unfold PosixPath.normpath. cbv zeta.
    rewrite Hst, Hcomps, (canon_not_double_sep cs sl Hne Hn).
    assert (He : String.eqb (canon cs +:+ sl) "" = false).
    { rewrite Ep. reflexivity. }
    rewrite He. simpl. rewrite (canon_sep_join cs Hne). reflexivity. }
  unfold PosixPath.abs_components, PosixPath.abspath, PosixPath.isabs.
  rewrite Hst, Hnorm, (str_split_canon cs Hne Hn). simpl.
  apply filter_nonempty_names. exact Hn.
Qed.

Lemma common_prefix_len_app (b r : list string) :
  PosixPath.common_prefix_len b (b ++ r) = List.length b.
Proof.
  induction b as [|x b IH]; simpl.
  - destruct r; reflexivity.
  - rewrite String.eqb_refl, IH. reflexivity.
Qed.

Lemma skipn_length_app {A : Type} (b r : list A) : skipn (List.length b) (b ++ r) = r.
Proof.
  induction b as [|x b IH]; simpl; auto.
Qed.

Lemma fold_left_join_names (l : list string) :
  forall y, y <> "" -> endswith_sep y = false -> forallb is_name l = true ->
            fold_left PosixPath.join l y = y +:+ canon l.
Proof.
  induction l as [|c l IH]; intros y Hy He Hn; simpl.
  - rewrite str_app_nil_r. reflexivity.
  - simpl in Hn. apply andb_true_iff in Hn. destruct Hn as (Hc & Hl).
    assert (Ej : PosixPath.join y c = (y +:+ "/") +:+ c).
    { pose proof (join_names y [c] Hy He) as E. simpl in E. rewrite Hc in E.
      unfold sep_join in E. simpl in E. rewrite (E eq_refl), !str_app_nil_r.
      rewrite str_app_assoc. reflexivity. }
    rewrite Ej. destruct (ends_with_name (y +:+ "/") c Hc) as (H1 & H2).
    rewrite (IH _ H1 H2 Hl), !str_app_assoc. reflexivity.
Qed.

(** A directory below a base, relative to the base, is the components that
    follow those of the base; joined to the base again it is the directory. *)
Lemma relpath_below (cwd : string) (b r : list string) (sl : string) :
  b <> [] -> r <> [] -> forallb is_name b = true -> forallb is_name r = true ->
  sl = "" \/ sl = "/" ->
  PosixPath.relpath cwd (canon (b ++ r)) (canon b +:+ sl) = Some (sep_join r)
  /\ PosixPath.join (canon b +:+ sl) (sep_join r) = canon (b ++ r).
Proof.
  intros Hb Hr Hnb Hnr Hsl. split.
  - unfold PosixPath.relpath.
    assert (Hbr : b ++ r <> []) by (destruct b; [contradiction|discriminate]).
    assert (Hnbr : forallb is_name (b ++ r) = true)
      by (rewrite forallb_app, Hnb, Hnr; reflexivity).
    assert (Hc : String.eqb (canon (b ++ r)) "" = false).
    { apply String.eqb_neq. destruct (b ++ r); [contradiction|discriminate]. }
    rewrite Hc, (abs_components_canon cwd b sl Hb Hnb Hsl).
    pose proof (abs_components_canon cwd (b ++ r) "" Hbr Hnbr (or_introl eq_refl)) as E.
    rewrite str_app_nil_r in E. rewrite E.
    rewrite common_prefix_len_app, Nat.sub_diag, skipn_length_app. simpl.
    destruct r as [|c r]; [contradiction|].
    simpl in Hnr. apply andb_true_iff in Hnr. destruct Hnr as (Hc1 & Hr1).
    destruct (ends_with_name "" c Hc1) as (H1 & H2). simpl in H1, H2.
    unfold PosixPath.join_all.
    rewrite (fold_left_join_names r c H1 H2 Hr1), sep_join_cons. reflexivity.
  - destruct (canon_ends_with_name "" b Hb Hnb) as (H1 & H2). simpl in H1, H2.
    rewrite canon_app.
    destruct Hsl as [->| ->].
    + rewrite str_app_nil_r, (join_names _ r H1 H2 Hnr).
      destruct r; [contradiction|]. simpl slash_if_nil. rewrite str_app_nil_r. reflexivity.
    + rewrite (join_slash_names _ r Hnr).
      destruct r; [contradiction|]. simpl slash_if_nil. rewrite str_app_nil_r. reflexivity.
Qed.

(** ** Directories found by os.walk *)

Lemma FsNode_nested_ind (P : FsNode -> Prop) :
  P FsFile ->
  (forall entries, Forall (fun e => P (snd e)) entries -> P (FsDir entries)) ->
  forall n, P n.
Proof.
  intros Hfile Hdir. fix IH 1. intros [|entries].
  - exact Hfile.
  - apply Hdir. induction entries as [|[name child] entries IHe].
    + constructor.
    + constructor; [apply IH | exact IHe].
Qed.

Lemma find_entry_In name es child :
  find_entry name es = Some child -> In (name, child) es.
Proof.
  induction es as [|[n c] es IH]; simpl; [discriminate|].
  destruct (String.eqb_spec n name) as [->|Hne]; intros H.
  - inversion H; subst. left. reflexivity.
  - right. apply IH. exact H.
Qed.

Lemma fs_lookup_wf comps :
  forall n n', fs_wf n = true -> fs_lookup n comps = Some n' -> fs_wf n' = true.
Proof.
  induction comps as [|c comps IH]; simpl; intros n n' Hwf H.
  - inversion H; subst. exact Hwf.
  - destruct n as [|es]; [discriminate|].
    destruct (find_entry c es) as [child|] eqn:E; [|discriminate].
    apply find_entry_In in E. simpl in Hwf.
    rewrite forallb_forall in Hwf. specialize (Hwf _ E). simpl in Hwf.
    apply andb_true_iff in Hwf. eapply IH; [|exact H]. tauto.
Qed.

Lemma join_dir_name (top x d : string) :
  x <> "" -> endswith_sep x = false -> top = x \/ top = x +:+ "/" ->
  is_name d = true -> PosixPath.join top d = x +:+ canon [d].
Proof.
  intros Hx He Ht Hd.
  assert (Hn : forallb is_name [d] = true) by (simpl; rewrite Hd; reflexivity).
  assert (Ed : sep_join [d] = d) by reflexivity.
  destruct Ht as [->| ->].
  - pose proof (join_names x [d] Hx He Hn) as E. rewrite Ed in E.
    rewrite E. simpl slash_if_nil. rewrite str_app_nil_r. reflexivity.
  - pose proof (join_slash_names x [d] Hn) as E. rewrite Ed in E.
    rewrite E. simpl slash_if_nil. rewrite str_app_nil_r. reflexivity.
Qed.

(** Every directory [os.walk] reports below a normalized [top] is [top]
    followed by names. *)
Lemma os_walk_dir_children (n : FsNode) :
  forall top x,
    fs_wf n = true -> x <> "" -> endswith_sep x = false ->
    top = x \/ top = x +:+ "/" ->
    forall rd d, In rd (os_walk_dir top n) -> In d (snd rd) ->
      exists dc, dc <> [] /\ forallb is_name dc = true
                 /\ PosixPath.join (fst rd) d = x +:+ canon dc.
Proof.
  induction n as [|entries IH] using FsNode_nested_ind;
    intros top x Hwf Hx He Ht rd d Hrd Hd; simpl in Hrd; [contradiction|].
  simpl in Hwf. rewrite forallb_forall in Hwf.
  destruct Hrd as [<-|Hrd].
  - simpl in Hd. apply in_map_iff in Hd. destruct Hd as ([name child] & <- & Hin).
    apply filter_In in Hin. destruct Hin as (Hin & _).
    specialize (Hwf _ Hin). simpl in Hwf. apply andb_true_iff in Hwf.
    destruct Hwf as (Hname & _).
    exists [name]. simpl. rewrite Hname. repeat split; [discriminate|].
    apply (join_dir_name top x name Hx He Ht Hname).
  - apply in_flat_map in Hrd. destruct Hrd as ([name child] & Hin & Hrd).
    rewrite Forall_forall in IH. pose proof (IH _ Hin) as IHc. simpl in IHc.
    specialize (Hwf _ Hin). simpl in Hwf. apply andb_true_iff in Hwf.
    destruct Hwf as (Hname & Hchild).
    rewrite (join_dir_name top x name Hx He Ht Hname) in Hrd.
    assert (Hn1 : forallb is_name [name] = true) by (simpl; rewrite Hname; reflexivity).
    destruct (canon_ends_with_name x [name]) as (Hx' & He'); [discriminate|exact Hn1|].
    destruct (IHc _ (x +:+ canon [name]) Hchild Hx' He' (or_introl eq_refl) rd d Hrd Hd)
      as (dc & Hdc & Hndc & E).
    exists (name :: dc). split; [discriminate|]. split.
    + simpl. rewrite Hname. exact Hndc.
    + rewrite E. change (name :: dc) with ([name] ++ dc).
      rewrite canon_app, str_app_assoc. reflexivity.
Qed.

(** ** Ancestors gathered by the loop *)

Lemma unexcludable_loop_incl fuel root :
  forall p acc acc',
    unexcludable_loop fuel root p acc = Returns acc' ->
    incl acc acc' /\ In p acc'.
Proof.
  induction fuel as [|fuel IH]; simpl; intros p acc acc' H; [discriminate|].
  destruct (String.eqb (fst (PosixPath.split p)) root).
  - inversion H; subst. split; [apply set_add_incl | apply set_add_In; auto].
  - apply IH in H. destruct H as (Hi & _).
    split; [eapply incl_tran; [apply set_add_incl | exact Hi]|].
    apply Hi. apply set_add_In. auto.
Qed.

(** Started at a directory below [root], with or without a trailing
    separator, the loop records every directory between [root] and it. *)
Lemma unexcludable_loop_collects root :
  root <> "" -> endswith_sep root = false ->
  forall fuel cs suf sl acc acc',
    cs <> [] -> forallb is_name (cs ++ suf) = true -> sl = "" \/ sl = "/" ->
    unexcludable_loop fuel root (root +:+ canon (cs ++ suf) +:+ sl) acc = Returns acc' ->
    In (root +:+ canon cs) acc'.
Proof.
  intros Hr He. induction fuel as [|fuel IH];
    intros cs suf sl acc acc' Hcs Hn Hsl H; [discriminate|].
  assert (Hne : cs ++ suf <> []) by (destruct cs; [contradiction|discriminate]).
  destruct (canon_ends_with_name root (cs ++ suf) Hne Hn) as (Hy & Hye).
  assert (Hnr : forall l, l <> [] -> root +:+ canon l <> root).
  { intros l Hl E. rewrite <- (str_app_nil_r root) in E at 2.
    apply str_app_inv_head in E. destruct l; [contradiction|discriminate]. }
  destruct Hsl as [->| ->].
  - rewrite str_app_nil_r in H.
    destruct (list_eq_dec string_dec suf []) as [->|Hsuf].
    + rewrite app_nil_r in H. apply unexcludable_loop_incl in H. tauto.
    + destruct (exists_last Hsuf) as (suf' & c & ->).
      rewrite app_assoc in Hn, H. rewrite canon_app in H.
      assert (Ec : canon [c] = "/" +:+ c) by (simpl; rewrite str_app_nil_r; reflexivity).
      rewrite Ec in H.
      rewrite forallb_app in Hn. apply andb_true_iff in Hn. destruct Hn as (Hn' & Hc).
      simpl in Hc. rewrite andb_true_r in Hc.
      assert (Hne' : cs ++ suf' <> []) by (destruct cs; [contradiction|discriminate]).
      destruct (canon_ends_with_name root (cs ++ suf') Hne' Hn') as (Hy' & Hye').
      assert (Es : fst (PosixPath.split (root +:+ canon (cs ++ suf') +:+ "/" +:+ c))
                   = root +:+ canon (cs ++ suf')).
      { rewrite <- str_app_assoc. apply split_last_name; auto.
        apply is_name_spec in Hc. tauto. }
      cbn [unexcludable_loop] in H. rewrite Es in H.
      pose proof (Hnr _ Hne') as Hd. apply String.eqb_neq in Hd. rewrite Hd in H.
      eapply (IH cs suf' ""); [exact Hcs | exact Hn' | left; reflexivity|].
      rewrite str_app_nil_r. exact H.
  - assert (Es : fst (PosixPath.split (root +:+ canon (cs ++ suf) +:+ "/"))
                 = root +:+ canon (cs ++ suf)).
    { rewrite <- str_app_assoc.
      apply (split_last_name (root +:+ canon (cs ++ suf)) "" Hy Hye). reflexivity. }
    cbn [unexcludable_loop] in H. rewrite Es in H.
    pose proof (Hnr _ Hne) as Hd. apply String.eqb_neq in Hd. rewrite Hd in H.
    eapply (IH cs suf ""); [exact Hcs | exact Hn | left; reflexivity|].
    rewrite str_app_nil_r. exact H.
Qed.

Lemma unexcludable_of_runs fuel root srcs :
  forall acc0 unex ss,
    for_each (fun source_set unexcludable_paths =>
                parent <- owned_path root source_set ;;
                unexcludable_loop fuel root parent unexcludable_paths)
             srcs acc0 = Returns unex ->
    In ss srcs ->
    exists parent acc acc',
      owned_path root ss = Returns parent
      /\ unexcludable_loop fuel root parent acc = Returns acc'
      /\ incl acc' unex.
Proof.
  induction srcs as [|s srcs IH]; simpl; intros acc0 unex ss H Hin; [contradiction|].
  bind_inv H. rename x into acc1. bind_inv Hx. rename x into parent.
  destruct Hin as [->|Hin].
  - exists parent, acc0, acc1. repeat split; auto.
    eapply (for_each_inv (fun acc => incl acc1 acc)); [|exact H|apply incl_refl].
    intros s0 a a' _ Hb Ha. bind_inv Hb.
    apply unexcludable_loop_incl in Hb. destruct Hb as (Hi & _).
    eapply incl_tran; eassumption.
  - eapply IH; eassumption.
Qed.

(** ** What ends up in the excludes *)

Lemma Forall2_In_r {A B : Type} (R : A -> B -> Prop) l l' y :
  Forall2 R l l' -> In y l' -> exists x, In x l /\ R x y.
Proof.
  induction 1 as [|x y' l l' HR _ IH]; simpl; intros Hin; [contradiction|].
  destruct Hin as [<-|Hin].
  - exists x. auto.
  - destruct (IH Hin) as (x0 & Hx0 & HR0). exists x0. auto.
Qed.

Lemma relpaths_In W children start rs e :
  relpaths W children start = Returns rs -> In e rs ->
  exists child, In child children /\ PosixPath.relpath (cwd W) child start = Some e.
Proof.
  revert rs. induction children as [|c children IH]; simpl; intros rs H Hin.
  - inversion H; subst. contradiction.
  - destruct (PosixPath.relpath (cwd W) c start) as [r0|] eqn:E; [|discriminate].
    bind_inv H. inversion H; subst. destruct Hin as [<-|Hin].
    + exists c. auto.
    + destruct (IH _ Hx Hin) as (child & Hc & Hr). exists child. auto.
Qed.

Lemma slash_if_nil_cases (cs : list string) :
  slash_if_nil cs = "" \/ slash_if_nil cs = "/".
Proof.
  destruct cs; simpl; auto.
Qed.

Lemma wf_declared W :
  (forall a, wf_target (Target_get W a) = true) ->
  forall a base path, declares W a base path -> wf_key base path.
Proof.
  intros Hwf a base path Hd. specialize (Hwf a). unfold wf_target in Hwf.
  apply andb_true_iff in Hwf. destruct Hwf as (Hwf & Hres).
  apply andb_true_iff in Hwf. destruct Hwf as (Hbase & Hsrc).
  rewrite forallb_forall in Hsrc, Hres.
  destruct Hd as [(-> & Hp)|(r & Hr & -> & Hp)];
    apply in_map_iff in Hp; destruct Hp as (src & <- & Hin).
  - split; [exact Hbase | apply dirname_wf; apply Hsrc; exact Hin].
  - specialize (Hres _ Hr). apply andb_true_iff in Hres. destruct Hres as (Hb & Hs).
    rewrite forallb_forall in Hs.
    split; [exact Hb | apply dirname_wf; apply Hs; exact Hin].
Qed.

Lemma walked_paths_In W top child :
  In child (walked_paths W top) ->
  top <> ""
  /\ exists n rd d,
      fs_lookup (fs W) (PosixPath.abs_components (cwd W) top) = Some n
      /\ In rd (os_walk_dir top n) /\ In d (snd rd)
      /\ child = PosixPath.join (fst rd) d.
Proof.
  unfold walked_paths, os_walk. intros H. apply set_iter_In in H.
  apply in_flat_map in H. destruct H as (rd & Hrd & Hd).
  apply in_map_iff in Hd. destruct Hd as (d & <- & Hd).
  destruct (String.eqb_spec top "") as [->|Hne]; [contradiction|].
  split; [exact Hne|].
  destruct (fs_lookup (fs W) (PosixPath.abs_components (cwd W) top)) as [n|];
    [|contradiction].
  exists n, rd, d. auto.
Qed.

Lemma excluded_children_In W tg unex top child :
  In child (excluded_children W tg unex top) ->
  In child (walked_paths W top) /\ ~ In child tg /\ ~ In child unex.
Proof.
  unfold excluded_children. intros H.
  apply filter_In in H. destruct H as (H & Hu).
  apply set_iter_In in H. apply filter_In in H. destruct H as (H & Ht).
  apply negb_true_iff in Hu, Ht. apply mem_false in Hu, Ht. auto.
Qed.

(** The directories of the source sets of the targets on one side, the
    directories the exclude entries stand for on the other, seen through the
    set of unexcludable paths of the run. *)
Lemma excludes_characterized W fuel p tb es et r :
  sources p = [] ->
  wf_root (root_dir p) = true ->
  (forall a, wf_target (Target_get W a) = true) ->
  fs_wf (fs W) = true ->
  configure_jvm W fuel p tb es et = Returns r ->
  exists unex : list string,
    (forall S, In S (sources (r_project r)) -> ss_path S <> None ->
       exists own,
         owned_dir W (root_dir p) S = root_components (root_dir p) ++ own
         /\ forall cs suf, cs <> [] -> own = cs ++ suf ->
                           In (root_dir p +:+ canon cs) unex)
    /\ (forall S' e, In S' (sources (r_project r)) -> In e (ss_excludes S') ->
          exists comps,
            exclude_dir W (root_dir p) S' e = root_components (root_dir p) ++ comps
            /\ comps <> [] /\ ~ In (root_dir p +:+ canon comps) unex).
Proof.
  intros Hs Hroot Hwf Hfs H. apply configure_jvm_phases in H.
  destruct H as (fr & unex & srcs & tops & tgts & Hw & Hu & Hx & _ & Hsrc & _).
  apply (walk_phase_src_inv W (root_dir p) wf_key (wf_declared W Hwf)) in Hw; auto.
  destruct Hw as (Er & Hall & _). rewrite Er in *.
  destruct (wf_root_canon _ Hroot) as (Ec & Hrc & Hnrc).
  set (root := root_dir p) in *. set (rc := root_components root) in *.
  destruct (canon_ends_with_name "" rc Hrc Hnrc) as (Hrne & Hrns).
  simpl in Hrne, Hrns. rewrite <- Ec in Hrne, Hrns.
  apply map_outcome_Forall2 in Hx.
  (* a source set of the final list that has excludes or a path comes from a
     source set of the targets *)
  assert (Horigin : forall S, In S (sources (r_project r)) ->
            ss_path S <> None \/ ss_excludes S <> [] ->
            exists s0 bc pc rs,
              In s0 (sources (self fr))
              /\ S = excludes_append s0 rs
              /\ ss_source_base s0 = sep_join bc /\ ss_path s0 = Some (sep_join pc)
              /\ forallb is_name bc = true /\ forallb is_name pc = true
              /\ ss_excludes s0 = []
              /\ relpaths W
                   (excluded_children W (targeted fr) unex
                      (root +:+ canon (bc ++ pc) +:+ slash_if_nil pc))
                   (root +:+ canon bc +:+ slash_if_nil bc) = Returns rs).
  { intros S Hin Hnot. rewrite Hsrc in Hin. apply in_app_iff in Hin.
    destruct Hin as [Hin|Hin].
    - destruct (Forall2_In_r _ _ _ _ Hx Hin) as (s0 & Hs0 & Hc).
      apply compute_excludes_spec in Hc. destruct Hc as (top & rs & Ho & Hrel & ->).
      destruct (Hall s0 Hs0) as (_ & He0 & path & Hp & _ & Hb & Hpw).
      destruct (wf_rel_sep_join _ Hb) as (Eb & Hnb).
      destruct (wf_rel_sep_join _ Hpw) as (Ep & Hnp).
      exists s0, (rel_components (ss_source_base s0)), (rel_components path), rs.
      repeat split; auto; try congruence.
      unfold owned_path in Ho. rewrite Hp in Ho. inversion Ho; subst top.
      destruct (owned_path_canon root _ _ Hrne Hrns Hnb Hnp) as (E1 & E2).
      rewrite <- Eb in E1, E2. rewrite <- Ep in E2. rewrite <- E1, <- E2. exact Hrel.
    - exfalso. apply in_app_iff in Hin.
      destruct Hin as [Hin|Hin]; apply in_map_iff in Hin;
        destruct Hin as (x & <- & _); simpl in Hnot; destruct Hnot; congruence. }
  exists unex. split.
  - intros S Hin Hpath.
    destruct (Horigin S Hin (or_introl Hpath))
      as (s0 & bc & pc & rs & Hs0 & -> & Eb & Ep & Hnb & Hnp & _ & _).
    exists (bc ++ pc).
    assert (Hn : forallb is_name (bc ++ pc) = true)
      by (rewrite forallb_app, Hnb, Hnp; reflexivity).
    destruct (owned_path_canon root bc pc Hrne Hrns Hnb Hnp) as (_ & E2).
    split.
    + unfold owned_dir. simpl. rewrite Eb, Ep, E2. fold root. rewrite Ec at 1.
      rewrite <- str_app_assoc, <- canon_app.
      fold rc. apply abs_components_canon.
      * destruct rc; [contradiction|discriminate].
      * rewrite forallb_app, Hnrc, Hn. reflexivity.
      * apply slash_if_nil_cases.
    + intros cs suf Hcs E.
      destruct (unexcludable_of_runs _ _ _ _ _ _ Hu Hs0) as (parent & acc & acc' & Ho & Hl & Hi).
      unfold owned_path in Ho. rewrite Ep, Eb, E2 in Ho. inversion Ho; subst parent.
      apply Hi. rewrite E in Hl, Hn.
      eapply (unexcludable_loop_collects root Hrne Hrns);
        [exact Hcs | exact Hn | apply slash_if_nil_cases | exact Hl].
  - intros S' e Hin He.
    assert (Hex : ss_excludes S' <> []) by (destruct (ss_excludes S'); [contradiction|discriminate]).
    destruct (Horigin S' Hin (or_intror Hex))
      as (s0 & bc & pc & rs & Hs0 & -> & Eb & Ep & Hnb & Hnp & He0 & Hrel).
    simpl in He. rewrite He0 in He. simpl in He.
    destruct (relpaths_In _ _ _ _ _ Hrel He) as (child & Hchild & Hr).
    apply excluded_children_In in Hchild. destruct Hchild as (Hwalk & _ & Hnu).
    apply walked_paths_In in Hwalk.
    destruct Hwalk as (_ & n & rd & d & Hlook & Hrd & Hd & ->).
    assert (Hnbp : forallb is_name (bc ++ pc) = true)
      by (rewrite forallb_app, Hnb, Hnp; reflexivity).
    assert (Hxx : root +:+ canon (bc ++ pc) <> ""
                  /\ endswith_sep (root +:+ canon (bc ++ pc)) = false).
    { destruct (bc ++ pc) eqn:E.
      - simpl. rewrite str_app_nil_r. auto.
      - apply canon_ends_with_name; [discriminate|exact Hnbp]. }
    destruct Hxx as (Hx1 & Hx2).
    assert (Htop : root +:+ canon (bc ++ pc) +:+ slash_if_nil pc
                   = root +:+ canon (bc ++ pc)
                   \/ root +:+ canon (bc ++ pc) +:+ slash_if_nil pc
                      = (root +:+ canon (bc ++ pc)) +:+ "/").
    { destruct (slash_if_nil_cases pc) as [E|E]; rewrite E;
        [left; rewrite str_app_nil_r; reflexivity | right; rewrite str_app_assoc; reflexivity]. }
    destruct (os_walk_dir_children n _ _ (fs_lookup_wf _ _ _ Hfs Hlook) Hx1 Hx2 Htop
                rd d Hrd Hd) as (dc & Hdc & Hndc & Ej).
    rewrite Ej in Hr, Hnu.
    assert (Hb' : rc ++ bc <> []) by (destruct rc; [contradiction|discriminate]).
    assert (Hr' : pc ++ dc <> []) by (destruct pc; [exact Hdc|discriminate]).
    assert (Hnb' : forallb is_name (rc ++ bc) = true)
      by (rewrite forallb_app, Hnrc, Hnb; reflexivity).
    assert (Hnr' : forallb is_name (pc ++ dc) = true)
      by (rewrite forallb_app, Hnp, Hndc; reflexivity).
    destruct (relpath_below (cwd W) (rc ++ bc) (pc ++ dc) (slash_if_nil bc)
                Hb' Hr' Hnb' Hnr' (slash_if_nil_cases bc)) as (Erel & Ejoin).
    assert (Echild : (root +:+ canon (bc ++ pc)) +:+ canon dc
                     = canon ((rc ++ bc) ++ pc ++ dc)).
    { rewrite Ec at 1. rewrite !canon_app, !str_app_assoc. reflexivity. }
    assert (Ebase : root +:+ canon bc +:+ slash_if_nil bc
                    = canon (rc ++ bc) +:+ slash_if_nil bc).
    { rewrite Ec at 1. rewrite canon_app, !str_app_assoc. reflexivity. }
    rewrite Echild, Ebase, Erel in Hr. inversion Hr; subst e.
    exists (bc ++ pc ++ dc). split; [|split].
    + unfold exclude_dir. simpl. rewrite Eb.
      destruct (owned_path_canon root bc pc Hrne Hrns Hnb Hnp) as (E1 & _).
      rewrite E1. fold root. rewrite Ebase, Ejoin.
      pose proof (abs_components_canon (cwd W) ((rc ++ bc) ++ pc ++ dc) "") as Ea.
      rewrite str_app_nil_r in Ea. rewrite Ea.
      * rewrite <- app_assoc. reflexivity.
      * destruct rc; [contradiction|discriminate].
      * rewrite forallb_app, Hnb', Hnr'. reflexivity.
      * left. reflexivity.
    + destruct bc; [destruct pc; [exact Hdc|discriminate]|discriminate].
    + assert (E : root +:+ canon (bc ++ pc ++ dc)
                  = (root +:+ canon (bc ++ pc)) +:+ canon dc).
      { rewrite app_assoc, canon_app, str_app_assoc. reflexivity. }
      rewrite E. exact Hnu.
Qed.

(** ** The invariants of the exclude computation *)

(** C3, as the code has it.  For normalized inputs (a normalized absolute
    root, targets whose base and files are normalized relative paths, a
    filesystem whose entries have names) and a project without source sets
    so far: no exclude entry of the final list stands for the directory of a
    source set that comes from the sources or resources of a target.  The
    source sets of the extra roots, which have no path, are not covered. *)
Theorem owned_directory_never_excluded W fuel p tb es et r S S' e :
  sources p = [] ->
  wf_root (root_dir p) = true ->
  (forall a, wf_target (Target_get W a) = true) ->
  fs_wf (fs W) = true ->
  configure_jvm W fuel p tb es et = Returns r ->
  In S (sources (r_project r)) -> ss_path S <> None ->
  In S' (sources (r_project r)) -> In e (ss_excludes S') ->
  exclude_dir W (root_dir p) S' e <> owned_dir W (root_dir p) S.
Proof.
  intros Hs Hroot Hwf Hfs H HS Hpath HS' He.
  destruct (excludes_characterized W fuel p tb es et r Hs Hroot Hwf Hfs H)
    as (unex & Howned & Hexcl).
  destruct (Howned S HS Hpath) as (own & Eo & Hanc).
  destruct (Hexcl S' e HS' He) as (comps & Ee & Hne & Hnot).
  rewrite Eo, Ee. intros E. apply app_inv_head in E. subst own.
  apply Hnot. apply (Hanc comps []); [exact Hne|].
  rewrite app_nil_r. reflexivity.
Qed.

(** C2, as the code has it.  For normalized inputs and a project without
    source sets so far: no exclude entry of the final list stands for a
    directory strictly between the project root and the directory of a
    source set that comes from the sources or resources of a target.  The
    source sets of the extra roots are not covered. *)
Theorem ancestor_never_excluded W fuel p tb es et r S S' e pre suf :
  sources p = [] ->
  wf_root (root_dir p) = true ->
  (forall a, wf_target (Target_get W a) = true) ->
  fs_wf (fs W) = true ->
  configure_jvm W fuel p tb es et = Returns r ->
  In S (sources (r_project r)) -> ss_path S <> None ->
  In S' (sources (r_project r)) -> In e (ss_excludes S') ->
  pre <> [] -> suf <> [] ->
  owned_dir W (root_dir p) S = root_components (root_dir p) ++ pre ++ suf ->
  exclude_dir W (root_dir p) S' e <> root_components (root_dir p) ++ pre.
Proof.
  intros Hs Hroot Hwf Hfs H HS Hpath HS' He Hpre Hsuf Eown.
  destruct (excludes_characterized W fuel p tb es et r Hs Hroot Hwf Hfs H)
    as (unex & Howned & Hexcl).
  destruct (Howned S HS Hpath) as (own & Eo & Hanc).
  destruct (Hexcl S' e HS' He) as (comps & Ee & Hne & Hnot).
  rewrite Eo in Eown. apply app_inv_head in Eown.
  rewrite Ee. intros E. apply app_inv_head in E. subst comps.
  apply Hnot. apply (Hanc pre suf Hpre Eown).
Qed.

(** *** Runs of the small repository *)

Lemma example_wf_targets : forall a, wf_target (Target_get example_world a) = true.
Proof.
  intros [|[|a]]; reflexivity.
Qed.

Lemma run_with_extra_root_gen :
  configure_jvm example_world 3 (example_project [0]) [] ["src/java/gen"] []
  = Returns
      {| r_targets := [0];
         r_project :=
           set_sources (example_project [0])
             [src_java ["gen"; "com"; "gen/out"; "com/foo"; "com/foo/bar"];
              extra_source_set example_world false "src/java/gen"];
         r_TEST_BASES := [];
         r_scanned := ["/r/src/java/"];
         r_analyzed := [0] |}.
Proof.
  vm_compute. reflexivity.
Qed.

Lemma run_with_extra_root_gen_out :
  configure_jvm example_world 3 (example_project [0]) [] ["src/java/gen/out"] []
  = Returns
      {| r_targets := [0];
         r_project :=
           set_sources (example_project [0])
             [src_java ["gen"; "com"; "gen/out"; "com/foo"; "com/foo/bar"];
              extra_source_set example_world false "src/java/gen/out"];
         r_TEST_BASES := [];
         r_scanned := ["/r/src/java/"];
         r_analyzed := [0] |}.
Proof.
  vm_compute. reflexivity.
Qed.

Lemma run_both_targets :
  configure_jvm example_world 6 (example_project [0; 1]) [] [] []
  = Returns
      {| r_targets := [0; 1];
         r_project :=
           set_has_tests
             (set_sources (example_project [0; 1])
                [src_java ["gen"; "gen/out"; "com/foo/bar"];
                 src_java_com_foo ["com/foo/bar"]])
             true;
         r_TEST_BASES := ["src/java"];
         r_scanned := ["/r/src/java/"; "/r/src/java/com/foo"];
         r_analyzed := [0; 1] |}.
Proof.
  vm_compute. reflexivity.
Qed.

(** C3, counterexample.  With the extra source root [src/java/gen], placed
    inside the directory [src/java] of target 0, the invariant fails over
    the whole list: [gen] is in the excludes of the source set of [src/java]
    while [src/java/gen] is owned by the source set of the extra root. *)
Lemma extra_root_is_excluded :
  exists r,
    configure_jvm example_world 3 (example_project [0]) [] ["src/java/gen"] []
    = Returns r
    /\ ~ no_owned_directory_excluded example_world "/r" r.
Proof.
  eexists. split; [exact run_with_extra_root_gen|].
  intros H.
  apply (H (extra_source_set example_world false "src/java/gen")
           (src_java ["gen"; "com"; "gen/out"; "com/foo"; "com/foo/bar"]) "gen").
  - simpl. auto.
  - simpl. auto.
  - simpl. auto.
  - vm_compute. reflexivity.
Qed.

(** C2, counterexample.  With the extra source root [src/java/gen/out], its
    parent [src/java/gen] is excluded from the source set of [src/java]. *)
Lemma ancestor_of_extra_root_is_excluded :
  exists r,
    configure_jvm example_world 3 (example_project [0]) [] ["src/java/gen/out"] []
    = Returns r
    /\ ~ no_ancestor_excluded example_world "/r" r.
Proof.
  eexists. split; [exact run_with_extra_root_gen_out|].
  intros H.
  apply (H (extra_source_set example_world false "src/java/gen/out")
           (src_java ["gen"; "com"; "gen/out"; "com/foo"; "com/foo/bar"]) "gen"
           ["src"; "java"; "gen"] ["out"]).
  - simpl. auto.
  - simpl. auto.
  - simpl. auto.
  - discriminate.
  - discriminate.
  - vm_compute. reflexivity.
  - vm_compute. reflexivity.
Qed.

(** C5, the code at a source set whose path is not empty.  The directory
    [/r/src/java/com/foo/bar] is excluded from the source set with base
    [src/java] and path [com/foo] as [com/foo/bar]: the entry is relative to
    the source base, and joined to the directory of the source set, as the
    docstring of [SourceSet.excludes] has it, it names another directory. *)
Theorem excludes_relative_to_source_base :
  exists r top,
    configure_jvm example_world 6 (example_project [1]) [] [] [] = Returns r
    /\ sources (r_project r) = [src_java_com_foo ["com/foo/bar"]]
    /\ owned_path "/r" (src_java_com_foo []) = Returns top
    /\ top = "/r/src/java/com/foo"
    /\ PosixPath.join top "com/foo/bar" = "/r/src/java/com/foo/com/foo/bar"
    /\ PosixPath.join (PosixPath.join "/r" "src/java") "com/foo/bar"
       = "/r/src/java/com/foo/bar"
    /\ excluded_children example_world ["/r/src/java/com/foo"]
         ["/r/src/java/com/foo"; "/r/src/java/com"; "/r/src/java"; "/r/src"] top
       = ["/r/src/java/com/foo/bar"].
Proof.
  eexists. eexists. split; [vm_compute; reflexivity|].
  repeat split; vm_compute; reflexivity.
Qed.

(** C4, counterexample.  The same path given as an extra source root and as
    an extra test root yields two entries with the same key. *)
Lemma duplicate_extra_root_duplicates_key :
  exists r,
    configure_jvm example_world 1 (example_project []) [] ["gen"] ["gen"] = Returns r
    /\ ~ NoDup (map ss_key (sources (r_project r))).
Proof.
  eexists. split; [vm_compute; reflexivity|].
  simpl. intros H. inversion H as [|k l Hin _]; subst. apply Hin. left. reflexivity.
Qed.

(** C7, counterexample.  With a python test root and an extra JVM test root
    and no target, test source sets are absorbed and [has_tests] stays
    false. *)
Lemma test_roots_do_not_set_has_tests :
  exists r,
    configure_project example_world 1 only_test_roots [] [] = Returns r
    /\ ~ has_tests_tracks_test_source_sets example_world r.
Proof.
  eexists. split; [vm_compute; reflexivity|].
  intros [_ H].
  assert (E : false = true); [|discriminate].
  apply H. right.
  exists (extra_source_set example_world true "tests"). split; [|reflexivity].
  simpl. auto.
Qed.

(** C10, counterexample.  For a source set with empty base and empty path
    the loop starts at the root itself, written [/r/], and stops at once,
    although that path is not strictly below the root. *)
Lemma loop_terminates_at_root_itself :
  loop_terminates "/r" (PosixPath.join (PosixPath.join "/r" "") "")
  /\ ~ strictly_beneath "/r" (PosixPath.join (PosixPath.join "/r" "") "").
Proof.
  split.
  - exists 1, ["/r/"]. reflexivity.
  - intros (_ & rest & Hne & E). vm_compute in E.
    destruct rest; [contradiction|discriminate].
Qed.

(** ** Instances on the small repository *)

Lemma ancestor_never_excluded_witness :
  sources (example_project [0; 1]) = []
  /\ wf_root (root_dir (example_project [0; 1])) = true
  /\ fs_wf (fs example_world) = true
  /\ exclude_dir example_world "/r" (src_java ["gen"; "gen/out"; "com/foo/bar"]) "gen"
     <> root_components "/r" ++ ["src"; "java"; "com"].
Proof.
  split; [reflexivity|]. split; [reflexivity|]. split; [reflexivity|].
  eapply (ancestor_never_excluded example_world 6 (example_project [0; 1]) [] [] [])
    with (S := src_java_com_foo ["com/foo/bar"]) (pre := ["src"; "java"; "com"])
         (suf := ["foo"]).
  - reflexivity.
  - reflexivity.
  - exact example_wf_targets.
  - reflexivity.
  - exact run_both_targets.
  - simpl. auto.
  - discriminate.
  - simpl. auto.
  - simpl. auto.
  - discriminate.
  - discriminate.
  - vm_compute. reflexivity.
Defined.

Lemma owned_directory_never_excluded_witness :
  sources (example_project [0; 1]) = []
  /\ wf_root (root_dir (example_project [0; 1])) = true
  /\ fs_wf (fs example_world) = true
  /\ exclude_dir example_world "/r" (src_java ["gen"; "gen/out"; "com/foo/bar"]) "gen"
     <> owned_dir example_world "/r" (src_java_com_foo ["com/foo/bar"]).
Proof.
  split; [reflexivity|]. split; [reflexivity|]. split; [reflexivity|].
  eapply (owned_directory_never_excluded example_world 6 (example_project [0; 1])
            [] [] []).
  - reflexivity.
  - reflexivity.
  - exact example_wf_targets.
  - reflexivity.
  - exact run_both_targets.
  - simpl. auto.
  - discriminate.
  - simpl. auto.
  - simpl. auto.
Defined.

Lemma source_set_keys_unique_witness :
  sources (example_project [0; 1]) = []
  /\ NoDup (["gen"] ++ ["tests"])
  /\ exists r,
      configure_jvm example_world 6 (example_project [0; 1]) [] ["gen"] ["tests"]
      = Returns r
      /\ NoDup (map ss_key (sources (r_project r))).
Proof.
  assert (Hnd : NoDup (["gen"] ++ ["tests"])).
  { simpl. constructor.
    - simpl. intros [E|[]]. discriminate.
    - constructor; [intros []|constructor]. }
  split; [reflexivity|]. split; [exact Hnd|].
  eexists. split; [vm_compute; reflexivity|].
  eapply (source_set_keys_unique example_world 6 (example_project [0; 1]) []
            ["gen"] ["tests"]); [reflexivity | exact Hnd | vm_compute; reflexivity].
Defined.

Lemma configure_jvm_repeatable_witness :
  exists r1,
    configure_jvm example_world 6 (Project_init false false false "/r" [0; 1] true)
      [] [] ["tests"] = Returns r1
    /\ exists r2,
        configure_jvm example_world 6 (Project_init false false false "/r" [0; 1] true)
          (r_TEST_BASES r1) [] ["tests"] = Returns r2
        /\ sources (r_project r2) = sources (r_project r1)
        /\ r_project r2 = r_project r1
        /\ r_targets r2 = r_targets r1.
Proof.
  eexists. split; [vm_compute; reflexivity|].
  eapply (configure_jvm_repeatable example_world 6 false false false "/r" [0; 1] true
            [] [] ["tests"]).
  vm_compute. reflexivity.
Defined.

Lemma has_tests_iff_test_target_witness :
  exists r,
    configure_project example_world 6 plain_config [0; 1] [] = Returns r
    /\ (has_tests (r_project r) = true <->
        exists a, In a (r_analyzed r) /\ t_sources (Target_get example_world a) <> []
                  /\ t_is_test (Target_get example_world a) = true).
Proof.
  eexists. split; [vm_compute; reflexivity|].
  eapply (proj1 (has_tests_iff_test_target example_world 6 plain_config [0; 1] [] _ _)).
  Unshelve. vm_compute. reflexivity.
Defined.

Lemma extra_roots_appended_verbatim_witness :
  exists r r0,
    configure_jvm example_world 3 (example_project [0]) [] ["src/java/gen"] ["tests"]
    = Returns r
    /\ configure_jvm example_world 3 (example_project [0]) [] [] [] = Returns r0
    /\ sources (r_project r)
       = sources (r_project r0)
         ++ map (extra_source_set example_world false) ["src/java/gen"]
         ++ map (extra_source_set example_world true) ["tests"]
    /\ r_scanned r = r_scanned r0.
Proof.
  eexists.
  destruct (extra_roots_appended_verbatim example_world 3 (example_project [0]) []
              ["src/java/gen"] ["tests"] _ ltac:(vm_compute; reflexivity))
    as (r0 & H0 & Hs & _ & _ & Hsc).
  exists r0. split; [vm_compute; reflexivity|]. auto.
Defined.

Lemma TEST_BASES_process_wide_witness :
  exists r r',
    configure_jvm example_world 3 (example_project [0]) [] [] ["tests"] = Returns r
    /\ configure_jvm example_world 1 (example_project []) (r_TEST_BASES r) [] []
       = Returns r'
    /\ incl (r_TEST_BASES r) (r_TEST_BASES r')
    /\ In "tests" (r_TEST_BASES r').
Proof.
  eexists. eexists. split; [vm_compute; reflexivity|]. split; [vm_compute; reflexivity|].
  destruct (TEST_BASES_process_wide example_world 3 (example_project [0]) [] []
              ["tests"] _ example_world 1 (example_project []) [] [] _
              ltac:(vm_compute; reflexivity) ltac:(vm_compute; reflexivity))
    as (_ & _ & _ & Hi & Ht & _).
  split; [exact Hi | apply Ht; simpl; auto].
Defined.

Lemma ancestor_loop_terminates_iff_witness :
  "/r" <> "" /\ endswith_sep "/r" = false
  /\ (loop_terminates "/r" "/r/src/java" <-> exists rest, "/r/src/java" = "/r" +:+ "/" +:+ rest)
  /\ ((~ exists rest, "/extra/tests" = "/r" +:+ "/" +:+ rest) ->
      forall fuel acc, unexcludable_loop fuel "/r" "/extra/tests" acc = OutOfFuel).
Proof.
  assert (H1 : "/r" <> "") by discriminate.
  assert (H2 : endswith_sep "/r" = false) by reflexivity.
  split; [exact H1|]. split; [exact H2|]. split.
  - exact (proj1 (ancestor_loop_terminates_iff "/r" "/r/src/java" H1 H2)).
  - exact (proj2 (ancestor_loop_terminates_iff "/r" "/extra/tests" H1 H2)).
Defined.

(** * Further properties of the resolver *)

(** ** What the analysis of a target does to the frame *)

Lemma walk_inv_pred {S : Type} (P : S -> Prop) deps (work : nat -> S -> S * list nat) pred :
  (forall a s, pred a = true -> P s -> P (fst (work a s))) ->
  forall fuel t ws ws',
    walk fuel deps work pred t ws = Returns ws' -> P (snd ws) -> P (snd ws').
Proof.
  intros Hw. induction fuel as [|fuel IH]; simpl; intros t [w s] ws' H Hs.
  - discriminate.
  - destruct (mem_nat t w).
    + inversion H; subst; assumption.
    + destruct (if pred t then work t s else (s, [])) as [st' extra] eqn:E.
      assert (Hst' : P st').
      { destruct (pred t) eqn:Ep.
        - specialize (Hw t s Ep Hs). rewrite E in Hw. exact Hw.
        - inversion E; subst; assumption. }
      eapply (for_each_inv (fun ws => P (snd ws))); [|exact H|exact Hst'].
      intros x s0 s0' _. apply IH.
Qed.

Lemma walk_all_inv_pred {S : Type} (P : S -> Prop) deps (work : nat -> S -> S * list nat) pred :
  (forall a s, pred a = true -> P s -> P (fst (work a s))) ->
  forall fuel roots s s',
    walk_all fuel deps work pred roots s = Returns s' -> P s -> P s'.
Proof.
  intros Hw fuel roots. unfold walk_all. apply for_each_inv.
  intros x s s' _ H Hs. bind_inv H. inversion H; subst.
  apply (walk_inv_pred P deps work pred Hw fuel x ([], s) x0 Hx Hs).
Qed.

Lemma same_configuration_refl p : same_configuration p p.
Proof.
  unfold same_configuration. repeat split; reflexivity.
Qed.

Lemma same_configuration_trans p q r :
  same_configuration p q -> same_configuration q r -> same_configuration p r.
Proof.
  unfold same_configuration.
  intros (A1 & A2 & A3 & A4 & A5 & A6 & A7 & A8) (B1 & B2 & B3 & B4 & B5 & B6 & B7 & B8).
  repeat split; congruence.
Qed.

Lemma register_source_set_fields base path is_test fr :
  same_configuration (self fr) (self (register_source_set base path is_test fr))
  /\ has_scala (self (register_source_set base path is_test fr)) = has_scala (self fr)
  /\ has_tests (self (register_source_set base path is_test fr)) = has_tests (self fr)
  /\ analyzed (register_source_set base path is_test fr) = analyzed fr
  /\ incl (targeted fr) (targeted (register_source_set base path is_test fr))
  /\ incl (TEST_BASES fr) (TEST_BASES (register_source_set base path is_test fr)).
Proof.
  unfold register_source_set. simpl.
  split; [unfold same_configuration; simpl; repeat split; reflexivity|].
  split; [reflexivity|]. split; [reflexivity|]. split; [reflexivity|].
  split; [apply set_add_incl|].
  destruct is_test; [apply set_add_incl | apply incl_refl].
Qed.

Lemma configure_source_sets_fields W base srcs is_test fr :
  same_configuration (self fr) (self (configure_source_sets W base srcs is_test fr))
  /\ has_scala (self (configure_source_sets W base srcs is_test fr)) = has_scala (self fr)
  /\ analyzed (configure_source_sets W base srcs is_test fr) = analyzed fr
  /\ incl (targeted fr) (targeted (configure_source_sets W base srcs is_test fr)).
Proof.
  apply (configure_source_sets_inv W
           (fun fr' => same_configuration (self fr) (self fr')
                       /\ has_scala (self fr') = has_scala (self fr)
                       /\ analyzed fr' = analyzed fr
                       /\ incl (targeted fr) (targeted fr'))).
  - intros path fr0 _ _ (Hc & Hs & Ha & Ht).
    destruct (register_source_set_fields base path is_test fr0)
      as (Hc' & Hs' & _ & Ha' & Ht' & _).
    split; [eapply same_configuration_trans; eassumption|].
    split; [congruence|]. split; [congruence|].
    eapply incl_tran; eassumption.
  - split; [apply same_configuration_refl|].
    split; [reflexivity|]. split; [reflexivity|apply incl_refl].
Qed.

(** After [configure_source_sets] the directory of every file it was given
    is targeted. *)
Lemma configure_source_sets_targets W base srcs is_test fr src :
  In src srcs ->
  In (PosixPath.join (PosixPath.join (root_dir (self fr)) base) (PosixPath.dirname src))
     (targeted (configure_source_sets W base srcs is_test fr)).
Proof.
  intros Hin. unfold configure_source_sets.
  assert (Hp : In (PosixPath.dirname src)
                  (set_iter (order W) (map PosixPath.dirname srcs))).
  { apply set_iter_In. apply in_map. exact Hin. }
  revert Hp. generalize (set_iter (order W) (map PosixPath.dirname srcs)).
  generalize (PosixPath.dirname src). intros d l. revert fr.
  assert (Hkeep : forall l fr x,
            In x (targeted fr) ->
            In x (targeted
                    (fold_left
                       (fun fr path =>
                          if mem (PosixPath.join (PosixPath.join (root_dir (self fr)) base) path)
                                 (targeted fr)
                          then fr else register_source_set base path is_test fr)
                       l fr))
            /\ root_dir (self (fold_left
                       (fun fr path =>
                          if mem (PosixPath.join (PosixPath.join (root_dir (self fr)) base) path)
                                 (targeted fr)
                          then fr else register_source_set base path is_test fr)
                       l fr)) = root_dir (self fr)).
  { induction l0 as [|path l0 IH]; intros fr x Hx; simpl; [auto|].
    destruct (mem _ (targeted fr)) eqn:E.
    - apply IH. exact Hx.
    - destruct (IH (register_source_set base path is_test fr) x) as (H1 & H2).
      + unfold register_source_set. simpl. apply set_add_In. auto.
      + split; [exact H1|]. rewrite H2. reflexivity. }
  induction l as [|path l IH]; intros fr Hd; simpl; [contradiction|].
  destruct Hd as [->|Hd].
  - destruct (mem _ (targeted fr)) eqn:E.
    + apply mem_In in E. apply Hkeep. exact E.
    + destruct (Hkeep l (register_source_set base d is_test fr)
                  (PosixPath.join (PosixPath.join (root_dir (self fr)) base) d)) as (H1 & _).
      * unfold register_source_set. simpl. apply set_add_In. auto.
      * exact H1.
  - destruct (mem _ (targeted fr)) eqn:E.
    + apply IH. exact Hd.
    + specialize (IH (register_source_set base path is_test fr) Hd).
      unfold register_source_set in IH at 2. simpl in IH. exact IH.
Qed.

Lemma resources_by_basedir_complete W target r src :
  In r (t_resources target) -> In src (r_sources r) ->
  exists rs, In (r_target_base r, rs) (resources_by_basedir W target) /\ In src rs.
Proof.
  intros Hr Hs. unfold resources_by_basedir.
  eexists. split.
  - apply in_map_iff. exists (r_target_base r). split; [reflexivity|].
    apply dict_iter_In. apply in_map. exact Hr.
  - apply set_iter_In. apply in_flat_map. exists r. split; [|exact Hs].
    apply filter_In. split; [exact Hr|apply String.eqb_refl].
Qed.

Lemma register_source_set_resolver_pre W p covered a base path t fr :
  resolver_pre W p covered fr -> In a (analyzed fr) -> contributes W a base path t ->
  resolver_pre W p covered (register_source_set base path t fr).
Proof.
  intros (Hc & Hn & Hcov & Hprov & Htg) Ha Hcon.
  destruct (register_source_set_fields base path t fr) as (Hc' & Hs' & _ & Ha' & Ht' & Hb').
  assert (Hroot : root_dir (self fr) = root_dir p) by (destruct Hc; assumption).
  split; [eapply same_configuration_trans; eassumption|].
  split; [rewrite Ha'; exact Hn|].
  split; [intros a0 b0 p0 t0 H1 H2; apply Ht'; eapply Hcov; eassumption|].
  split.
  - intros ss Hin. unfold register_source_set in Hin. simpl in Hin.
    apply in_app_iff in Hin. destruct Hin as [Hin|[<-|[]]].
    + destruct (Hprov ss Hin) as (a0 & path0 & H1 & H2 & H3 & H4).
      exists a0, path0. rewrite Ha'. repeat split; auto.
    + exists a, path. rewrite Ha'. simpl. repeat split; auto.
      intros ->. unfold register_source_set. simpl. apply set_add_In. auto.
  - intros x Hx. unfold register_source_set in Hx |- *. simpl in Hx |- *.
    apply set_add_In in Hx. destruct Hx as [->|Hx].
    + eexists. split; [apply in_app_iff; right; left; reflexivity|].
      simpl. split; [discriminate|]. unfold owned_string. simpl.
      rewrite Hroot. reflexivity.
    + destruct (Htg x Hx) as (ss & H1 & H2 & H3).
      exists ss. split; [apply in_app_iff; left; exact H1|]. auto.
Qed.

Lemma configure_source_sets_resolver_pre W p covered a base srcs t fr :
  resolver_pre W p covered fr -> In a (analyzed fr) ->
  (forall src, In src srcs -> contributes W a base (PosixPath.dirname src) t) ->
  resolver_pre W p covered (configure_source_sets W base srcs t fr)
  /\ In a (analyzed (configure_source_sets W base srcs t fr)).
Proof.
  intros Hpre Ha Hcon.
  apply (configure_source_sets_inv W
           (fun fr' => resolver_pre W p covered fr' /\ In a (analyzed fr'))); [|auto].
  intros path fr0 Hpath _ (Hp0 & Ha0).
  apply in_map_iff in Hpath. destruct Hpath as (src & <- & Hsrc).
  split.
  - eapply register_source_set_resolver_pre; eauto.
  - exact Ha0.
Qed.

Lemma fold_resources_targets W l :
  forall fr basedir rs src,
    In (basedir, rs) l -> In src rs ->
    In (PosixPath.join (PosixPath.join (root_dir (self fr)) basedir) (PosixPath.dirname src))
       (targeted (fold_left (fun fr br => configure_source_sets W (fst br) (snd br) false fr)
                            l fr)).
Proof.
  assert (Hkeep : forall l fr x,
            In x (targeted fr) ->
            In x (targeted (fold_left
                              (fun fr br => configure_source_sets W (fst br) (snd br) false fr)
                              l fr))).
  { induction l0 as [|br l0 IH]; intros fr x Hx; simpl; [exact Hx|].
    apply IH. apply (configure_source_sets_fields W (fst br) (snd br) false fr). exact Hx. }
  induction l as [|br l IH]; intros fr basedir rs src Hin Hsrc; simpl; [contradiction|].
  destruct Hin as [->|Hin].
  - apply Hkeep. simpl. apply configure_source_sets_targets. exact Hsrc.
  - specialize (IH (configure_source_sets W (fst br) (snd br) false fr) basedir rs src Hin Hsrc).
    destruct (configure_source_sets_fields W (fst br) (snd br) false fr) as ((Hr & _) & _).
    rewrite Hr in IH. exact IH.
Qed.

(** Analyzing a target keeps the frame consistent: see [resolver_pre]. *)
Lemma configure_target_resolver_inv W p a fr :
  resolver_inv W p fr -> resolver_inv W p (fst (configure_target W a fr)).
Proof.
  intros Hinv. unfold configure_target.
  destruct (mem_nat a (analyzed fr)) eqn:Em; simpl; [exact Hinv|].
  assert (Hna : ~ In a (analyzed fr)).
  { intros Hin. apply mem_nat_In in Hin. congruence. }
  pose proof Hinv as (Hc & Hn & Hcov & Hprov & Htg).
  assert (Hroot : root_dir (self fr) = root_dir p) by (destruct Hc; assumption).
  set (target := Target_get W a) in *.
  set (fr1 := set_self
                {| self := self fr; TEST_BASES := TEST_BASES fr;
                   analyzed := oset_add a (analyzed fr); targeted := targeted fr |}
                (set_has_scala (self fr)
                   (negb (skip_scala (self fr)) && (has_scala (self fr) || is_scala target)))).
  assert (Ea1 : analyzed fr1 = analyzed fr ++ [a]).
  { unfold fr1. simpl. unfold oset_add. rewrite Em. reflexivity. }
  assert (H1 : resolver_pre W p (analyzed fr) fr1).
  { split; [unfold fr1, same_configuration in *; simpl; tauto|].
    split.
    { rewrite Ea1. apply NoDup_app; [exact Hn | constructor; [intros []|constructor]|].
      intros x Hx [<-|[]]. contradiction. }
    split; [exact Hcov|].
    split.
    { intros ss Hin. destruct (Hprov ss Hin) as (a0 & path0 & Ha0 & Hrest).
      exists a0, path0. split; [rewrite Ea1; apply in_app_iff; auto|exact Hrest]. }
    exact Htg. }
  assert (Hin1 : In a (analyzed fr1)).
  { rewrite Ea1. apply in_app_iff. right. left. reflexivity. }
  set (fr2 := if t_has_resources target
              then fold_left (fun fr br => configure_source_sets W (fst br) (snd br) false fr)
                             (resources_by_basedir W target) fr1
              else fr1).
  assert (H2 : resolver_pre W p (analyzed fr) fr2 /\ In a (analyzed fr2)
               /\ analyzed fr2 = analyzed fr ++ [a]
               /\ root_dir (self fr2) = root_dir p
               /\ (t_has_resources target = true ->
                   forall r src, In r (t_resources target) -> In src (r_sources r) ->
                     In (PosixPath.join (PosixPath.join (root_dir p) (r_target_base r))
                                        (PosixPath.dirname src))
                        (targeted fr2))).
  { unfold fr2. destruct (t_has_resources target) eqn:Eres.
    - assert (Hfold : forall l fr0,
                (forall br, In br l -> In br (resources_by_basedir W target)) ->
                resolver_pre W p (analyzed fr) fr0 /\ In a (analyzed fr0)
                /\ analyzed fr0 = analyzed fr ++ [a] ->
                let fr' := fold_left
                             (fun fr br => configure_source_sets W (fst br) (snd br) false fr)
                             l fr0 in
                resolver_pre W p (analyzed fr) fr' /\ In a (analyzed fr')
                /\ analyzed fr' = analyzed fr ++ [a]).
      { induction l as [|[basedir rs] l IH]; intros fr0 Hl (P0 & A0 & E0); simpl; [auto|].
        apply IH; [intros br Hbr; apply Hl; right; exact Hbr|].
        destruct (configure_source_sets_resolver_pre W p (analyzed fr) a basedir rs false fr0
                    P0 A0) as (P1 & A1).
        { intros src Hsrc. right.
          destruct (resources_by_basedir_In W target basedir rs src
                      (Hl _ (or_introl eq_refl)) Hsrc) as (r & Hr & Eb & Hs').
          split; [exact Eres|]. split; [reflexivity|].
          exists r. repeat split; auto. apply in_map. exact Hs'. }
        simpl. split; [exact P1|]. split; [exact A1|].
        destruct (configure_source_sets_fields W basedir rs false fr0) as (_ & _ & Ea & _).
        congruence. }
      destruct (Hfold (resources_by_basedir W target) fr1 (fun br H => H)
                  (conj H1 (conj Hin1 Ea1))) as (P2 & A2 & E2).
      split; [exact P2|]. split; [exact A2|]. split; [exact E2|].
      split; [destruct P2 as ((E & _) & _); exact E|].
      intros _ r src Hr Hsrc.
      destruct (resources_by_basedir_complete W target r src Hr Hsrc) as (rs & Hbr & Hin).
      pose proof (fold_resources_targets W (resources_by_basedir W target) fr1
                    (r_target_base r) rs src Hbr Hin) as Ht.
      assert (Er1 : root_dir (self fr1) = root_dir p) by (unfold fr1; simpl; exact Hroot).
      rewrite Er1 in Ht. exact Ht.
    - split; [exact H1|]. split; [exact Hin1|]. split; [exact Ea1|].
      split; [unfold fr1; simpl; exact Hroot|]. discriminate. }
  fold fr1. fold fr2. clearbody fr2. clear fr1 Ea1 H1 Hin1.
  destruct H2 as (P2 & A2 & E2 & R2 & T2).
  assert (H3 : exists fr3,
             match t_sources target with
             | [] => fr2
             | _ :: _ =>
                 configure_source_sets W (t_target_base target) (t_sources target)
                   (t_is_test target)
                   (set_self fr2
                      (set_has_tests (self fr2) (has_tests (self fr2) || t_is_test target)))
             end = fr3
             /\ resolver_pre W p (analyzed fr) fr3
             /\ analyzed fr3 = analyzed fr ++ [a]
             /\ incl (targeted fr2) (targeted fr3)
             /\ (t_sources target <> [] ->
                 forall src, In src (t_sources target) ->
                   In (PosixPath.join (PosixPath.join (root_dir p) (t_target_base target))
                                      (PosixPath.dirname src))
                      (targeted fr3))).
  { destruct (t_sources target) as [|s0 l0] eqn:Es.
    - exists fr2. split; [reflexivity|]. split; [exact P2|]. split; [exact E2|].
      split; [apply incl_refl|]. intros H; contradiction.
    - eexists. split; [reflexivity|].
      set (frm := set_self fr2
                    (set_has_tests (self fr2) (has_tests (self fr2) || t_is_test target))).
      assert (Pm : resolver_pre W p (analyzed fr) frm).
      { destruct P2 as (C2 & N2 & Cov2 & Prov2 & Tg2).
        split; [unfold frm, same_configuration in *; simpl; tauto|].
        split; [exact N2|]. split; [exact Cov2|].
        split; [exact Prov2|exact Tg2]. }
      destruct (configure_source_sets_resolver_pre W p (analyzed fr) a
                  (t_target_base target) (s0 :: l0) (t_is_test target) frm Pm A2)
        as (P3 & A3).
      { intros src Hsrc. left. fold target. rewrite Es.
        split; [discriminate|]. split; [reflexivity|].
        split; [apply in_map; exact Hsrc|reflexivity]. }
      destruct (configure_source_sets_fields W (t_target_base target) (s0 :: l0)
                  (t_is_test target) frm) as (_ & _ & Ea & Ht).
      split; [exact P3|]. split; [rewrite Ea; exact E2|]. split; [exact Ht|].
      intros _ src Hsrc.
      pose proof (configure_source_sets_targets W (t_target_base target) (s0 :: l0)
                    (t_is_test target) frm src Hsrc) as Hx.
      assert (Erm : root_dir (self frm) = root_dir p) by (unfold frm; simpl; exact R2).
      rewrite Erm in Hx. exact Hx. }
  destruct H3 as (fr3 & E3 & P3 & Ea3 & Ht3 & Hsrc3). rewrite E3.
  destruct P3 as (C3 & N3 & Cov3 & Prov3 & Tg3).
  unfold resolver_inv. split; [exact C3|]. split; [exact N3|].
  split; [|split; [exact Prov3|exact Tg3]].
  intros a0 base path t Ha0 Hcon. rewrite Ea3 in Ha0. apply in_app_iff in Ha0.
  destruct Ha0 as [Ha0|[<-|[]]]; [eapply Cov3; eassumption|].
  destruct Hcon as [(Hne & -> & Hp & _)|(Hres & _ & r & Hr & -> & Hp)].
  - apply in_map_iff in Hp. destruct Hp as (src & <- & Hsrc).
    apply (Hsrc3 Hne src Hsrc).
  - apply in_map_iff in Hp. destruct Hp as (src & <- & Hsrc).
    apply Ht3. apply (T2 Hres r src Hr Hsrc).
Qed.

(** ** Ordered sets *)

Lemma mem_nat_false (x : nat) (l : list nat) : mem_nat x l = false <-> ~ In x l.
Proof.
  rewrite <- mem_nat_In. destruct (mem_nat x l); split; intros; congruence.
Qed.

Lemma oset_add_In (x y : nat) (s : list nat) : In y (oset_add x s) <-> y = x \/ In y s.
Proof.
  unfold oset_add. destruct (mem_nat x s) eqn:E.
  - apply mem_nat_In in E. split; [auto | intros [->|]; auto].
  - rewrite in_app_iff. simpl. split; intros H.
    + destruct H as [H|[H|[]]]; auto.
    + destruct H as [H|H]; auto.
Qed.

Lemma oset_add_NoDup (x : nat) (s : list nat) : NoDup s -> NoDup (oset_add x s).
Proof.
  intros H. unfold oset_add. destruct (mem_nat x s) eqn:E; [exact H|].
  apply mem_nat_false in E. apply NoDup_app; [exact H | constructor; [intros []|constructor]|].
  intros y Hy [<-|[]]. contradiction.
Qed.

Lemma oset_update_spec (l s : list nat) :
  (NoDup s -> NoDup (oset_update s l))
  /\ (forall y, In y (oset_update s l) <-> In y s \/ In y l).
Proof.
  unfold oset_update. revert s. induction l as [|x l IH]; intros s; simpl.
  - split; [auto|]. intros y. tauto.
  - destruct (IH (oset_add x s)) as (Hn & Hi). split.
    + intros H. apply Hn. apply oset_add_NoDup. exact H.
    + intros y. rewrite Hi, oset_add_In. intuition congruence.
Qed.

Lemma OrderedSet_In (l : list nat) (y : nat) : In y (OrderedSet l) <-> In y l.
Proof.
  unfold OrderedSet. destruct (oset_update_spec l []) as (_ & H). rewrite H. simpl. tauto.
Qed.

Lemma OrderedSet_NoDup (l : list nat) : NoDup (OrderedSet l).
Proof.
  unfold OrderedSet. apply (oset_update_spec l []). constructor.
Qed.

(** ** A returning run of configure_jvm, seen from the frame *)

Lemma Forall2_In_l {A B : Type} (R : A -> B -> Prop) l l' x :
  Forall2 R l l' -> In x l -> exists y, In y l' /\ R x y.
Proof.
  induction 1 as [|x' y l l' HR _ IH]; simpl; intros Hin; [contradiction|].
  destruct Hin as [<-|Hin].
  - exists y. auto.
  - destruct (IH Hin) as (y0 & Hy0 & HR0). exists y0. auto.
Qed.

Lemma configure_target_analyzed W a fr x :
  In x (analyzed (fst (configure_target W a fr))) -> x = a \/ In x (analyzed fr).
Proof.
  destruct (configure_target_flags W a fr) as (Ht & Hf).
  destruct (mem_nat a (analyzed fr)).
  - rewrite (Ht eq_refl). auto.
  - destruct (Hf eq_refl) as (E & _). rewrite E, in_app_iff. simpl.
    intuition congruence.
Qed.

Lemma walk_phase_resolver_inv W fuel p tb fr :
  sources p = [] ->
  walk_all fuel (deps_of W) (configure_target W) (source_target W p) (targets p)
           (initial_frame p tb) = Returns fr ->
  resolver_inv W p fr
  /\ (forall a, In a (analyzed fr) -> source_target W p a = true).
Proof.
  intros Hs H.
  assert (Hwork : forall a fr0, source_target W p a = true ->
            resolver_inv W p fr0
            /\ (forall a, In a (analyzed fr0) -> source_target W p a = true) ->
            resolver_inv W p (fst (configure_target W a fr0))
            /\ (forall x, In x (analyzed (fst (configure_target W a fr0))) ->
                           source_target W p x = true)).
  { intros a fr0 Hp (Hinv & Hall). split.
    + apply configure_target_resolver_inv. exact Hinv.
    + intros x Hx. apply configure_target_analyzed in Hx.
      destruct Hx as [->|Hx]; auto. }
  apply (walk_all_inv_pred
           (fun fr => resolver_inv W p fr
                      /\ (forall a, In a (analyzed fr) -> source_target W p a = true))
           _ _ _ Hwork _ _ _ _ H).
  - split.
    + unfold resolver_inv, resolver_pre, initial_frame. simpl. rewrite Hs.
      split; [apply same_configuration_refl|]. split; [constructor|].
      split; [intros a b q t []|]. split; [intros ss []|intros x []].
    + intros a [].
Qed.

Lemma second_walk_spec W fuel p roots tgts :
  walk_all fuel (deps_of W) (fun target tgts => (oset_add target tgts, []))
           (source_target W p) roots [] = Returns tgts ->
  NoDup tgts /\ (forall a, In a tgts -> source_target W p a = true).
Proof.
  intros H.
  apply (walk_all_inv_pred
           (fun tgts => NoDup tgts /\ (forall a, In a tgts -> source_target W p a = true))
           _ _ _) with (fuel := fuel) (roots := roots) (s := []) (s' := tgts) in H.
  - exact H.
  - intros a s Hp (Hn & Hall). simpl. split; [apply oset_add_NoDup; exact Hn|].
    intros x Hx. apply oset_add_In in Hx. destruct Hx as [->|Hx]; auto.
  - split; [constructor | intros a []].
Qed.

(** The phases of a returning run together with what the analysis of the
    targets has established. *)
Lemma resolver_run W fuel p tb es et r :
  sources p = [] ->
  configure_jvm W fuel p tb es et = Returns r ->
  exists fr unex srcs,
    walk_all fuel (deps_of W) (configure_target W) (source_target W p) (targets p)
             (initial_frame p tb) = Returns fr
    /\ resolver_inv W p fr
    /\ (forall a, In a (analyzed fr) -> source_target W p a = true)
    /\ unexcludable_of fuel (root_dir p) (sources (self fr)) = Returns unex
    /\ Forall2 (fun s0 S => compute_excludes W (root_dir p) (targeted fr) unex s0 = Returns S)
               (sources (self fr)) srcs
    /\ sources (r_project r)
       = srcs ++ map (extra_source_set W false) es ++ map (extra_source_set W true) et
    /\ r_project r = set_sources (self fr) (sources (r_project r))
    /\ incl (TEST_BASES fr) (r_TEST_BASES r)
    /\ r_analyzed r = analyzed fr
    /\ NoDup (r_targets r)
    /\ (forall a, In a (r_targets r) -> source_target W p a = true)
    /\ incl (analyzed fr) (r_targets r).
Proof.
  intros Hs H. pose proof (configure_jvm_phases _ _ _ _ _ _ _ H) as Hp.
  destruct Hp as (fr & unex & srcs & tops & tgts0 & Hw & Hu & Hx & _ & Hsrc & Hproj & Htb & _ & _ & Ha & _).
  destruct (walk_phase_resolver_inv W fuel p tb fr Hs Hw) as (Hinv & Hall).
  assert (Hroot : root_dir (self fr) = root_dir p) by (destruct Hinv as ((E & _) & _); exact E).
  assert (Htargets : targets (self fr) = targets p)
    by (destruct Hinv as ((_ & E & _) & _); exact E).
  assert (Hst : forall a, source_target W (self fr) a = source_target W p a).
  { intros a. unfold source_target.
    destruct Hinv as ((_ & E2 & E3 & _ & _ & _ & E7 & E8) & _).
    rewrite E2, E3, E7, E8. reflexivity. }
  rewrite Hroot in Hu, Hx. apply map_outcome_Forall2 in Hx.
  exists fr, unex, srcs.
  split; [exact Hw|]. split; [exact Hinv|]. split; [exact Hall|]. split; [exact Hu|]. split; [exact Hx|].
  split; [exact Hsrc|]. split; [exact Hproj|]. split; [exact Htb|]. split; [exact Ha|].
  (* the expanded target set *)
  revert H. unfold configure_jvm. fold (deps_of W). fold (initial_frame p tb).
  rewrite Hw. simpl. rewrite Hroot.
  destruct (unexcludable_of fuel (root_dir p) (sources (self fr))) as [u| |];
    simpl; try discriminate.
  destruct (map_outcome (compute_excludes W (root_dir p) (targeted fr) u) (sources (self fr)))
    as [sr| |]; simpl; try discriminate.
  destruct (map_outcome (owned_path (root_dir p)) (sources (self fr))) as [tp| |];
    simpl; try discriminate.
  destruct (walk_all fuel (deps_of W) (fun target tgts => (oset_add target tgts, []))
              (source_target W (self fr)) (targets (self fr)) []) as [tg| |] eqn:E2;
    simpl; try discriminate.
  destruct (extend_extra W false es (sr, TEST_BASES fr)) as [s1 t1].
  destruct (extend_extra W true et (s1, t1)) as [s2 t2].
  intros Hr. inversion Hr; subst r; clear Hr. simpl.
  destruct (second_walk_spec W fuel (self fr) _ tg E2) as (Hn & Hp2).
  destruct (oset_update_spec (filter (fun a => negb (mem_nat a tg)) (analyzed fr)) tg)
    as (Hnd & Hin).
  split; [apply Hnd; exact Hn|]. split.
  - intros a Hx2. apply Hin in Hx2. destruct Hx2 as [Hx2|Hx2].
    + rewrite <- Hst. apply Hp2. exact Hx2.
    + apply filter_In in Hx2. apply Hall. tauto.
  - intros a Ha2. apply Hin.
    destruct (mem_nat a tg) eqn:Em.
    + left. apply mem_nat_In. exact Em.
    + right. apply filter_In. rewrite Em. auto.
Qed.

(** ** Source sets and analyzed targets *)

Lemma final_source_origin W root tg unex l srcs es et S :
  Forall2 (fun s0 S => compute_excludes W root tg unex s0 = Returns S) l srcs ->
  In S (srcs ++ map (extra_source_set W false) es ++ map (extra_source_set W true) et) ->
  ss_path S <> None \/ ss_excludes S <> [] ->
  exists s0 rs, In s0 l /\ In S srcs /\ S = excludes_append s0 rs
                /\ compute_excludes W root tg unex s0 = Returns S.
Proof.
  intros Hx Hin Hnot. apply in_app_iff in Hin. destruct Hin as [Hin|Hin].
  - destruct (Forall2_In_r _ _ _ _ Hx Hin) as (s0 & Hs0 & Hc).
    pose proof Hc as Hc'.
    apply compute_excludes_spec in Hc. destruct Hc as (top & rs & _ & _ & ->).
    exists s0, rs. auto.
  - exfalso. apply in_app_iff in Hin.
    destruct Hin as [Hin|Hin]; apply in_map_iff in Hin;
      destruct Hin as (x & <- & _); simpl in Hnot; destruct Hnot; congruence.
Qed.

(** X1.  Every directory in which an analyzed target declares a source file
    (when it has sources) or a resource file (when it has resources) is the
    directory of a source set of the result. *)
Theorem analyzed_directories_are_owned W fuel p tb es et r a base path t :
  sources p = [] ->
  configure_jvm W fuel p tb es et = Returns r ->
  In a (r_analyzed r) ->
  contributes W a base path t ->
  exists ss,
    In ss (sources (r_project r)) /\ ss_path ss <> None
    /\ owned_string (root_dir p) ss
       = PosixPath.join (PosixPath.join (root_dir p) base) path.
Proof.
  intros Hs H Ha Hcon.
  destruct (resolver_run W fuel p tb es et r Hs H)
    as (fr & unex & srcs & _ & Hinv & _ & _ & Hx & Hsrc & _ & _ & Ean & _).
  destruct Hinv as (_ & _ & Hcov & _ & Htg).
  rewrite Ean in Ha. specialize (Hcov a base path t Ha Hcon).
  destruct (Htg _ Hcov) as (s0 & Hs0 & Hp0 & E0).
  destruct (Forall2_In_l _ _ _ _ Hx Hs0) as (S & HS & Hc).
  apply compute_excludes_spec in Hc. destruct Hc as (top & rs & _ & _ & ->).
  exists (excludes_append s0 rs). split; [rewrite Hsrc; apply in_app_iff; auto|].
  split; [exact Hp0|]. rewrite E0. reflexivity.
Qed.

(** X2.  Every source set of the result that has a path was registered for
    an analyzed, source-eligible target: its base and path are those of a
    source or resource directory of that target, and its test flag is the
    flag of the target for a source directory and false for a resource
    directory. *)
Theorem target_source_sets_have_origin W fuel p tb es et r ss path :
  sources p = [] ->
  configure_jvm W fuel p tb es et = Returns r ->
  In ss (sources (r_project r)) ->
  ss_path ss = Some path ->
  exists a,
    In a (r_analyzed r) /\ source_target W p a = true
    /\ contributes W a (ss_source_base ss) path (ss_is_test ss).
Proof.
  intros Hs H Hin Hp.
  destruct (resolver_run W fuel p tb es et r Hs H)
    as (fr & unex & srcs & _ & Hinv & Hall & _ & Hx & Hsrc & _ & _ & Ean & _).
  destruct Hinv as (_ & _ & _ & Hprov & _).
  rewrite Hsrc in Hin.
  destruct (final_source_origin W _ _ _ _ _ es et ss Hx Hin) as (s0 & rs & Hs0 & _ & -> & _).
  { left. congruence. }
  destruct (Hprov s0 Hs0) as (a & path0 & Ha & Hp0 & Hcon & _).
  simpl in Hp. rewrite Hp0 in Hp. inversion Hp; subst path0.
  exists a. rewrite Ean. auto.
Qed.

Lemma configure_target_keeps_test_flag W a fr :
  (forall x, In x (analyzed fr) -> test_flagged W x = true -> has_tests (self fr) = true) ->
  forall x, In x (analyzed (fst (configure_target W a fr))) -> test_flagged W x = true ->
            has_tests (self (fst (configure_target W a fr))) = true.
Proof.
  intros Hinv x Hx Ht.
  destruct (configure_target_flags W a fr) as (Hsame & Hnew).
  destruct (mem_nat a (analyzed fr)).
  - rewrite (Hsame eq_refl) in *. eauto.
  - destruct (Hnew eq_refl) as (Ea & Eh). rewrite Eh. rewrite Ea in Hx.
    apply in_app_iff in Hx. destruct Hx as [Hx|[<-|[]]].
    + rewrite (Hinv x Hx Ht). reflexivity.
    + rewrite Ht. apply orb_true_r.
Qed.

(** X3.  A source set of a target that is flagged as a test makes the
    project have tests, and its source base is in [SourceSet.TEST_BASES]
    after the run. *)
Theorem test_source_set_sets_has_tests W fuel p tb es et r ss :
  sources p = [] ->
  configure_jvm W fuel p tb es et = Returns r ->
  In ss (sources (r_project r)) ->
  ss_path ss <> None ->
  ss_is_test ss = true ->
  has_tests (r_project r) = true /\ In (ss_source_base ss) (r_TEST_BASES r).
Proof.
  intros Hs H Hin Hp Ht.
  destruct (resolver_run W fuel p tb es et r Hs H)
    as (fr & unex & srcs & Hw & Hinv & _ & _ & Hx & Hsrc & Hproj & Htb & _).
  assert (Hflag : forall x, In x (analyzed fr) -> test_flagged W x = true ->
                            has_tests (self fr) = true).
  { apply (walk_all_inv
             (fun fr => forall x, In x (analyzed fr) -> test_flagged W x = true ->
                                  has_tests (self fr) = true)
             _ _ _ (configure_target_keeps_test_flag W) _ _ _ _ Hw).
    intros x []. }
  destruct Hinv as (_ & _ & _ & Hprov & _).
  rewrite Hsrc in Hin.
  destruct (final_source_origin W _ _ _ _ _ es et ss Hx Hin (or_introl Hp))
    as (s0 & rs & Hs0 & _ & -> & _).
  destruct (Hprov s0 Hs0) as (a & path0 & Ha & Hp0 & Hcon & Hbase).
  simpl in Ht. split.
  - rewrite Hproj. simpl. apply (Hflag a Ha).
    destruct Hcon as [(Hne & _ & _ & Et)|(_ & Ef & _)]; [|congruence].
    unfold test_flagged. destruct (t_sources (Target_get W a)); [contradiction|].
    congruence.
  - apply Htb. apply Hbase. exact Ht.
Qed.

Lemma source_target_spec W p a :
  source_target W p a = true ->
  t_has_sources (Target_get W a) = true
  /\ t_is_codegen (Target_get W a) = false
  /\ (skip_java p = true -> is_java (Target_get W a) = false)
  /\ (skip_scala p = true -> is_scala (Target_get W a) = false)
  /\ (transitive p = false -> In a (targets p)).
Proof.
  unfold source_target. intros H.
  apply andb_true_iff in H. destruct H as (H & H3).
  apply andb_true_iff in H. destruct H as (H1 & H2).
  apply andb_true_iff in H3. destruct H3 as (H3 & H5).
  apply andb_true_iff in H3. destruct H3 as (H3 & H4).
  apply negb_true_iff in H3, H4, H5.
  split; [exact H2|]. split; [exact H3|]. split; [|split].
  - intros E. rewrite E in H4. exact H4.
  - intros E. rewrite E in H5. exact H5.
  - intros E. rewrite E in H1. simpl in H1. apply mem_nat_In. exact H1.
Qed.

(** X4.  The target set that [configure_jvm] returns has no duplicates,
    contains every analyzed target, and holds source-eligible targets only:
    each has sources, none is a codegen target, none is a java (scala) target
    when java (scala) is skipped, and on an intransitive project each is one
    of the targets of the project. *)
Theorem expanded_targets_are_source_eligible W fuel p tb es et r :
  sources p = [] ->
  configure_jvm W fuel p tb es et = Returns r ->
  NoDup (r_targets r)
  /\ incl (r_analyzed r) (r_targets r)
  /\ forall a, In a (r_targets r) ->
       t_has_sources (Target_get W a) = true
       /\ t_is_codegen (Target_get W a) = false
       /\ (skip_java p = true -> is_java (Target_get W a) = false)
       /\ (skip_scala p = true -> is_scala (Target_get W a) = false)
       /\ (transitive p = false -> In a (targets p)).
Proof.
  intros Hs H.
  destruct (resolver_run W fuel p tb es et r Hs H)
    as (fr & unex & srcs & _ & _ & _ & _ & _ & _ & _ & _ & Ean & Hn & Hel & Hincl).
  split; [exact Hn|]. split; [rewrite Ean; exact Hincl|].
  intros a Ha. apply source_target_spec. apply Hel. exact Ha.
Qed.

Lemma example_contributes_com_foo :
  contributes example_world 1 "src/java" "com/foo" true.
Proof.
  left. split; [discriminate|]. split; [reflexivity|].
  split; [left; reflexivity|reflexivity].
Qed.

Lemma analyzed_directories_are_owned_witness :
  exists ss,
    In ss [src_java ["gen"; "gen/out"; "com/foo/bar"];
           src_java_com_foo ["com/foo/bar"]]
    /\ ss_path ss <> None
    /\ owned_string "/r" ss = "/r/src/java/com/foo".
Proof.
  exact (analyzed_directories_are_owned example_world 6 (example_project [0; 1])
           [] [] [] _ 1 "src/java" "com/foo" true eq_refl run_both_targets
           (or_intror (or_introl eq_refl)) example_contributes_com_foo).
Defined.

Lemma target_source_sets_have_origin_witness :
  exists a,
    In a [0; 1] /\ source_target example_world (example_project [0; 1]) a = true
    /\ contributes example_world a "src/java" "com/foo" true.
Proof.
  exact (target_source_sets_have_origin example_world 6 (example_project [0; 1])
           [] [] [] _ (src_java_com_foo ["com/foo/bar"]) "com/foo" eq_refl
           run_both_targets (or_intror (or_introl eq_refl)) eq_refl).
Defined.

Lemma test_source_set_sets_has_tests_witness :
  has_tests
    (set_has_tests
       (set_sources (example_project [0; 1])
          [src_java ["gen"; "gen/out"; "com/foo/bar"];
           src_java_com_foo ["com/foo/bar"]]) true) = true
  /\ In "src/java" ["src/java"].
Proof.
  refine (test_source_set_sets_has_tests example_world 6 (example_project [0; 1])
            [] [] [] _ (src_java_com_foo ["com/foo/bar"]) eq_refl
            run_both_targets (or_intror (or_introl eq_refl)) _ eq_refl).
  discriminate.
Defined.

Lemma expanded_targets_are_source_eligible_witness :
  NoDup [0; 1]
  /\ incl [0; 1] [0; 1]
  /\ forall a, In a [0; 1] ->
       t_has_sources (Target_get example_world a) = true
       /\ t_is_codegen (Target_get example_world a) = false
       /\ (skip_java (example_project [0; 1]) = true ->
           is_java (Target_get example_world a) = false)
       /\ (skip_scala (example_project [0; 1]) = true ->
           is_scala (Target_get example_world a) = false)
       /\ (transitive (example_project [0; 1]) = false ->
           In a (targets (example_project [0; 1]))).
Proof.
  exact (expanded_targets_are_source_eligible example_world 6
           (example_project [0; 1]) [] [] [] _ eq_refl run_both_targets).
Defined.

(** ** The language flag, the frame and intransitive projects *)

Lemma configure_target_has_scala W a fr :
  mem_nat a (analyzed fr) = false ->
  has_scala (self (fst (configure_target W a fr)))
  = negb (skip_scala (self fr)) && (has_scala (self fr) || is_scala (Target_get W a)).
Proof.
  intros E. unfold configure_target. rewrite E. cbn [fst].
  match goal with
  | |- context [match t_sources _ with [] => ?X | _ => _ end] => set (fr2 := X)
  end.
  assert (H2 : has_scala (self fr2)
               = negb (skip_scala (self fr))
                 && (has_scala (self fr) || is_scala (Target_get W a))).
  { subst fr2. destruct (t_has_resources (Target_get W a)); [|reflexivity].
    apply (fold_left_inv
             (fun fr' => has_scala (self fr')
                         = negb (skip_scala (self fr))
                           && (has_scala (self fr) || is_scala (Target_get W a))));
      [|reflexivity].
    intros br fr0 _ H0.
    destruct (configure_source_sets_fields W (fst br) (snd br) false fr0) as (_ & Hs & _).
    rewrite Hs. exact H0. }
  destruct (t_sources (Target_get W a)); [exact H2|].
  match goal with
  | |- has_scala (self (configure_source_sets W ?b ?s ?t ?f)) = _ =>
      destruct (configure_source_sets_fields W b s t f) as (_ & Hs & _); rewrite Hs
  end.
  simpl. exact H2.
Qed.

Lemma configure_target_same_configuration W p a fr :
  same_configuration p (self fr) ->
  same_configuration p (self (fst (configure_target W a fr))).
Proof.
  apply (configure_target_inv W (fun fr => same_configuration p (self fr)) a).
  - intros base path is_test fr0 _ _ H.
    destruct (register_source_set_fields base path is_test fr0) as (Hc & _).
    eapply same_configuration_trans; [exact H|exact Hc].
  - intros fr0 b H. exact H.
  - intros fr0 H. exact H.
Qed.

Lemma walk_phase_has_scala W fuel p tb fr :
  walk_all fuel (deps_of W) (configure_target W) (source_target W p) (targets p)
           (initial_frame p tb) = Returns fr ->
  has_scala (self fr)
  = match analyzed fr with
    | [] => has_scala p
    | _ => negb (skip_scala p)
           && (has_scala p || existsb (fun a => is_scala (Target_get W a)) (analyzed fr))
    end.
Proof.
  intros Hw.
  set (sc := fun a => is_scala (Target_get W a)).
  assert (H : same_configuration p (self fr)
              /\ has_scala (self fr)
                 = match analyzed fr with
                   | [] => has_scala p
                   | _ => negb (skip_scala p) && (has_scala p || existsb sc (analyzed fr))
                   end).
  { refine (walk_all_inv
              (fun fr => same_configuration p (self fr)
                         /\ has_scala (self fr)
                            = match analyzed fr with
                              | [] => has_scala p
                              | _ => negb (skip_scala p)
                                     && (has_scala p || existsb sc (analyzed fr))
                              end)
              _ _ _ _ _ _ _ _ Hw _).
    - intros a s (Hc & Hs). split; [apply configure_target_same_configuration; exact Hc|].
      destruct (configure_target_flags W a s) as (Hsame & Hnew).
      destruct (mem_nat a (analyzed s)) eqn:E.
      + rewrite (Hsame eq_refl). exact Hs.
      + destruct (Hnew eq_refl) as (Ea & _). rewrite Ea.
        rewrite (configure_target_has_scala W a s E).
        destruct Hc as (_ & _ & _ & _ & _ & _ & _ & Hsk). rewrite Hsk, Hs.
        destruct (analyzed s) as [|x l] eqn:El.
        * simpl. unfold sc. rewrite orb_false_r. reflexivity.
        * assert (Eex : existsb sc (x :: l ++ [a]) = existsb sc (x :: l) || sc a).
          { change (x :: l ++ [a]) with ((x :: l) ++ [a]). rewrite existsb_app.
            simpl. rewrite orb_false_r. reflexivity. }
          cbn [app]. rewrite Eex. fold (sc a).
          generalize (existsb sc (x :: l)) (sc a) (has_scala p) (skip_scala p).
          intros [|] [|] [|] [|]; reflexivity.
    - split; [apply same_configuration_refl|reflexivity]. }
  exact (proj2 H).
Qed.

(** X5.  After [configure_project], [has_scala] is true exactly when some
    analyzed target is a scala target; in particular it is false when scala
    is skipped. *)
Theorem has_scala_iff_scala_target_analyzed W fuel g ts tb r :
  configure_project W fuel g ts tb = Returns r ->
  has_scala (r_project r)
  = existsb (fun a => is_scala (Target_get W a)) (r_analyzed r)
  /\ (skip_scala_opt g = true -> has_scala (r_project r) = false).
Proof.
  intros H. unfold configure_project in H. bind_inv H. destruct x as [p tb'].
  cbn [fst snd] in H.
  assert (Hp : sources p = [] /\ has_scala p = false
               /\ skip_scala p = skip_scala_opt g).
  { destruct (python g).
    - unfold configure_python in Hx.
      destruct (extend_extra W false _ _) as [py1 tb1] in Hx.
      destruct (extend_extra W true _ _) as [py2 tb2] in Hx.
      bind_inv Hx. inversion Hx; subst. simpl. auto.
    - inversion Hx; subst. simpl. auto. }
  destruct Hp as (Hs & Hsc & Hsk).
  destruct (resolver_run W fuel p tb' _ _ r Hs H)
    as (fr & unex & srcs & Hw & _ & Hall & _ & _ & _ & Hproj & _ & Ean & _).
  pose proof (walk_phase_has_scala W fuel p tb' fr Hw) as Hh.
  assert (E : has_scala (r_project r)
              = existsb (fun a => is_scala (Target_get W a)) (r_analyzed r)).
  { rewrite Hproj, Ean. cbn [has_scala set_sources]. rewrite Hh, Hsc.
    destruct (analyzed fr) as [|x l] eqn:El; [reflexivity|]. rewrite <- El.
    destruct (skip_scala p) eqn:Esk; [|reflexivity].
    cbn [negb andb orb]. symmetry. apply not_true_is_false. intros Hex.
    apply existsb_exists in Hex. destruct Hex as (a & Ha & Hsa).
    rewrite <- El in Hall.
    destruct (source_target_spec W p a (Hall a Ha)) as (_ & _ & _ & Hns & _).
    rewrite (Hns Esk) in Hsa. discriminate. }
  split; [exact E|]. intros Hopt. rewrite Hproj. cbn [has_scala set_sources].
  rewrite Hh, Hsc, Hsk, Hopt. destruct (analyzed fr); reflexivity.
Qed.

Lemma configure_project_start_configuration W fuel g ts tb r :
  configure_project W fuel g ts tb = Returns r ->
  exists p tb',
    configure_jvm W fuel p tb' (extra_jvm_source_paths g) (extra_jvm_test_paths g)
    = Returns r
    /\ sources p = [] /\ targets p = OrderedSet ts
    /\ transitive p = negb (intransitive g)
    /\ root_dir p = get_buildroot W.
Proof.
  unfold configure_project. intros H. bind_inv H. destruct x as [p tb'].
  exists p, tb'. split; [exact H|].
  destruct (python g).
  - unfold configure_python in Hx.
    destruct (extend_extra W false _ _) as [py1 tb1] in Hx.
    destruct (extend_extra W true _ _) as [py2 tb2] in Hx.
    bind_inv Hx. inversion Hx; subst. simpl. auto.
  - inversion Hx; subst. simpl. auto.
Qed.

(** X6.  On an intransitive run of [configure_project] every analyzed
    target and every returned target is one of the targets given: neither
    dependencies nor siblings are drawn in. *)
Theorem intransitive_keeps_to_given_targets W fuel g ts tb r :
  configure_project W fuel g ts tb = Returns r ->
  intransitive g = true ->
  incl (r_analyzed r) ts /\ incl (r_targets r) ts.
Proof.
  intros H Hi.
  destruct (configure_project_start_configuration W fuel g ts tb r H)
    as (p & tb' & Hj & Hs & Ht & Htr & _).
  destruct (resolver_run W fuel p tb' _ _ r Hs Hj)
    as (fr & unex & srcs & _ & _ & _ & _ & _ & _ & _ & _ & Ean & _ & Hel & Hincl).
  assert (Hin : forall a, In a (r_targets r) -> In a ts).
  { intros a Ha.
    destruct (source_target_spec W p a (Hel a Ha)) as (_ & _ & _ & _ & Hin).
    rewrite Htr, Hi in Hin. specialize (Hin eq_refl). rewrite Ht in Hin.
    apply OrderedSet_In. exact Hin. }
  split; [|exact Hin]. intros a Ha. apply Hin. apply Hincl. rewrite <- Ean. exact Ha.
Qed.

(** X7.  [configure_jvm] leaves the configuration of the project alone: the
    root directory, the targets, the transitive flag, the python source sets
    and libraries and the skip flags are those the project started with. *)
Theorem configure_jvm_keeps_configuration W fuel p tb es et r :
  sources p = [] ->
  configure_jvm W fuel p tb es et = Returns r ->
  same_configuration p (r_project r).
Proof.
  intros Hs H.
  destruct (resolver_run W fuel p tb es et r Hs H)
    as (fr & unex & srcs & _ & Hinv & _ & _ & _ & _ & Hproj & _).
  destruct Hinv as (Hc & _). rewrite Hproj. exact Hc.
Qed.

Lemma has_scala_iff_scala_target_analyzed_witness :
  exists r,
    configure_project mixed_world 8 plain_config [0] [] = Returns r
    /\ r_analyzed r = [0; 1]
    /\ has_scala (r_project r)
       = existsb (fun a => is_scala (Target_get mixed_world a)) (r_analyzed r)
    /\ (skip_scala_opt plain_config = true -> has_scala (r_project r) = false).
Proof.
  eexists. split; [vm_compute; reflexivity|]. split; [reflexivity|].
  apply (has_scala_iff_scala_target_analyzed mixed_world 8 plain_config [0] []).
  vm_compute. reflexivity.
Defined.

Lemma intransitive_keeps_to_given_targets_witness :
  exists r,
    configure_project mixed_world 8 intransitive_config [0] [] = Returns r
    /\ incl (r_analyzed r) [0] /\ incl (r_targets r) [0].
Proof.
  eexists. split; [vm_compute; reflexivity|].
  apply (intransitive_keeps_to_given_targets mixed_world 8 intransitive_config [0] []);
    [vm_compute; reflexivity | reflexivity].
Defined.

Lemma configure_jvm_keeps_configuration_witness :
  same_configuration (example_project [0; 1])
    (set_has_tests
       (set_sources (example_project [0; 1])
          [src_java ["gen"; "gen/out"; "com/foo/bar"];
           src_java_com_foo ["com/foo/bar"]]) true).
Proof.
  exact (configure_jvm_keeps_configuration example_world 6 (example_project [0; 1])
           [] [] [] _ eq_refl run_both_targets).
Defined.

(** ** How a run of the resolver can end *)

Lemma bind_Raises {A B : Type} (m : outcome A) (k : A -> outcome B) (e : exn) :
  bind m k = Raises e ->
  m = Raises e \/ exists a, m = Returns a /\ k a = Raises e.
Proof.
  destruct m; simpl; intros H; try discriminate.
  - right. eauto.
  - left. inversion H. reflexivity.
Qed.

Lemma for_each_Raises {A S : Type} (P : S -> Prop) (body : A -> S -> outcome S)
    (l : list A) (e : exn) :
  (forall x s s', In x l -> body x s = Returns s' -> P s -> P s') ->
  forall s, for_each body l s = Raises e -> P s ->
            exists x s0, In x l /\ P s0 /\ body x s0 = Raises e.
Proof.
  induction l as [|x l IH]; simpl; intros Hb s H Hs; [discriminate|].
  apply bind_Raises in H. destruct H as [H|(s1 & H1 & H)].
  - exists x, s. auto.
  - destruct (IH (fun y s s' Hy => Hb y s s' (or_intror Hy)) s1 H) as (y & s0 & Hy & H0 & Hr).
    + eapply Hb; eauto.
    + exists y, s0. auto.
Qed.

Lemma map_outcome_Raises {A B : Type} (f : A -> outcome B) (l : list A) (e : exn) :
  map_outcome f l = Raises e -> exists x, In x l /\ f x = Raises e.
Proof.
  induction l as [|x l IH]; simpl; intros H; [discriminate|].
  apply bind_Raises in H. destruct H as [H|(y & Hy & H)].
  - exists x. auto.
  - apply bind_Raises in H. destruct H as [H|(ys & Hys & H)]; [|discriminate].
    destruct (IH H) as (z & Hz & Hf). exists z. auto.
Qed.

Lemma walk_never_raises {S : Type} deps (work : nat -> S -> S * list nat) pred e :
  forall fuel x ws, walk fuel deps work pred x ws <> Raises e.
Proof.
  induction fuel as [|fuel IH]; intros x [walked st]; simpl; [discriminate|].
  destruct (mem_nat x walked); [discriminate|].
  destruct (if pred x then work x st else (st, [])) as [st' more].
  intros H.
  destruct (for_each_Raises (fun _ => True) _ _ e (fun _ _ _ _ _ _ => I) _ H I)
    as (y & s0 & _ & _ & Hy).
  exact (IH y s0 Hy).
Qed.

Lemma walk_all_never_raises {S : Type} deps (work : nat -> S -> S * list nat) pred e :
  forall fuel roots s, walk_all fuel deps work pred roots s <> Raises e.
Proof.
  intros fuel roots s H. unfold walk_all in H.
  destruct (for_each_Raises (fun _ => True) _ _ e (fun _ _ _ _ _ _ => I) _ H I)
    as (y & s0 & _ & _ & Hy).
  apply bind_Raises in Hy. destruct Hy as [Hy|(a & _ & Hy)]; [|discriminate].
  exact (walk_never_raises deps work pred e fuel y ([], s0) Hy).
Qed.

Lemma join_not_empty (a b : string) : a <> "" -> PosixPath.join a b <> "".
Proof.
  intros Ha. unfold PosixPath.join.
  destruct (startswith_sep b) eqn:Eb.
  - intros ->. discriminate.
  - destruct (String.eqb a "" || endswith_sep a); destruct a; try contradiction;
      discriminate.
Qed.

Lemma os_walk_dir_roots (n : FsNode) :
  forall top rd, top <> "" -> In rd (os_walk_dir top n) -> fst rd <> "".
Proof.
  induction n as [|entries IH] using FsNode_nested_ind; intros top rd Ht Hin;
    [contradiction|].
  cbn [os_walk_dir] in Hin. destruct Hin as [<-|Hin]; [exact Ht|].
  apply in_flat_map in Hin. destruct Hin as ([name child] & He & Hin).
  rewrite Forall_forall in IH.
  apply (IH (name, child) He (PosixPath.join top name) rd); [|exact Hin].
  apply join_not_empty. exact Ht.
Qed.

Lemma sources_kept W fuel p tb fr :
  walk_all fuel (deps_of W) (configure_target W) (source_target W p) (targets p)
           (initial_frame p tb) = Returns fr ->
  incl (sources p) (sources (self fr)).
Proof.
  intros Hw.
  refine (walk_all_inv (fun fr => incl (sources p) (sources (self fr)))
            _ _ _ _ _ _ _ _ Hw _).
  - intros a s. apply (configure_target_inv W (fun fr => incl (sources p) (sources (self fr))) a).
    + intros base path is_test fr0 _ _ H x Hx. unfold register_source_set.
      cbn. apply in_app_iff. left. apply H. exact Hx.
    + intros fr0 b H. exact H.
    + intros fr0 H. exact H.
  - apply incl_refl.
Qed.

Lemma unexcludable_of_Raises fuel root srcs e :
  unexcludable_of fuel root srcs = Raises e ->
  e = AttributeError /\ exists ss, In ss srcs /\ ss_path ss = None.
Proof.
  unfold unexcludable_of. intros H.
  destruct (for_each_Raises (fun _ => True) _ _ e (fun _ _ _ _ _ _ => I) _ H I)
    as (ss & s0 & Hss & _ & Hr).
  apply bind_Raises in Hr. destruct Hr as [Hr|(parent & _ & Hr)].
  - unfold owned_path in Hr. destruct (ss_path ss) eqn:Ep; [discriminate|].
    inversion Hr. split; [reflexivity|]. exists ss. auto.
  - exfalso. exact (loop_never_raises _ _ _ _ _ Hr).
Qed.

Lemma pathless_source_set_stops_run W fuel p tb es et ss :
  In ss (sources p) -> ss_path ss = None ->
  configure_jvm W fuel p tb es et = Raises AttributeError
  \/ configure_jvm W fuel p tb es et = OutOfFuel.
Proof.
  intros Hin Hp.
  destruct (configure_jvm W fuel p tb es et) as [r|e|] eqn:E; [exfalso| |auto].
  - destruct (configure_jvm_phases W fuel p tb es et r E)
      as (fr & unex & srcs & tops & tgts & Hw & Hu & _).
    pose proof (sources_kept W fuel p tb fr Hw ss Hin) as Hin'.
    destruct (unexcludable_of_runs fuel _ _ _ _ ss Hu Hin') as (parent & _ & _ & Ho & _).
    unfold owned_path in Ho. rewrite Hp in Ho. discriminate.
  - left. f_equal. unfold configure_jvm in E.
    apply bind_Raises in E. destruct E as [E|(fr & Hw & E)].
    { exfalso. exact (walk_all_never_raises _ _ _ _ _ _ _ E). }
    apply bind_Raises in E. destruct E as [E|(unex & Hu & E)].
    { apply unexcludable_of_Raises in E. tauto. }
    exfalso.
    pose proof (sources_kept W fuel p tb fr Hw ss Hin) as Hin'.
    destruct (unexcludable_of_runs fuel _ _ _ _ ss Hu Hin') as (parent & _ & _ & Ho & _).
    unfold owned_path in Ho. rewrite Hp in Ho. discriminate.
Qed.

(** X8.  When a run of [configure_jvm] returns, every directory an analyzed
    target declares is written as the root directory, a separator and a
    rest: a target whose base does not lead below the root keeps the run
    from returning. *)
Theorem registered_directories_lie_below_root W fuel p tb es et r a base path t :
  sources p = [] ->
  root_dir p <> "" -> endswith_sep (root_dir p) = false ->
  configure_jvm W fuel p tb es et = Returns r ->
  In a (r_analyzed r) ->
  contributes W a base path t ->
  exists rest,
    PosixPath.join (PosixPath.join (root_dir p) base) path
    = root_dir p +:+ "/" +:+ rest.
Proof.
  intros Hs Hr He H Ha Hcon.
  destruct (resolver_run W fuel p tb es et r Hs H)
    as (fr & unex & srcs & _ & Hinv & _ & Hu & _ & _ & _ & _ & Ean & _).
  destruct Hinv as (Hc & _ & Hcov & _ & Htg).
  rewrite Ean in Ha. specialize (Hcov a base path t Ha Hcon).
  destruct (Htg _ Hcov) as (s0 & Hs0 & Hp0 & E0).
  destruct Hc as (Hroot & _).
  unfold unexcludable_of in Hu.
  destruct (unexcludable_of_runs fuel _ _ _ _ s0 Hu Hs0) as (parent & acc & acc' & Ho & Hl & _).
  apply (loop_returns_only_below_root (root_dir p) Hr He) in Hl.
  unfold owned_path in Ho. unfold owned_string in E0.
  destruct (ss_path s0); [|contradiction]. inversion Ho; subst parent.
  rewrite E0. exact Hl.
Qed.

(** X9.  A project whose source sets include an extra root cannot be
    configured again: a second call of [configure_jvm] on the project that
    a call with extra roots left behind does not return, it raises
    [AttributeError] at the first source set without a path unless it runs
    for ever before. *)
Theorem second_run_after_extra_roots_fails W fuel p tb es et r fuel' tb' es' et' :
  configure_jvm W fuel p tb es et = Returns r ->
  es ++ et <> [] ->
  configure_jvm W fuel' (r_project r) tb' es' et' = Raises AttributeError
  \/ configure_jvm W fuel' (r_project r) tb' es' et' = OutOfFuel.
Proof.
  intros H Hne.
  destruct (configure_jvm_phases W fuel p tb es et r H)
    as (fr & unex & srcs & tops & tgts & _ & _ & _ & _ & Hsrc & _).
  assert (Hex : exists ss, In ss (sources (r_project r)) /\ ss_path ss = None).
  { rewrite Hsrc. destruct es as [|x es].
    - destruct et as [|x et]; [contradiction|].
      exists (extra_source_set W true x). split; [|reflexivity].
      apply in_app_iff. right. simpl. auto.
    - exists (extra_source_set W false x). split; [|reflexivity].
      apply in_app_iff. right. simpl. auto. }
  destruct Hex as (ss & Hin & Hp).
  exact (pathless_source_set_stops_run W fuel' (r_project r) tb' es' et' ss Hin Hp).
Qed.

(** X10.  On a project that starts without source sets [configure_jvm]
    raises no exception: it returns, or it does not come to an end. *)
Theorem configure_jvm_never_raises W fuel p tb es et e :
  sources p = [] ->
  configure_jvm W fuel p tb es et <> Raises e.
Proof.
  intros Hs E. unfold configure_jvm in E.
  apply bind_Raises in E. destruct E as [E|(fr & Hw & E)].
  { exact (walk_all_never_raises _ _ _ _ _ _ _ E). }
  destruct (walk_phase_resolver_inv W fuel p tb fr Hs Hw) as (Hinv & _).
  destruct Hinv as (_ & _ & _ & Hprov & _).
  assert (Hown : forall ss root e', In ss (sources (self fr)) ->
                                    owned_path root ss <> Raises e').
  { intros ss root e' Hin Ho. destruct (Hprov ss Hin) as (a & path & _ & Hp & _).
    unfold owned_path in Ho. rewrite Hp in Ho. discriminate. }
  apply bind_Raises in E. destruct E as [E|(unex & Hu & E)].
  { apply unexcludable_of_Raises in E. destruct E as (_ & ss & Hin & Hp).
    destruct (Hprov ss Hin) as (a & path & _ & Hp' & _). congruence. }
  apply bind_Raises in E. destruct E as [E|(srcs & Hx & E)].
  { apply map_outcome_Raises in E. destruct E as (ss & Hin & E).
    unfold compute_excludes in E.
    apply bind_Raises in E. destruct E as [E|(top & Ho & E)].
    { exact (Hown _ _ _ Hin E). }
    apply bind_Raises in E. destruct E as [E|(rs & _ & E)]; [|discriminate].
    revert E. generalize (PosixPath.join (root_dir (self fr)) (ss_source_base ss)).
    intros start.
    assert (Hch : forall child,
               In child (excluded_children W (targeted fr) unex top) -> child <> "").
    { intros child Hc. apply excluded_children_In in Hc. destruct Hc as (Hc & _).
      apply walked_paths_In in Hc.
      destruct Hc as (Ht & n & rd & d & _ & Hrd & _ & ->).
      apply join_not_empty. exact (os_walk_dir_roots n top rd Ht Hrd). }
    revert Hch. generalize (excluded_children W (targeted fr) unex top).
    induction l as [|child l IH]; simpl; intros Hch E; [discriminate|].
    unfold PosixPath.relpath in E.
    destruct (String.eqb_spec child "") as [Ec|Ec].
    { exact (Hch child (or_introl eq_refl) Ec). }
    match type of E with
    | match (match ?X with [] => _ | _ => _ end) with _ => _ end = _ =>
        destruct X
    end.
    - apply bind_Raises in E. destruct E as [E|(y & _ & E)]; [|discriminate].
      apply IH; [|exact E]. intros c Hc. apply Hch. right. exact Hc.
    - apply bind_Raises in E. destruct E as [E|(y & _ & E)]; [|discriminate].
      apply IH; [|exact E]. intros c Hc. apply Hch. right. exact Hc. }
  apply bind_Raises in E. destruct E as [E|(tops & _ & E)].
  { apply map_outcome_Raises in E. destruct E as (ss & Hin & E).
    exact (Hown _ _ _ Hin E). }
  apply bind_Raises in E. destruct E as [E|(tgts & _ & E)].
  { exact (walk_all_never_raises _ _ _ _ _ _ _ E). }
  destruct (extend_extra W false es _) as [srcs1 tb1].
  destruct (extend_extra W true et _) as [srcs2 tb2].
  discriminate.
Qed.

Lemma registered_directories_lie_below_root_witness :
  exists rest,
    PosixPath.join (PosixPath.join "/r" "src/java") "com/foo" = "/r" +:+ "/" +:+ rest.
Proof.
  refine (registered_directories_lie_below_root example_world 6
            (example_project [0; 1]) [] [] [] _ 1 "src/java" "com/foo" true
            eq_refl _ eq_refl run_both_targets (or_intror (or_introl eq_refl))
            example_contributes_com_foo).
  discriminate.
Defined.

Lemma second_run_after_extra_roots_fails_witness :
  configure_jvm example_world 3
    (set_sources (example_project [0])
       [src_java ["gen"; "com"; "gen/out"; "com/foo"; "com/foo/bar"];
        extra_source_set example_world false "src/java/gen"]) [] [] []
  = Raises AttributeError
  \/ configure_jvm example_world 3
       (set_sources (example_project [0])
          [src_java ["gen"; "com"; "gen/out"; "com/foo"; "com/foo/bar"];
           extra_source_set example_world false "src/java/gen"]) [] [] []
     = OutOfFuel.
Proof.
  refine (second_run_after_extra_roots_fails example_world 3 (example_project [0])
            [] ["src/java/gen"] [] _ 3 [] [] [] run_with_extra_root_gen _).
  discriminate.
Defined.

Lemma configure_jvm_never_raises_witness :
  configure_jvm example_world 6 (example_project [0; 1]) [] [] [] <> Raises ValueError.
Proof.
  exact (configure_jvm_never_raises example_world 6 (example_project [0; 1])
           [] [] [] ValueError eq_refl).
Defined.

(** ** What os.walk finds *)

Lemma fs_lookup_app (a b : list string) :
  forall n, fs_lookup n (a ++ b)
            = match fs_lookup n a with
              | Some m => fs_lookup m b
              | None => None
              end.
Proof.
  induction a as [|c a IH]; intros n; simpl; [reflexivity|].
  destruct n as [|es]; [reflexivity|].
  destruct (find_entry c es); [apply IH|reflexivity].
Qed.

Lemma fs_lookup_names (dc : list string) :
  forall n m, fs_wf n = true -> fs_lookup n dc = Some m -> forallb is_name dc = true.
Proof.
  induction dc as [|c dc IH]; intros n m Hwf H; [reflexivity|].
  simpl in H. destruct n as [|es]; [discriminate|].
  destruct (find_entry c es) as [child|] eqn:E; [|discriminate].
  apply find_entry_In in E. simpl in Hwf. rewrite forallb_forall in Hwf.
  specialize (Hwf _ E). simpl in Hwf. apply andb_true_iff in Hwf.
  destruct Hwf as (Hc & Hchild). simpl. rewrite Hc. exact (IH _ _ Hchild H).
Qed.

Lemma find_entry_distinct name child es :
  names_distinct (map fst es) = true -> In (name, child) es ->
  find_entry name es = Some child.
Proof.
  induction es as [|[n c] es IH]; simpl; intros Hd Hin; [contradiction|].
  apply andb_true_iff in Hd. destruct Hd as (Hn & Hd).
  destruct Hin as [E|Hin].
  - inversion E; subst. rewrite String.eqb_refl. reflexivity.
  - destruct (String.eqb_spec n name) as [->|Hne]; [|exact (IH Hd Hin)].
    exfalso. apply negb_true_iff in Hn. apply mem_false in Hn. apply Hn.
    apply in_map_iff. exists (name, child). auto.
Qed.

(** Every directory [os.walk] reports below a normalized [top] is found
    there by name. *)
Lemma os_walk_dir_sound (n : FsNode) :
  forall top x,
    fs_wf n = true -> fs_distinct n = true ->
    x <> "" -> endswith_sep x = false ->
    top = x \/ top = x +:+ "/" ->
    forall rd d, In rd (os_walk_dir top n) -> In d (snd rd) ->
      exists dc, dc <> [] /\ forallb is_name dc = true
                 /\ PosixPath.join (fst rd) d = x +:+ canon dc
                 /\ dir_below n dc = true.
Proof.
  induction n as [|entries IH] using FsNode_nested_ind;
    intros top x Hwf Hdis Hx He Ht rd d Hrd Hd; simpl in Hrd; [contradiction|].
  simpl in Hwf. rewrite forallb_forall in Hwf.
  simpl in Hdis. apply andb_true_iff in Hdis. destruct Hdis as (Hnd & Hdis).
  rewrite forallb_forall in Hdis.
  destruct Hrd as [<-|Hrd].
  - simpl in Hd. apply in_map_iff in Hd. destruct Hd as ([name child] & <- & Hin).
    apply filter_In in Hin. destruct Hin as (Hin & Hisdir).
    specialize (Hwf _ Hin). simpl in Hwf. apply andb_true_iff in Hwf.
    destruct Hwf as (Hname & _).
    exists [name]. simpl forallb. rewrite Hname.
    split; [discriminate|]. split; [reflexivity|]. split.
    + apply (join_dir_name top x name Hx He Ht Hname).
    + unfold dir_below. simpl. rewrite (find_entry_distinct _ _ _ Hnd Hin).
      exact Hisdir.
  - apply in_flat_map in Hrd. destruct Hrd as ([name child] & Hin & Hrd).
    rewrite Forall_forall in IH. pose proof (IH _ Hin) as IHc. simpl in IHc.
    pose proof (Hdis _ Hin) as Hdc. simpl in Hdc.
    specialize (Hwf _ Hin). simpl in Hwf. apply andb_true_iff in Hwf.
    destruct Hwf as (Hname & Hchild).
    rewrite (join_dir_name top x name Hx He Ht Hname) in Hrd.
    assert (Hn1 : forallb is_name [name] = true) by (simpl; rewrite Hname; reflexivity).
    destruct (canon_ends_with_name x [name]) as (Hx' & He'); [discriminate|exact Hn1|].
    destruct (IHc _ (x +:+ canon [name]) Hchild Hdc Hx' He' (or_introl eq_refl) rd d Hrd Hd)
      as (dc & Hdcne & Hndc & E & Hlook).
    exists (name :: dc). split; [discriminate|]. split; [|split].
    + simpl. rewrite Hname. exact Hndc.
    + rewrite E. change (name :: dc) with ([name] ++ dc).
      rewrite canon_app, str_app_assoc. reflexivity.
    + unfold dir_below in *. simpl. rewrite (find_entry_distinct _ _ _ Hnd Hin).
      exact Hlook.
Qed.

(** Every directory below a normalized [top] is reported by [os.walk]. *)
Lemma os_walk_dir_complete (dc : list string) :
  forall n top x,
    fs_wf n = true -> x <> "" -> endswith_sep x = false ->
    top = x \/ top = x +:+ "/" ->
    dc <> [] -> dir_below n dc = true ->
    exists rd d, In rd (os_walk_dir top n) /\ In d (snd rd)
                 /\ PosixPath.join (fst rd) d = x +:+ canon dc.
Proof.
  induction dc as [|c dc IH]; intros n top x Hwf Hx He Ht Hne Hdir; [contradiction|].
  unfold dir_below in Hdir. simpl in Hdir.
  destruct n as [|es]; [discriminate|].
  destruct (find_entry c es) as [child|] eqn:E; [|discriminate].
  apply find_entry_In in E.
  simpl in Hwf. rewrite forallb_forall in Hwf. pose proof (Hwf _ E) as Hce.
  simpl in Hce. apply andb_true_iff in Hce. destruct Hce as (Hc & Hchild).
  destruct dc as [|c' dc'].
  - simpl in Hdir. exists (top, map fst (filter (fun e => is_dir (snd e)) es)), c.
    split; [simpl; auto|]. split.
    + simpl. apply in_map_iff. exists (c, child). split; [reflexivity|].
      apply filter_In. auto.
    + apply (join_dir_name top x c Hx He Ht Hc).
  - assert (Hn1 : forallb is_name [c] = true) by (simpl; rewrite Hc; reflexivity).
    destruct (canon_ends_with_name x [c]) as (Hx' & He'); [discriminate|exact Hn1|].
    destruct (IH child (x +:+ canon [c]) (x +:+ canon [c]) Hchild Hx' He'
                (or_introl eq_refl)) as (rd & d & Hrd & Hd & Ej).
    + discriminate.
    + exact Hdir.
    + exists rd, d. split; [|split; [exact Hd|]].
      * simpl. right. apply in_flat_map. exists (c, child). split; [exact E|].
        rewrite (join_dir_name top x c Hx He Ht Hc). exact Hrd.
      * rewrite Ej. change (c :: c' :: dc') with ([c] ++ c' :: dc').
        rewrite canon_app, str_app_assoc. reflexivity.
Qed.

(** ** What the ancestor loop records *)

(** Started at a directory below [root], the loop records nothing but the
    path it was given and the directories between [root] and it. *)
Lemma unexcludable_loop_only_collects root :
  root <> "" -> endswith_sep root = false ->
  forall fuel l sl acc acc',
    l <> [] -> forallb is_name l = true -> sl = "" \/ sl = "/" ->
    unexcludable_loop fuel root (root +:+ canon l +:+ sl) acc = Returns acc' ->
    forall x, In x acc' ->
      In x acc \/ x = root +:+ canon l +:+ sl
      \/ exists cs suf, cs <> [] /\ l = cs ++ suf /\ x = root +:+ canon cs.
Proof.
  intros Hr He. induction fuel as [|fuel IH];
    intros l sl acc acc' Hl Hn Hsl H x Hx; [discriminate|].
  destruct (canon_ends_with_name root l Hl Hn) as (Hy & Hye).
  assert (Hnr : forall l0, l0 <> [] -> root +:+ canon l0 <> root).
  { intros l0 Hl0 E. rewrite <- (str_app_nil_r root) in E at 2.
    apply str_app_inv_head in E. destruct l0; [contradiction|discriminate]. }
  destruct Hsl as [->| ->].
  - rewrite str_app_nil_r in *.
    destruct (exists_last Hl) as (l' & c & ->).
    rewrite canon_app in H.
    assert (Ec : canon [c] = "/" +:+ c) by (simpl; rewrite str_app_nil_r; reflexivity).
    rewrite Ec in H.
    rewrite forallb_app in Hn. apply andb_true_iff in Hn. destruct Hn as (Hn' & Hc).
    simpl in Hc. rewrite andb_true_r in Hc.
    assert (Hy' : root +:+ canon l' <> "" /\ endswith_sep (root +:+ canon l') = false).
    { destruct l' as [|c0 l0].
      - simpl. rewrite str_app_nil_r. auto.
      - apply canon_ends_with_name; [discriminate|exact Hn']. }
    assert (Es : fst (PosixPath.split (root +:+ canon l' +:+ "/" +:+ c))
                 = root +:+ canon l').
    { rewrite <- str_app_assoc. apply split_last_name; try tauto.
      apply is_name_spec in Hc. tauto. }
    cbn [unexcludable_loop] in H. rewrite Es in H.
    assert (Ep : root +:+ canon l' +:+ "/" +:+ c = root +:+ canon (l' ++ [c])).
    { rewrite canon_app, Ec. reflexivity. }
    rewrite Ep in H.
    destruct (String.eqb_spec (root +:+ canon l') root) as [E|E].
    + inversion H; subst acc'. apply set_add_In in Hx. tauto.
    + assert (Hl' : l' <> []).
      { intros ->. apply E. simpl. apply str_app_nil_r. }
      assert (H' : unexcludable_loop fuel root (root +:+ canon l' +:+ "")
                     (set_add (root +:+ canon (l' ++ [c])) acc) = Returns acc').
      { rewrite str_app_nil_r. exact H. }
      destruct (IH l' "" _ acc' Hl' Hn' (or_introl eq_refl) H' x Hx)
        as [Hin|[Hin|(cs & suf & Hcs & El & Ex)]].
      * apply set_add_In in Hin. tauto.
      * right. right. exists l', [c]. rewrite str_app_nil_r in Hin. auto.
      * right. right. exists cs, (suf ++ [c]). rewrite El, app_assoc. auto.
  - assert (Es : fst (PosixPath.split (root +:+ canon l +:+ "/")) = root +:+ canon l).
    { rewrite <- str_app_assoc.
      apply (split_last_name (root +:+ canon l) "" Hy Hye). reflexivity. }
    cbn [unexcludable_loop] in H. rewrite Es in H.
    pose proof (Hnr _ Hl) as Hd. apply String.eqb_neq in Hd. rewrite Hd in H.
    assert (H' : unexcludable_loop fuel root (root +:+ canon l +:+ "")
                   (set_add (root +:+ canon l +:+ "/") acc) = Returns acc').
    { rewrite str_app_nil_r. exact H. }
    destruct (IH l "" _ acc' Hl Hn (or_introl eq_refl) H' x Hx)
      as [Hin|[Hin|(cs & suf & Hcs & El & Ex)]].
    + apply set_add_In in Hin. tauto.
    + right. right. exists l, []. rewrite str_app_nil_r in Hin.
      rewrite app_nil_r. auto.
    + right. right. exists cs, suf. auto.
Qed.

(** Each path of the set of unexcludable paths was recorded for one of the
    source sets. *)
Lemma unexcludable_of_origin fuel root srcs :
  forall acc0 unex x,
    for_each (fun source_set unexcludable_paths =>
                parent <- owned_path root source_set ;;
                unexcludable_loop fuel root parent unexcludable_paths)
             srcs acc0 = Returns unex ->
    In x unex ->
    In x acc0
    \/ exists ss parent acc acc',
         In ss srcs /\ owned_path root ss = Returns parent
         /\ unexcludable_loop fuel root parent acc = Returns acc'
         /\ In x acc' /\ ~ In x acc.
Proof.
  induction srcs as [|s srcs IH]; simpl; intros acc0 unex x H Hx.
  - inversion H; subst. auto.
  - bind_inv H. rename x0 into acc1. bind_inv Hx0. rename x0 into parent.
    destruct (IH _ _ _ H Hx) as [Hin|(ss & parent' & acc & acc' & Hss & Ho & Hl & Hi & Hni)].
    + destruct (in_dec string_dec x acc0) as [Hacc|Hacc]; [auto|].
      right. exists s, parent, acc0, acc1. auto 10.
    + right. exists ss, parent', acc, acc'. auto 10.
Qed.

Lemma relpaths_complete W children start rs child :
  relpaths W children start = Returns rs -> In child children ->
  exists e, In e rs /\ PosixPath.relpath (cwd W) child start = Some e.
Proof.
  revert rs. induction children as [|c children IH]; simpl; intros rs H Hin;
    [contradiction|].
  destruct (PosixPath.relpath (cwd W) c start) as [r0|] eqn:E; [|discriminate].
  bind_inv H. inversion H; subst. destruct Hin as [<-|Hin].
  - exists r0. simpl. auto.
  - destruct (IH _ Hx Hin) as (e & He & Hr). exists e. simpl. auto.
Qed.

(** ** The excludes, exactly *)

Lemma abs_root_canon (cwd root : string) (cs : list string) (sl : string) :
  wf_root root = true -> forallb is_name cs = true -> sl = "" \/ sl = "/" ->
  PosixPath.abs_components cwd (root +:+ canon cs +:+ sl) = root_components root ++ cs.
Proof.
  intros Hroot Hn Hsl. destruct (wf_root_canon _ Hroot) as (Ec & Hrc & Hnrc).
  rewrite Ec at 1. rewrite <- str_app_assoc, <- canon_app.
  apply abs_components_canon.
  - destruct (root_components root); [contradiction|discriminate].
  - rewrite forallb_app, Hnrc, Hn. reflexivity.
  - exact Hsl.
Qed.

Lemma canon_not_slash (cs : list string) :
  forallb is_name cs = true -> canon cs <> "/".
Proof.
  destruct cs as [|c cs]; simpl; intros Hn E; [discriminate|].
  apply andb_true_iff in Hn. destruct Hn as (Hc & _).
  apply is_name_spec in Hc. destruct Hc as (Hc & _).
  destruct c; [contradiction|discriminate].
Qed.

(** The source sets of the targets when the walk is over: normalized base
    and path, no excludes yet, and the strings the later phases form for
    them. *)
Lemma source_set_shapes W fuel p tb fr :
  sources p = [] ->
  wf_root (root_dir p) = true ->
  (forall a, wf_target (Target_get W a) = true) ->
  walk_all fuel (deps_of W) (configure_target W) (source_target W p) (targets p)
           (initial_frame p tb) = Returns fr ->
  forall s0, In s0 (sources (self fr)) ->
    exists bc pc,
      ss_source_base s0 = sep_join bc /\ ss_path s0 = Some (sep_join pc)
      /\ forallb is_name bc = true /\ forallb is_name pc = true
      /\ ss_excludes s0 = []
      /\ PosixPath.join (root_dir p) (ss_source_base s0)
         = root_dir p +:+ canon bc +:+ slash_if_nil bc
      /\ owned_path (root_dir p) s0
         = Returns (root_dir p +:+ canon (bc ++ pc) +:+ slash_if_nil pc)
      /\ owned_string (root_dir p) s0
         = root_dir p +:+ canon (bc ++ pc) +:+ slash_if_nil pc.
Proof.
  intros Hs Hroot Hwf Hw s0 Hs0.
  apply (walk_phase_src_inv W (root_dir p) wf_key (wf_declared W Hwf)) in Hw; auto.
  destruct Hw as (_ & Hall & _).
  destruct (wf_root_canon _ Hroot) as (Ec & Hrc & Hnrc).
  destruct (canon_ends_with_name "" _ Hrc Hnrc) as (Hrne & Hrns).
  simpl in Hrne, Hrns. rewrite <- Ec in Hrne, Hrns.
  destruct (Hall s0 Hs0) as (_ & He0 & path & Hp & _ & Hb & Hpw).
  destruct (wf_rel_sep_join _ Hb) as (Eb & Hnb).
  destruct (wf_rel_sep_join _ Hpw) as (Ep & Hnp).
  exists (rel_components (ss_source_base s0)), (rel_components path).
  destruct (owned_path_canon (root_dir p) _ _ Hrne Hrns Hnb Hnp) as (E1 & E2).
  rewrite <- Eb in E1, E2. rewrite <- Ep in E2.
  split; [exact Eb|]. split; [congruence|]. split; [exact Hnb|]. split; [exact Hnp|].
  split; [exact He0|]. split; [exact E1|].
  unfold owned_path, owned_string. rewrite Hp, E2. auto.
Qed.

Lemma exclude_dir_canon W root S (bc rest : list string) :
  wf_root root = true ->
  ss_source_base S = sep_join bc ->
  forallb is_name bc = true -> forallb is_name rest = true -> rest <> [] ->
  exclude_dir W root S (sep_join rest) = root_components root ++ bc ++ rest.
Proof.
  intros Hroot Eb Hnb Hnr Hrest.
  destruct (wf_root_canon _ Hroot) as (Ec & Hrc & Hnrc).
  destruct (canon_ends_with_name "" _ Hrc Hnrc) as (Hrne & Hrns).
  simpl in Hrne, Hrns. rewrite <- Ec in Hrne, Hrns.
  set (rc := root_components root) in *.
  assert (Hb' : rc ++ bc <> []) by (destruct rc; [contradiction|discriminate]).
  assert (Hnb' : forallb is_name (rc ++ bc) = true)
    by (rewrite forallb_app, Hnrc, Hnb; reflexivity).
  destruct (relpath_below (cwd W) (rc ++ bc) rest (slash_if_nil bc)
              Hb' Hrest Hnb' Hnr (slash_if_nil_cases bc)) as (_ & Ejoin).
  unfold exclude_dir. rewrite Eb, (join_names root bc Hrne Hrns Hnb).
  assert (Ebase : root +:+ canon bc +:+ slash_if_nil bc
                  = canon (rc ++ bc) +:+ slash_if_nil bc).
  { rewrite Ec at 1. rewrite canon_app, !str_app_assoc. reflexivity. }
  rewrite Ebase, Ejoin.
  pose proof (abs_components_canon (cwd W) ((rc ++ bc) ++ rest) "") as Ea.
  rewrite str_app_nil_r in Ea. rewrite Ea.
  - rewrite <- app_assoc. reflexivity.
  - destruct rc; [contradiction|discriminate].
  - rewrite forallb_app, Hnb', Hnr. reflexivity.
  - left. reflexivity.
Qed.

Lemma exclude_phase_exact W fuel p tb es et r :
  sources p = [] ->
  wf_root (root_dir p) = true ->
  (forall a, wf_target (Target_get W a) = true) ->
  fs_wf (fs W) = true -> fs_distinct (fs W) = true ->
  configure_jvm W fuel p tb es et = Returns r ->
  exists tg unex : list string,
    (forall cs, cs <> [] ->
       leads_to_owned W (root_dir p) r (root_components (root_dir p) ++ cs) ->
       In (root_dir p +:+ canon cs) unex)
    /\ (forall cs, cs <> [] -> forallb is_name cs = true ->
          In (root_dir p +:+ canon cs) tg \/ In (root_dir p +:+ canon cs) unex ->
          leads_to_owned W (root_dir p) r (root_components (root_dir p) ++ cs))
    /\ (forall S, In S (sources (r_project r)) -> ss_path S <> None ->
          exists bc pc,
            ss_source_base S = sep_join bc
            /\ forallb is_name bc = true /\ forallb is_name pc = true
            /\ owned_dir W (root_dir p) S = root_components (root_dir p) ++ bc ++ pc
            /\ NoDup (ss_excludes S)
            /\ forall e, In e (ss_excludes S) <->
                 exists dc, dc <> [] /\ forallb is_name dc = true
                   /\ e = sep_join (pc ++ dc)
                   /\ is_directory W (root_components (root_dir p) ++ bc ++ pc ++ dc) = true
                   /\ ~ In (root_dir p +:+ canon (bc ++ pc ++ dc)) tg
                   /\ ~ In (root_dir p +:+ canon (bc ++ pc ++ dc)) unex).
Proof.
  intros Hs Hroot Hwf Hfs Hdis H.
  destruct (resolver_run W fuel p tb es et r Hs H)
    as (fr & unex & srcs & Hw & Hinv & _ & Hu & Hx & Hsrc & _).
  pose proof (source_set_shapes W fuel p tb fr Hs Hroot Hwf Hw) as Hshape.
  destruct Hinv as (_ & _ & _ & _ & Htg).
  destruct (wf_root_canon _ Hroot) as (Ec & Hrc & Hnrc).
  set (root := root_dir p) in *. set (rc := root_components root) in *.
  destruct (canon_ends_with_name "" rc Hrc Hnrc) as (Hrne & Hrns).
  simpl in Hrne, Hrns. rewrite <- Ec in Hrne, Hrns.
  assert (Hfinal : forall S, In S (sources (r_project r)) -> ss_path S <> None ->
            exists s0 rs, In s0 (sources (self fr)) /\ S = excludes_append s0 rs
                          /\ compute_excludes W root (targeted fr) unex s0 = Returns S).
  { intros S HS Hp. rewrite Hsrc in HS.
    destruct (final_source_origin W _ _ _ _ _ es et S Hx HS (or_introl Hp))
      as (s0 & rs & Hs0 & _ & E & Hc). exists s0, rs. auto. }
  assert (Hpartner : forall s0, In s0 (sources (self fr)) ->
            exists rs, In (excludes_append s0 rs) (sources (r_project r))).
  { intros s0 Hs0. destruct (Forall2_In_l _ _ _ _ Hx Hs0) as (S & HS & Hc).
    apply compute_excludes_spec in Hc. destruct Hc as (top & rs & _ & _ & ->).
    exists rs. rewrite Hsrc. apply in_app_iff. auto. }
  assert (Hown : forall s0 rs bc pc,
            forallb is_name bc = true -> forallb is_name pc = true ->
            owned_string root s0 = root +:+ canon (bc ++ pc) +:+ slash_if_nil pc ->
            owned_dir W root (excludes_append s0 rs) = rc ++ bc ++ pc).
  { intros s0 rs bc pc Hnb Hnp E.
    change (owned_dir W root (excludes_append s0 rs))
      with (PosixPath.abs_components (cwd W) (owned_string root s0)).
    rewrite E. apply abs_root_canon; [exact Hroot| |apply slash_if_nil_cases].
    rewrite forallb_app, Hnb, Hnp. reflexivity. }
  assert (HA : forall cs, cs <> [] -> leads_to_owned W root r (rc ++ cs) ->
                          In (root +:+ canon cs) unex).
  { intros cs Hcs (S' & HS' & Hp' & suf & Eo).
    destruct (Hfinal S' HS' Hp') as (s0 & rs & Hs0 & -> & _).
    destruct (Hshape s0 Hs0) as (bc & pc & _ & _ & Hnb & Hnp & _ & _ & Hop & Hos).
    rewrite (Hown s0 rs bc pc Hnb Hnp Hos) in Eo.
    rewrite <- app_assoc in Eo. apply app_inv_head in Eo.
    destruct (unexcludable_of_runs _ _ _ _ _ _ Hu Hs0) as (parent & acc & acc' & Ho & Hl & Hi).
    rewrite Hop in Ho. inversion Ho; subst parent.
    apply Hi. rewrite Eo in Hl.
    assert (Hn : forallb is_name (cs ++ suf) = true).
    { rewrite <- Eo, forallb_app, Hnb, Hnp. reflexivity. }
    eapply (unexcludable_loop_collects root Hrne Hrns);
      [exact Hcs | exact Hn | apply slash_if_nil_cases | exact Hl]. }
  assert (HB : forall cs, cs <> [] -> forallb is_name cs = true ->
                 In (root +:+ canon cs) (targeted fr) \/ In (root +:+ canon cs) unex ->
                 leads_to_owned W root r (rc ++ cs)).
  { intros cs Hcs Hn Hin.
    assert (Eabs : PosixPath.abs_components (cwd W) (root +:+ canon cs) = rc ++ cs).
    { pose proof (abs_root_canon (cwd W) root cs "" Hroot Hn (or_introl eq_refl)) as E.
      rewrite str_app_nil_r in E. exact E. }
    destruct Hin as [Hin|Hin].
    - destruct (Htg _ Hin) as (s0 & Hs0 & Hp0 & E0).
      destruct (Hpartner s0 Hs0) as (rs & HS).
      exists (excludes_append s0 rs). split; [exact HS|]. split; [exact Hp0|].
      exists []. rewrite app_nil_r.
      change (owned_dir W root (excludes_append s0 rs))
        with (PosixPath.abs_components (cwd W) (owned_string root s0)).
      rewrite <- E0. exact Eabs.
    - unfold unexcludable_of in Hu.
      destruct (unexcludable_of_origin _ _ _ _ _ _ Hu Hin)
        as [[]|(s0 & parent & acc & acc' & Hs0 & Ho & Hl & Hi & Hni)].
      destruct (Hshape s0 Hs0) as (bc & pc & _ & Epath & Hnb & Hnp & _ & _ & Hop & Hos).
      rewrite Hop in Ho. inversion Ho; subst parent.
      destruct (Hpartner s0 Hs0) as (rs & HS).
      assert (Hnl : forallb is_name (bc ++ pc) = true)
        by (rewrite forallb_app, Hnb, Hnp; reflexivity).
      assert (Hpre : exists suf, bc ++ pc = cs ++ suf).
      { destruct (list_eq_dec string_dec (bc ++ pc) []) as [El|El].
        - exfalso. rewrite El in Hl. apply app_eq_nil in El. destruct El as (-> & ->).
          simpl in Hl. destruct fuel as [|fuel']; [discriminate|].
          cbn [unexcludable_loop] in Hl.
          assert (Es : fst (PosixPath.split (root +:+ "/")) = root).
          { apply (split_last_name root "" Hrne Hrns). reflexivity. }
          change (root +:+ "" +:+ "/") with (root +:+ "/") in Hl.
          rewrite Es, String.eqb_refl in Hl. inversion Hl; subst acc'.
          apply set_add_In in Hi. destruct Hi as [Hi|Hi]; [|contradiction].
          apply str_app_inv_head in Hi. exact (canon_not_slash cs Hn Hi).
        - destruct (unexcludable_loop_only_collects root Hrne Hrns fuel (bc ++ pc)
                      (slash_if_nil pc) acc acc' El Hnl (slash_if_nil_cases pc) Hl _ Hi)
            as [Hacc|[Ex|(cs0 & suf & Hcs0 & El0 & Ex)]]; [contradiction| |].
          + exists []. rewrite app_nil_r.
            pose proof (abs_root_canon (cwd W) root (bc ++ pc) (slash_if_nil pc)
                          Hroot Hnl (slash_if_nil_cases pc)) as E.
            rewrite <- Ex, Eabs in E. apply app_inv_head in E. congruence.
          + exists suf. rewrite El0. f_equal.
            assert (Hn0 : forallb is_name cs0 = true).
            { rewrite El0, forallb_app in Hnl. apply andb_true_iff in Hnl. tauto. }
            pose proof (abs_root_canon (cwd W) root cs0 "" Hroot Hn0 (or_introl eq_refl)) as E.
            rewrite str_app_nil_r, <- Ex, Eabs in E. apply app_inv_head in E.
            congruence. }
      destruct Hpre as (suf & Epre).
      exists (excludes_append s0 rs). split; [exact HS|].
      split; [simpl; congruence|].
      exists suf. rewrite (Hown s0 rs bc pc Hnb Hnp Hos), Epre, app_assoc. reflexivity. }
  exists (targeted fr), unex. split; [exact HA|]. split; [exact HB|].
  intros S HS Hp.
  destruct (Hfinal S HS Hp) as (s0 & rs0 & Hs0 & -> & Hc).
  destruct (Hshape s0 Hs0) as (bc & pc & Eb & Ep & Hnb & Hnp & He0 & Ejb & Hop & Hos).
  exists bc, pc. split; [exact Eb|]. split; [exact Hnb|]. split; [exact Hnp|].
  split; [exact (Hown s0 rs0 bc pc Hnb Hnp Hos)|].
  apply compute_excludes_spec in Hc. destruct Hc as (top & rs & Ho & Hrel & Eapp).
  assert (Ers : ss_excludes (excludes_append s0 rs0) = rs).
  { rewrite Eapp. simpl. rewrite He0. reflexivity. }
  rewrite Ers. clear Eapp Ers rs0 HS Hp.
  rewrite Hop in Ho. inversion Ho; subst top. clear Ho.
  fold root in Ejb. rewrite Ejb in Hrel.
  assert (Hnbp : forallb is_name (bc ++ pc) = true)
    by (rewrite forallb_app, Hnb, Hnp; reflexivity).
  assert (Hxx : root +:+ canon (bc ++ pc) <> ""
                /\ endswith_sep (root +:+ canon (bc ++ pc)) = false).
  { destruct (bc ++ pc) eqn:E.
    - simpl. rewrite str_app_nil_r. auto.
    - apply canon_ends_with_name; [discriminate|exact Hnbp]. }
  destruct Hxx as (Hx1 & Hx2).
  assert (Htop : root +:+ canon (bc ++ pc) +:+ slash_if_nil pc
                 = root +:+ canon (bc ++ pc)
                 \/ root +:+ canon (bc ++ pc) +:+ slash_if_nil pc
                    = (root +:+ canon (bc ++ pc)) +:+ "/").
  { destruct (slash_if_nil_cases pc) as [E|E]; rewrite E;
      [left; rewrite str_app_nil_r; reflexivity | right; rewrite str_app_assoc; reflexivity]. }
  assert (Etopc : PosixPath.abs_components (cwd W)
                    (root +:+ canon (bc ++ pc) +:+ slash_if_nil pc) = rc ++ bc ++ pc).
  { apply abs_root_canon; [exact Hroot|exact Hnbp|apply slash_if_nil_cases]. }
  assert (Hb' : rc ++ bc <> []) by (destruct rc; [contradiction|discriminate]).
  assert (Hnb' : forallb is_name (rc ++ bc) = true)
    by (rewrite forallb_app, Hnrc, Hnb; reflexivity).
  assert (Ebase : root +:+ canon bc +:+ slash_if_nil bc
                  = canon (rc ++ bc) +:+ slash_if_nil bc).
  { rewrite Ec at 1. rewrite canon_app, !str_app_assoc. reflexivity. }
  assert (Echild : forall dc, (root +:+ canon (bc ++ pc)) +:+ canon dc
                              = canon ((rc ++ bc) ++ pc ++ dc)).
  { intros dc. rewrite Ec at 1. rewrite !canon_app, !str_app_assoc. reflexivity. }
  assert (Echild' : forall dc, root +:+ canon (bc ++ pc ++ dc)
                               = (root +:+ canon (bc ++ pc)) +:+ canon dc).
  { intros dc. rewrite app_assoc, canon_app, str_app_assoc. reflexivity. }
  assert (Hrelp : forall dc, dc <> [] -> forallb is_name dc = true ->
            PosixPath.relpath (cwd W) ((root +:+ canon (bc ++ pc)) +:+ canon dc)
              (root +:+ canon bc +:+ slash_if_nil bc) = Some (sep_join (pc ++ dc))).
  { intros dc Hdc Hndc.
    assert (Hr' : pc ++ dc <> []) by (destruct pc; [exact Hdc|discriminate]).
    assert (Hnr' : forallb is_name (pc ++ dc) = true)
      by (rewrite forallb_app, Hnp, Hndc; reflexivity).
    destruct (relpath_below (cwd W) (rc ++ bc) (pc ++ dc) (slash_if_nil bc)
                Hb' Hr' Hnb' Hnr' (slash_if_nil_cases bc)) as (Erel & _).
    rewrite Echild, Ebase. exact Erel. }
  assert (Hkids : forall child,
            In child (excluded_children W (targeted fr) unex
                        (root +:+ canon (bc ++ pc) +:+ slash_if_nil pc)) ->
            exists dc, dc <> [] /\ forallb is_name dc = true
                       /\ child = (root +:+ canon (bc ++ pc)) +:+ canon dc
                       /\ is_directory W (rc ++ bc ++ pc ++ dc) = true
                       /\ ~ In child (targeted fr) /\ ~ In child unex).
  { intros child Hchild.
    apply excluded_children_In in Hchild. destruct Hchild as (Hwalk & Hnt & Hnu).
    apply walked_paths_In in Hwalk.
    destruct Hwalk as (_ & n & rd & d & Hlook & Hrd & Hd & ->).
    assert (Hfsn : fs_distinct n = true).
    { revert Hlook Hdis. generalize (fs W).
      generalize (PosixPath.abs_components (cwd W)
                    (root +:+ canon (bc ++ pc) +:+ slash_if_nil pc)).
      induction l as [|c l IH]; simpl; intros f Hl Hd0.
      - inversion Hl; subst. exact Hd0.
      - destruct f as [|es0]; [discriminate|].
        destruct (find_entry c es0) as [ch|] eqn:Ef; [|discriminate].
        apply find_entry_In in Ef. simpl in Hd0.
        apply andb_true_iff in Hd0. destruct Hd0 as (_ & Hd0).
        rewrite forallb_forall in Hd0. exact (IH ch Hl (Hd0 _ Ef)). }
    destruct (os_walk_dir_sound n _ _ (fs_lookup_wf _ _ _ Hfs Hlook) Hfsn Hx1 Hx2 Htop
                rd d Hrd Hd) as (dc & Hdc & Hndc & Ej & Hdir).
    rewrite Ej in Hnu, Hnt. rewrite Ej.
    exists dc. split; [exact Hdc|]. split; [exact Hndc|]. split; [reflexivity|].
    split; [|auto].
    unfold is_directory, dir_below.
    replace (rc ++ bc ++ pc ++ dc) with ((rc ++ bc ++ pc) ++ dc)
      by (rewrite <- !app_assoc; reflexivity).
    rewrite fs_lookup_app. rewrite Etopc in Hlook. rewrite Hlook. exact Hdir. }
  split.
  { assert (Hnd : NoDup (excluded_children W (targeted fr) unex
                           (root +:+ canon (bc ++ pc) +:+ slash_if_nil pc))).
    { unfold excluded_children. apply NoDup_filter. apply set_iter_NoDup. }
    revert Hkids Hnd Hrel.
    generalize (excluded_children W (targeted fr) unex
                  (root +:+ canon (bc ++ pc) +:+ slash_if_nil pc)).
    intros children. revert rs.
    induction children as [|c children IH]; simpl; intros rs Hkids Hnd Hrel.
    - inversion Hrel; subst. constructor.
    - destruct (PosixPath.relpath (cwd W) c
                  (root +:+ canon bc +:+ slash_if_nil bc)) as [r0|] eqn:E;
        [|discriminate].
      apply bind_Returns in Hrel. destruct Hrel as (rs' & Hrs' & Hrel).
      inversion Hrel; subst rs. inversion Hnd as [|? ? Hnc Hnd']; subst.
      constructor.
      + intros Hin.
        destruct (relpaths_In _ _ _ _ _ Hrs' Hin) as (c' & Hc' & Hr').
        destruct (Hkids c (or_introl eq_refl)) as (dc & Hdc & Hndc & Ec0 & _).
        destruct (Hkids c' (or_intror Hc')) as (dc' & Hdc' & Hndc' & Ec' & _).
        rewrite Ec0, (Hrelp dc Hdc Hndc) in E.
        rewrite Ec', (Hrelp dc' Hdc' Hndc') in Hr'.
        assert (Ecan : canon (pc ++ dc) = canon (pc ++ dc')).
        { rewrite (canon_sep_join (pc ++ dc)), (canon_sep_join (pc ++ dc')).
          - congruence.
          - destruct pc; [exact Hdc'|discriminate].
          - destruct pc; [exact Hdc|discriminate]. }
        rewrite !canon_app in Ecan. apply str_app_inv_head in Ecan.
        apply Hnc. rewrite Ec0, Ecan, <- Ec'. exact Hc'.
      + apply (IH rs'); [|exact Hnd'|exact Hrs'].
        intros child Hchild. apply Hkids. right. exact Hchild. }
  intros e. split.
  - intros He.
    destruct (relpaths_In _ _ _ _ _ Hrel He) as (child & Hchild & Hr).
    destruct (Hkids child Hchild) as (dc & Hdc & Hndc & -> & Hdir & Hnt & Hnu).
    rewrite (Hrelp dc Hdc Hndc) in Hr. inversion Hr; subst e.
    exists dc. rewrite !Echild'. auto 10.
  - intros (dc & Hdc & Hndc & -> & Hdir & Hnt & Hnu).
    rewrite Echild' in Hnt, Hnu.
    unfold is_directory, dir_below in Hdir.
    replace (rc ++ bc ++ pc ++ dc) with ((rc ++ bc ++ pc) ++ dc) in Hdir
      by (rewrite <- !app_assoc; reflexivity).
    rewrite fs_lookup_app in Hdir.
    destruct (fs_lookup (fs W) (rc ++ bc ++ pc)) as [n|] eqn:Hlook; [|discriminate].
    destruct (os_walk_dir_complete dc n _ _ (fs_lookup_wf _ _ _ Hfs Hlook) Hx1 Hx2 Htop
                Hdc Hdir) as (rd & d & Hrd & Hd & Ej).
    assert (Hchild : In ((root +:+ canon (bc ++ pc)) +:+ canon dc)
                        (excluded_children W (targeted fr) unex
                           (root +:+ canon (bc ++ pc) +:+ slash_if_nil pc))).
    { unfold excluded_children. apply filter_In. split.
      - apply set_iter_In. apply filter_In. split.
        + unfold walked_paths. apply set_iter_In. apply in_flat_map.
          exists rd. split.
          * unfold os_walk.
            destruct (String.eqb_spec (root +:+ canon (bc ++ pc) +:+ slash_if_nil pc) "")
              as [E|E].
            { exfalso. destruct Htop as [Et|Et]; rewrite Et in E;
                [exact (Hx1 E)|]. destruct (root +:+ canon (bc ++ pc)); discriminate. }
            rewrite Etopc, Hlook. exact Hrd.
          * apply in_map_iff. exists d. auto.
        + apply negb_true_iff. apply mem_false. exact Hnt.
      - apply negb_true_iff. apply mem_false. exact Hnu. }
    destruct (relpaths_complete _ _ _ _ _ Hrel Hchild) as (e & He & Hr).
    rewrite (Hrelp dc Hdc Hndc) in Hr. inversion Hr; subst e. exact He.
Qed.

Lemma excluding_source_set_has_path W fuel p tb es et r S :
  sources p = [] ->
  configure_jvm W fuel p tb es et = Returns r ->
  In S (sources (r_project r)) -> ss_excludes S <> [] -> ss_path S <> None.
Proof.
  intros Hs H HS He.
  destruct (resolver_run W fuel p tb es et r Hs H)
    as (fr & unex & srcs & _ & Hinv & _ & _ & Hx & Hsrc & _).
  destruct Hinv as (_ & _ & _ & Hprov & _).
  rewrite Hsrc in HS.
  destruct (final_source_origin W _ _ _ _ _ es et S Hx HS (or_intror He))
    as (s0 & rs & Hs0 & _ & -> & _).
  destruct (Hprov s0 Hs0) as (a & path & _ & Hp & _). simpl. congruence.
Qed.

(** X11.  Every entry of the excludes of a source set stands for a
    directory that exists on disk strictly inside the directory of that
    source set. *)
Theorem excludes_are_existing_subdirectories W fuel p tb es et r S e :
  sources p = [] ->
  wf_root (root_dir p) = true ->
  (forall a, wf_target (Target_get W a) = true) ->
  fs_wf (fs W) = true -> fs_distinct (fs W) = true ->
  configure_jvm W fuel p tb es et = Returns r ->
  In S (sources (r_project r)) -> In e (ss_excludes S) ->
  exists dc,
    dc <> []
    /\ exclude_dir W (root_dir p) S e = owned_dir W (root_dir p) S ++ dc
    /\ is_directory W (exclude_dir W (root_dir p) S e) = true.
Proof.
  intros Hs Hroot Hwf Hfs Hdis H HS He.
  assert (Hp : ss_path S <> None).
  { apply (excluding_source_set_has_path W fuel p tb es et r S Hs H HS).
    destruct (ss_excludes S); [contradiction|discriminate]. }
  destruct (exclude_phase_exact W fuel p tb es et r Hs Hroot Hwf Hfs Hdis H)
    as (tg & unex & _ & _ & HC).
  destruct (HC S HS Hp) as (bc & pc & Eb & Hnb & Hnp & Eo & _ & Hiff).
  apply Hiff in He. destruct He as (dc & Hdc & Hndc & -> & Hdir & _).
  assert (Ex : exclude_dir W (root_dir p) S (sep_join (pc ++ dc))
               = root_components (root_dir p) ++ bc ++ pc ++ dc).
  { apply exclude_dir_canon; auto.
    - rewrite forallb_app, Hnp, Hndc. reflexivity.
    - destruct pc; [exact Hdc|discriminate]. }
  exists dc. split; [exact Hdc|]. rewrite Ex, Eo. split; [|exact Hdir].
  rewrite <- !app_assoc. reflexivity.
Qed.

(** X12.  Every directory that exists on disk strictly inside the directory
    of a source set of a target is excluded by that source set, unless it is
    owned by a source set of a target or lies above a directory that is. *)
Theorem subdirectories_excluded_or_owned W fuel p tb es et r S dc :
  sources p = [] ->
  wf_root (root_dir p) = true ->
  (forall a, wf_target (Target_get W a) = true) ->
  fs_wf (fs W) = true -> fs_distinct (fs W) = true ->
  configure_jvm W fuel p tb es et = Returns r ->
  In S (sources (r_project r)) -> ss_path S <> None ->
  dc <> [] ->
  is_directory W (owned_dir W (root_dir p) S ++ dc) = true ->
  (exists e, In e (ss_excludes S)
             /\ exclude_dir W (root_dir p) S e = owned_dir W (root_dir p) S ++ dc)
  \/ leads_to_owned W (root_dir p) r (owned_dir W (root_dir p) S ++ dc).
Proof.
  intros Hs Hroot Hwf Hfs Hdis H HS Hp Hdc Hdir.
  destruct (exclude_phase_exact W fuel p tb es et r Hs Hroot Hwf Hfs Hdis H)
    as (tg & unex & _ & HB & HC).
  destruct (HC S HS Hp) as (bc & pc & Eb & Hnb & Hnp & Eo & _ & Hiff).
  rewrite Eo in *.
  assert (Eassoc : (root_components (root_dir p) ++ bc ++ pc) ++ dc
                   = root_components (root_dir p) ++ bc ++ pc ++ dc)
    by (rewrite <- !app_assoc; reflexivity).
  rewrite Eassoc in *.
  assert (Hndc : forallb is_name dc = true).
  { unfold is_directory, dir_below in Hdir.
    destruct (fs_lookup (fs W) (root_components (root_dir p) ++ bc ++ pc ++ dc))
      as [m|] eqn:El; [|discriminate].
    apply (fs_lookup_names _ _ _ Hfs) in El.
    rewrite !forallb_app in El. repeat (apply andb_true_iff in El; destruct El as (_ & El)).
    exact El. }
  assert (Hcs : bc ++ pc ++ dc <> []).
  { destruct bc; [destruct pc; [exact Hdc|discriminate]|discriminate]. }
  assert (Hncs : forallb is_name (bc ++ pc ++ dc) = true).
  { rewrite !forallb_app, Hnb, Hnp, Hndc. reflexivity. }
  destruct (in_dec string_dec (root_dir p +:+ canon (bc ++ pc ++ dc)) tg) as [Ht|Ht].
  { right. apply (HB _ Hcs Hncs). auto. }
  destruct (in_dec string_dec (root_dir p +:+ canon (bc ++ pc ++ dc)) unex) as [Hu|Hu].
  { right. apply (HB _ Hcs Hncs). auto. }
  left. exists (sep_join (pc ++ dc)). split.
  - apply Hiff. exists dc. auto 10.
  - apply exclude_dir_canon; auto.
    + rewrite forallb_app, Hnp, Hndc. reflexivity.
    + destruct pc; [exact Hdc|discriminate].
Qed.

(** X13.  No source set of the result lists a directory twice in its
    excludes. *)
Theorem excludes_have_no_duplicates W fuel p tb es et r S :
  sources p = [] ->
  wf_root (root_dir p) = true ->
  (forall a, wf_target (Target_get W a) = true) ->
  fs_wf (fs W) = true -> fs_distinct (fs W) = true ->
  configure_jvm W fuel p tb es et = Returns r ->
  In S (sources (r_project r)) ->
  NoDup (ss_excludes S).
Proof.
  intros Hs Hroot Hwf Hfs Hdis H HS.
  destruct (ss_excludes S) as [|e0 l] eqn:Ee; [constructor|]. rewrite <- Ee.
  assert (Hp : ss_path S <> None).
  { apply (excluding_source_set_has_path W fuel p tb es et r S Hs H HS).
    rewrite Ee. discriminate. }
  destruct (exclude_phase_exact W fuel p tb es et r Hs Hroot Hwf Hfs Hdis H)
    as (tg & unex & _ & _ & HC).
  destruct (HC S HS Hp) as (bc & pc & _ & _ & _ & _ & Hnd & _). exact Hnd.
Qed.

Lemma excludes_are_existing_subdirectories_witness :
  exists dc,
    dc <> []
    /\ exclude_dir example_world "/r" (src_java ["gen"; "gen/out"; "com/foo/bar"]) "gen/out"
       = owned_dir example_world "/r" (src_java ["gen"; "gen/out"; "com/foo/bar"]) ++ dc
    /\ is_directory example_world
         (exclude_dir example_world "/r"
            (src_java ["gen"; "gen/out"; "com/foo/bar"]) "gen/out") = true.
Proof.
  refine (excludes_are_existing_subdirectories example_world 6 (example_project [0; 1])
            [] [] [] _ (src_java ["gen"; "gen/out"; "com/foo/bar"]) "gen/out"
            eq_refl eq_refl example_wf_targets eq_refl eq_refl run_both_targets _ _).
  - simpl. auto.
  - simpl. auto.
Defined.

Lemma subdirectories_excluded_or_owned_witness :
  (exists e, In e ["gen"; "gen/out"; "com/foo/bar"]
             /\ exclude_dir example_world "/r"
                  (src_java ["gen"; "gen/out"; "com/foo/bar"]) e
                = owned_dir example_world "/r"
                    (src_java ["gen"; "gen/out"; "com/foo/bar"]) ++ ["com"])
  \/ leads_to_owned example_world "/r"
       {| r_targets := [0; 1];
          r_project :=
            set_has_tests
              (set_sources (example_project [0; 1])
                 [src_java ["gen"; "gen/out"; "com/foo/bar"];
                  src_java_com_foo ["com/foo/bar"]])
              true;
          r_TEST_BASES := ["src/java"];
          r_scanned := ["/r/src/java/"; "/r/src/java/com/foo"];
          r_analyzed := [0; 1] |}
       (owned_dir example_world "/r" (src_java ["gen"; "gen/out"; "com/foo/bar"])
        ++ ["com"]).
Proof.
  refine (subdirectories_excluded_or_owned example_world 6 (example_project [0; 1])
            [] [] [] _ (src_java ["gen"; "gen/out"; "com/foo/bar"]) ["com"]
            eq_refl eq_refl example_wf_targets eq_refl eq_refl run_both_targets
            _ _ _ _).
  - simpl. auto.
  - discriminate.
  - discriminate.
  - vm_compute. reflexivity.
Defined.

Lemma excludes_have_no_duplicates_witness :
  NoDup ["gen"; "gen/out"; "com/foo/bar"].
Proof.
  refine (excludes_have_no_duplicates example_world 6 (example_project [0; 1])
            [] [] [] _ (src_java ["gen"; "gen/out"; "com/foo/bar"])
            eq_refl eq_refl example_wf_targets eq_refl eq_refl run_both_targets _).
  simpl. auto.
Defined.

(** ** More on the staging of the internal jars *)

Module StagingMore.
Import Staging.

Lemma copy_In src dst fl fl' f :
  copy src dst fl = Some fl' -> (In f fl' <-> f = dst \/ In f fl).
Proof.
  unfold copy. destruct (mem src fl); intros H; inversion H; subst.
  apply set_add_In.
Qed.

Lemma all_single_cons base jars rest :
  all_single ((base, jars) :: rest) <-> List.length jars = 1 /\ all_single rest.
Proof.
  unfold all_single. split.
  - intros H. split; [apply (H base jars); left; reflexivity|].
    intros b js Hin. apply (H b js). right. exact Hin.
  - intros (H1 & H2) b js [E|Hin]; [inversion E; subst; exact H1|exact (H2 b js Hin)].
Qed.

(** The inner loop, whatever its end: files are only added, and an added
    file is the copy of the jar of a pair. *)
Lemma copy_source_jars_files dir mappings :
  forall cp fl,
    incl fl (snd (copy_source_jars dir mappings cp fl))
    /\ forall f, In f (snd (copy_source_jars dir mappings cp fl)) ->
         In f fl \/ exists base jar, In (base, [jar]) mappings
                                     /\ f = PosixPath.join dir jar.
Proof.
  induction mappings as [|[base jars] rest IH]; intros cp fl; simpl.
  - split; [apply incl_refl|auto].
  - destruct jars as [|jar [|jar' jars]]; simpl; try (split; [apply incl_refl|auto]).
    destruct (copy (PosixPath.join base jar) (PosixPath.join dir jar) fl) as [fl'|] eqn:Ec;
      simpl; [|split; [apply incl_refl|auto]].
    destruct (IH (Some (PosixPath.join dir jar)) fl') as (Hi & Hf).
    split.
    + eapply incl_tran; [exact (StagingFacts.copy_incl _ _ _ _ Ec)|exact Hi].
    + intros f Hin. destruct (Hf f Hin) as [H|(b & j & Hb & E)].
      * apply (copy_In _ _ _ _ f Ec) in H. destruct H as [->|H]; [|auto].
        right. exists base, jar. auto.
      * right. exists b, j. auto.
Qed.

(** The inner loop when it ends normally. *)
Lemma copy_source_jars_returns dir mappings :
  forall cp fl cp',
    fst (copy_source_jars dir mappings cp fl) = inr cp' ->
    all_single mappings
    /\ cp' = match mappings with [] => cp | _ => last_source_jar dir mappings end
    /\ (mappings <> [] ->
        forall s, cp' = Some s -> In s (snd (copy_source_jars dir mappings cp fl))).
Proof.
  induction mappings as [|[base jars] rest IH]; intros cp fl cp'; simpl; intros H.
  - inversion H; subst. split; [intros b js []|]. split; [reflexivity|]. intros Hne.
    contradiction.
  - destruct jars as [|jar [|jar' jars]]; simpl in H; try discriminate.
    destruct (copy (PosixPath.join base jar) (PosixPath.join dir jar) fl) as [fl'|] eqn:Ec;
      simpl in H; [|discriminate].
    destruct (IH _ _ _ H) as (Hs & Ecp & Hin).
    split; [apply all_single_cons; auto|]. split.
    + destruct rest as [|bj rest']; [exact Ecp|].
      rewrite Ecp. reflexivity.
    + intros _ s Es. destruct rest as [|bj rest'].
      * simpl in *. subst cp'. inversion Es; subst s.
        apply (copy_In _ _ _ _ _ Ec). auto.
      * apply Hin; [discriminate|exact Es].
Qed.

(** With readable artifacts and one jar in every pair the inner loop ends
    normally. *)
Lemma copy_source_jars_succeeds dir mappings :
  forall cp fl,
    all_single mappings ->
    (forall base jars jar, In (base, jars) mappings -> In jar jars ->
                           In (PosixPath.join base jar) fl) ->
    exists cp', fst (copy_source_jars dir mappings cp fl) = inr cp'.
Proof.
  induction mappings as [|[base jars] rest IH]; intros cp fl Hs Hr; simpl; [eauto|].
  apply all_single_cons in Hs. destruct Hs as (Hl & Hs).
  destruct jars as [|jar [|jar' jars]]; simpl in Hl; try discriminate.
  destruct (copy (PosixPath.join base jar) (PosixPath.join dir jar) fl) as [fl'|] eqn:Ec.
  - apply IH; [exact Hs|]. intros b js j Hin Hj.
    apply (StagingFacts.copy_incl _ _ _ _ Ec). eapply Hr; [right; exact Hin|exact Hj].
  - exfalso. eapply StagingFacts.copy_readable; [|exact Ec].
    eapply Hr; [left; reflexivity|left; reflexivity].
Qed.

(** The loop over the jar mapping of one target, whatever its end. *)
Lemma copy_jars_files dir sdir smappings mappings :
  forall st,
    incl (files st) (files (snd (copy_jars dir sdir smappings mappings st)))
    /\ (forall f, In f (files (snd (copy_jars dir sdir smappings mappings st))) ->
          In f (files st)
          \/ (exists base jar, In (base, [jar]) mappings /\ f = PosixPath.join dir jar)
          \/ (mappings <> []
              /\ exists base jar, In (base, [jar]) smappings
                                  /\ f = PosixPath.join sdir jar))
    /\ exists new, internal_jars (snd (copy_jars dir sdir smappings mappings st))
                   = internal_jars st ++ new.
Proof.
  induction mappings as [|[base jars] rest IH]; intros st; simpl.
  - split; [apply incl_refl|]. split; [auto|]. exists []. rewrite app_nil_r. reflexivity.
  - assert (Hsame : incl (files st) (files st)
                    /\ (forall f, In f (files st) ->
                          In f (files st)
                          \/ (exists base0 jar, In (base0, [jar]) ((base, jars) :: rest)
                                                /\ f = PosixPath.join dir jar)
                          \/ ((base, jars) :: rest <> []
                              /\ exists base0 jar, In (base0, [jar]) smappings
                                                   /\ f = PosixPath.join sdir jar))
                    /\ exists new, internal_jars st = internal_jars st ++ new).
    { split; [apply incl_refl|]. split; [auto|]. exists []. rewrite app_nil_r.
      reflexivity. }
    destruct jars as [|jar [|jar' jars]]; simpl; try exact Hsame.
    destruct (copy (PosixPath.join base jar) (PosixPath.join dir jar) (files st))
      as [fl|] eqn:Ec; simpl; [|exact Hsame].
    destruct (copy_source_jars_files sdir smappings None fl) as (Hi' & Hf').
    destruct (copy_source_jars sdir smappings None fl) as [[e|cp] fl'] eqn:Es;
      simpl in Hi', Hf'.
    + simpl. split.
      * eapply incl_tran; [exact (StagingFacts.copy_incl _ _ _ _ Ec)|exact Hi'].
      * split; [|exists []; rewrite app_nil_r; reflexivity].
        intros f Hin. destruct (Hf' f Hin) as [H|(b & j & Hb & E)].
        -- apply (copy_In _ _ _ _ f Ec) in H. destruct H as [->|H]; [|auto].
           right. left. exists base, jar. split; [left; reflexivity|reflexivity].
        -- right. right. split; [discriminate|]. exists b, j. auto.
    + match goal with
      | |- context [copy_jars dir sdir smappings rest ?st'] =>
          destruct (IH st') as (Hi'' & Hf'' & (new & Hn))
      end.
      simpl in Hi'', Hf'', Hn. split; [|split].
      * eapply incl_tran; [exact (StagingFacts.copy_incl _ _ _ _ Ec)|].
        eapply incl_tran; [exact Hi'|exact Hi''].
      * intros f Hin. destruct (Hf'' f Hin) as [H|[(b & j & Hb & E)|(Hne & b & j & Hb & E)]].
        -- destruct (Hf' f H) as [H'|(b & j & Hb & E)].
           ++ apply (copy_In _ _ _ _ f Ec) in H'. destruct H' as [->|H']; [|auto].
              right. left. exists base, jar. split; [left; reflexivity|reflexivity].
           ++ right. right. split; [discriminate|]. exists b, j. auto.
        -- right. left. exists b, j. split; [right; exact Hb|exact E].
        -- right. right. split; [discriminate|]. exists b, j. auto.
      * rewrite Hn, <- app_assoc. eexists. reflexivity.
Qed.

(** The loop over the jar mapping of one target when it ends normally. *)
Lemma copy_jars_returns dir sdir smappings mappings :
  forall st,
    fst (copy_jars dir sdir smappings mappings st) = None ->
    all_single mappings
    /\ (mappings <> [] -> all_single smappings)
    /\ internal_jars (snd (copy_jars dir sdir smappings mappings st))
       = internal_jars st ++ entries_of_target dir sdir smappings mappings
    /\ forall e, In e (entries_of_target dir sdir smappings mappings) ->
         In (jar e) (files (snd (copy_jars dir sdir smappings mappings st)))
         /\ forall s, source_jar e = Some s ->
              In s (files (snd (copy_jars dir sdir smappings mappings st))).
Proof.
  induction mappings as [|[base jars] rest IH]; intros st H; simpl in *.
  - split; [intros b js []|]. split; [intros Hne; contradiction|].
    split; [rewrite app_nil_r; reflexivity|intros e []].
  - destruct jars as [|jar [|jar' jars]]; simpl in H; try discriminate.
    destruct (copy (PosixPath.join base jar) (PosixPath.join dir jar) (files st))
      as [fl|] eqn:Ec; [|discriminate].
    pose proof (copy_source_jars_returns sdir smappings None fl) as Hsrc.
    destruct (copy_source_jars_files sdir smappings None fl) as (Hi' & _).
    destruct (copy_source_jars sdir smappings None fl) as [[e|cp] fl'] eqn:Es;
      [discriminate|].
    simpl in Hi'.
    destruct (Hsrc cp eq_refl) as (Hss & Ecp & Hcp). simpl in Hcp.
    assert (Ecp' : cp = last_source_jar sdir smappings).
    { rewrite Ecp. destruct smappings; reflexivity. }
    match type of H with
    | fst (copy_jars dir sdir smappings rest ?st') = None =>
        destruct (IH st' H) as (Hs & _ & Hn & He);
        destruct (copy_jars_files dir sdir smappings rest st') as (Hi'' & _)
    end.
    simpl in Hn, Hi''.
    split; [apply all_single_cons; auto|]. split; [intros _; exact Hss|].
    split.
    + rewrite Hn, <- app_assoc, Ecp'. reflexivity.
    + intros e [<-|Hin]; [|exact (He e Hin)]. simpl. split.
      * apply Hi'', Hi'. apply (copy_In _ _ _ _ _ Ec). auto.
      * intros s Es'. apply Hi''. apply Hcp.
        -- destruct smappings; [discriminate|discriminate].
        -- rewrite Ecp'. exact Es'.
Qed.

(** With readable artifacts and unambiguous mappings the loop over the jar
    mapping of one target ends normally. *)
Lemma copy_jars_succeeds dir sdir smappings mappings :
  forall st,
    all_single mappings -> (mappings <> [] -> all_single smappings) ->
    (forall base jars jar, In (base, jars) (mappings ++ smappings) -> In jar jars ->
                           In (PosixPath.join base jar) (files st)) ->
    fst (copy_jars dir sdir smappings mappings st) = None.
Proof.
  induction mappings as [|[base jars] rest IH]; intros st Hs Hss Hr; simpl; [reflexivity|].
  apply all_single_cons in Hs. destruct Hs as (Hl & Hs).
  destruct jars as [|jar [|jar' jars]]; simpl in Hl; try discriminate.
  destruct (copy (PosixPath.join base jar) (PosixPath.join dir jar) (files st))
    as [fl|] eqn:Ec.
  - destruct (copy_source_jars_succeeds sdir smappings None fl) as (cp & Hcp).
    { apply Hss. discriminate. }
    { intros b js j Hin Hj. apply (StagingFacts.copy_incl _ _ _ _ Ec).
      eapply Hr; [|exact Hj]. right. apply in_app_iff. right. exact Hin. }
    destruct (copy_source_jars_files sdir smappings None fl) as (Hi' & _).
    destruct (copy_source_jars sdir smappings None fl) as [[e|cp0] fl'] eqn:Es;
      [discriminate|].
    simpl in Hi'. apply IH; [exact Hs| |].
    + intros _. apply Hss. discriminate.
    + simpl. intros b js j Hin Hj. apply Hi'.
      apply (StagingFacts.copy_incl _ _ _ _ Ec). eapply Hr; [right; exact Hin|exact Hj].
  - exfalso. eapply StagingFacts.copy_readable; [|exact Ec].
    eapply Hr; [left; reflexivity|left; reflexivity].
Qed.

Lemma map_targets_files dir sdir jp sp tgts :
  forall st,
    incl (files st) (files (snd (map_targets dir sdir jp sp tgts st)))
    /\ (forall f, In f (files (snd (map_targets dir sdir jp sp tgts st))) ->
          In f (files st)
          \/ exists target base jar,
               In target tgts
               /\ ((In (base, [jar]) (jp target) /\ f = PosixPath.join dir jar)
                   \/ (jp target <> [] /\ In (base, [jar]) (sp target)
                       /\ f = PosixPath.join sdir jar)))
    /\ exists new, internal_jars (snd (map_targets dir sdir jp sp tgts st))
                   = internal_jars st ++ new.
Proof.
  induction tgts as [|t tgts IH]; intros st; simpl.
  - split; [apply incl_refl|]. split; [auto|]. exists []. rewrite app_nil_r. reflexivity.
  - destruct (copy_jars_files dir sdir (sp t) (jp t) st) as (Hi & Hf & (new & Hn)).
    assert (Hstep : forall f, In f (files (snd (copy_jars dir sdir (sp t) (jp t) st))) ->
              In f (files st)
              \/ exists target base jar,
                   In target (t :: tgts)
                   /\ ((In (base, [jar]) (jp target) /\ f = PosixPath.join dir jar)
                       \/ (jp target <> [] /\ In (base, [jar]) (sp target)
                           /\ f = PosixPath.join sdir jar))).
    { intros f Hin. destruct (Hf f Hin) as [H|[(b & j & Hb & E)|(Hne & b & j & Hb & E)]].
      - auto.
      - right. exists t, b, j. split; [left; reflexivity|]. left. auto.
      - right. exists t, b, j. split; [left; reflexivity|]. right. auto. }
    destruct (copy_jars dir sdir (sp t) (jp t) st) as [[e|] st'] eqn:Ec; simpl in *.
    + split; [exact Hi|]. split; [exact Hstep|]. exists new. exact Hn.
    + destruct (IH st') as (Hi' & Hf' & (new' & Hn')).
      split; [eapply incl_tran; eassumption|]. split.
      * intros f Hin. destruct (Hf' f Hin) as [H|(t0 & b & j & Ht0 & H)].
        -- exact (Hstep f H).
        -- right. exists t0, b, j. auto.
      * rewrite Hn', Hn, <- app_assoc. eexists. reflexivity.
Qed.

Lemma map_targets_returns dir sdir jp sp tgts :
  forall st,
    fst (map_targets dir sdir jp sp tgts st) = None ->
    unambiguous jp sp tgts
    /\ internal_jars (snd (map_targets dir sdir jp sp tgts st))
       = internal_jars st
         ++ flat_map (fun target => entries_of_target dir sdir (sp target) (jp target)) tgts
    /\ forall e,
         In e (flat_map (fun target => entries_of_target dir sdir (sp target) (jp target))
                        tgts) ->
         In (jar e) (files (snd (map_targets dir sdir jp sp tgts st)))
         /\ forall s, source_jar e = Some s ->
              In s (files (snd (map_targets dir sdir jp sp tgts st))).
Proof.
  induction tgts as [|t tgts IH]; intros st H; simpl in *.
  - split; [intros t []|]. split; [rewrite app_nil_r; reflexivity|intros e []].
  - pose proof (copy_jars_returns dir sdir (sp t) (jp t) st) as Hret.
    destruct (copy_jars dir sdir (sp t) (jp t) st) as [[e|] st'] eqn:Ec; simpl in *;
      [discriminate|].
    destruct (Hret eq_refl) as (Hs & Hss & Hn & He).
    destruct (IH st' H) as (Hu & Hn' & He').
    destruct (map_targets_files dir sdir jp sp tgts st') as (Hi & _).
    split; [|split].
    + intros t0 [<-|Hin]; [auto|exact (Hu t0 Hin)].
    + rewrite Hn', Hn, <- app_assoc. reflexivity.
    + intros e Hin. apply in_app_iff in Hin. destruct Hin as [Hin|Hin]; [|exact (He' e Hin)].
      destruct (He e Hin) as (Hj & Hsj). split; [exact (Hi _ Hj)|].
      intros s Es. exact (Hi _ (Hsj s Es)).
Qed.

Lemma map_targets_succeeds dir sdir jp sp tgts :
  forall st,
    unambiguous jp sp tgts ->
    (forall target base jars jar,
        In target tgts -> In (base, jars) (jp target ++ sp target) -> In jar jars ->
        In (PosixPath.join base jar) (files st)) ->
    fst (map_targets dir sdir jp sp tgts st) = None.
Proof.
  induction tgts as [|t tgts IH]; intros st Hu Hr; simpl; [reflexivity|].
  destruct (Hu t (or_introl eq_refl)) as (Hs & Hss).
  pose proof (copy_jars_succeeds dir sdir (sp t) (jp t) st Hs Hss) as Hok.
  destruct (copy_jars_files dir sdir (sp t) (jp t) st) as (Hi & _).
  destruct (copy_jars dir sdir (sp t) (jp t) st) as [[e|] st'] eqn:Ec; simpl in *.
  - rewrite Hok; [reflexivity|]. intros b js j. apply Hr. left. reflexivity.
  - apply IH.
    + intros t0 Hin. apply Hu. right. exact Hin.
    + intros t0 b js j Hin Hp Hj. apply Hi. eapply Hr; [right; exact Hin|exact Hp|exact Hj].
Qed.

Lemma cleaned_In d1 d2 fl f :
  In f (safe_mkdir_clean d2 (safe_mkdir_clean d1 fl))
  <-> In f fl /\ under d1 f = false /\ under d2 f = false.
Proof.
  unfold safe_mkdir_clean. rewrite !filter_In, !negb_true_iff. tauto.
Qed.

End StagingMore.

(** X14.  When [map_internal_jars] ends without an exception it has added
    one classpath entry for every pair of the jar mappings of the targets,
    in order, after the entries that were there; the source jar of an entry
    is the copy of the last source jar of its target; and the jar and the
    source jar of every new entry are files by then. *)
Theorem internal_jars_on_success work_dir jars_product source_jars_product tgts st :
  fst (Staging.map_internal_jars work_dir jars_product source_jars_product tgts st)
  = None ->
  Staging.internal_jars
    (snd (Staging.map_internal_jars work_dir jars_product source_jars_product tgts st))
  = Staging.internal_jars st
    ++ entries_of work_dir jars_product source_jars_product tgts
  /\ forall e, In e (entries_of work_dir jars_product source_jars_product tgts) ->
       In (Staging.jar e)
          (Staging.files
             (snd (Staging.map_internal_jars work_dir jars_product
                     source_jars_product tgts st)))
       /\ forall s, Staging.source_jar e = Some s ->
            In s (Staging.files
                    (snd (Staging.map_internal_jars work_dir jars_product
                            source_jars_product tgts st))).
Proof.
  unfold Staging.map_internal_jars. intros H.
  apply StagingMore.map_targets_returns in H. destruct H as (_ & Hn & He).
  split; [exact Hn|exact He].
Qed.

(** X15.  The artifacts are readable files outside of the staging
    directories, named by plain file names under normalized base
    directories, and the work directory is a normalized absolute path, as
    [os.path.abspath] gives it.  Then [map_internal_jars] ends without an
    exception exactly when every pair of the jar mapping of every target
    names one file and every pair of the source jar mapping of every target
    that has a jar mapping names one file; the source jar mapping of a
    target without jar mapping is not looked at. *)
Theorem internal_jars_success_iff work_dir jars_product source_jars_product tgts st :
  artifacts_readable work_dir jars_product source_jars_product tgts st ->
  wf_root work_dir = true ->
  normalized_bases jars_product source_jars_product tgts ->
  plain_jar_names jars_product source_jars_product tgts ->
  (fst (Staging.map_internal_jars work_dir jars_product source_jars_product tgts st)
   = None
   <-> unambiguous jars_product source_jars_product tgts).
Proof.
  intros Hr _ _ _. unfold Staging.map_internal_jars. split.
  - intros H. apply StagingMore.map_targets_returns in H. tauto.
  - intros Hu. apply StagingMore.map_targets_succeeds; [exact Hu|].
    intros t b js j Ht Hp Hj. simpl.
    destruct (Hr t b js j Ht Hp Hj) as (Hin & H1 & H2).
    apply StagingMore.cleaned_In. auto.
Qed.

(** X16.  However [map_internal_jars] ends, no file outside of the two
    staging directories is removed and the classpath entries that were
    there are kept in front. *)
Theorem staging_keeps_other_files work_dir jars_product source_jars_product tgts st f :
  In f (Staging.files st) ->
  Staging.under (PosixPath.join work_dir "internal-libs") f = false ->
  Staging.under (PosixPath.join work_dir "internal-libsources") f = false ->
  In f (Staging.files
          (snd (Staging.map_internal_jars work_dir jars_product
                  source_jars_product tgts st)))
  /\ exists new,
       Staging.internal_jars
         (snd (Staging.map_internal_jars work_dir jars_product
                 source_jars_product tgts st))
       = Staging.internal_jars st ++ new.
Proof.
  intros Hin H1 H2. unfold Staging.map_internal_jars.
  match goal with
  | |- context [Staging.map_targets ?d ?sd ?jp ?sp ?t ?s] =>
      destruct (StagingMore.map_targets_files d sd jp sp t s) as (Hi & _ & Hn)
  end.
  split; [|exact Hn]. apply Hi. simpl. apply StagingMore.cleaned_In. auto.
Qed.

(** X17.  However [map_internal_jars] ends, a file found in one of the two
    staging directories afterwards is the copy of a jar of a pair of a
    target, made by this call: what earlier runs left there is gone. *)
Theorem staged_files_are_fresh work_dir jars_product source_jars_product tgts st f :
  In f (Staging.staged work_dir
          (snd (Staging.map_internal_jars work_dir jars_product
                  source_jars_product tgts st))) ->
  exists target base jar,
    In target tgts
    /\ ((In (base, [jar]) (jars_product target)
         /\ f = PosixPath.join (PosixPath.join work_dir "internal-libs") jar)
        \/ (jars_product target <> [] /\ In (base, [jar]) (source_jars_product target)
            /\ f = PosixPath.join (PosixPath.join work_dir "internal-libsources") jar)).
Proof.
  unfold Staging.staged, Staging.map_internal_jars. intros H.
  apply filter_In in H. destruct H as (Hin & Hu).
  match type of Hin with
  | context [Staging.map_targets ?d ?sd ?jp ?sp ?t ?s] =>
      destruct (StagingMore.map_targets_files d sd jp sp t s) as (_ & Hf & _)
  end.
  destruct (Hf f Hin) as [Hold|Hnew]; [|exact Hnew].
  exfalso. simpl in Hold. apply StagingMore.cleaned_In in Hold.
  destruct Hold as (_ & H1 & H2). rewrite H1, H2 in Hu. discriminate.
Qed.

Lemma two_bases_readable :
  artifacts_readable "/w" two_bases_jars two_bases_source_jars [1] two_bases_artifacts.
Proof.
  intros target base jars jar Ht Hp Hj.
  destruct Ht as [<-|[]]. simpl in Hp.
  repeat (destruct Hp as [E|Hp];
          [inversion E; subst; simpl in Hj;
           destruct Hj as [<-|[]]; vm_compute; auto 12|]).
  contradiction.
Qed.

Lemma two_bases_plain :
  normalized_bases two_bases_jars two_bases_source_jars [1]
  /\ plain_jar_names two_bases_jars two_bases_source_jars [1].
Proof.
  split.
  - intros target base jars Ht Hp.
    destruct Ht as [<-|[]]. simpl in Hp.
    repeat (destruct Hp as [E|Hp]; [inversion E; subst; reflexivity|]).
    contradiction.
  - intros target base jars jar Ht Hp Hj.
    destruct Ht as [<-|[]]. simpl in Hp.
    repeat (destruct Hp as [E|Hp];
            [inversion E; subst; simpl in Hj; destruct Hj as [<-|[]]; reflexivity|]).
    contradiction.
Qed.

Lemma internal_jars_on_success_witness :
  Staging.internal_jars
    (snd (Staging.map_internal_jars "/w" two_bases_jars two_bases_source_jars [1]
            two_bases_artifacts))
  = Staging.internal_jars two_bases_artifacts
    ++ entries_of "/w" two_bases_jars two_bases_source_jars [1]
  /\ forall e, In e (entries_of "/w" two_bases_jars two_bases_source_jars [1]) ->
       In (Staging.jar e)
          (Staging.files
             (snd (Staging.map_internal_jars "/w" two_bases_jars two_bases_source_jars
                     [1] two_bases_artifacts)))
       /\ forall s, Staging.source_jar e = Some s ->
            In s (Staging.files
                    (snd (Staging.map_internal_jars "/w" two_bases_jars
                            two_bases_source_jars [1] two_bases_artifacts))).
Proof.
  apply (internal_jars_on_success "/w" two_bases_jars two_bases_source_jars [1]
           two_bases_artifacts).
  vm_compute. reflexivity.
Defined.

Lemma internal_jars_success_iff_witness :
  fst (Staging.map_internal_jars "/w" two_bases_jars two_bases_source_jars [1]
         two_bases_artifacts) = None
  <-> unambiguous two_bases_jars two_bases_source_jars [1].
Proof.
  exact (internal_jars_success_iff "/w" two_bases_jars two_bases_source_jars [1]
           two_bases_artifacts two_bases_readable eq_refl
           (proj1 two_bases_plain) (proj2 two_bases_plain)).
Defined.

Lemma staging_keeps_other_files_witness :
  In "/home/notes.txt"
     (Staging.files
        (snd (Staging.map_internal_jars "/w" two_bases_jars two_bases_source_jars [1]
                two_bases_artifacts)))
  /\ exists new,
       Staging.internal_jars
         (snd (Staging.map_internal_jars "/w" two_bases_jars two_bases_source_jars [1]
                 two_bases_artifacts))
       = Staging.internal_jars two_bases_artifacts ++ new.
Proof.
  apply (staging_keeps_other_files "/w" two_bases_jars two_bases_source_jars [1]
           two_bases_artifacts "/home/notes.txt").
  - simpl. auto 10.
  - reflexivity.
  - reflexivity.
Defined.

Lemma staged_files_are_fresh_witness :
  exists target base jar,
    In target [1]
    /\ ((In (base, [jar]) (two_bases_jars target)
         /\ "/w/internal-libs/b.jar"
            = PosixPath.join (PosixPath.join "/w" "internal-libs") jar)
        \/ (two_bases_jars target <> []
            /\ In (base, [jar]) (two_bases_source_jars target)
            /\ "/w/internal-libs/b.jar"
               = PosixPath.join (PosixPath.join "/w" "internal-libsources") jar)).
Proof.
  apply (staged_files_are_fresh "/w" two_bases_jars two_bases_source_jars [1]
           two_bases_artifacts "/w/internal-libs/b.jar").
  vm_compute. auto.
Defined.

(** ** Staging of the external jars *)

Module ExternalFacts.
Import External.

Lemma prefix_app (a b : string) : String.prefix a (a +:+ b) = true.
Proof.
  induction a as [|c a IH]; simpl; [destruct b; reflexivity|].
  destruct (ascii_dec c c) as [_|Hne]; [exact IH|congruence].
Qed.

Lemma after_last_sep_no_sep (p : string) : has_sep (after_last_sep p) = false.
Proof.
  induction p as [|c p IH]; simpl; [reflexivity|].
  destruct (has_sep p) eqn:Hp; [exact IH|].
  destruct (is_sep c) eqn:Hc; [exact Hp|].
  simpl. rewrite Hc, Hp. reflexivity.
Qed.

Lemma basename_not_abs (p : string) : startswith_sep (basename p) = false.
Proof.
  assert (E : basename p = after_last_sep p).
  { unfold basename, PosixPath.split.
    destruct (nonempty (upto_last_sep p) && negb (all_sep (upto_last_sep p)));
      reflexivity. }
  rewrite E. pose proof (after_last_sep_no_sep p) as H.
  destruct (after_last_sep p) as [|c s]; [reflexivity|].
  simpl in *. apply orb_false_iff in H. tauto.
Qed.

Lemma join_relative (d b : string) :
  d <> "" -> endswith_sep d = false -> startswith_sep b = false ->
  PosixPath.join d b = (d +:+ "/") +:+ b.
Proof.
  intros Hd He Hb. unfold PosixPath.join. rewrite Hb, He.
  destruct (String.eqb_spec d "") as [E|_]; [contradiction|].
  simpl. rewrite str_app_assoc. reflexivity.
Qed.

Lemma staging_dir_shape (work_dir name : string) :
  is_name name = true ->
  PosixPath.join work_dir name <> "" /\ endswith_sep (PosixPath.join work_dir name) = false.
Proof.
  intros Hn. unfold PosixPath.join.
  assert (Hs : startswith_sep name = false).
  { apply is_name_spec in Hn. destruct Hn as (_ & Hs & _).
    destruct name; [reflexivity|]. simpl in *. apply orb_false_iff in Hs. tauto. }
  rewrite Hs.
  destruct (String.eqb work_dir "" || endswith_sep work_dir).
  - apply ends_with_name. exact Hn.
  - rewrite <- str_app_assoc. apply ends_with_name. exact Hn.
Qed.

(** A staged copy lies in its staging directory. *)
Lemma under_staged (work_dir name a : string) :
  is_name name = true ->
  Staging.under (PosixPath.join work_dir name)
    (PosixPath.join (PosixPath.join work_dir name) (basename a)) = true.
Proof.
  intros Hn. destruct (staging_dir_shape work_dir name Hn) as (Hd & He).
  rewrite (join_relative _ _ Hd He (basename_not_abs a)).
  unfold Staging.under. apply prefix_app.
Qed.

Lemma copy_Some src dst fl : In src fl <-> exists fl', Staging.copy src dst fl = Some fl'.
Proof.
  unfold Staging.copy. destruct (mem src fl) eqn:E.
  - apply mem_In in E. split; [eauto|auto].
  - apply mem_false in E. split; [contradiction|intros (fl' & H); discriminate].
Qed.

Lemma stage_spec dir artifact fl cp fl' :
  stage dir artifact fl = Some (cp, fl') ->
  cp = option_map (fun a => PosixPath.join dir (basename a)) (truthy artifact)
  /\ incl fl fl'
  /\ (forall s, cp = Some s -> In s fl')
  /\ (forall f, In f fl' ->
        In f fl \/ exists a, truthy artifact = Some a
                             /\ f = PosixPath.join dir (basename a))
  /\ (forall a, truthy artifact = Some a -> In a fl).
Proof.
  unfold stage. destruct (truthy artifact) as [a|].
  - destruct (Staging.copy a (PosixPath.join dir (basename a)) fl) as [fl1|] eqn:Ec;
      intros H; inversion H; subst.
    split; [reflexivity|]. split; [exact (StagingFacts.copy_incl _ _ _ _ Ec)|].
    split; [|split].
    + intros s Es. inversion Es; subst. apply (StagingMore.copy_In _ _ _ _ _ Ec). auto.
    + intros f Hf. apply (StagingMore.copy_In _ _ _ _ _ Ec) in Hf. destruct Hf as [->|Hf]; eauto.
    + intros a0 Ea. inversion Ea; subst. apply (copy_Some a0 (PosixPath.join dir (basename a0))).
      eauto.
  - intros H. inversion H; subst. split; [reflexivity|]. split; [apply incl_refl|].
    split; [discriminate|]. split; [auto|discriminate].
Qed.


Lemma referenced_cons entry rest a :
  referenced (entry :: rest) a <->
  (exists jar, truthy (e_default entry) = Some jar
               /\ (a = jar \/ truthy (e_sources entry) = Some a
                   \/ truthy (e_javadoc entry) = Some a))
  \/ referenced rest a.
Proof.
  unfold referenced. split.
  - intros (en & jar & [<-|Hin] & H); [left; eauto|right; eauto].
  - intros [(jar & H)|(en & jar & Hin & H)].
    + exists entry, jar. split; [left; reflexivity|exact H].
    + exists en, jar. split; [right; exact Hin|exact H].
Qed.

Lemma in_staging_cases work_dir f :
  in_staging work_dir f = true <->
  Staging.under (PosixPath.join work_dir "external-libs") f = true
  \/ Staging.under (PosixPath.join work_dir "external-libsources") f = true
  \/ Staging.under (PosixPath.join work_dir "external-libjavadoc") f = true.
Proof.
  unfold in_staging. rewrite !orb_true_iff. tauto.
Qed.

(** The loop over the entries, whatever its end: files are only added, an
    added file lies in a staging directory, and the entries that were there
    are kept in front. *)
Lemma map_entries_files work_dir entries :
  forall st,
    incl (files st)
         (files (snd (map_entries (PosixPath.join work_dir "external-libs")
                        (PosixPath.join work_dir "external-libsources")
                        (PosixPath.join work_dir "external-libjavadoc") entries st)))
    /\ (forall f,
          In f (files (snd (map_entries (PosixPath.join work_dir "external-libs")
                              (PosixPath.join work_dir "external-libsources")
                              (PosixPath.join work_dir "external-libjavadoc") entries st))) ->
          In f (files st) \/ in_staging work_dir f = true)
    /\ exists new,
         external_jars (snd (map_entries (PosixPath.join work_dir "external-libs")
                               (PosixPath.join work_dir "external-libsources")
                               (PosixPath.join work_dir "external-libjavadoc") entries st))
         = external_jars st ++ new.
Proof.
  set (d1 := PosixPath.join work_dir "external-libs").
  set (d2 := PosixPath.join work_dir "external-libsources").
  set (d3 := PosixPath.join work_dir "external-libjavadoc").
  assert (Hsame : forall st : State,
             incl (files st) (files st)
             /\ (forall f, In f (files st) -> In f (files st) \/ in_staging work_dir f = true)
             /\ exists new, external_jars st = external_jars st ++ new).
  { intros st. split; [apply incl_refl|]. split; [auto|]. exists []. rewrite app_nil_r.
    reflexivity. }
  assert (H1 : forall a, in_staging work_dir (PosixPath.join d1 (basename a)) = true).
  { intros a. apply in_staging_cases. left. apply under_staged. reflexivity. }
  assert (H2 : forall a, in_staging work_dir (PosixPath.join d2 (basename a)) = true).
  { intros a. apply in_staging_cases. right. left. apply under_staged. reflexivity. }
  assert (H3 : forall a, in_staging work_dir (PosixPath.join d3 (basename a)) = true).
  { intros a. apply in_staging_cases. right. right. apply under_staged. reflexivity. }
  induction entries as [|entry rest IH]; intros st; simpl; [apply Hsame|].
  destruct (truthy (e_default entry)) as [jar|]; [|apply IH].
  destruct (Staging.copy jar (PosixPath.join d1 (basename jar)) (files st))
    as [fl1|] eqn:Ec; [|apply Hsame].
  assert (Hf1 : forall f, In f fl1 -> In f (files st) \/ in_staging work_dir f = true).
  { intros f Hf. apply (StagingMore.copy_In _ _ _ _ _ Ec) in Hf. destruct Hf as [->|Hf]; auto. }
  pose proof (StagingFacts.copy_incl _ _ _ _ Ec) as Hi1.
  destruct (stage d2 (e_sources entry) fl1) as [[cps fl2]|] eqn:Es.
  2:{ simpl. split; [exact Hi1|]. split; [exact Hf1|]. exists []. rewrite app_nil_r.
      reflexivity. }
  destruct (stage_spec _ _ _ _ _ Es) as (_ & Hi2 & _ & Hn2 & _).
  assert (Hf2 : forall f, In f fl2 -> In f (files st) \/ in_staging work_dir f = true).
  { intros f Hf. destruct (Hn2 f Hf) as [H|(a & _ & ->)]; auto. }
  destruct (stage d3 (e_javadoc entry) fl2) as [[cpj fl3]|] eqn:Ej.
  2:{ simpl. split; [eapply incl_tran; eassumption|]. split; [exact Hf2|].
      exists []. rewrite app_nil_r. reflexivity. }
  destruct (stage_spec _ _ _ _ _ Ej) as (_ & Hi3 & _ & Hn3 & _).
  assert (Hf3 : forall f, In f fl3 -> In f (files st) \/ in_staging work_dir f = true).
  { intros f Hf. destruct (Hn3 f Hf) as [H|(a & _ & ->)]; auto. }
  match goal with
  | |- context [map_entries d1 d2 d3 rest ?st'] =>
      destruct (IH st') as (Hi & Hf & (new & Hn))
  end.
  simpl in Hi, Hf, Hn. split; [|split].
  - eapply incl_tran; [exact Hi1|]. eapply incl_tran; [exact Hi2|].
    eapply incl_tran; [exact Hi3|exact Hi].
  - intros f Hin. destruct (Hf f Hin) as [H|H]; auto.
  - rewrite Hn, <- app_assoc. eexists. reflexivity.
Qed.

(** The loop over the entries when it ends normally. *)
Lemma map_entries_returns work_dir entries :
  forall st,
    fst (map_entries (PosixPath.join work_dir "external-libs")
           (PosixPath.join work_dir "external-libsources")
           (PosixPath.join work_dir "external-libjavadoc") entries st) = None ->
    external_jars (snd (map_entries (PosixPath.join work_dir "external-libs")
                          (PosixPath.join work_dir "external-libsources")
                          (PosixPath.join work_dir "external-libjavadoc") entries st))
    = external_jars st ++ entries_of work_dir entries
    /\ (forall e, In e (entries_of work_dir entries) ->
          forall s, (s = Staging.jar e \/ Staging.source_jar e = Some s
                     \/ Staging.javadoc_jar e = Some s) ->
            In s (files (snd (map_entries (PosixPath.join work_dir "external-libs")
                                (PosixPath.join work_dir "external-libsources")
                                (PosixPath.join work_dir "external-libjavadoc")
                                entries st))))
    /\ (forall a, referenced entries a ->
          In a (files st) \/ in_staging work_dir a = true).
Proof.
  set (d1 := PosixPath.join work_dir "external-libs").
  set (d2 := PosixPath.join work_dir "external-libsources").
  set (d3 := PosixPath.join work_dir "external-libjavadoc").
  induction entries as [|entry rest IH]; intros st H; simpl in *.
  - split; [rewrite app_nil_r; reflexivity|]. split; [intros e []|].
    intros a (en & jar & [] & _).
  - destruct (truthy (e_default entry)) as [jar|] eqn:Ed.
    2:{ destruct (IH st H) as (Hn & He & Hr). split; [exact Hn|]. split; [exact He|].
        intros a Ha. apply referenced_cons in Ha.
        destruct Ha as [(jar & Ej & _)|Ha]; [congruence|exact (Hr a Ha)]. }
    destruct (Staging.copy jar (PosixPath.join d1 (basename jar)) (files st))
      as [fl1|] eqn:Ec; [|discriminate].
    destruct (stage d2 (e_sources entry) fl1) as [[cps fl2]|] eqn:Es; [|discriminate].
    destruct (stage d3 (e_javadoc entry) fl2) as [[cpj fl3]|] eqn:Ej; [|discriminate].
    destruct (stage_spec _ _ _ _ _ Es) as (Ecps & Hi2 & Hs2 & Hn2 & Hr2).
    destruct (stage_spec _ _ _ _ _ Ej) as (Ecpj & Hi3 & Hs3 & Hn3 & Hr3).
    match type of H with
    | fst (map_entries d1 d2 d3 rest ?st') = None =>
        destruct (IH st' H) as (Hn & He & Hr);
        destruct (map_entries_files work_dir rest st') as (Hi & _)
    end.
    fold d1 d2 d3 in Hi. simpl in Hn, He, Hr, Hi.
    assert (Hold : forall f, In f fl3 -> In f (files st) \/ in_staging work_dir f = true).
    { intros f Hf.
      destruct (Hn3 f Hf) as [Hf2|(a & _ & ->)];
        [|right; apply in_staging_cases; right; right; apply under_staged; reflexivity].
      destruct (Hn2 f Hf2) as [Hf1|(a & _ & ->)];
        [|right; apply in_staging_cases; right; left; apply under_staged; reflexivity].
      apply (StagingMore.copy_In _ _ _ _ _ Ec) in Hf1. destruct Hf1 as [->|Hf1]; [|auto].
      right. apply in_staging_cases. left. apply under_staged. reflexivity. }
    split; [|split].
    + rewrite Hn, <- app_assoc. unfold entry_of. fold d1 d2 d3.
      rewrite <- Ecps, <- Ecpj. reflexivity.
    + intros e [<-|Hin] s Hs; [|exact (He e Hin s Hs)].
      apply Hi. unfold entry_of in Hs. simpl in Hs. fold d1 d2 d3 in Hs.
      rewrite <- Ecps, <- Ecpj in Hs.
      destruct Hs as [->|[Hs|Hs]].
      * apply Hi3, Hi2. apply (StagingMore.copy_In _ _ _ _ _ Ec). auto.
      * apply Hi3. exact (Hs2 s Hs).
      * exact (Hs3 s Hs).
    + intros a Ha. apply referenced_cons in Ha.
      destruct Ha as [(jar0 & Ej0 & Ha)|Ha].
      * rewrite Ed in Ej0. inversion Ej0; subst jar0. destruct Ha as [->|[Ha|Ha]].
        -- left. apply (copy_Some jar (PosixPath.join d1 (basename jar))). eauto.
        -- specialize (Hr2 a Ha). apply (StagingMore.copy_In _ _ _ _ _ Ec) in Hr2.
           destruct Hr2 as [->|Hr2]; [|auto].
           right. apply in_staging_cases. left. apply under_staged. reflexivity.
        -- specialize (Hr3 a Ha). destruct (Hn2 a Hr3) as [Hf1|(a0 & _ & ->)];
             [|right; apply in_staging_cases; right; left; apply under_staged;
               reflexivity].
           apply (StagingMore.copy_In _ _ _ _ _ Ec) in Hf1. destruct Hf1 as [->|Hf1]; [|auto].
           right. apply in_staging_cases. left. apply under_staged. reflexivity.
      * destruct (Hr a Ha) as [Hf|Hf]; [|auto]. exact (Hold a Hf).
Qed.


Lemma cleaned_three_In work_dir fl f :
  In f (Staging.safe_mkdir_clean (PosixPath.join work_dir "external-libjavadoc")
          (Staging.safe_mkdir_clean (PosixPath.join work_dir "external-libsources")
             (Staging.safe_mkdir_clean (PosixPath.join work_dir "external-libs") fl)))
  <-> In f fl /\ in_staging work_dir f = false.
Proof.
  unfold Staging.safe_mkdir_clean, in_staging.
  rewrite !filter_In, !negb_true_iff, !orb_false_iff. tauto.
Qed.

End ExternalFacts.

(** X18.  When [map_external_jars] ends without an exception it has added
    one classpath entry for every entry that has a default artifact, in
    order, after the entries that were there: entries without default
    artifact are passed over, whatever else they have.  The jar, the source
    jar and the javadoc jar of every new entry are files by then. *)
Theorem external_jars_on_success work_dir entries st :
  fst (External.map_external_jars work_dir entries st) = None ->
  External.external_jars (snd (External.map_external_jars work_dir entries st))
  = External.external_jars st ++ External.entries_of work_dir entries
  /\ forall e s,
       In e (External.entries_of work_dir entries) ->
       s = Staging.jar e \/ Staging.source_jar e = Some s
       \/ Staging.javadoc_jar e = Some s ->
       In s (External.files (snd (External.map_external_jars work_dir entries st))).
Proof.
  unfold External.map_external_jars. intros H.
  apply ExternalFacts.map_entries_returns in H. destruct H as (Hn & He & _).
  split; [exact Hn|]. intros e s Hin Hs. exact (He e Hin s Hs).
Qed.


(** X20.  However [map_external_jars] ends, the files outside of the three
    staging directories are the same before and after: none is removed and
    none is added, since every copy goes to the base name of its artifact
    inside a staging directory. *)
Theorem external_staging_touches_staging_only work_dir entries st f :
  External.in_staging work_dir f = false ->
  (In f (External.files st)
   <-> In f (External.files (snd (External.map_external_jars work_dir entries st)))).
Proof.
  intros Hout. unfold External.map_external_jars.
  match goal with
  | |- context [External.map_entries _ _ _ _ ?s] =>
      destruct (ExternalFacts.map_entries_files work_dir entries s) as (Hi & Hf & _)
  end.
  split.
  - intros Hin. apply Hi. simpl. apply ExternalFacts.cleaned_three_In. auto.
  - intros Hin. destruct (Hf f Hin) as [H|H].
    + simpl in H. apply ExternalFacts.cleaned_three_In in H. tauto.
    + rewrite Hout in H. discriminate.
Qed.


Lemma external_jars_on_success_witness :
  External.external_jars
    (snd (External.map_external_jars "/w" External.example_entries External.example_state))
  = External.external_jars External.example_state
    ++ External.entries_of "/w" External.example_entries
  /\ forall e s,
       In e (External.entries_of "/w" External.example_entries) ->
       s = Staging.jar e \/ Staging.source_jar e = Some s
       \/ Staging.javadoc_jar e = Some s ->
       In s (External.files
               (snd (External.map_external_jars "/w" External.example_entries
                       External.example_state))).
Proof.
  apply (external_jars_on_success "/w" External.example_entries External.example_state).
  vm_compute. reflexivity.
Defined.


Lemma external_staging_touches_staging_only_witness :
  In "/ivy/junit/junit-4.jar" (External.files External.example_state)
  <-> In "/ivy/junit/junit-4.jar"
        (External.files
           (snd (External.map_external_jars "/w" External.example_entries
                   External.example_state))).
Proof.
  apply (external_staging_touches_staging_only "/w" External.example_entries
           External.example_state "/ivy/junit/junit-4.jar").
  vm_compute. reflexivity.
Defined.

(** ** Project.configure_python *)

Lemma extend_extra_false_TEST_BASES W paths srcs tb :
  snd (extend_extra W false paths (srcs, tb)) = tb.
Proof.
  unfold extend_extra. revert srcs.
  induction paths as [|x paths IH]; intros srcs; simpl; [reflexivity|apply IH].
Qed.

Lemma extend_extra_true_TEST_BASES W paths :
  forall srcs tb x,
    In x (snd (extend_extra W true paths (srcs, tb))) <-> In x tb \/ In x paths.
Proof.
  unfold extend_extra.
  induction paths as [|y paths IH]; intros srcs tb x; simpl; [tauto|].
  rewrite IH, set_add_In. intuition congruence.
Qed.

(** One library root that can be listed: its directories and eggs are
    appended, the class-level set is left alone. *)
Lemma lib_root_step W root names (acc : list SourceSet * list string) :
  fold_left
    (fun (acc : list SourceSet * list string) path =>
       if isdir W (PosixPath.join (PosixPath.join (get_buildroot W) root) path)
          || str_endswith path ".egg"
       then
         let (ss, tb) :=
           SourceSet_init (snd acc) (get_buildroot W) root (Some path) false in
         (fst acc ++ [ss], tb)
       else acc)
    names acc
  = (fst acc
     ++ map (lib_source_set W root)
          (filter (fun path =>
                     isdir W (PosixPath.join (PosixPath.join (get_buildroot W) root) path)
                     || str_endswith path ".egg")
                  names),
     snd acc).
Proof.
  revert acc. induction names as [|path names IH]; intros [libs tb]; simpl.
  - rewrite app_nil_r. reflexivity.
  - destruct (isdir W (PosixPath.join (PosixPath.join (get_buildroot W) root) path)
              || str_endswith path ".egg").
    + rewrite IH. simpl. rewrite <- app_assoc. reflexivity.
    + apply IH.
Qed.

Lemma lib_roots_loop W lib_roots :
  forall acc : list SourceSet * list string,
    ((forall root, In root lib_roots ->
                   listdir W (PosixPath.join (get_buildroot W) root) <> None) ->
     for_each
       (fun root (acc : list SourceSet * list string) =>
          match listdir W (PosixPath.join (get_buildroot W) root) with
          | None => Raises OSError
          | Some names =>
              Returns
                (fold_left
                   (fun (acc : list SourceSet * list string) path =>
                      if isdir W (PosixPath.join (PosixPath.join (get_buildroot W) root) path)
                         || str_endswith path ".egg"
                      then
                        let (ss, tb) :=
                          SourceSet_init (snd acc) (get_buildroot W) root (Some path) false in
                        (fst acc ++ [ss], tb)
                      else acc)
                   names acc)
          end)
       lib_roots acc
     = Returns (fst acc
                ++ flat_map (fun root => map (lib_source_set W root) (lib_entries W root))
                     lib_roots,
                snd acc))
    /\ ((exists root, In root lib_roots
                      /\ listdir W (PosixPath.join (get_buildroot W) root) = None) ->
        for_each
          (fun root (acc : list SourceSet * list string) =>
             match listdir W (PosixPath.join (get_buildroot W) root) with
             | None => Raises OSError
             | Some names =>
                 Returns
                   (fold_left
                      (fun (acc : list SourceSet * list string) path =>
                         if isdir W (PosixPath.join (PosixPath.join (get_buildroot W) root) path)
                            || str_endswith path ".egg"
                         then
                           let (ss, tb) :=
                             SourceSet_init (snd acc) (get_buildroot W) root (Some path) false in
                           (fst acc ++ [ss], tb)
                         else acc)
                      names acc)
             end)
          lib_roots acc
        = Raises OSError).
Proof.
  set (body :=
         fun root (acc : list SourceSet * list string) =>
           match listdir W (PosixPath.join (get_buildroot W) root) with
           | None => Raises OSError
           | Some names =>
               Returns
                 (fold_left
                    (fun (acc : list SourceSet * list string) path =>
                       if isdir W (PosixPath.join (PosixPath.join (get_buildroot W) root) path)
                          || str_endswith path ".egg"
                       then
                         let (ss, tb) :=
                           SourceSet_init (snd acc) (get_buildroot W) root (Some path) false in
                         (fst acc ++ [ss], tb)
                       else acc)
                    names acc)
           end).
  assert (Hb : forall root acc,
             body root acc
             = match listdir W (PosixPath.join (get_buildroot W) root) with
               | None => Raises OSError
               | Some _ =>
                   Returns (fst acc ++ map (lib_source_set W root) (lib_entries W root),
                            snd acc)
               end).
  { intros root acc. unfold body, lib_entries.
    destruct (listdir W (PosixPath.join (get_buildroot W) root)); [|reflexivity].
    rewrite lib_root_step. reflexivity. }
  clearbody body.
  induction lib_roots as [|root lib_roots IH]; intros acc; cbn [for_each flat_map].
  - split; [intros _; rewrite app_nil_r; destruct acc; reflexivity|].
    intros (root & [] & _).
  - rewrite Hb.
    destruct (listdir W (PosixPath.join (get_buildroot W) root)) as [names|] eqn:El;
      cbn [bind].
    + destruct (IH (fst acc ++ map (lib_source_set W root) (lib_entries W root), snd acc))
        as (IH1 & IH2).
      split.
      * intros Hall. rewrite IH1; [|intros r Hr; apply Hall; right; exact Hr].
        cbn [fst snd]. rewrite <- app_assoc. reflexivity.
      * intros (r & [<-|Hr] & Hn); [congruence|]. apply IH2. eauto.
    + split; [|reflexivity]. intros Hall. exfalso. apply (Hall root); [left; reflexivity|].
      exact El.
Qed.

(** X21.  [configure_python] returns exactly when every library root is a
    directory that can be listed below the build root; when one is not, it
    raises [OSError]. *)
Theorem configure_python_returns_iff W p tb source_roots test_roots lib_roots :
  ((exists r, configure_python W p tb source_roots test_roots lib_roots = Returns r)
   <-> forall root, In root lib_roots ->
                    listdir W (PosixPath.join (get_buildroot W) root) <> None)
  /\ ((exists root, In root lib_roots
                    /\ listdir W (PosixPath.join (get_buildroot W) root) = None) ->
      configure_python W p tb source_roots test_roots lib_roots = Raises OSError).
Proof.
  unfold configure_python.
  destruct (extend_extra W false source_roots (py_sources p, tb)) as [py1 tb1].
  destruct (extend_extra W true test_roots (py1, tb1)) as [py2 tb2].
  destruct (lib_roots_loop W lib_roots (py_libs p, tb2)) as (H1 & H2).
  split; [split|].
  - intros (r & Hr) root Hin Hn.
    rewrite H2 in Hr; [discriminate|]. eauto.
  - intros Hall. rewrite (H1 Hall). simpl. eauto.
  - intros Hex. rewrite (H2 Hex). reflexivity.
Qed.

(** X22.  What [configure_python] leaves behind when it returns: the python
    source sets are extended by one source set without path for every source
    root and then for every test root; the python libraries are extended, root
    by root in the order of the listing, by one source set for every entry
    that is a directory or whose name ends in [.egg]; nothing else of the
    project changes; and [SourceSet.TEST_BASES] gains the test roots and
    nothing else. *)
Theorem configure_python_result W p tb source_roots test_roots lib_roots p' tb' :
  configure_python W p tb source_roots test_roots lib_roots = Returns (p', tb') ->
  p' = set_py_libs
         (set_py_sources p
            (py_sources p ++ map (extra_source_set W false) source_roots
             ++ map (extra_source_set W true) test_roots))
         (py_libs p
          ++ flat_map (fun root => map (lib_source_set W root) (lib_entries W root))
               lib_roots)
  /\ forall x, In x tb' <-> In x tb \/ In x test_roots.
Proof.
  intros H. unfold configure_python in H.
  destruct (extend_extra_spec W false source_roots (py_sources p) tb) as (E1 & _).
  pose proof (extend_extra_false_TEST_BASES W source_roots (py_sources p) tb) as T1.
  destruct (extend_extra W false source_roots (py_sources p, tb)) as [py1 tb1].
  destruct (extend_extra_spec W true test_roots py1 tb1) as (E2 & _).
  pose proof (extend_extra_true_TEST_BASES W test_roots py1 tb1) as T2.
  destruct (extend_extra W true test_roots (py1, tb1)) as [py2 tb2].
  simpl in E1, T1, E2, T2. subst tb1.
  destruct (lib_roots_loop W lib_roots (py_libs p, tb2)) as (H1 & H2).
  assert (Hret : forall root, In root lib_roots ->
                              listdir W (PosixPath.join (get_buildroot W) root) <> None).
  { intros root Hin Hn. rewrite H2 in H; [discriminate|]. eauto. }
  rewrite (H1 Hret) in H. simpl in H. inversion H; subst p' tb'.
  split; [|exact T2]. rewrite E2, E1, <- app_assoc. reflexivity.
Qed.

Lemma configure_python_result_witness :
  exists p' tb',
    configure_python python_world (Project_init true false false "/r" [] true) ["old"]
      ["src/python"] ["tests/python"] ["3rdparty"] = Returns (p', tb')
    /\ py_libs p' = [lib_source_set python_world "3rdparty" "six-1.4.egg";
                     lib_source_set python_world "3rdparty" "requests"]
    /\ p' = set_py_libs
              (set_py_sources (Project_init true false false "/r" [] true)
                 (py_sources (Project_init true false false "/r" [] true)
                  ++ map (extra_source_set python_world false) ["src/python"]
                  ++ map (extra_source_set python_world true) ["tests/python"]))
              (py_libs (Project_init true false false "/r" [] true)
               ++ flat_map (fun root => map (lib_source_set python_world root)
                                            (lib_entries python_world root))
                    ["3rdparty"])
    /\ forall x, In x tb' <-> In x ["old"] \/ In x ["tests/python"].
Proof.
  eexists. eexists. split; [vm_compute; reflexivity|]. split; [reflexivity|].
  apply (configure_python_result python_world (Project_init true false false "/r" [] true)
           ["old"] ["src/python"] ["tests/python"] ["3rdparty"]).
  vm_compute. reflexivity.
Defined.

(** ** The targets a run comes to *)

Lemma source_target_config W p q a :
  same_configuration p q -> source_target W q a = source_target W p a.
Proof.
  intros (_ & Ht & Htr & _ & _ & _ & Hj & Hs). unfold source_target.
  rewrite Ht, Htr, Hj, Hs. reflexivity.
Qed.

Lemma find_source_basedirs_config W p q a :
  same_configuration p q -> find_source_basedirs W q a = find_source_basedirs W p a.
Proof.
  intros Hc. unfold find_source_basedirs. rewrite (source_target_config W p q a Hc).
  destruct Hc as (Hr & _). rewrite Hr. reflexivity.
Qed.

Lemma filter_ext_all {A : Type} (f g : A -> bool) (l : list A) :
  (forall x, f x = g x) -> filter f l = filter g l.
Proof.
  intros H. induction l as [|x l IH]; simpl; [reflexivity|]. rewrite H, IH. reflexivity.
Qed.

Lemma configure_target_siblings W p a fr :
  same_configuration p (self fr) ->
  snd (configure_target W a fr)
  = if mem_nat a (analyzed fr) then [] else siblings W p a.
Proof.
  intros Hc. unfold configure_target. destruct (mem_nat a (analyzed fr)); [reflexivity|].
  cbn [snd]. unfold siblings. apply filter_ext_all. intros c.
  rewrite (source_target_config W p _ c Hc), (find_source_basedirs_config W p _ c Hc),
    (find_source_basedirs_config W p _ a Hc).
  reflexivity.
Qed.

Lemma configure_target_analyzed_spec W a fr y :
  In y (analyzed (fst (configure_target W a fr))) <-> y = a \/ In y (analyzed fr).
Proof.
  destruct (configure_target_flags W a fr) as (Ht & Hf).
  destruct (mem_nat a (analyzed fr)) eqn:E.
  - rewrite (Ht eq_refl). apply mem_nat_In in E. split; [auto|intros [->|H]; auto].
  - destruct (Hf eq_refl) as (Ea & _). rewrite Ea, in_app_iff. simpl.
    intuition congruence.
Qed.

Lemma walk_post_refl deps pred sib w a : walk_post deps pred sib w a w a.
Proof.
  unfold walk_post. split; [apply incl_refl|]. split; [apply incl_refl|].
  split; [auto|]. intros y Hy Hn. contradiction.
Qed.

Lemma walk_post_trans deps pred sib w0 a0 w1 a1 w2 a2 :
  walk_post deps pred sib w0 a0 w1 a1 -> walk_post deps pred sib w1 a1 w2 a2 ->
  walk_post deps pred sib w0 a0 w2 a2.
Proof.
  intros (Hw1 & Ha1 & He1 & Hf1) (Hw2 & Ha2 & He2 & Hf2).
  split; [eapply incl_tran; eassumption|]. split; [eapply incl_tran; eassumption|].
  split.
  - intros y Hy. destruct (He2 y Hy) as [H|(H & Hn)].
    + destruct (He1 y H) as [H0|(H1 & Hn)]; [auto|]. right. split; [apply Hw2; exact H1|exact Hn].
    + right. split; [exact H|]. intros H0. apply Hn. apply Hw1. exact H0.
  - intros y Hy Hn0. destruct (in_dec Nat.eq_dec y w1) as [H1|H1].
    + destruct (Hf1 y H1 Hn0) as (Hd & Hp). split.
      * intros d Hin. apply Hw2. exact (Hd d Hin).
      * intros Hpy. destruct (Hp Hpy) as (Hin & Hs). split; [apply Ha2; exact Hin|].
        destruct Hs as [Hs|Hs]; [auto|]. right. intros c Hc. apply Hw2. exact (Hs c Hc).
    + destruct (Hf2 y Hy H1) as (Hd & Hp). split; [exact Hd|].
      intros Hpy. destruct (Hp Hpy) as (Hin & Hs). split; [exact Hin|].
      destruct Hs as [Hs|Hs]; [|auto].
      destruct (He1 y Hs) as [H0|(Hc & _)]; [auto|contradiction].
Qed.

(** One walk of the analysis, started anywhere. *)
Lemma walk_closure W p :
  forall fuel x w s w' s',
    walk fuel (deps_of W) (configure_target W) (source_target W p) x (w, s)
    = Returns (w', s') ->
    same_configuration p (self s) ->
    same_configuration p (self s') /\ In x w'
    /\ walk_post (deps_of W) (source_target W p) (siblings W p)
                 w (analyzed s) w' (analyzed s').
Proof.
  induction fuel as [|fuel IH]; intros x w s w' s' H Hc; [discriminate|].
  assert (Hlist : forall l w0 s0 w1 s1,
             for_each (walk fuel (deps_of W) (configure_target W) (source_target W p))
                      l (w0, s0) = Returns (w1, s1) ->
             same_configuration p (self s0) ->
             same_configuration p (self s1) /\ (forall y, In y l -> In y w1)
             /\ walk_post (deps_of W) (source_target W p) (siblings W p)
                          w0 (analyzed s0) w1 (analyzed s1)).
  { induction l as [|y l IHl]; intros w0 s0 w1 s1 Hl Hc0; simpl in Hl.
    - inversion Hl; subst. split; [exact Hc0|]. split; [intros y []|apply walk_post_refl].
    - bind_inv Hl. destruct x0 as [wm sm].
      destruct (IH y w0 s0 wm sm Hx Hc0) as (Hcm & Hym & Hpm).
      destruct (IHl wm sm w1 s1 Hl Hcm) as (Hc1 & Hall & Hp1).
      split; [exact Hc1|]. split.
      + intros z [<-|Hz]; [|exact (Hall z Hz)].
        destruct Hp1 as (Hi & _). apply Hi. exact Hym.
      + eapply walk_post_trans; eassumption. }
  cbn [walk] in H. destruct (mem_nat x w) eqn:Ex.
  - inversion H; subst. split; [exact Hc|]. split; [apply mem_nat_In; exact Ex|].
    apply walk_post_refl.
  - apply mem_nat_false in Ex.
    pose proof (configure_target_siblings W p x s Hc) as Hsib.
    pose proof (configure_target_same_configuration W p x s Hc) as Hc1.
    pose proof (configure_target_analyzed_spec W x s) as Han.
    destruct (source_target W p x) eqn:Ep.
    + destruct (configure_target W x s) as [s1 extra] eqn:Ect. cbn [fst snd] in *.
      destruct (Hlist _ _ _ _ _ H Hc1) as (Hc' & Hall & (Hw & Ha & He & Hf)).
      split; [exact Hc'|].
      assert (Hxw : In x w') by (apply Hw; apply in_app_iff; right; left; reflexivity).
      split; [exact Hxw|].
      split; [intros y Hy; apply Hw; apply in_app_iff; auto|].
      split; [intros y Hy; apply Ha; apply Han; auto|].
      split.
      * intros y Hy. destruct (He y Hy) as [H1|(H1 & Hn)].
        -- apply Han in H1. destruct H1 as [->|H1]; auto.
        -- right. split; [exact H1|]. intros H0. apply Hn. apply in_app_iff. auto.
      * intros y Hy Hn. destruct (Nat.eq_dec y x) as [->|Hne].
        -- split; [intros d Hd; apply Hall; apply in_app_iff; auto|].
           intros _. split; [apply Ha; apply Han; auto|].
           destruct (mem_nat x (analyzed s)) eqn:Em.
           ++ left. apply mem_nat_In. exact Em.
           ++ right. intros c Hcs. apply Hall. apply in_app_iff. right.
              rewrite Hsib. exact Hcs.
        -- assert (Hn1 : ~ In y (w ++ [x])).
           { intros H0. apply in_app_iff in H0. destruct H0 as [H0|[H0|[]]]; auto. }
           destruct (Hf y Hy Hn1) as (Hd & Hp). split; [exact Hd|].
           intros Hpy. destruct (Hp Hpy) as (Hin & Hs). split; [exact Hin|].
           destruct Hs as [Hs|Hs]; [|auto].
           apply Han in Hs. destruct Hs as [->|Hs]; [contradiction|auto].
    + destruct (Hlist _ _ _ _ _ H Hc) as (Hc' & Hall & (Hw & Ha & He & Hf)).
      split; [exact Hc'|].
      assert (Hxw : In x w') by (apply Hw; apply in_app_iff; right; left; reflexivity).
      split; [exact Hxw|].
      split; [intros y Hy; apply Hw; apply in_app_iff; auto|].
      split; [exact Ha|].
      split.
      * intros y Hy. destruct (He y Hy) as [H1|(H1 & Hn)]; [auto|].
        right. split; [exact H1|]. intros H0. apply Hn. apply in_app_iff. auto.
      * intros y Hy Hn. destruct (Nat.eq_dec y x) as [->|Hne].
        -- split; [intros d Hd; apply Hall; rewrite app_nil_r; exact Hd|].
           intros Hpx. congruence.
        -- assert (Hn1 : ~ In y (w ++ [x])).
           { intros H0. apply in_app_iff in H0. destruct H0 as [H0|[H0|[]]]; auto. }
           exact (Hf y Hy Hn1).
Qed.

(** Every target a walk of the analysis visits is one the run comes to. *)
Lemma walk_visits_reached W p :
  forall fuel x w s w' s',
    walk fuel (deps_of W) (configure_target W) (source_target W p) x (w, s)
    = Returns (w', s') ->
    same_configuration p (self s) ->
    reached W p x -> (forall y, In y w -> reached W p y) ->
    forall y, In y w' -> reached W p y.
Proof.
  induction fuel as [|fuel IH]; intros x w s w' s' H Hc Hx Hw; [discriminate|].
  assert (Hlist : forall l w0 s0 w1 s1,
             for_each (walk fuel (deps_of W) (configure_target W) (source_target W p))
                      l (w0, s0) = Returns (w1, s1) ->
             same_configuration p (self s0) ->
             (forall y, In y l -> reached W p y) ->
             (forall y, In y w0 -> reached W p y) ->
             forall y, In y w1 -> reached W p y).
  { induction l as [|z l IHl]; intros w0 s0 w1 s1 Hl Hc0 Hreach Hw0; simpl in Hl.
    - inversion Hl; subst. exact Hw0.
    - bind_inv Hl. destruct x0 as [wm sm].
      destruct (walk_closure W p fuel z w0 s0 wm sm Hx0 Hc0) as (Hcm & _).
      apply (IHl wm sm w1 s1 Hl Hcm).
      + intros y Hy. apply Hreach. right. exact Hy.
      + apply (IH z w0 s0 wm sm Hx0 Hc0); [apply Hreach; left; reflexivity|exact Hw0]. }
  cbn [walk] in H. destruct (mem_nat x w) eqn:Ex.
  - inversion H; subst. exact Hw.
  - assert (Hw1 : forall y, In y (w ++ [x]) -> reached W p y).
    { intros y Hy. apply in_app_iff in Hy. destruct Hy as [Hy|[<-|[]]]; auto. }
    pose proof (configure_target_siblings W p x s Hc) as Hsib.
    pose proof (configure_target_same_configuration W p x s Hc) as Hc1.
    destruct (source_target W p x) eqn:Ep.
    + destruct (configure_target W x s) as [s1 extra] eqn:Ect. cbn [fst snd] in *.
      apply (Hlist _ _ _ _ _ H Hc1); [|exact Hw1].
      intros y Hy. apply in_app_iff in Hy. destruct Hy as [Hy|Hy].
      * exact (reached_dependency W p x y Hx Hy).
      * rewrite Hsib in Hy. destruct (mem_nat x (analyzed s)); [contradiction|].
        exact (reached_sibling W p x y Hx Ep Hy).
    + apply (Hlist _ _ _ _ _ H Hc); [|exact Hw1].
      intros y Hy. rewrite app_nil_r in Hy. exact (reached_dependency W p x y Hx Hy).
Qed.

(** The analysis of the targets of the project: what is analyzed in the
    end, and a set of visited targets that is closed under dependencies and
    under the siblings of analyzed targets. *)
Lemma walk_all_closure W p fuel :
  forall roots s s' seen0,
    walk_all fuel (deps_of W) (configure_target W) (source_target W p) roots s
    = Returns s' ->
    same_configuration p (self s) ->
    (forall y, In y roots -> reached W p y) ->
    (forall y, In y (analyzed s) -> reached W p y /\ source_target W p y = true) ->
    (forall y, In y seen0 ->
       (forall d, In d (deps_of W y) -> In d seen0)
       /\ (source_target W p y = true -> In y (analyzed s))) ->
    (forall y c, In y (analyzed s) -> In c (siblings W p y) -> In c seen0) ->
    same_configuration p (self s')
    /\ (forall y, In y (analyzed s') -> reached W p y /\ source_target W p y = true)
    /\ exists seen,
         incl seen0 seen /\ incl roots seen
         /\ (forall y, In y seen ->
               (forall d, In d (deps_of W y) -> In d seen)
               /\ (source_target W p y = true -> In y (analyzed s')))
         /\ (forall y c, In y (analyzed s') -> In c (siblings W p y) -> In c seen).
Proof.
  unfold walk_all.
  induction roots as [|x roots IH]; intros s s' seen0 H Hc Hroots Han Hseen Hsib;
    simpl in H.
  - inversion H; subst. split; [exact Hc|]. split; [exact Han|].
    exists seen0. split; [apply incl_refl|]. split; [intros y []|]. auto.
  - bind_inv H. bind_inv Hx. destruct x1 as [w1 s1]. inversion Hx; subst x0. clear Hx.
    cbn [snd] in H.
    destruct (walk_closure W p fuel x [] s w1 s1 Hx0 Hc) as (Hc1 & Hxw & (Hw & Ha & He & Hf)).
    assert (Hvis : forall y, In y w1 -> reached W p y).
    { apply (walk_visits_reached W p fuel x [] s w1 s1 Hx0 Hc);
        [apply Hroots; left; reflexivity|intros y []]. }
    assert (Han1 : forall y, In y (analyzed s1) ->
                             reached W p y /\ source_target W p y = true).
    { intros y Hy. destruct (He y Hy) as [H0|(H1 & _)]; [exact (Han y H0)|].
      split; [exact (Hvis y H1)|].
      apply (walk_inv_pred
               (fun fr => forall a, In a (analyzed fr) -> source_target W p a = true)
               (deps_of W) (configure_target W) (source_target W p)) with
        (fuel := fuel) (t := x) (ws := ([], s)) (ws' := (w1, s1)); auto.
      - intros a fr0 Hp Hall z Hz. apply configure_target_analyzed in Hz.
        destruct Hz as [->|Hz]; auto.
      - intros a Ha0. exact (proj2 (Han a Ha0)). }
    destruct (IH s1 s' (seen0 ++ w1) H Hc1) as (Hc' & Han' & (seen & Hi & Hr & Hcl & Hsb)).
    + intros y Hy. apply Hroots. right. exact Hy.
    + exact Han1.
    + intros y Hy. apply in_app_iff in Hy. destruct Hy as [Hy|Hy].
      * destruct (Hseen y Hy) as (Hd & Hp). split.
        -- intros d Hin. apply in_app_iff. left. exact (Hd d Hin).
        -- intros Hpy. apply Ha. exact (Hp Hpy).
      * destruct (Hf y Hy (fun F => F)) as (Hd & Hp). split.
        -- intros d Hin. apply in_app_iff. right. exact (Hd d Hin).
        -- intros Hpy. exact (proj1 (Hp Hpy)).
    + intros y c Hy Hcs. apply in_app_iff.
      destruct (in_dec Nat.eq_dec y (analyzed s)) as [H0|H0].
      * left. exact (Hsib y c H0 Hcs).
      * right. destruct (He y Hy) as [H1|(H1 & _)]; [contradiction|].
        destruct (Hf y H1 (fun F => F)) as (_ & Hp).
        destruct (Hp (proj2 (Han1 y Hy))) as (_ & [H2|H2]); [contradiction|].
        exact (H2 c Hcs).
    + split; [exact Hc'|]. split; [exact Han'|].
      exists seen. split; [|split; [|split]].
      * intros y Hy. apply Hi. apply in_app_iff. left. exact Hy.
      * intros y [<-|Hy]; [|exact (Hr y Hy)].
        apply Hi. apply in_app_iff. right. exact Hxw.
      * exact Hcl.
      * exact Hsb.
Qed.

Lemma reached_in_closed_set W p (seen analyzed_targets : list nat) :
  incl (targets p) seen ->
  (forall y, In y seen ->
     (forall d, In d (deps_of W y) -> In d seen)
     /\ (source_target W p y = true -> In y analyzed_targets)) ->
  (forall y c, In y analyzed_targets -> In c (siblings W p y) -> In c seen) ->
  forall a, reached W p a -> In a seen.
Proof.
  intros Hroots Hcl Hsb a Hr. induction Hr as [a Ha|a d _ IH Hd|a c _ IH Hp Hc].
  - exact (Hroots a Ha).
  - exact (proj1 (Hcl a IH) d Hd).
  - exact (Hsb a c (proj2 (Hcl a IH) Hp) Hc).
Qed.

(** The analyzed targets of a returning run are the source targets the run
    comes to. *)
Lemma analysis_exact W fuel p tb fr :
  walk_all fuel (deps_of W) (configure_target W) (source_target W p) (targets p)
           (initial_frame p tb) = Returns fr ->
  forall a, In a (analyzed fr) <-> reached W p a /\ source_target W p a = true.
Proof.
  intros Hw.
  destruct (walk_all_closure W p fuel (targets p) (initial_frame p tb) fr [] Hw)
    as (_ & Hsound & (seen & _ & Hroots & Hcl & Hsb)).
  - apply same_configuration_refl.
  - intros y Hy. exact (reached_root W p y Hy).
  - intros y [].
  - intros y [].
  - intros y c [].
  - intros a. split; [exact (Hsound a)|].
    intros (Hr & Hp).
    exact (proj2 (Hcl a (reached_in_closed_set W p seen (analyzed fr) Hroots Hcl Hsb a Hr))
             Hp).
Qed.

(** The second walk gathers targets that the targets of the project depend
    on. *)
Lemma second_walk_depended_on W p q fuel :
  forall x w s w' s',
    walk fuel (deps_of W) (fun target tgts => (oset_add target tgts, []))
         (source_target W q) x (w, s) = Returns (w', s') ->
    depended_on W p x -> (forall y, In y s -> depended_on W p y) ->
    forall y, In y s' -> depended_on W p y.
Proof.
  induction fuel as [|fuel IH]; intros x w s w' s' H Hx Hs; [discriminate|].
  cbn [walk] in H. destruct (mem_nat x w); [inversion H; subst; exact Hs|].
  assert (Hs1 : forall y, In y (oset_add x s) -> depended_on W p y).
  { intros y Hy. apply oset_add_In in Hy. destruct Hy as [->|Hy]; auto. }
  assert (Hgo : forall s1,
             (forall y, In y s1 -> depended_on W p y) ->
             for_each (walk fuel (deps_of W)
                         (fun target tgts => (oset_add target tgts, []))
                         (source_target W q))
                      (deps_of W x ++ []) (w ++ [x], s1) = Returns (w', s') ->
             forall y, In y s' -> depended_on W p y).
  { intros s1 Hs1' Hf.
    refine (for_each_inv (fun ws : list nat * list nat =>
                            forall y, In y (snd ws) -> depended_on W p y)
              _ _ _ (w ++ [x], s1) (w', s') Hf Hs1').
    intros d [w0 s0] [w2 s2] Hd Hwalk H0. cbn [snd] in *.
    apply (IH d w0 s0 w2 s2 Hwalk); [|exact H0].
    rewrite app_nil_r in Hd. exact (depended_dependency W p x d Hx Hd). }
  destruct (source_target W q x); cbn [fst snd] in H.
  - exact (Hgo _ Hs1 H).
  - exact (Hgo _ Hs H).
Qed.

Lemma depended_on_reached W p a : depended_on W p a -> reached W p a.
Proof.
  induction 1 as [a Ha|a d _ IH Hd].
  - exact (reached_root W p a Ha).
  - exact (reached_dependency W p a d IH Hd).
Qed.

(** X23.  The targets [configure_jvm] analyzes are exactly the source
    targets the run comes to from the targets of the project, through
    dependencies, also those of targets that are no source targets, and
    through the siblings of source targets. *)
Theorem analyzed_iff_reached W fuel p tb es et r a :
  configure_jvm W fuel p tb es et = Returns r ->
  (In a (r_analyzed r) <-> reached W p a /\ source_target W p a = true).
Proof.
  intros H.
  destruct (configure_jvm_phases W fuel p tb es et r H)
    as (fr & unex & srcs & tops & tgts & Hw & _ & _ & _ & _ & _ & _ & _ & _ & Ean & _).
  rewrite Ean. exact (analysis_exact W fuel p tb fr Hw a).
Qed.

(** X24.  The targets [configure_jvm] returns are, as a set, the targets
    it has analyzed: the second walk over the dependencies finds no source
    target that the analysis has not seen. *)
Theorem returned_targets_are_the_analyzed W fuel p tb es et r a :
  configure_jvm W fuel p tb es et = Returns r ->
  (In a (r_targets r) <-> In a (r_analyzed r)).
Proof.
  intros H. pose proof H as H0. unfold configure_jvm in H0.
  apply bind_Returns in H0. destruct H0 as (fr & Hx & H0).
  apply bind_Returns in H0. destruct H0 as (unex & _ & H0).
  apply bind_Returns in H0. destruct H0 as (srcs & _ & H0).
  apply bind_Returns in H0. destruct H0 as (tops & _ & H0).
  apply bind_Returns in H0. destruct H0 as (tgts & Hx2 & H0).
  destruct (extend_extra W false es _) as [srcs1 tb1].
  destruct (extend_extra W true et _) as [srcs2 tb2].
  inversion H0; subst r. cbn [r_targets r_analyzed]. clear H0.
  pose proof (analysis_exact W fuel p tb fr Hx) as Hex.
  assert (Hc : same_configuration p (self fr)).
  { refine (walk_all_inv (fun fr => same_configuration p (self fr)) _ _ _ _ _ _ _ _ Hx _).
    - intros a0 s. apply configure_target_same_configuration.
    - apply same_configuration_refl. }
  assert (Htg : forall y, In y tgts -> In y (analyzed fr)).
  { intros y Hy. apply Hex. split.
    - apply depended_on_reached.
      revert y Hy. unfold walk_all in Hx2.
      refine (for_each_inv (fun s : list nat => forall y, In y s -> depended_on W p y)
                _ _ _ [] tgts Hx2 _); [|intros y []].
      intros t s s' Ht Hb Hs. apply bind_Returns in Hb.
      destruct Hb as ([w' s1] & Hwalk & Hb). inversion Hb; subst s'.
      cbn [snd]. apply (second_walk_depended_on W p (self fr) fuel t [] s w' s1 Hwalk).
      + apply depended_root. destruct Hc as (_ & Et & _). rewrite <- Et. exact Ht.
      + exact Hs.
    - destruct (second_walk_spec W fuel (self fr) _ _ Hx2) as (_ & Hall).
      rewrite <- (source_target_config W p (self fr) y Hc). exact (Hall y Hy). }
  destruct (oset_update_spec
              (filter (fun a => negb (mem_nat a tgts)) (analyzed fr)) tgts) as (_ & Hin).
  rewrite Hin, filter_In. split.
  - intros [Hy|(Hy & _)]; [exact (Htg a Hy)|exact Hy].
  - intros Hy. destruct (mem_nat a tgts) eqn:E.
    + left. apply mem_nat_In. exact E.
    + right. split; [exact Hy|reflexivity].
Qed.

Lemma analyzed_iff_reached_witness :
  exists r,
    configure_jvm sibling_world 8 (example_project [0]) [] [] [] = Returns r
    /\ r_analyzed r = [0; 2]
    /\ (In 2 (r_analyzed r)
        <-> reached sibling_world (example_project [0]) 2
            /\ source_target sibling_world (example_project [0]) 2 = true).
Proof.
  eexists. split; [vm_compute; reflexivity|]. split; [reflexivity|].
  apply (analyzed_iff_reached sibling_world 8 (example_project [0]) [] [] []).
  vm_compute. reflexivity.
Defined.

Lemma returned_targets_are_the_analyzed_witness :
  exists r,
    configure_jvm sibling_world 8 (example_project [0]) [] [] [] = Returns r
    /\ r_targets r = [0; 2]
    /\ (In 2 (r_targets r) <-> In 2 (r_analyzed r)).
Proof.
  eexists. split; [vm_compute; reflexivity|]. split; [reflexivity|].
  apply (returned_targets_are_the_analyzed sibling_world 8 (example_project [0]) [] [] []).
  vm_compute. reflexivity.
Defined.

(** ** Termination of the resolver *)

Lemma unvisited_incl N w w' : incl w w' -> unvisited N w' <= unvisited N w.
Proof.
  intros Hi. unfold unvisited. induction (seq 0 N) as [|y l IH]; simpl; [lia|].
  destruct (mem_nat y w) eqn:E.
  - apply mem_nat_In in E. apply Hi in E. apply mem_nat_In in E. rewrite E. simpl. exact IH.
  - destruct (mem_nat y w'); simpl; lia.
Qed.

Lemma unvisited_visit N w x :
  x < N -> ~ In x w -> unvisited N (w ++ [x]) < unvisited N w.
Proof.
  intros Hx Hn. unfold unvisited.
  assert (Hin : In x (seq 0 N)) by (apply in_seq; lia).
  induction (seq 0 N) as [|y l IH]; [contradiction|].
  assert (Hle : List.length (filter (fun y => negb (mem_nat y (w ++ [x]))) l)
                <= List.length (filter (fun y => negb (mem_nat y w)) l)).
  { clear. induction l as [|z l IH]; simpl; [lia|].
    destruct (mem_nat z w) eqn:E.
    - assert (E' : mem_nat z (w ++ [x]) = true).
      { apply mem_nat_In. apply in_app_iff. left. apply mem_nat_In. exact E. }
      rewrite E'. simpl. exact IH.
    - destruct (mem_nat z (w ++ [x])); simpl; lia. }
  simpl. destruct (Nat.eq_dec y x) as [->|Hne].
  - assert (E1 : mem_nat x (w ++ [x]) = true).
    { apply mem_nat_In. apply in_app_iff. right. left. reflexivity. }
    assert (E2 : mem_nat x w = false) by (apply mem_nat_false; exact Hn).
    rewrite E1, E2. simpl. lia.
  - destruct Hin as [Hin|Hin]; [contradiction|]. specialize (IH Hin).
    destruct (mem_nat y w) eqn:E.
    + assert (E' : mem_nat y (w ++ [x]) = true).
      { apply mem_nat_In. apply in_app_iff. left. apply mem_nat_In. exact E. }
      rewrite E'. simpl. exact IH.
    + assert (E' : mem_nat y (w ++ [x]) = false).
      { apply mem_nat_false. intros H. apply in_app_iff in H.
        destruct H as [H|[H|[]]]; [|congruence].
        apply mem_nat_false in E. contradiction. }
      rewrite E'. simpl. lia.
Qed.

(** A walk over targets below [N] returns when its fuel exceeds the number
    of targets not visited yet. *)
Lemma walk_total {S : Type} (N : nat) deps (work : nat -> S -> S * list nat) pred :
  (forall a d, In d (deps a) -> d < N) ->
  (forall a s c, In c (snd (work a s)) -> c < N) ->
  forall fuel x w s,
    x < N -> unvisited N w < fuel ->
    exists w' s', walk fuel deps work pred x (w, s) = Returns (w', s') /\ incl w w'.
Proof.
  intros Hdeps Hwork. induction fuel as [|fuel IH]; intros x w s Hx Hf; [lia|].
  assert (Hlist : forall l w0 s0,
             (forall y, In y l -> y < N) -> unvisited N w0 < fuel ->
             exists w1 s1,
               for_each (walk fuel deps work pred) l (w0, s0) = Returns (w1, s1)
               /\ incl w0 w1).
  { induction l as [|y l IHl]; intros w0 s0 Hl Hf0; simpl.
    - exists w0, s0. split; [reflexivity|apply incl_refl].
    - destruct (IH y w0 s0 (Hl y (or_introl eq_refl)) Hf0) as (wm & sm & Em & Him).
      rewrite Em. cbn [bind].
      destruct (IHl wm sm) as (w1 & s1 & E1 & Hi1).
      + intros z Hz. apply Hl. right. exact Hz.
      + pose proof (unvisited_incl N w0 wm Him). lia.
      + exists w1, s1. split; [exact E1|]. eapply incl_tran; eassumption. }
  cbn [walk]. destruct (mem_nat x w) eqn:Ex.
  - exists w, s. split; [reflexivity|apply incl_refl].
  - apply mem_nat_false in Ex.
    pose proof (unvisited_visit N w x Hx Ex) as Hlt.
    destruct (if pred x then work x s else (s, [])) as [s1 extra] eqn:Ew.
    destruct (Hlist (deps x ++ extra) (w ++ [x]) s1) as (w1 & s1' & E1 & Hi1).
    + intros y Hy. apply in_app_iff in Hy. destruct Hy as [Hy|Hy]; [exact (Hdeps x y Hy)|].
      destruct (pred x).
      * apply (Hwork x s y). rewrite Ew. exact Hy.
      * inversion Ew; subst. contradiction.
    + lia.
    + exists w1, s1'. split; [exact E1|].
      intros y Hy. apply Hi1. apply in_app_iff. left. exact Hy.
Qed.

Lemma unvisited_le N w : unvisited N w <= N.
Proof.
  unfold unvisited.
  pose proof (filter_length_le (fun y => negb (mem_nat y w)) (seq 0 N)) as H.
  rewrite length_seq in H. exact H.
Qed.

Lemma walk_all_total {S : Type} (N : nat) deps (work : nat -> S -> S * list nat) pred :
  (forall a d, In d (deps a) -> d < N) ->
  (forall a s c, In c (snd (work a s)) -> c < N) ->
  forall fuel roots s,
    (forall a, In a roots -> a < N) -> N < fuel ->
    exists s', walk_all fuel deps work pred roots s = Returns s'.
Proof.
  intros Hdeps Hwork fuel roots. unfold walk_all.
  induction roots as [|x roots IH]; intros s Hr Hf; simpl; [eauto|].
  destruct (walk_total N deps work pred Hdeps Hwork fuel x [] s) as (w' & s' & E & _).
  - apply Hr. left. reflexivity.
  - pose proof (unvisited_le N []). lia.
  - rewrite E. cbn [bind snd]. apply IH; [|exact Hf].
    intros a Ha. apply Hr. right. exact Ha.
Qed.

Lemma map_outcome_total {A B : Type} (f : A -> outcome B) (l : list A) :
  (forall x, In x l -> exists y, f x = Returns y) ->
  exists ys, map_outcome f l = Returns ys.
Proof.
  induction l as [|x l IH]; intros H; simpl; [eauto|].
  destruct (H x (or_introl eq_refl)) as (y & ->).
  destruct IH as (ys & ->); [intros z Hz; apply H; right; exact Hz|].
  simpl. eauto.
Qed.

Lemma relpaths_returns W children start :
  (forall child, In child children -> child <> "") ->
  exists rs, relpaths W children start = Returns rs.
Proof.
  induction children as [|c children IH]; intros H; simpl; [eauto|].
  destruct IH as (rs & Ers); [intros z Hz; apply H; right; exact Hz|].
  unfold PosixPath.relpath.
  destruct (String.eqb_spec c "") as [E|_]; [exfalso; exact (H c (or_introl eq_refl) E)|].
  rewrite Ers.
  match goal with
  | |- context [match ?X with [] => _ | _ => _ end] => destruct X
  end; simpl; eauto.
Qed.

Lemma excluded_children_nonempty W tg unex top child :
  In child (excluded_children W tg unex top) -> child <> "".
Proof.
  intros Hc. apply excluded_children_In in Hc. destruct Hc as (Hc & _).
  apply walked_paths_In in Hc.
  destruct Hc as (Ht & n & rd & d & _ & Hrd & _ & ->).
  apply join_not_empty. exact (os_walk_dir_roots n top rd Ht Hrd).
Qed.

Lemma configure_target_siblings_below W N a fr c :
  (forall a c, In c (candidates W a) -> c < N) ->
  In c (snd (configure_target W a fr)) -> c < N.
Proof.
  intros Hcand. unfold configure_target.
  destruct (mem_nat a (analyzed fr)); cbn [snd]; [intros []|].
  intros H. apply filter_In in H. destruct H as (H & _).
  apply filter_In in H. destruct H as (H & _). exact (Hcand a c H).
Qed.

(** The ancestor loops of all source sets return when the fuel exceeds the
    length of every owned path, all of which lie below the root. *)
Lemma unexcludable_of_total fuel root srcs :
  root <> "" -> endswith_sep root = false ->
  (forall ss, In ss srcs ->
     exists rest, owned_path root ss = Returns (root +:+ "/" +:+ rest)
                  /\ String.length (root +:+ "/" +:+ rest) < fuel) ->
  exists unex, unexcludable_of fuel root srcs = Returns unex.
Proof.
  intros Hr He. unfold unexcludable_of. generalize (@nil string).
  induction srcs as [|ss srcs IH]; intros acc H; simpl; [eauto|].
  destruct (H ss (or_introl eq_refl)) as (rest & Ho & Hlen).
  rewrite Ho. cbn [bind].
  destruct (loop_returns_below_root root Hr He rest fuel acc Hlen) as (acc' & ->).
  cbn [bind]. apply IH. intros s Hs. apply H. right. exact Hs.
Qed.

(** X25.  On a project that starts without source sets, with normalized
    root and target paths, over a finite graph of targets, [configure_jvm]
    returns: every run whose fuel exceeds the number of targets and the
    length of every directory path of a target comes to a result. *)
Theorem configure_jvm_returns W fuel p tb es et N :
  sources p = [] ->
  wf_root (root_dir p) = true ->
  (forall a, wf_target (Target_get W a) = true) ->
  targets_below W p N ->
  N < fuel ->
  (forall a base path t,
      contributes W a base path t ->
      String.length (PosixPath.join (PosixPath.join (root_dir p) base) path) < fuel) ->
  exists r, configure_jvm W fuel p tb es et = Returns r.
Proof.
  intros Hs Hroot Hwf (Hroots & Hdeps & Hcand) Hfuel Hlen.
  destruct (walk_all_total N (fun a => t_dependencies (Target_get W a))
              (configure_target W) (source_target W p)
              (fun a d H => Hdeps a d H)
              (fun a s c H => configure_target_siblings_below W N a s c Hcand H)
              fuel (targets p)
              {| self := p; TEST_BASES := tb; analyzed := []; targeted := [] |}
              Hroots Hfuel) as (fr & Hw).
  destruct (walk_phase_resolver_inv W fuel p tb fr Hs Hw) as (Hinv & _).
  pose proof (source_set_shapes W fuel p tb fr Hs Hroot Hwf Hw) as Hshape.
  destruct Hinv as ((Er & Et & _) & _ & _ & Hprov & _).
  destruct (wf_root_canon _ Hroot) as (Ec & Hrc & Hnrc).
  destruct (canon_ends_with_name "" _ Hrc Hnrc) as (Hrne & Hrns).
  simpl in Hrne, Hrns. rewrite <- Ec in Hrne, Hrns.
  assert (Hown : forall ss, In ss (sources (self fr)) ->
            exists rest, owned_path (root_dir p) ss = Returns (root_dir p +:+ "/" +:+ rest)
                         /\ String.length (root_dir p +:+ "/" +:+ rest) < fuel).
  { intros ss Hss.
    destruct (Hshape ss Hss) as (bc & pc & Eb & Ep & Hnb & Hnp & _ & _ & Hop & Hos).
    destruct (Hprov ss Hss) as (a & path & _ & Ep' & Hcon & _).
    pose proof (Hlen a _ _ _ Hcon) as Hl.
    assert (Eo : PosixPath.join (PosixPath.join (root_dir p) (ss_source_base ss)) path
                 = root_dir p +:+ canon (bc ++ pc) +:+ slash_if_nil pc).
    { unfold owned_string in Hos. rewrite Ep' in Hos. exact Hos. }
    rewrite Eo in Hl.
    assert (Erest : exists rest, root_dir p +:+ canon (bc ++ pc) +:+ slash_if_nil pc
                                 = root_dir p +:+ "/" +:+ rest).
    { destruct (bc ++ pc) as [|c l] eqn:El.
      - apply app_eq_nil in El. destruct El as (_ & ->). exists "". reflexivity.
      - exists (c +:+ canon l +:+ slash_if_nil pc). simpl.
        rewrite !str_app_assoc. reflexivity. }
    destruct Erest as (rest & Erest). exists rest. rewrite Hop, <- Erest. auto. }
  destruct (unexcludable_of_total fuel (root_dir p) (sources (self fr)) Hrne Hrns Hown)
    as (unex & Hu).
  assert (Hpath : forall ss, In ss (sources (self fr)) ->
                             exists top, owned_path (root_dir p) ss = Returns top).
  { intros ss Hss. destruct (Hown ss Hss) as (rest & Ho & _). eauto. }
  destruct (map_outcome_total
              (compute_excludes W (root_dir p) (targeted fr) unex) (sources (self fr)))
    as (srcs & Hx).
  { intros ss Hss. unfold compute_excludes. destruct (Hpath ss Hss) as (top & ->).
    cbn [bind].
    destruct (relpaths_returns W (excluded_children W (targeted fr) unex top)
                (PosixPath.join (root_dir p) (ss_source_base ss))) as (rs & ->).
    - intros child. apply excluded_children_nonempty.
    - cbn [bind]. eauto. }
  destruct (map_outcome_total (owned_path (root_dir p)) (sources (self fr)) Hpath)
    as (tops & Htops).
  destruct (walk_all_total N (fun a => t_dependencies (Target_get W a))
              (fun target tgts => (oset_add target tgts, @nil nat))
              (source_target W (self fr))
              (fun a d H => Hdeps a d H)
              (fun a s c (H : In c []) => match H with end)
              fuel (targets p) [] Hroots Hfuel) as (tgts & Htgts).
  unfold configure_jvm. rewrite Hw. cbn [bind]. rewrite Er, Et, Hu. cbn [bind].
  rewrite Hx. cbn [bind]. rewrite Htops. cbn [bind]. rewrite Htgts. cbn [bind].
  destruct (extend_extra W false es _) as [srcs1 tb1].
  destruct (extend_extra W true et _) as [srcs2 tb2]. eauto.
Qed.

Lemma example_targets_below : targets_below example_world (example_project [0; 1]) 2.
Proof.
  split; [|split].
  - intros a Ha. vm_compute in Ha. destruct Ha as [<-|[<-|[]]]; lia.
  - intros [|[|a]] d []. 
  - intros a c [].
Qed.

Lemma example_paths_short :
  forall a base path t,
    contributes example_world a base path t ->
    String.length
      (PosixPath.join (PosixPath.join (root_dir (example_project [0; 1])) base) path) < 30.
Proof.
  intros a base path t [(Hne & -> & Hp & _)|(Hr & _)].
  - destruct a as [|[|a]]; simpl in Hp.
    + destruct Hp as [<-|[]]. vm_compute. lia.
    + destruct Hp as [<-|[]]. vm_compute. lia.
    + contradiction.
  - destruct a as [|[|a]]; discriminate.
Qed.

Lemma configure_jvm_returns_witness :
  exists r, configure_jvm example_world 30 (example_project [0; 1]) [] [] [] = Returns r.
Proof.
  apply (configure_jvm_returns example_world 30 (example_project [0; 1]) [] [] [] 2
           eq_refl eq_refl example_wf_targets example_targets_below).
  - lia.
  - exact example_paths_short.
Defined.

(** ** The two stagings side by side *)

Lemma prefix_app_inv (x a f : string) :
  String.prefix (x +:+ a) f = true ->
  exists f', f = x +:+ f' /\ String.prefix a f' = true.
Proof.
  revert f. induction x as [|c x IH]; intros f H; simpl in *.
  - exists f. auto.
  - destruct f as [|c' f]; simpl in H; [discriminate|].
    destruct (ascii_dec c c') as [<-|Hne]; [|discriminate].
    destruct (IH f H) as (f' & -> & Hp). exists f'. auto.
Qed.

(** Two staging directories whose names start differently have no file in
    common. *)
Lemma under_disjoint (work_dir : string) (c1 c2 : ascii) (r1 r2 f : string) :
  is_sep c1 = false -> is_sep c2 = false -> c1 <> c2 ->
  Staging.under (PosixPath.join work_dir (String c1 r1)) f = true ->
  Staging.under (PosixPath.join work_dir (String c2 r2)) f = false.
Proof.
  intros H1 H2 Hne Hu. unfold Staging.under in *.
  destruct (String.prefix (PosixPath.join work_dir (String c2 r2) +:+ "/") f) eqn:Hu2;
    [exfalso|reflexivity].
  unfold PosixPath.join in Hu, Hu2. simpl startswith_sep in Hu, Hu2.
  rewrite H1 in Hu. rewrite H2 in Hu2.
  assert (Hgo : forall base,
             String.prefix ((base +:+ String c1 r1) +:+ "/") f = true ->
             String.prefix ((base +:+ String c2 r2) +:+ "/") f = true -> False).
  { intros base Ha Hb. rewrite str_app_assoc in Ha, Hb.
    apply prefix_app_inv in Ha. destruct Ha as (fa & Ea & Ha).
    apply prefix_app_inv in Hb. destruct Hb as (fb & Eb & Hb).
    rewrite Ea in Eb. apply str_app_inv_head in Eb. subst fb.
    destruct fa as [|c fa]; simpl in Ha, Hb; [discriminate|].
    destruct (ascii_dec c1 c) as [E1|]; [|discriminate].
    destruct (ascii_dec c2 c) as [E2|]; [|discriminate].
    congruence. }
  destruct (String.eqb work_dir "" || endswith_sep work_dir).
  - exact (Hgo work_dir Hu Hu2).
  - apply (Hgo (work_dir +:+ "/")).
    + rewrite (str_app_assoc work_dir "/"). exact Hu.
    + rewrite (str_app_assoc work_dir "/"). exact Hu2.
Qed.

Lemma internal_not_external work_dir f :
  in_internal_staging work_dir f = true -> External.in_staging work_dir f = false.
Proof.
  unfold in_internal_staging, External.in_staging. intros H.
  apply orb_true_iff in H.
  assert (Hi : is_sep "i"%char = false) by reflexivity.
  assert (He : is_sep "e"%char = false) by reflexivity.
  assert (Hne : "i"%char <> "e"%char) by discriminate.
  destruct H as [H|H];
    rewrite (under_disjoint work_dir _ _ _ "xternal-libs" f Hi He Hne H),
            (under_disjoint work_dir _ _ _ "xternal-libsources" f Hi He Hne H),
            (under_disjoint work_dir _ _ _ "xternal-libjavadoc" f Hi He Hne H);
    reflexivity.
Qed.


Lemma is_name_relative (name : string) :
  is_name name = true -> startswith_sep name = false.
Proof.
  intros H. apply is_name_spec in H. destruct H as (_ & H & _).
  destruct name as [|c name]; [reflexivity|]. simpl in *.
  apply orb_false_iff in H. tauto.
Qed.

(** A copy made for a relative file name lies in its staging directory. *)
Lemma under_relative (work_dir name jar : string) :
  is_name name = true -> startswith_sep jar = false ->
  Staging.under (PosixPath.join work_dir name)
    (PosixPath.join (PosixPath.join work_dir name) jar) = true.
Proof.
  intros Hn Hj. destruct (ExternalFacts.staging_dir_shape work_dir name Hn) as (Hd & He).
  rewrite (ExternalFacts.join_relative _ _ Hd He Hj).
  unfold Staging.under. apply ExternalFacts.prefix_app.
Qed.


(** X27.  When the two staging calls of [execute] end without an exception
    and the products give plain file names, the project has one new
    internal entry for every pair of the jar mappings and one new external
    entry for every dependency with a default artifact, and every jar, source
    jar and javadoc jar of these entries is a file at the end: the cleaning
    of the external staging directories takes nothing away from the
    internal ones. *)
Theorem staged_classpath_entries_exist work_dir jp sp tgts entries st :
  plain_jar_names jp sp tgts ->
  fst (map_jars work_dir jp sp tgts entries st) = None ->
  s_internal_jars (snd (map_jars work_dir jp sp tgts entries st))
  = s_internal_jars st ++ entries_of work_dir jp sp tgts
  /\ s_external_jars (snd (map_jars work_dir jp sp tgts entries st))
     = s_external_jars st ++ External.entries_of work_dir entries
  /\ forall e s,
       In e (entries_of work_dir jp sp tgts ++ External.entries_of work_dir entries) ->
       s = Staging.jar e \/ Staging.source_jar e = Some s
       \/ Staging.javadoc_jar e = Some s ->
       In s (s_files (snd (map_jars work_dir jp sp tgts entries st))).
Proof.
  intros Hrel H. unfold map_jars in *.
  set (st0 := {| Staging.files := s_files st;
                 Staging.internal_jars := s_internal_jars st |}) in *.
  pose proof (internal_jars_ok := StagingMore.map_targets_returns).
  destruct (Staging.map_internal_jars work_dir jp sp tgts st0) as [[e|] st1] eqn:E1;
    [discriminate|].
  assert (H1 : fst (Staging.map_internal_jars work_dir jp sp tgts st0) = None)
    by (rewrite E1; reflexivity).
  unfold Staging.map_internal_jars in H1, E1.
  apply internal_jars_ok in H1. rewrite E1 in H1. cbn [snd] in H1.
  destruct H1 as (Hu & Hn1 & He1).
  set (x0 := {| External.files := Staging.files st1;
                External.external_jars := s_external_jars st |}) in *.
  destruct (External.map_external_jars work_dir entries x0) as [e2 st2] eqn:E2.
  cbn [fst snd] in *. subst e2.
  assert (H2 : fst (External.map_external_jars work_dir entries x0) = None)
    by (rewrite E2; reflexivity).
  unfold External.map_external_jars in H2, E2.
  pose proof (ExternalFacts.map_entries_returns work_dir entries _ H2) as Hret.
  match type of E2 with
  | External.map_entries _ _ _ _ ?s = _ =>
      pose proof (ExternalFacts.map_entries_files work_dir entries s) as Hfiles
  end.
  rewrite E2 in Hret, Hfiles. cbn [snd] in Hret, Hfiles.
  destruct Hret as (Hn2 & He2 & _). destruct Hfiles as (Hi2 & _).
  cbn [s_internal_jars s_external_jars s_files External.external_jars
       External.files] in *.
  split; [exact Hn1|]. split; [exact Hn2|].
  intros e s Hin Hs. apply in_app_iff in Hin. destruct Hin as [Hin|Hin];
    [|exact (He2 e Hin s Hs)].
  apply Hi2. apply ExternalFacts.cleaned_three_In.
  destruct (He1 e Hin) as (Hjar & Hsrc).
  assert (Hfile : In s (Staging.files st1)).
  { destruct Hs as [->|[Hs|Hs]]; [exact Hjar|exact (Hsrc s Hs)|].
    unfold entries_of in Hin. apply in_flat_map in Hin.
    destruct Hin as (t & _ & Hin). unfold entries_of_target in Hin.
    apply in_map_iff in Hin. destruct Hin as (bj & <- & _). discriminate. }
  split; [exact Hfile|].
  apply internal_not_external.
  unfold entries_of in Hin. apply in_flat_map in Hin. destruct Hin as (t & Ht & Hin).
  unfold entries_of_target in Hin. apply in_map_iff in Hin.
  destruct Hin as ([b js] & <- & Hbj). cbn [Staging.jar Staging.source_jar
                                            Staging.javadoc_jar snd] in Hs.
  destruct (Hu t Ht) as (Hsingle & Hsingle').
  unfold in_internal_staging. apply orb_true_iff.
  destruct Hs as [->|[Hs|Hs]]; [left|right|discriminate].
  - apply under_relative; [reflexivity|]. apply is_name_relative.
    pose proof (Hsingle b js Hbj) as Hl.
    destruct js as [|j [|j' js]]; simpl in Hl; try discriminate.
    apply (Hrel t b [j] j Ht); [apply in_app_iff; left; exact Hbj|left; reflexivity].
  - assert (Hne : jp t <> []) by (intros E; rewrite E in Hbj; contradiction).
    specialize (Hsingle' Hne). unfold last_source_jar in Hs.
    destruct (sp t) as [|bj0 l0] eqn:Esp; [discriminate|].
    assert (Hlast : In (last (bj0 :: l0) ("", [])) (bj0 :: l0)).
    { destruct (exists_last (l := bj0 :: l0)) as (l' & z & El); [discriminate|].
      rewrite El, last_last. apply in_app_iff. right. left. reflexivity. }
    set (lst := last (bj0 :: l0) ("", [])) in *. clearbody lst.
    inversion Hs; subst s. apply under_relative; [reflexivity|].
    apply is_name_relative. destruct lst as [b' js'].
    pose proof (Hsingle' b' js' Hlast) as Hl.
    destruct js' as [|j [|j' js']]; simpl in Hl; try discriminate.
    apply (Hrel t b' [j] j Ht); [|left; reflexivity].
    apply in_app_iff. right. rewrite Esp. exact Hlast.
Qed.


Lemma staged_classpath_entries_exist_witness :
  s_internal_jars
    (snd (map_jars "/w" two_bases_jars two_bases_source_jars [1]
            External.example_entries example_staged))
  = s_internal_jars example_staged
    ++ entries_of "/w" two_bases_jars two_bases_source_jars [1]
  /\ s_external_jars
       (snd (map_jars "/w" two_bases_jars two_bases_source_jars [1]
               External.example_entries example_staged))
     = s_external_jars example_staged
       ++ External.entries_of "/w" External.example_entries
  /\ forall e s,
       In e (entries_of "/w" two_bases_jars two_bases_source_jars [1]
             ++ External.entries_of "/w" External.example_entries) ->
       s = Staging.jar e \/ Staging.source_jar e = Some s
       \/ Staging.javadoc_jar e = Some s ->
       In s (s_files
               (snd (map_jars "/w" two_bases_jars two_bases_source_jars [1]
                       External.example_entries example_staged))).
Proof.
  apply (staged_classpath_entries_exist "/w" two_bases_jars two_bases_source_jars [1]
           External.example_entries example_staged (proj2 two_bases_plain)).
  vm_compute. reflexivity.
Defined.


(** ** The class-level set and the directories, exactly *)

Lemma walk_phase_TEST_BASES_origin W fuel p tb fr :
  walk_all fuel (deps_of W) (configure_target W) (source_target W p) (targets p)
           (initial_frame p tb) = Returns fr ->
  forall x, In x (TEST_BASES fr) ->
    In x tb \/ exists ss, In ss (sources (self fr)) /\ ss_is_test ss = true
                          /\ ss_source_base ss = x.
Proof.
  intros Hw.
  refine (walk_all_inv
            (fun fr => forall x, In x (TEST_BASES fr) ->
               In x tb \/ exists ss, In ss (sources (self fr)) /\ ss_is_test ss = true
                                     /\ ss_source_base ss = x)
            _ _ _ _ _ _ _ _ Hw _).
  - intros a s.
    apply (configure_target_inv W
             (fun fr => forall x, In x (TEST_BASES fr) ->
                In x tb \/ exists ss, In ss (sources (self fr)) /\ ss_is_test ss = true
                                      /\ ss_source_base ss = x) a).
    + intros base path is_test fr0 _ _ H x Hx. unfold register_source_set in *.
      cbn [TEST_BASES self sources set_sources SourceSet_init fst snd] in *.
      assert (Hold : In x (TEST_BASES fr0) ->
                In x tb \/ exists ss,
                  In ss (sources (self fr0)
                         ++ [{| ss_root_dir := root_dir (self fr0);
                                ss_source_base := base; ss_path := Some path;
                                ss_is_test := is_test; ss_excludes := [] |}])
                  /\ ss_is_test ss = true /\ ss_source_base ss = x).
      { intros H0. destruct (H x H0) as [H1|(ss & Hss & Ht & Eb)]; [auto|].
        right. exists ss. split; [apply in_app_iff; auto|auto]. }
      destruct is_test; [|exact (Hold Hx)].
      apply set_add_In in Hx. destruct Hx as [->|Hx]; [|exact (Hold Hx)].
      right. eexists. split; [apply in_app_iff; right; left; reflexivity|].
      split; reflexivity.
    + intros fr0 b H. exact H.
    + intros fr0 H. exact H.
  - intros x Hx. left. exact Hx.
Qed.

(** X29.  After [configure_jvm], [SourceSet.TEST_BASES] holds what it held
    before and the source bases of the source sets of the result that are
    flagged as tests, and nothing else. *)
Theorem TEST_BASES_exact W fuel p tb es et r x :
  sources p = [] ->
  configure_jvm W fuel p tb es et = Returns r ->
  (In x (r_TEST_BASES r)
   <-> In x tb \/ exists ss, In ss (sources (r_project r)) /\ ss_is_test ss = true
                             /\ ss_source_base ss = x).
Proof.
  intros Hs H.
  destruct (resolver_run W fuel p tb es et r Hs H)
    as (fr & unex & srcs & Hw & Hinv & _ & _ & Hx & Hsrc & _ & Hincl & _).
  destruct Hinv as (_ & _ & _ & Hprov & _).
  assert (Etb : forall y, In y (r_TEST_BASES r) <-> In y (TEST_BASES fr) \/ In y et).
  { pose proof H as H0. unfold configure_jvm in H0.
    apply bind_Returns in H0. destruct H0 as (fr' & Hw' & H0).
    assert (Efr : Returns fr' = Returns fr) by exact (eq_trans (eq_sym Hw') Hw).
    inversion Efr; subst fr'. clear Efr.
    apply bind_Returns in H0. destruct H0 as (unex' & _ & H0).
    apply bind_Returns in H0. destruct H0 as (srcs' & _ & H0).
    apply bind_Returns in H0. destruct H0 as (tops & _ & H0).
    apply bind_Returns in H0. destruct H0 as (tgts & _ & H0).
    pose proof (extend_extra_false_TEST_BASES W es srcs' (TEST_BASES fr)) as T1.
    destruct (extend_extra W false es (srcs', TEST_BASES fr)) as [srcs1 tb1].
    pose proof (extend_extra_true_TEST_BASES W et srcs1 tb1) as T2.
    destruct (extend_extra W true et (srcs1, tb1)) as [srcs2 tb2].
    inversion H0; subst r. cbn [r_TEST_BASES snd] in *. subst tb1. exact T2. }
  rewrite Etb, Hsrc. split.
  - intros [Hin|Hin].
    + destruct (walk_phase_TEST_BASES_origin W fuel p tb fr Hw x Hin)
        as [H0|(s0 & Hs0 & Ht & Eb)]; [auto|].
      right. destruct (Forall2_In_l _ _ _ _ Hx Hs0) as (S & HS & Hc).
      apply compute_excludes_spec in Hc. destruct Hc as (top & rs & _ & _ & ->).
      exists (excludes_append s0 rs). split; [apply in_app_iff; auto|auto].
    + right. exists (extra_source_set W true x).
      split; [|split; reflexivity].
      apply in_app_iff. right. apply in_app_iff. right. apply in_map. exact Hin.
  - intros [Hin|(ss & Hss & Ht & Eb)].
    + left. exact (walk_phase_TEST_BASES W fuel p tb fr Hw x Hin).
    + apply in_app_iff in Hss. destruct Hss as [Hss|Hss].
      * left. destruct (Forall2_In_r _ _ _ _ Hx Hss) as (s0 & Hs0 & Hc).
        apply compute_excludes_spec in Hc. destruct Hc as (top & rs & _ & _ & ->).
        destruct (Hprov s0 Hs0) as (a & path & _ & _ & _ & Hbase).
        rewrite <- Eb. exact (Hbase Ht).
      * apply in_app_iff in Hss. destruct Hss as [Hss|Hss];
          apply in_map_iff in Hss; destruct Hss as (y & <- & Hy); simpl in *;
          [discriminate|]. right. subst x. exact Hy.
Qed.

Lemma walk_phase_owned_distinct W fuel p tb fr :
  sources p = [] ->
  walk_all fuel (deps_of W) (configure_target W) (source_target W p) (targets p)
           (initial_frame p tb) = Returns fr ->
  NoDup (map (owned_string (root_dir p)) (sources (self fr))).
Proof.
  intros Hs Hw.
  assert (H : root_dir (self fr) = root_dir p
              /\ (forall ss, In ss (sources (self fr)) ->
                             In (owned_string (root_dir p) ss) (targeted fr))
              /\ NoDup (map (owned_string (root_dir p)) (sources (self fr)))).
  { refine (walk_all_inv
              (fun fr => root_dir (self fr) = root_dir p
                         /\ (forall ss, In ss (sources (self fr)) ->
                                        In (owned_string (root_dir p) ss) (targeted fr))
                         /\ NoDup (map (owned_string (root_dir p)) (sources (self fr))))
              _ _ _ _ _ _ _ _ Hw _).
    - intros a s.
      apply (configure_target_inv W
               (fun fr => root_dir (self fr) = root_dir p
                          /\ (forall ss, In ss (sources (self fr)) ->
                                         In (owned_string (root_dir p) ss) (targeted fr))
                          /\ NoDup (map (owned_string (root_dir p)) (sources (self fr))))
               a).
      + intros base path is_test fr0 _ Hmem (Hr & Hall & Hn).
        apply mem_false in Hmem. rewrite Hr in Hmem.
        unfold register_source_set.
        cbn [self sources set_sources targeted SourceSet_init fst snd root_dir].
        split; [exact Hr|]. rewrite Hr. split.
        * intros ss Hss. apply set_add_In. apply in_app_iff in Hss.
          destruct Hss as [Hss|[<-|[]]]; [right; exact (Hall ss Hss)|].
          left. unfold owned_string. simpl. reflexivity.
        * rewrite map_app. apply NoDup_app; [exact Hn| |].
          -- simpl. constructor; [intros []|constructor].
          -- intros y Hy [E0|[]]. apply in_map_iff in Hy.
             destruct Hy as (ss & E & Hss). apply Hmem.
             assert (E1 : owned_string (root_dir p) ss
                          = PosixPath.join (PosixPath.join (root_dir p) base) path).
             { rewrite E, <- E0. reflexivity. }
             rewrite <- E1. exact (Hall ss Hss).
      + intros fr0 b H. exact H.
      + intros fr0 H. exact H.
    - unfold initial_frame. simpl. rewrite Hs.
      split; [reflexivity|]. split; [intros ss []|constructor]. }
  exact (proj2 (proj2 H)).
Qed.

(** The source sets of the result that have a path are those of the
    targets. *)
Lemma filter_has_path W (srcs : list SourceSet) es et :
  (forall S, In S srcs -> has_path S = true) ->
  filter has_path
    (srcs ++ map (extra_source_set W false) es ++ map (extra_source_set W true) et)
  = srcs.
Proof.
  intros Hall. rewrite !filter_app.
  assert (Hx : forall b l, filter has_path (map (extra_source_set W b) l) = []).
  { intros b l. induction l as [|x l IH]; simpl; [reflexivity|exact IH]. }
  rewrite !Hx, !app_nil_r.
  induction srcs as [|S srcs IH]; simpl; [reflexivity|].
  rewrite (Hall S (or_introl eq_refl)). f_equal. apply IH.
  intros S' HS'. apply Hall. right. exact HS'.
Qed.

(** X30.  No directory path is owned twice: the strings to which root, base
    and path of the source sets of targets in the result join, taken source
    set by source set in the order of the list, hold no string twice, also
    when bases and paths differ. *)
Theorem owned_directories_are_distinct W fuel p tb es et r :
  sources p = [] ->
  configure_jvm W fuel p tb es et = Returns r ->
  NoDup (map (owned_string (root_dir p)) (filter has_path (sources (r_project r)))).
Proof.
  intros Hs H.
  destruct (resolver_run W fuel p tb es et r Hs H)
    as (fr & unex & srcs & Hw & Hinv & _ & _ & Hx & Hsrc & _).
  pose proof (walk_phase_owned_distinct W fuel p tb fr Hs Hw) as Hn.
  assert (Emap : map (owned_string (root_dir p)) srcs
                 = map (owned_string (root_dir p)) (sources (self fr))).
  { clear - Hx. induction Hx as [|s0 S l l' Hc _ IH]; simpl; [reflexivity|].
    apply compute_excludes_spec in Hc. destruct Hc as (top & rs & _ & _ & ->).
    rewrite IH. reflexivity. }
  rewrite Hsrc, filter_has_path, Emap; [exact Hn|].
  intros S HS. destruct (Forall2_In_r _ _ _ _ Hx HS) as (s0 & Hs0 & Hc).
  apply compute_excludes_spec in Hc. destruct Hc as (top & rs & _ & _ & ->).
  destruct Hinv as (_ & _ & _ & Hprov & _).
  destruct (Hprov s0 Hs0) as (a & path & _ & Epath & _).
  unfold has_path. simpl. rewrite Epath. reflexivity.
Qed.

Lemma TEST_BASES_exact_witness :
  In "src/java" ["src/java"]
  <-> In "src/java" []
      \/ exists ss,
           In ss [src_java ["gen"; "gen/out"; "com/foo/bar"];
                  src_java_com_foo ["com/foo/bar"]]
           /\ ss_is_test ss = true /\ ss_source_base ss = "src/java".
Proof.
  exact (TEST_BASES_exact example_world 6 (example_project [0; 1]) [] [] [] _ "src/java"
           eq_refl run_both_targets).
Defined.

Lemma run_shared_directory :
  configure_jvm shared_directory_world 6 (example_project [0; 1]) [] ["src/java/gen"] []
  = Returns
      {| r_targets := [0; 1];
         r_project :=
           set_sources (example_project [0; 1])
             [{| ss_root_dir := "/r"; ss_source_base := "src";
                 ss_path := Some "java/com/foo"; ss_is_test := false;
                 ss_excludes := ["java/com/foo/bar"] |};
              {| ss_root_dir := "/r"; ss_source_base := "src";
                 ss_path := Some "java"; ss_is_test := false;
                 ss_excludes := ["java/gen"; "java/gen/out"; "java/com/foo/bar"] |};
              extra_source_set shared_directory_world false "src/java/gen"];
         r_TEST_BASES := [];
         r_scanned := ["/r/src/java/com/foo"; "/r/src/java"];
         r_analyzed := [0; 1] |}.
Proof.
  vm_compute. reflexivity.
Qed.

Lemma owned_directories_are_distinct_witness :
  NoDup ["/r/src/java/com/foo"; "/r/src/java"].
Proof.
  exact (owned_directories_are_distinct shared_directory_world 6 (example_project [0; 1])
           [] ["src/java/gen"] [] _ eq_refl run_shared_directory).
Defined.

(** ** The ambiguity error of map_internal_jars *)

Module StagingSteps.
Import Staging.

Lemma copy_jars_app dir sdir smappings before rest :
  forall st,
    copy_jars dir sdir smappings (before ++ rest) st
    = match copy_jars dir sdir smappings before st with
      | (Some e, st') => (Some e, st')
      | (None, st') => copy_jars dir sdir smappings rest st'
      end.
Proof.
  induction before as [|[base jars] before IH]; intros st; simpl; [reflexivity|].
  destruct jars as [|jar [|jar' jars]]; try reflexivity.
  destruct (copy (PosixPath.join base jar) (PosixPath.join dir jar) (files st))
    as [fl|]; [|reflexivity].
  destruct (copy_source_jars sdir smappings None fl) as [[e|cp] fl']; [reflexivity|].
  apply IH.
Qed.

Lemma map_targets_app dir sdir jp sp pre rest :
  forall st,
    map_targets dir sdir jp sp (pre ++ rest) st
    = match map_targets dir sdir jp sp pre st with
      | (Some e, st') => (Some e, st')
      | (None, st') => map_targets dir sdir jp sp rest st'
      end.
Proof.
  induction pre as [|t pre IH]; intros st; simpl; [reflexivity|].
  destruct (copy_jars dir sdir (sp t) (jp t) st) as [[e|] st']; [reflexivity|].
  apply IH.
Qed.

(** The copies of a mapping, pair by pair. *)
Lemma copies_of_pairs_In dir sdir smappings mappings f :
  In f (copies_of_pairs dir sdir smappings mappings)
  <-> (exists base jars jar, In (base, jars) mappings /\ In jar jars
                             /\ f = PosixPath.join dir jar)
      \/ (mappings <> []
          /\ exists base jars jar, In (base, jars) smappings /\ In jar jars
                                   /\ f = PosixPath.join sdir jar).
Proof.
  unfold copies_of_pairs. rewrite in_flat_map. split.
  - intros ([base jars] & Hbj & Hin). simpl in Hin. apply in_app_iff in Hin.
    destruct Hin as [Hin|Hin].
    + apply in_map_iff in Hin. destruct Hin as (jar & <- & Hjar).
      left. exists base, jars, jar. auto.
    + apply in_flat_map in Hin. destruct Hin as ([b js] & Hb & Hin). simpl in Hin.
      apply in_map_iff in Hin. destruct Hin as (jar & <- & Hjar).
      right. split; [intros E; rewrite E in Hbj; contradiction|].
      exists b, js, jar. auto.
  - intros [(base & jars & jar & Hbj & Hjar & ->)|(Hne & b & js & jar & Hb & Hjar & ->)].
    + exists (base, jars). split; [exact Hbj|]. simpl. apply in_app_iff. left.
      apply in_map. exact Hjar.
    + destruct mappings as [|bj mappings]; [contradiction|].
      exists bj. split; [left; reflexivity|]. apply in_app_iff. right.
      apply in_flat_map. exists (b, js). split; [exact Hb|]. simpl.
      apply in_map. exact Hjar.
Qed.

(** When the inner loop ends normally the jar of every pair has been
    copied. *)
Lemma copy_source_jars_copies dir mappings :
  forall cp fl cp',
    fst (copy_source_jars dir mappings cp fl) = inr cp' ->
    forall base jars jar,
      In (base, jars) mappings -> In jar jars ->
      In (PosixPath.join dir jar) (snd (copy_source_jars dir mappings cp fl)).
Proof.
  induction mappings as [|[base jars] rest IH]; intros cp fl cp' H b js j Hb Hj;
    simpl in *; [contradiction|].
  destruct jars as [|jar [|jar' jars]]; simpl in H; try discriminate.
  destruct (copy (PosixPath.join base jar) (PosixPath.join dir jar) fl) as [fl'|] eqn:Ec;
    simpl in H; [|discriminate].
  destruct Hb as [E|Hb].
  - inversion E; subst b js. destruct Hj as [<-|[]].
    destruct (StagingMore.copy_source_jars_files dir rest
                (Some (PosixPath.join dir jar)) fl') as (Hi & _).
    apply Hi. apply (StagingMore.copy_In _ _ _ _ _ Ec). auto.
  - exact (IH _ _ _ H b js j Hb Hj).
Qed.

(** When the loop over the jar mapping of a target ends normally every copy
    of its pairs has been made. *)
Lemma copy_jars_copies dir sdir smappings mappings :
  forall st,
    fst (copy_jars dir sdir smappings mappings st) = None ->
    forall f, In f (copies_of_pairs dir sdir smappings mappings) ->
              In f (files (snd (copy_jars dir sdir smappings mappings st))).
Proof.
  induction mappings as [|[base jars] rest IH]; intros st H f Hf; simpl in *;
    [contradiction|].
  destruct jars as [|jar [|jar' jars]]; simpl in H; try discriminate.
  destruct (copy (PosixPath.join base jar) (PosixPath.join dir jar) (files st))
    as [fl|] eqn:Ec; [|discriminate].
  pose proof (copy_source_jars_copies sdir smappings None fl) as Hsrc.
  destruct (StagingMore.copy_source_jars_files sdir smappings None fl) as (Hi' & _).
  destruct (copy_source_jars sdir smappings None fl) as [[e|cp] fl'] eqn:Es;
    [discriminate|].
  simpl in Hi'. specialize (Hsrc cp eq_refl). simpl in Hsrc.
  match type of H with
  | fst (copy_jars dir sdir smappings rest ?st') = None =>
      pose proof (IH st' H f) as Hrest;
      destruct (StagingMore.copy_jars_files dir sdir smappings rest st') as (Hi'' & _)
  end.
  simpl in Hi''.
  destruct Hf as [<-|Hf].
  - apply Hi'', Hi'. apply (StagingMore.copy_In _ _ _ _ _ Ec). auto.
  - apply in_app_iff in Hf. destruct Hf as [Hf|Hf]; [|exact (Hrest Hf)].
    apply in_flat_map in Hf. destruct Hf as ([b js] & Hb & Hf). simpl in Hf.
    apply in_map_iff in Hf. destruct Hf as (j & <- & Hj).
    apply Hi''. exact (Hsrc b js j Hb Hj).
Qed.

(** The files after the loop over a jar mapping that ends normally: those
    that were there and the copies of its pairs. *)
Lemma copy_jars_exact dir sdir smappings mappings st f :
  fst (copy_jars dir sdir smappings mappings st) = None ->
  (In f (files (snd (copy_jars dir sdir smappings mappings st)))
   <-> In f (files st) \/ In f (copies_of_pairs dir sdir smappings mappings)).
Proof.
  intros H.
  destruct (StagingMore.copy_jars_files dir sdir smappings mappings st) as (Hi & Hf & _).
  split.
  - intros Hin.
    destruct (Hf f Hin) as [H0|[(b & j & Hb & ->)|(Hne & b & j & Hb & ->)]]; [auto| |];
      right; apply copies_of_pairs_In.
    + left. exists b, [j], j. split; [exact Hb|]. split; [left; reflexivity|reflexivity].
    + right. split; [exact Hne|]. exists b, [j], j.
      split; [exact Hb|]. split; [left; reflexivity|reflexivity].
  - intros [Hin|Hin]; [exact (Hi f Hin)|exact (copy_jars_copies _ _ _ _ st H f Hin)].
Qed.

(** The same for the loop over the targets. *)
Lemma map_targets_exact dir sdir jp sp tgts :
  forall st f,
    fst (map_targets dir sdir jp sp tgts st) = None ->
    (In f (files (snd (map_targets dir sdir jp sp tgts st)))
     <-> In f (files st)
         \/ In f (flat_map (fun t => copies_of_pairs dir sdir (sp t) (jp t)) tgts)).
Proof.
  induction tgts as [|t tgts IH]; intros st f H; simpl in *.
  - tauto.
  - pose proof (copy_jars_exact dir sdir (sp t) (jp t) st f) as Hstep.
    destruct (copy_jars dir sdir (sp t) (jp t) st) as [[e|] st'] eqn:Ec; simpl in *;
      [discriminate|].
    rewrite (IH st' f H), in_app_iff, (Hstep eq_refl). tauto.
Qed.

(** The run up to the first pair that holds more than one jar, when all
    that comes before it is unambiguous and readable. *)
Lemma map_targets_stops dir sdir jp sp pre target post before base jars after st :
  jp target = before ++ (base, jars) :: after ->
  1 < List.length jars ->
  unambiguous jp sp pre ->
  all_single before ->
  (before <> [] -> all_single (sp target)) ->
  (forall t b js j,
      In t (pre ++ [target]) -> In (b, js) (jp t ++ sp t) -> In j js ->
      In (PosixPath.join b j) (files st)) ->
  fst (map_targets dir sdir jp sp (pre ++ target :: post) st) = Some multiple_jars
  /\ forall f,
       In f (files (snd (map_targets dir sdir jp sp (pre ++ target :: post) st)))
       <-> In f (files st)
           \/ In f (flat_map (fun t => copies_of_pairs dir sdir (sp t) (jp t)) pre
                    ++ copies_of_pairs dir sdir (sp target) before).
Proof.
  intros Ejp Hl Hu Hb Hbs Hr.
  rewrite map_targets_app.
  assert (H1 : fst (map_targets dir sdir jp sp pre st) = None).
  { apply StagingMore.map_targets_succeeds; [exact Hu|].
    intros t b js j Ht. apply Hr. apply in_app_iff. left. exact Ht. }
  pose proof (fun f => map_targets_exact dir sdir jp sp pre st f H1) as Hpre.
  destruct (map_targets dir sdir jp sp pre st) as [[e|] st1] eqn:E1; simpl in H1;
    [discriminate|].
  cbn [snd] in Hpre. cbn [map_targets]. rewrite Ejp, copy_jars_app.
  assert (H2 : fst (copy_jars dir sdir (sp target) before st1) = None).
  { apply StagingMore.copy_jars_succeeds; [exact Hb|exact Hbs|].
    intros b js j Hin Hj. apply Hpre. left.
    apply (Hr target b js j); [apply in_app_iff; right; left; reflexivity| |exact Hj].
    rewrite Ejp. apply in_app_iff in Hin. apply in_app_iff.
    destruct Hin as [Hin|Hin]; [left; apply in_app_iff; left; exact Hin|right; exact Hin]. }
  pose proof (fun f => copy_jars_exact dir sdir (sp target) before st1 f H2) as Hbefore.
  destruct (copy_jars dir sdir (sp target) before st1) as [[e|] st2] eqn:E2;
    simpl in H2; [discriminate|].
  cbn [snd] in Hbefore.
  destruct jars as [|jar [|jar' jars]]; simpl in Hl; try lia.
  cbn [copy_jars fst snd]. split; [reflexivity|].
  intros f. rewrite (Hbefore f), (Hpre f), in_app_iff. tauto.
Qed.

(** With plain file names the copies lie in the two staging directories. *)
Lemma copies_of_pairs_under work_dir smappings mappings f :
  (forall b js j, In (b, js) (mappings ++ smappings) -> In j js -> is_name j = true) ->
  In f (copies_of_pairs (PosixPath.join work_dir "internal-libs")
          (PosixPath.join work_dir "internal-libsources") smappings mappings) ->
  in_internal_staging work_dir f = true.
Proof.
  intros Hp Hin. apply copies_of_pairs_In in Hin.
  unfold in_internal_staging. apply orb_true_iff.
  destruct Hin as [(b & js & j & Hb & Hj & ->)|(_ & b & js & j & Hb & Hj & ->)];
    [left|right]; (apply under_relative; [reflexivity|]); apply is_name_relative;
    apply (Hp b js j); try exact Hj; apply in_app_iff; [left|right]; exact Hb.
Qed.

End StagingSteps.

(** C1, as the code has it.  The artifacts are readable files outside of
    the staging directories, named by plain file names under normalized
    base directories, and the work directory is a normalized absolute path,
    as [os.path.abspath] gives it.  When some pair of the jar mapping of a
    listed target holds more than one file name, [map_internal_jars] fails
    with a [TaskError].  When the pairs processed before such a pair all
    hold one file name, in the jar mappings and in the source jar mappings
    that are looked at, the error is the one of the ambiguous jar mapping,
    and the files in the two staging directories are by then exactly the
    copies made for the pairs processed before: none when the ambiguous pair
    is the first pair processed. *)
Theorem ambiguous_mapping_aborts work_dir jars_product source_jars_product tgts st :
  ambiguous_mapping jars_product tgts ->
  artifacts_readable work_dir jars_product source_jars_product tgts st ->
  wf_root work_dir = true ->
  normalized_bases jars_product source_jars_product tgts ->
  plain_jar_names jars_product source_jars_product tgts ->
  (exists msg,
      fst (Staging.map_internal_jars work_dir jars_product source_jars_product tgts st)
      = Some (TaskError msg))
  /\ (forall pre target post before base jars after,
         tgts = pre ++ target :: post ->
         jars_product target = before ++ (base, jars) :: after ->
         1 < List.length jars ->
         unambiguous jars_product source_jars_product pre ->
         all_single before ->
         (before <> [] -> all_single (source_jars_product target)) ->
         fst (Staging.map_internal_jars work_dir jars_product source_jars_product tgts st)
         = Some Staging.multiple_jars
         /\ (forall f,
               In f (Staging.staged work_dir
                       (snd (Staging.map_internal_jars work_dir jars_product
                               source_jars_product tgts st)))
               <-> In f (copied_before work_dir jars_product source_jars_product
                           pre target before))
         /\ ((forall t, In t pre -> jars_product t = []) -> before = [] ->
             Staging.staged work_dir
               (snd (Staging.map_internal_jars work_dir jars_product
                       source_jars_product tgts st))
             = [])).
Proof.
  intros Ha Hr _ _ Hplain.
  assert (Hclean : forall t b js j,
             In t tgts -> In (b, js) (jars_product t ++ source_jars_product t) ->
             In j js ->
             In (PosixPath.join b j)
                (Staging.safe_mkdir_clean (PosixPath.join work_dir "internal-libsources")
                   (Staging.safe_mkdir_clean (PosixPath.join work_dir "internal-libs")
                      (Staging.files st)))).
  { intros t b js j Ht Hp Hj. destruct (Hr t b js j Ht Hp Hj) as (Hin & H1 & H2).
    apply StagingMore.cleaned_In. auto. }
  split.
  - unfold Staging.map_internal_jars.
    apply StagingFacts.map_targets_raises; [exact Ha|exact Hclean].
  - intros pre target post before base jars after Et Ejp Hl Hu Hb Hbs.
    assert (Hstaged : fst (Staging.map_internal_jars work_dir jars_product
                             source_jars_product tgts st)
                      = Some Staging.multiple_jars
                      /\ forall f,
                           In f (Staging.staged work_dir
                                   (snd (Staging.map_internal_jars work_dir jars_product
                                           source_jars_product tgts st)))
                           <-> In f (copied_before work_dir jars_product
                                       source_jars_product pre target before)).
    { unfold Staging.map_internal_jars, Staging.staged, copied_before.
      cbv zeta. rewrite Et.
      match goal with
      | |- context [Staging.map_targets ?d ?sd ?jp ?sp _ ?s] =>
          destruct (StagingSteps.map_targets_stops d sd jp sp pre target post before
                      base jars after s Ejp Hl Hu Hb Hbs) as (Hfst & Hfiles)
      end.
      { intros t b js j Ht. apply Hclean. rewrite Et. apply in_app_iff.
        apply in_app_iff in Ht. destruct Ht as [Ht|[<-|[]]]; [left; exact Ht|].
        right. left. reflexivity. }
      split; [exact Hfst|]. intros f. rewrite filter_In, Hfiles.
      cbn [Staging.files]. rewrite StagingMore.cleaned_In. split.
      - intros ([(_ & H1 & H2)|Hin] & Hunder); [|exact Hin].
        rewrite H1, H2 in Hunder. discriminate.
      - intros Hin. split; [right; exact Hin|].
        apply in_app_iff in Hin. destruct Hin as [Hin|Hin].
        + apply in_flat_map in Hin. destruct Hin as (t & Ht & Hin).
          refine (StagingSteps.copies_of_pairs_under work_dir _ _ f _ Hin).
          intros b js j. apply Hplain. rewrite Et. apply in_app_iff. left. exact Ht.
        + refine (StagingSteps.copies_of_pairs_under work_dir _ _ f _ Hin).
          intros b js j Hp. apply (Hplain target b js j).
          * rewrite Et. apply in_app_iff. right. left. reflexivity.
          * rewrite Ejp. apply in_app_iff in Hp. apply in_app_iff.
            destruct Hp as [Hp|Hp]; [left; apply in_app_iff; left; exact Hp|right; exact Hp]. }
    destruct Hstaged as (Hfst & Hfiles).
    split; [exact Hfst|]. split; [exact Hfiles|].
    intros Hnone ->.
    destruct (Staging.staged work_dir
                (snd (Staging.map_internal_jars work_dir jars_product
                        source_jars_product tgts st))) as [|f l]; [reflexivity|].
    exfalso. destruct (Hfiles f) as (Hin & _). specialize (Hin (or_introl eq_refl)).
    unfold copied_before in Hin. apply in_app_iff in Hin.
    destruct Hin as [Hin|[]].
    apply in_flat_map in Hin. destruct Hin as (t & Ht & Hin).
    rewrite (Hnone t Ht) in Hin. contradiction.
Qed.

Lemma late_ambiguity_readable :
  artifacts_readable "/w" late_ambiguity_jars late_ambiguity_source_jars [1; 2; 3]
    late_ambiguity_artifacts.
Proof.
  intros target base jars jar Ht Hp Hj.
  destruct Ht as [<-|[<-|[<-|[]]]]; simpl in Hp;
    repeat (destruct Hp as [E|Hp];
            [inversion E; subst; simpl in Hj;
             repeat (destruct Hj as [<-|Hj]; [vm_compute; auto 12|]); contradiction|]);
    contradiction.
Qed.

Lemma late_ambiguity_plain :
  normalized_bases late_ambiguity_jars late_ambiguity_source_jars [1; 2; 3]
  /\ plain_jar_names late_ambiguity_jars late_ambiguity_source_jars [1; 2; 3].
Proof.
  split.
  - intros target base jars Ht Hp.
    destruct Ht as [<-|[<-|[<-|[]]]]; simpl in Hp;
      repeat (destruct Hp as [E|Hp]; [inversion E; subst; reflexivity|]);
      contradiction.
  - intros target base jars jar Ht Hp Hj.
    destruct Ht as [<-|[<-|[<-|[]]]]; simpl in Hp;
      repeat (destruct Hp as [E|Hp];
              [inversion E; subst; simpl in Hj;
               repeat (destruct Hj as [<-|Hj]; [reflexivity|]); contradiction|]);
      contradiction.
Qed.

Lemma ambiguous_mapping_aborts_witness :
  (exists msg,
      fst (Staging.map_internal_jars "/w" late_ambiguity_jars late_ambiguity_source_jars
             [1; 2; 3] late_ambiguity_artifacts)
      = Some (TaskError msg))
  /\ fst (Staging.map_internal_jars "/w" late_ambiguity_jars late_ambiguity_source_jars
            [1; 2; 3] late_ambiguity_artifacts)
     = Some Staging.multiple_jars
  /\ (forall f,
        In f (Staging.staged "/w"
                (snd (Staging.map_internal_jars "/w" late_ambiguity_jars
                        late_ambiguity_source_jars [1; 2; 3] late_ambiguity_artifacts)))
        <-> In f ["/w/internal-libs/a.jar"; "/w/internal-libsources/a-sources.jar";
                  "/w/internal-libs/b.jar"; "/w/internal-libsources/a-sources.jar";
                  "/w/internal-libs/c.jar"]).
Proof.
  assert (Ha : ambiguous_mapping late_ambiguity_jars [1; 2; 3]).
  { exists 3, "/out/lib", ["t-1.jar"; "t-2.jar"]. simpl. repeat split; auto. }
  destruct (ambiguous_mapping_aborts "/w" late_ambiguity_jars late_ambiguity_source_jars
              [1; 2; 3] late_ambiguity_artifacts Ha late_ambiguity_readable eq_refl
              (proj1 late_ambiguity_plain) (proj2 late_ambiguity_plain)) as (H1 & H2).
  split; [exact H1|].
  destruct (H2 [1; 2] 3 [] [("/out/c", ["c.jar"])] "/out/lib" ["t-1.jar"; "t-2.jar"] [])
    as (Hfst & Hfiles & _).
  - reflexivity.
  - reflexivity.
  - simpl. lia.
  - intros t [<-|[<-|[]]]; split; simpl.
    + intros b js [E|[E|[]]]; inversion E; reflexivity.
    + intros _ b js [E|[]]; inversion E; reflexivity.
    + intros b js [].
    + intros H. contradiction.
  - intros b js [E|[]]. inversion E. reflexivity.
  - intros _ b js [].
  - split; [exact Hfst|exact Hfiles].
Defined.
